(** * Lambda delay analyser: a shallow embedding and its specification

  The embedded program is the JavaScript analyser of the repository:
  [LambdaDelayAnalyzer] (boundaries, bucketing, delay detection, median,
  table generation and the workflow of [analyze] after the parser), the
  sessions, the cross-file statistics and the cross-validation of
  [meta_analysis.js], the two variants of [calculateLambdaErrors] (linear
  scan and binary search), the validator of [validate_delays.js] and the
  worker pool of [meta_analysis_parallel.js].

  JavaScript numbers are IEEE 754 binary64 values.  The program is written
  once over the interface [Number] of the numeric operations it uses, and
  the interface has two instances:
  - [float_Number]: Rocq's primitive binary64 floats, which is what the
    program runs on;
  - [Q_Number]: exact rationals, the arithmetic the program is written
    for when rounding is left out.
  Properties that only depend on the control structure are proved for
  every instance.  The others are proved from laws of the numbers, each
  law class stating what a group of proofs uses: the order of the
  comparisons ([OrderLaws]), the sign of a difference and of a product
  ([SignLaws]), the comparator and the mean of the median ([MedianLaws]),
  the distance to a target ([DistanceLaws]), the indices of the
  percentiles ([PercentileLaws]).  Every law is proved of the
  binary64 instance, from the specification of the IEEE operations in
  [SpecFloat], and of the exact one; so each theorem below holds of the
  program as it runs, NaN, infinities, signed zeros and rounding
  included. *)

From Stdlib Require Import List Bool Arith ZArith QArith Qabs Qround Lia Lqa.
From Stdlib Require Import Floats Sorted Permutation.
Import ListNotations.
Set Warnings "-inexact-float".
Close Scope Q_scope.

Set Implicit Arguments.

(** ** The numeric interface *)

Declare Scope num_scope.
Delimit Scope num_scope with num.

Class Number (num : Type) := {
  add : num -> num -> num;
  sub : num -> num -> num;
  mul : num -> num -> num;
  div : num -> num -> num;
  neg : num -> num;                  (* unary minus *)
  Math_abs : num -> num;
  Math_sign : num -> num;
  Math_round : num -> num;
  Math_min : num -> num -> num;
  Math_max : num -> num -> num;
  ltb : num -> num -> bool;          (* a < b *)
  leb : num -> num -> bool;          (* a <= b *)
  eqb : num -> num -> bool;          (* a === b on numbers *)
  below_Infinity : num -> bool;      (* a < Infinity *)
  of_Z : Z -> num;                   (* integer literals, array lengths *)
  half : num                         (* the literal 0.5 *)
}.

(** [Math.sqrt] is only used by the statistics. *)
Class Sqrt (num : Type) := Math_sqrt : num -> num.

Infix "+" := add : num_scope.
Infix "-" := sub : num_scope.
Infix "*" := mul : num_scope.
Infix "/" := div : num_scope.
Notation "- x" := (neg x) : num_scope.
Infix "<?" := ltb (at level 70, no associativity) : num_scope.
Infix "<=?" := leb (at level 70, no associativity) : num_scope.
Infix "===" := eqb (at level 70, no associativity) : num_scope.
(** [a >= b] and [a > b] are the mirrored comparisons. *)
Notation "a >=? b" := (leb b a) (at level 70, no associativity) : num_scope.
Notation "a >? b" := (ltb b a) (at level 70, no associativity) : num_scope.

(** Integer literals. *)
Notation "0" := (of_Z 0%Z) : num_scope.
Notation "2" := (of_Z 2%Z) : num_scope.
Notation "10" := (of_Z 10%Z) : num_scope.
Notation "100" := (of_Z 100%Z) : num_scope.
Notation "1000" := (of_Z 1000%Z) : num_scope.

(** *** Binary64 *)

Module F64.

(** The double nearest to an integer (exact below 2^53). *)
Definition of_Z (z : Z) : float :=
  SF2Prim (binary_normalize prec emax z 0 false).

Definition is_neg_zero (x : float) : bool :=
  match Prim2SF x with S754_zero true => true | _ => false end.

(** [Math.sign]: 1, -1, or the argument itself (zeros and NaN). *)
Definition sign (x : float) : float :=
  if PrimFloat.ltb 0 x then 1%float
  else if PrimFloat.ltb x 0 then (-1)%float
  else x.

(** [Math.round]: the nearest integer, ties towards +Infinity, and -0 for
    arguments in [-0.5, -0].  A finite double is [z * 2^e]; for [e < 0]
    the result is [floor ((2 z + 2^-e) / 2^(1-e))]. *)
Definition round (x : float) : float :=
  match Prim2SF x with
  | S754_finite s m e =>
      if (0 <=? e)%Z then x
      else
        let z := cond_Zopp s (Zpos m) in
        let r := ((2 * z + 2 ^ (- e)) / 2 ^ (1 - e))%Z in
        if (r =? 0)%Z then (if s then neg_zero else zero) else of_Z r
  | _ => x
  end.

(** [Math.min] and [Math.max] of two numbers: NaN if either is NaN, and
    -0 below +0. *)
Definition min (a b : float) : float :=
  if is_nan a then a else if is_nan b then b
  else if PrimFloat.ltb a b then a
  else if PrimFloat.ltb b a then b
  else if is_neg_zero a then a else b.

Definition max (a b : float) : float :=
  if is_nan a then a else if is_nan b then b
  else if PrimFloat.ltb b a then a
  else if PrimFloat.ltb a b then b
  else if is_neg_zero a then b else a.

End F64.

#[export] Instance float_Number : Number float := {
  add := PrimFloat.add;
  sub := PrimFloat.sub;
  mul := PrimFloat.mul;
  div := PrimFloat.div;
  neg := PrimFloat.opp;
  Math_abs := PrimFloat.abs;
  Math_sign := F64.sign;
  Math_round := F64.round;
  Math_min := F64.min;
  Math_max := F64.max;
  ltb := PrimFloat.ltb;
  leb := PrimFloat.leb;
  eqb := PrimFloat.eqb;
  below_Infinity := fun x => PrimFloat.ltb x infinity;
  of_Z := F64.of_Z;
  half := 0.5%float
}.

#[export] Instance float_Sqrt : Sqrt float := PrimFloat.sqrt.

(** *** Exact rationals *)

Module Exact.

Definition ltb (a b : Q) : bool := negb (Qle_bool b a).

Definition sign (x : Q) : Q :=
  if ltb 0 x then 1%Q else if ltb x 0 then (-1)%Q else x.

(** [floor (x + 1/2)]. *)
Definition round (x : Q) : Q := inject_Z (Qfloor (x + (1 # 2))).

Definition min (a b : Q) : Q := if ltb b a then b else a.
Definition max (a b : Q) : Q := if ltb a b then b else a.

End Exact.

#[export] Instance Q_Number : Number Q := {
  add := Qplus;
  sub := Qminus;
  mul := Qmult;
  div := Qdiv;
  neg := Qopp;
  Math_abs := Qabs;
  Math_sign := Exact.sign;
  Math_round := Exact.round;
  Math_min := Exact.min;
  Math_max := Exact.max;
  ltb := Exact.ltb;
  leb := Qle_bool;
  eqb := Qeq_bool;
  below_Infinity := fun _ => true;
  of_Z := inject_Z;
  half := (1 # 2)%Q
}.

(** ** The analyser *)

Section Analyzer.

Context {num : Type} `{Number num}.
Local Open Scope num_scope.


(** One parsed log line: [{ time, rpm, pw, lambda, load }]. *)
Record Sample := mkSample {
  time : num;
  rpm : num;
  pw : num;
  lambda : num;
  load : num
}.

Record Config := mkConfig {
  MIN_RPM : num;
  MIN_PW : num;
  PW_CHANGE_THRESHOLD : num;
  LAMBDA_CHANGE_THRESHOLD : num;
  MAX_DELAY_MS : num;
  BUCKET_COUNT : nat
}.

(** *** Arrays

    Reading an array past its end gives [undefined]; a relational
    comparison with [undefined] is false, and so is [===] between a number
    and [undefined]. *)
Definition geb_elem (v : num) (o : option num) : bool :=
  match o with Some b => v >=? b | None => false end.
Definition ltb_elem (v : num) (o : option num) : bool :=
  match o with Some b => v <? b | None => false end.
Definition eqb_elem (v : num) (o : option num) : bool :=
  match o with Some b => v === b | None => false end.

(** [arr.sort(cmp)]: the stable sort; [a] moves behind [b] exactly when
    [cmp(a, b) > 0]. *)
Section Sort.
Context {A : Type} (cmp : A -> A -> num).

Fixpoint sort_insert (x : A) (l : list A) : list A :=
  match l with
  | [] => [x]
  | y :: l' => if cmp x y >? 0 then y :: sort_insert x l' else x :: l
  end.

Definition sort (l : list A) : list A := fold_right sort_insert [] l.
End Sort.

(** *** Bucketer: [getBucketIndex] *)

(** The test of the loop body at index [i]. *)
Definition in_bucket (value : num) (boundaries : list num) (i : nat) : bool :=
  geb_elem value (nth_error boundaries i)
  && ltb_elem value (nth_error boundaries (i + 1)).

(** The [for] loop from index [i], with [k] iterations left. *)
Fixpoint getBucketIndex_loop (value : num) (boundaries : list num)
         (i k : nat) : option nat :=
  match k with
  | O => None
  | S k' =>
      if in_bucket value boundaries i then Some i
      else getBucketIndex_loop value boundaries (S i) k'
  end.

Definition getBucketIndex (cfg : Config) (value : num)
           (boundaries : list num) : Z :=
  match getBucketIndex_loop value boundaries 0 (BUCKET_COUNT cfg) with
  | Some i => Z.of_nat i
  | None =>
      (* Handle edge case for maximum value *)
      if eqb_elem value (nth_error boundaries (BUCKET_COUNT cfg))
      then (Z.of_nat (BUCKET_COUNT cfg) - 1)%Z
      else (-1)%Z
  end.

(** *** Delay detector: [findDelaysInSequence] *)

Definition timeDiff (curr future : Sample) : num :=
  (time future - time curr) * 1000.

(** The condition of the inner loop's [if]. *)
Definition responds (cfg : Config) (expectedLambdaDirection : num)
           (curr future : Sample) : bool :=
  let lambdaChange := lambda future - lambda curr in
  (Math_sign lambdaChange === expectedLambdaDirection)
  && (Math_abs lambdaChange >=? LAMBDA_CHANGE_THRESHOLD cfg)
  && (timeDiff curr future <=? MAX_DELAY_MS cfg).

(** The inner loop from index [j], with [k] iterations left: what it
    pushes onto [delays] before it breaks or runs out. *)
Fixpoint lookAhead (cfg : Config) (data : list Sample) (curr : Sample)
         (expectedLambdaDirection : num) (j k : nat) : list num :=
  match k with
  | O => []
  | S k' =>
      match nth_error data j with
      | Some future =>
          if responds cfg expectedLambdaDirection curr future
          then [timeDiff curr future]
          else lookAhead cfg data curr expectedLambdaDirection (S j) k'
      | None => []
      end
  end.

(** The body of the outer loop at index [i]. *)
Definition detectAt (cfg : Config) (data : list Sample) (i : nat) : list num :=
  match nth_error data (i - 1), nth_error data i with
  | Some prev, Some curr =>
      let pwChange := pw curr - pw prev in
      if Math_abs pwChange <? PW_CHANGE_THRESHOLD cfg then []
      else
        lookAhead cfg data curr (- Math_sign pwChange) (i + 1)
                  (Nat.min (i + 100) (length data) - (i + 1))
  | _, _ => []
  end.

(** The outer loop from index [i], with [k] iterations left. *)
Fixpoint detectFrom (cfg : Config) (data : list Sample) (i k : nat) : list num :=
  match k with
  | O => []
  | S k' => detectAt cfg data i ++ detectFrom cfg data (S i) k'
  end.

Definition byTime (a b : Sample) : num := time a - time b.

Definition findDelaysInSequence (cfg : Config) (data : list Sample) : list num :=
  let data := sort byTime data in
  (* for (let i = 1; i < data.length - 1; i++) *)
  detectFrom cfg data 1 (length data - 2).

(** *** Aggregator: [median] *)

Definition median (arr : list num) : option num :=
  match arr with
  | [] => None
  | x0 :: _ =>
      let sorted := sort sub arr in
      let mid := (length sorted / 2)%nat in
      Some (if (length sorted mod 2 =? 0)%nat
            then (nth (mid - 1) sorted x0 + nth mid sorted x0) / 2
            else nth mid sorted x0)
  end.

(** *** The analyser object *)

(** One cell of [this.buckets]: [{ data: [], delays: [] }]. *)
Record Bucket := mkBucket {
  bucket_data : list Sample;
  bucket_delays : list num
}.

Record Analyzer := mkAnalyzer {
  config : Config;
  data : list Sample;
  buckets : list (list Bucket);
  rpmBoundaries : list num;
  loadBoundaries : list num
}.

(** The grid the constructor builds: [BUCKET_COUNT] rows of
    [BUCKET_COUNT] empty buckets. *)
Definition emptyBuckets (cfg : Config) : list (list Bucket) :=
  repeat (repeat (mkBucket [] []) (BUCKET_COUNT cfg)) (BUCKET_COUNT cfg).

(** Indexing a two-dimensional array [g[r][l]] by integers.  [None] is
    [undefined]: a negative or too large index. *)
Definition at_index {A : Type} (l : list A) (i : Z) : option A :=
  if (i <? 0)%Z then None else nth_error l (Z.to_nat i).

Definition set_index {A : Type} (l : list A) (i : Z) (x : A) : list A :=
  firstn (Z.to_nat i) l ++ x :: skipn (S (Z.to_nat i)) l.

(** [this.buckets[r][l].data.push(point)]; [None] is the [TypeError] of
    reading a property of [undefined]. *)
Definition pushData (g : list (list Bucket)) (r l : Z) (point : Sample)
  : option (list (list Bucket)) :=
  match at_index g r with
  | None => None
  | Some row =>
      match at_index row l with
      | None => None
      | Some b =>
          Some (set_index g r
                  (set_index row l
                     (mkBucket (bucket_data b ++ [point]) (bucket_delays b))))
      end
  end.

(** The body of the loop of [assignToBuckets]. *)
Definition assignPoint (cfg : Config) (rpmB loadB : list num)
           (g : list (list Bucket)) (point : Sample)
  : option (list (list Bucket)) :=
  let rpmBucket := getBucketIndex cfg (rpm point) rpmB in
  let loadBucket := getBucketIndex cfg (load point) loadB in
  if negb (rpmBucket =? -1)%Z && negb (loadBucket =? -1)%Z
  then pushData g rpmBucket loadBucket point
  else Some g.

Fixpoint assignAll (cfg : Config) (rpmB loadB : list num)
         (g : list (list Bucket)) (points : list Sample)
  : option (list (list Bucket)) :=
  match points with
  | [] => Some g
  | point :: rest =>
      match assignPoint cfg rpmB loadB g point with
      | None => None
      | Some g' => assignAll cfg rpmB loadB g' rest
      end
  end.

Definition assignToBuckets (a : Analyzer) : option Analyzer :=
  match assignAll (config a) (rpmBoundaries a) (loadBoundaries a)
                  (buckets a) (data a) with
  | None => None
  | Some g =>
      Some (mkAnalyzer (config a) (data a) g (rpmBoundaries a) (loadBoundaries a))
  end.

(** *** Table builder: [generateTable] *)

(** [Math.round(x * 10) / 10]. *)
Definition round1 (x : num) : num := Math_round (x * 10) / 10.

(** [delay !== null ? Math.round(delay * 10) / 10 : null]. *)
Definition roundedDelay (delay : option num) : option num :=
  option_map round1 delay.

(** [Math.round((boundaries[i] + boundaries[i + 1]) / 2)]; [None] stands
    for the NaN that an [undefined] boundary gives. *)
Definition axisValue (boundaries : list num) (i : nat) : option num :=
  match nth_error boundaries i, nth_error boundaries (i + 1) with
  | Some lo, Some hi => Some (Math_round ((lo + hi) / 2))
  | _, _ => None
  end.

Record Row := mkRow {
  row_rpm : option num;
  row_load : list (option num);
  row_delays : list (option num)
}.

Record Table := mkTable {
  rpmAxisValues : list (option num);
  loadAxisValues : list (option num);
  rows : list Row
}.

(** [mapM] in the option monad: the loops that may throw. *)
Fixpoint forEach {A B : Type} (f : A -> option B) (l : list A) : option (list B) :=
  match l with
  | [] => Some []
  | x :: l' =>
      match f x with
      | None => None
      | Some y =>
          match forEach f l' with
          | None => None
          | Some ys => Some (y :: ys)
          end
      end
  end.

(** The cell [j] of row [i]: the rounded median of [this.buckets[i][j].delays]. *)
Definition tableCell (g : list (list Bucket)) (i j : nat) : option (option num) :=
  match at_index g (Z.of_nat i) with
  | None => None
  | Some row =>
      match at_index row (Z.of_nat j) with
      | None => None
      | Some bucket => Some (roundedDelay (median (bucket_delays bucket)))
      end
  end.

Definition generateTable (a : Analyzer) : option Table :=
  let n := BUCKET_COUNT (config a) in
  let rpmValues := map (axisValue (rpmBoundaries a)) (seq 0 n) in
  let loadValues := map (axisValue (loadBoundaries a)) (seq 0 n) in
  match
    forEach (fun i =>
               match forEach (tableCell (buckets a) i) (seq 0 n) with
               | None => None
               | Some delays => Some (mkRow (nth i rpmValues None) loadValues delays)
               end)
            (seq 0 n)
  with
  | None => None
  | Some table => Some (mkTable rpmValues loadValues table)
  end.

(** *** Statistics shared by the aggregator and the validator *)

Context `{Sqrt num}.

(** [arr.length] as a number. *)
Definition len {A : Type} (arr : list A) : num := of_Z (Z.of_nat (length arr)).

(** [arr.reduce((a, b) => a + b, 0)]. *)
Definition sum (arr : list num) : num := fold_left add arr 0.

(** [Math.pow(x, 2)]. *)
Definition pow2 (x : num) : num := x * x.

(** [arr.reduce((a, b) => a + Math.pow(b - mean, 2), 0)]. *)
Definition sumSquares (mean : num) (arr : list num) : num :=
  fold_left (fun a b => a + pow2 (b - mean)) arr 0.

Definition meanOf (arr : list num) : num := sum arr / len arr.

Definition varianceOf (arr : list num) : num :=
  sumSquares (meanOf arr) arr / len arr.

(** [Math.sqrt(arr.reduce(...) / arr.length)]: the population standard
    deviation. *)
Definition stdDevOf (arr : list num) : num := Math_sqrt (varianceOf arr).

(** *** Cross-session aggregator ([meta_analysis.js]) *)

(** A cell of a per-file table: [{ median, count }]. *)
Record Cell := mkCell {
  cell_median : option num;
  cell_count : nat
}.

(** The cell the per-file loop builds from [analyzer.buckets[i][j].delays]. *)
Definition sessionCell (delays : list num) : Cell :=
  let m := if (0 <? length delays)%nat then median delays else None in
  mkCell (roundedDelay m) (length delays).

(** [result.delayTable[i][j].median]; the outer [None] is a [TypeError]. *)
Definition medianAt (delayTable : list (list Cell)) (i j : nat)
  : option (option num) :=
  match at_index delayTable (Z.of_nat i) with
  | None => None
  | Some row =>
      match at_index row (Z.of_nat j) with
      | None => None
      | Some c => Some (cell_median c)
      end
  end.

(** The loop over [allResults] that collects the non-null medians of
    bucket [(i, j)]. *)
Fixpoint collectValues (allResults : list (list (list Cell))) (i j : nat)
  : option (list num) :=
  match allResults with
  | [] => Some []
  | delayTable :: rest =>
      match medianAt delayTable i j with
      | None => None
      | Some m =>
          match collectValues rest i j with
          | None => None
          | Some values =>
              Some (match m with Some v => v :: values | None => values end)
          end
      end
  end.

Record BucketStats := mkBucketStats {
  stat_rpm : nat;
  stat_load : nat;
  filesWithData : nat;
  values : list num;
  mean : num;
  stdDev : num;
  cv : num;
  min : num;
  max : num;
  range : num
}.

(** The body of [if (values.length > 1)].  [Math.min(...values)] folds
    [Math.min] from [Infinity], which the first value replaces. *)
Definition bucketStat (i j : nat) (values : list num) : option BucketStats :=
  match values with
  | v0 :: rest =>
      if (1 <? length values)%nat then
        let mean := meanOf values in
        let stdDev := stdDevOf values in
        let min := fold_left Math_min rest v0 in
        let max := fold_left Math_max rest v0 in
        Some (mkBucketStats i j (length values) values mean stdDev
                            ((stdDev / mean) * 100) min max (max - min))
      else None
  | [] => None
  end.

(** The grid indices in the order the two nested loops visit them. *)
Definition gridIndices (n : nat) : list (nat * nat) :=
  flat_map (fun i => map (fun j => (i, j)) (seq 0 n)) (seq 0 n).

(** [bucketStats]: the entries in insertion order, keyed by [(i, j)]; a
    bucket with fewer than two values gets no entry. *)
Definition bucketStatsOf (allResults : list (list (list Cell)))
  : option (list (nat * nat * BucketStats)) :=
  match
    forEach (fun ij => match collectValues allResults (fst ij) (snd ij) with
                       | None => None
                       | Some values => Some (ij, bucketStat (fst ij) (snd ij) values)
                       end)
            (gridIndices 3)
  with
  | None => None
  | Some entries =>
      Some (flat_map (fun e => match snd e with
                               | Some st => [(fst e, st)]
                               | None => []
                               end) entries)
  end.

Definition statsLookup (bucketStats : list (nat * nat * BucketStats))
           (i j : nat) : option BucketStats :=
  match find (fun e => ((fst (fst e) =? i) && (snd (fst e) =? j))%nat) bucketStats with
  | Some e => Some (snd e)
  | None => None
  end.

(** [masterTable[i][j]]: the rounded cross-session mean, or [null]. *)
Definition masterTableOf (bucketStats : list (nat * nat * BucketStats))
  : list (list (option num)) :=
  map (fun i => map (fun j => option_map (fun st => round1 (mean st))
                                         (statsLookup bucketStats i j))
                    (seq 0 3))
      (seq 0 3).

(** *** Validator: [calculateLambdaErrors] *)

(** The running minimum starts at [Infinity]. *)
Inductive Bound := Infinity | Finite (x : num).

Definition below (x : num) (b : Bound) : bool :=
  match b with
  | Infinity => below_Infinity x
  | Finite m => x <? m
  end.

(** [minTimeDiff < 0.5]. *)
Definition withinTolerance (b : Bound) : bool :=
  match b with
  | Infinity => false
  | Finite m => m <? half
  end.

(** The linear scan over [analyzer.data] from index [i]. *)
Fixpoint closestFrom (targetTime : num) (rest : list Sample) (i : Z)
         (closestIdx : Z) (minTimeDiff : Bound) : Z * Bound :=
  match rest with
  | [] => (closestIdx, minTimeDiff)
  | d :: rest' =>
      let timeDiff := Math_abs (time d - targetTime) in
      if below timeDiff minTimeDiff
      then closestFrom targetTime rest' (i + 1)%Z i (Finite timeDiff)
      else closestFrom targetTime rest' (i + 1)%Z closestIdx minTimeDiff
  end.

Definition closestLinear (samples : list Sample) (targetTime : num) : Z * Bound :=
  closestFrom targetTime samples 0%Z (-1)%Z Infinity.

(** The linear variant's [closestIdx !== -1 && minTimeDiff < 0.5]. *)
Definition foundLinear (samples : list Sample) (targetTime : num) : bool :=
  let '(closestIdx, minTimeDiff) := closestLinear samples targetTime in
  negb (closestIdx =? -1)%Z && withinTolerance minTimeDiff.

(** The binary search of the parallel variant.  The loop runs while
    [left <= right]; each turn shrinks [right - left], so [fuel] turns
    with [fuel > right - left] always reach an exit; [None] is the loop
    cut short by lack of fuel. *)
Fixpoint findClosestLoop (times : list num) (targetTime : num) (fuel : nat)
         (left right closest : Z) (minDiff : Bound) : option Z :=
  if (left <=? right)%Z then
    match fuel with
    | O => None
    | S fuel' =>
        let mid := ((left + right) / 2)%Z in
        match at_index times mid with
        | None => Some mid        (* [undefined]: no comparison holds *)
        | Some t =>
            let diff := Math_abs (t - targetTime) in
            let '(closest', minDiff') :=
              if below diff minDiff then (mid, Finite diff) else (closest, minDiff) in
            if t <? targetTime then
              findClosestLoop times targetTime fuel' (mid + 1)%Z right closest' minDiff'
            else if t >? targetTime then
              findClosestLoop times targetTime fuel' left (mid - 1)%Z closest' minDiff'
            else Some mid
        end
    end
  else Some (if withinTolerance minDiff then closest else (-1)%Z).

Definition findClosestIndex (times : list num) (targetTime : num) : option Z :=
  findClosestLoop times targetTime (S (length times)) 0%Z
                  (Z.of_nat (length times) - 1)%Z 0%Z Infinity.

(** [bucketErrors]: the lists of recorded lambdas, keyed by
    [(rpmBucket, loadBucket)], in insertion order. *)
Definition Errors := list (Z * Z * list num).

Definition sameKey (k1 k2 : Z * Z) : bool :=
  ((fst k1 =? fst k2) && (snd k1 =? snd k2))%Z.

(** [if (!bucketErrors[key]) bucketErrors[key] = []; bucketErrors[key].push(v)]. *)
Fixpoint pushLambda (key : Z * Z) (v : num) (bucketErrors : Errors) : Errors :=
  match bucketErrors with
  | [] => [(key, [v])]
  | (k, vs) :: rest =>
      if sameKey k key then (k, vs ++ [v]) :: rest
      else (k, vs) :: pushLambda key v rest
  end.

(** What one turn of the loop over [analyzer.data] does. *)
Inductive Outcome :=
| Skipped                              (* [continue], or the final [if] fails *)
| Recorded (key : Z * Z) (v : num)   (* [bucketErrors[key].push(v)] *)
| Thrown.                            (* [TypeError]: row of the table missing *)

(** [delayTable[rpmBucket][loadBucket]]. *)
Inductive Estimate :=
| NoRow                  (* [delayTable[rpmBucket]] is [undefined] *)
| NoCell                 (* the cell is [undefined] *)
| Null                   (* the cell is [null] *)
| Delay (ms : num).

Definition estimateAt (delayTable : list (list (option num))) (r l : Z) : Estimate :=
  match at_index delayTable r with
  | None => NoRow
  | Some row =>
      match at_index row l with
      | None => NoCell
      | Some None => Null
      | Some (Some ms) => Delay ms
      end
  end.

Definition targetTimeOf (point : Sample) (estimatedDelay : num) : num :=
  time point - estimatedDelay / 1000.

(** Linear variant.  An [undefined] estimate makes [targetTime] NaN; no
    [timeDiff] is then below [Infinity] and the point is skipped. *)
Definition visitLinear (a : Analyzer) (delayTable : list (list (option num)))
           (point : Sample) : Outcome :=
  let rpmBucket := getBucketIndex (config a) (rpm point) (rpmBoundaries a) in
  let loadBucket := getBucketIndex (config a) (load point) (loadBoundaries a) in
  if (rpmBucket =? -1)%Z || (loadBucket =? -1)%Z then Skipped
  else
    match estimateAt delayTable rpmBucket loadBucket with
    | NoRow => Thrown
    | NoCell => Skipped
    | Null => Skipped
    | Delay estimatedDelay =>
        if foundLinear (data a) (targetTimeOf point estimatedDelay)
        then Recorded (rpmBucket, loadBucket) (lambda point)
        else Skipped
    end.

(** Binary-search variant.  With an [undefined] estimate [targetTime] is
    NaN, both comparisons of the first probe fail, and the probe's index
    is returned: the point is recorded. *)
Definition visitBinary (a : Analyzer) (delayTable : list (list (option num)))
           (point : Sample) : Outcome :=
  let rpmBucket := getBucketIndex (config a) (rpm point) (rpmBoundaries a) in
  let loadBucket := getBucketIndex (config a) (load point) (loadBoundaries a) in
  if (rpmBucket =? -1)%Z || (loadBucket =? -1)%Z then Skipped
  else
    match estimateAt delayTable rpmBucket loadBucket with
    | NoRow => Thrown
    | NoCell =>
        match data a with
        | [] => Skipped
        | _ => Recorded (rpmBucket, loadBucket) (lambda point)
        end
    | Null => Skipped
    | Delay estimatedDelay =>
        match findClosestIndex (map time (data a))
                               (targetTimeOf point estimatedDelay) with
        | None => Thrown
        | Some closestIdx =>
            if negb (closestIdx =? -1)%Z
            then Recorded (rpmBucket, loadBucket) (lambda point)
            else Skipped
        end
    end.

(** The loop over the points, accumulating [bucketErrors]. *)
Fixpoint visitAll (visit : Sample -> Outcome) (points : list Sample)
         (bucketErrors : Errors) : option Errors :=
  match points with
  | [] => Some bucketErrors
  | point :: rest =>
      match visit point with
      | Skipped => visitAll visit rest bucketErrors
      | Recorded key v => visitAll visit rest (pushLambda key v bucketErrors)
      | Thrown => None
      end
  end.

Record Report := mkReport {
  bucketErrors : Errors;
  avgStdDev : num;
  bucketsAnalyzed : nat
}.

(** The statistics after the loop: buckets with fewer than 10 values are
    passed over. *)
Definition stdDevsOf (bucketErrors : Errors) : list num :=
  map (fun e => stdDevOf (snd e))
      (filter (fun e => negb (length (snd e) <? 10)%nat) bucketErrors).

Definition reportOf (bucketErrors : Errors) : Report :=
  let stdDevs := stdDevsOf bucketErrors in
  mkReport bucketErrors
           (if (0 <? length stdDevs)%nat then sum stdDevs / len stdDevs else 0)
           (length stdDevs).

Definition calculateLambdaErrors (a : Analyzer)
           (delayTable : list (list (option num))) : option Report :=
  option_map reportOf (visitAll (visitLinear a delayTable) (data a) []).

Definition calculateLambdaErrorsParallel (a : Analyzer)
           (delayTable : list (list (option num))) : option Report :=
  option_map reportOf (visitAll (visitBinary a delayTable) (data a) []).

End Analyzer.

Arguments Sample num : clear implicits.
Arguments Config num : clear implicits.
Arguments Bucket num : clear implicits.
Arguments Analyzer num : clear implicits.
Arguments Cell num : clear implicits.
Arguments BucketStats num : clear implicits.
Arguments Bound num : clear implicits.
Arguments Infinity {num}.
Arguments Report num : clear implicits.
Arguments Errors num : clear implicits.

(** ** The rest of the workflow

    [calculateBucketBoundaries] and [calculateDelays], the two steps of
    [analyze] that the sections above leave out, and the workflow from the
    parsed samples to the table. *)

(** [Math.floor], and the array index that a number denotes when it is
    used as a property key ([arr[x]]): an integer from 0 to 2^32 - 2. *)
Class Floor (num : Type) := {
  Math_floor : num -> num;
  arrayIndex : num -> option Z
}.

Module F64Index.

(** A finite double is [z * 2^e]; for [e < 0] its floor is [z] shifted
    right by [-e] places, an integer below 2^53. *)
Definition floor (x : float) : float :=
  match Prim2SF x with
  | S754_finite s m e =>
      if (e <? 0)%Z then F64.of_Z (Z.shiftr (cond_Zopp s (Zpos m)) (- e)) else x
  | _ => x
  end.

Definition index (x : float) : option Z :=
  match Prim2SF x with
  | S754_zero _ => Some 0%Z
  | S754_finite false m e =>
      let k := Z.shiftl (Zpos m) e in
      if (Z.shiftl k (- e) =? Zpos m)%Z && (k <? 2 ^ 32 - 1)%Z
      then Some k else None
  | _ => None
  end.

End F64Index.

#[export] Instance float_Floor : Floor float := {
  Math_floor := F64Index.floor;
  arrayIndex := F64Index.index
}.

Module ExactIndex.

Definition floor (x : Q) : Q := inject_Z (Qfloor x).

Definition index (x : Q) : option Z :=
  let k := Qfloor x in
  if Qeq_bool x (inject_Z k) && (0 <=? k)%Z && (k <? 2 ^ 32 - 1)%Z
  then Some k else None.

End ExactIndex.

#[export] Instance Q_Floor : Floor Q := {
  Math_floor := ExactIndex.floor;
  arrayIndex := ExactIndex.index
}.

Section Workflow.

Context {num : Type} `{Number num} `{Floor num}.
Local Open Scope num_scope.

(** The analyser once [parseFile] has stored [samples]: the grid of the
    constructor, and no boundaries yet. *)
Definition parsed (cfg : Config num) (samples : list (Sample num)) : Analyzer num :=
  mkAnalyzer cfg samples (emptyBuckets cfg) [] [].

(** *** Boundaries: [calculateBucketBoundaries] *)

(** [percentile(arr, p)], that is [arr[Math.floor(arr.length * p)]];
    [None] is [undefined]. *)
Definition percentile (arr : list num) (p : num) : option num :=
  match arrayIndex (Math_floor (of_Z (Z.of_nat (length arr)) * p)) with
  | Some k => at_index arr k
  | None => None
  end.

(** The four boundaries of one axis.  [None] is the [TypeError] of
    [toFixed] on a boundary that is [undefined], which the method raises
    when it prints the boundaries. *)
Definition boundariesOf (values : list num) : option (list num) :=
  let sorted := sort sub values in
  match at_index sorted 0, percentile sorted (of_Z 1 / of_Z 3),
        percentile sorted (of_Z 2 / of_Z 3),
        at_index sorted (Z.of_nat (length sorted) - 1) with
  | Some b0, Some b1, Some b2, Some b3 => Some [b0; b1; b2; b3]
  | _, _, _, _ => None
  end.

Definition calculateBucketBoundaries (a : Analyzer num) : option (Analyzer num) :=
  match boundariesOf (map (@rpm num) (data a)) with
  | None => None
  | Some rpmB =>
      match boundariesOf (map (@load num) (data a)) with
      | None => None
      | Some loadB => Some (mkAnalyzer (config a) (data a) (buckets a) rpmB loadB)
      end
  end.

(** *** Delays per bucket: [calculateDelays] *)

(** The body of the two loops at bucket [(i, j)]; [None] is the
    [TypeError] of reading [data] of a bucket that is not there.
    [findDelaysInSequence] sorts the array it is given, and that array is
    the bucket's own [data]. *)
Definition delaysAt (cfg : Config num) (g : list (list (Bucket num)))
           (ij : nat * nat) : option (list (list (Bucket num))) :=
  let i := Z.of_nat (fst ij) in
  let j := Z.of_nat (snd ij) in
  match at_index g i with
  | None => None
  | Some row =>
      match at_index row j with
      | None => None
      | Some bucket =>
          if (length (bucket_data bucket) <? 10)%nat then Some g
          else
            Some (set_index g i
                    (set_index row j
                       (mkBucket (sort (@byTime num _) (bucket_data bucket))
                                 (findDelaysInSequence cfg (bucket_data bucket)))))
      end
  end.

Fixpoint delaysAll (cfg : Config num) (g : list (list (Bucket num)))
         (cells : list (nat * nat)) : option (list (list (Bucket num))) :=
  match cells with
  | [] => Some g
  | ij :: rest =>
      match delaysAt cfg g ij with
      | None => None
      | Some g' => delaysAll cfg g' rest
      end
  end.

Definition calculateDelays (a : Analyzer num) : option (Analyzer num) :=
  match delaysAll (config a) (buckets a) (gridIndices (BUCKET_COUNT (config a))) with
  | None => None
  | Some g =>
      Some (mkAnalyzer (config a) (data a) g (rpmBoundaries a) (loadBoundaries a))
  end.

(** *** The workflow: [analyze] from the parsed samples to the table *)

Definition analyzeParsed (a : Analyzer num) : option (Analyzer num * Table) :=
  match calculateBucketBoundaries a with
  | None => None
  | Some a1 =>
      match assignToBuckets a1 with
      | None => None
      | Some a2 =>
          match calculateDelays a2 with
          | None => None
          | Some a3 =>
              match generateTable a3 with
              | None => None
              | Some table => Some (a3, table)
              end
          end
      end
  end.

(** *** The sessions of the meta-analysis ([meta_analysis.js]) *)

(** The cell that the per-file loop stores at [(i, j)]; [None] is the
    [TypeError] of a bucket that is not there. *)
Definition extractCell (g : list (list (Bucket num))) (i j : nat) : option (Cell num) :=
  match at_index g (Z.of_nat i) with
  | None => None
  | Some row =>
      match at_index row (Z.of_nat j) with
      | None => None
      | Some bucket => Some (sessionCell (bucket_delays bucket))
      end
  end.

(** One entry of [allResults].  The two counters are accumulated in the
    loop that builds the table, over the same cells. *)
Record Session := mkSession {
  dataPoints : nat;
  totalMeasurements : nat;
  bucketsWithData : nat;
  session_rpmBoundaries : list num;
  session_loadBoundaries : list num;
  delayTable : list (list (Cell num))
}.

Definition sessionOf (a : Analyzer num) : option Session :=
  match forEach (fun i => forEach (extractCell (buckets a) i) (seq 0 3)) (seq 0 3) with
  | None => None
  | Some table =>
      Some (mkSession
              (length (data a))
              (fold_left (fun total c => (total + cell_count c)%nat) (concat table) 0%nat)
              (fold_left (fun n c => if (0 <? cell_count c)%nat then S n else n)
                         (concat table) 0%nat)
              (rpmBoundaries a) (loadBoundaries a) table)
  end.

(** The body of the loop over the log files, [try] block: the four steps
    of the analyser, then the session.  [None] is an exception, which the
    [catch] reports. *)
Definition analyzeFile (cfg : Config num) (samples : list (Sample num))
  : option Session :=
  match calculateBucketBoundaries (parsed cfg samples) with
  | None => None
  | Some a1 =>
      match assignToBuckets a1 with
      | None => None
      | Some a2 =>
          match calculateDelays a2 with
          | None => None
          | Some a3 => sessionOf a3
          end
      end
  end.

(** [allResults]: the sessions of the files whose analysis did not throw.
    [files] holds, for each log file, the samples that [parseFile] stores;
    a session is kept with the samples of its file, which the
    cross-validation reads again by name. *)
Definition allResultsOf (cfg : Config num) (files : list (list (Sample num)))
  : list (list (Sample num) * Session) :=
  flat_map (fun samples => match analyzeFile cfg samples with
                           | Some result => [(samples, result)]
                           | None => []
                           end) files.

Context `{Sqrt num}.

(** [ownDelayTable]: the medians of a session's table. *)
Definition ownTableOf (result : Session) : option (list (list (option num))) :=
  forEach (fun i => forEach (medianAt (delayTable result) i) (seq 0 3)) (seq 0 3).

(** The body of the cross-validation loop: the analyser is built again up
    to [assignToBuckets], and the validator runs on the master table and
    on the session's own table. *)
Definition crossValidate (cfg : Config num) (masterTable : list (list (option num)))
           (entry : list (Sample num) * Session) : option (Report num * Report num) :=
  match calculateBucketBoundaries (parsed cfg (fst entry)) with
  | None => None
  | Some a1 =>
      match assignToBuckets a1 with
      | None => None
      | Some analyzer =>
          match calculateLambdaErrors analyzer masterTable with
          | None => None
          | Some masterErrors =>
              match ownTableOf (snd entry) with
              | None => None
              | Some ownDelayTable =>
                  match calculateLambdaErrors analyzer ownDelayTable with
                  | None => None
                  | Some ownErrors => Some (masterErrors, ownErrors)
                  end
              end
          end
      end
  end.

(** The script after the loop over the files: the statistics, the master
    table and the cross-validation of every session. *)
Definition metaAnalysis (cfg : Config num) (files : list (list (Sample num)))
  : option (list (list (option num)) * list (Report num * Report num)) :=
  let allResults := allResultsOf cfg files in
  match bucketStatsOf (map (fun e => delayTable (snd e)) allResults) with
  | None => None
  | Some bucketStats =>
      let masterTable := masterTableOf bucketStats in
      match forEach (crossValidate cfg masterTable) allResults with
      | None => None
      | Some crossValResults => Some (masterTable, crossValResults)
      end
  end.

(** *** The validator of [validate_delays.js] *)

(** [delayTable[i][j]]: the median of the delays of bucket [(i, j)], not
    rounded; [None] is the [TypeError] of a bucket that is not there. *)
Definition ownMedian (g : list (list (Bucket num))) (i j : nat)
  : option (option num) :=
  match at_index g (Z.of_nat i) with
  | None => None
  | Some row =>
      match at_index row (Z.of_nat j) with
      | None => None
      | Some bucket =>
          Some (if (0 <? length (bucket_delays bucket))%nat
                then median (bucket_delays bucket) else None)
      end
  end.

Definition medianTable (a : Analyzer num) : option (list (list (option num))) :=
  forEach (fun i => forEach (ownMedian (buckets a) i) (seq 0 3)) (seq 0 3).

(** One entry of [errors]. *)
Record ErrorEntry := mkErrorEntry {
  err_rpm : num;
  err_load : num;
  err_bucket : Z * Z;
  historicalPW : num;
  currentPW : num;
  currentLambda : num;
  estimatedDelay : num;
  err_timeDiff : num
}.

(** What one turn of the loop over [analyzer.data] does. *)
Inductive Validation :=
| Passed                       (* [continue], or the final [if] fails *)
| Pushed (err : ErrorEntry)    (* [errors.push(...)] *)
| Failed.                      (* [TypeError] *)

Definition validatePoint (a : Analyzer num) (delayTable : list (list (option num)))
           (point : Sample num) : Validation :=
  let rpmBucket := getBucketIndex (config a) (rpm point) (rpmBoundaries a) in
  let loadBucket := getBucketIndex (config a) (load point) (loadBoundaries a) in
  if (rpmBucket =? -1)%Z || (loadBucket =? -1)%Z then Passed
  else
    match estimateAt delayTable rpmBucket loadBucket with
    | NoRow => Failed
    | NoCell => Passed       (* [undefined]: every [timeDiff] is NaN *)
    | Null => Passed
    | Delay estimatedDelay =>
        let '(closestIdx, minTimeDiff) :=
          closestLinear (data a) (targetTimeOf point estimatedDelay) in
        match minTimeDiff with
        | Infinity => Passed   (* [Infinity < 0.5] fails *)
        | Finite minTimeDiff =>
            if negb (closestIdx =? -1)%Z && (minTimeDiff <? half)
            then
              match at_index (data a) closestIdx with
              | None => Failed
              | Some historical =>
                  Pushed (mkErrorEntry (rpm point) (load point)
                            (rpmBucket, loadBucket) (pw historical) (pw point)
                            (lambda point) estimatedDelay (minTimeDiff * 1000))
              end
            else Passed
        end
    end.

Fixpoint validateAll (visit : Sample num -> Validation) (points : list (Sample num))
         (errors : list ErrorEntry) : option (list ErrorEntry) :=
  match points with
  | [] => Some errors
  | point :: rest =>
      match visit point with
      | Passed => validateAll visit rest errors
      | Pushed err => validateAll visit rest (errors ++ [err])
      | Failed => None
      end
  end.

(** [bucketStats]: per bucket, [lambdas] and [pwChanges], in insertion
    order. *)
Fixpoint pushStats (err : ErrorEntry) (bucketStats : list (Z * Z * (list num * list num)))
  : list (Z * Z * (list num * list num)) :=
  match bucketStats with
  | [] => [(err_bucket err, ([currentLambda err], [currentPW err - historicalPW err]))]
  | (k, (lambdas, pwChanges)) :: rest =>
      if sameKey k (err_bucket err)
      then (k, (lambdas ++ [currentLambda err],
                pwChanges ++ [currentPW err - historicalPW err])) :: rest
      else (k, (lambdas, pwChanges)) :: pushStats err rest
  end.

Definition bucketStatsOfErrors (errors : list ErrorEntry)
  : list (Z * Z * (list num * list num)) :=
  fold_left (fun bucketStats err => pushStats err bucketStats) errors [].

Record BucketResult := mkBucketResult {
  result_bucket : Z * Z;
  result_count : nat;
  lambdaMean : num;
  lambdaStdDev : num;
  lambdaCV : num;
  correlation : num
}.

(** The body of the loop over [bucketStats], for a bucket with at least
    10 lambdas. *)
Definition bucketResultOf (bucket : Z * Z) (lambdas pwChanges : list num)
  : BucketResult :=
  let lambdaMean := sum lambdas / len lambdas in
  let lambdaStdDev := Math_sqrt (sumSquares lambdaMean lambdas / len lambdas) in
  let pwMean := sum pwChanges / len pwChanges in
  let pwStdDev := Math_sqrt (sumSquares pwMean pwChanges / len pwChanges) in
  let correlation :=
    if (pwStdDev >? 0) && (lambdaStdDev >? 0)
    then fold_left (fun c pl => c + (fst pl - pwMean) * (snd pl - lambdaMean))
                   (combine pwChanges lambdas) 0
         / (len lambdas * pwStdDev * lambdaStdDev)
    else 0 in
  mkBucketResult bucket (length lambdas) lambdaMean lambdaStdDev
                 ((lambdaStdDev / lambdaMean) * 100) correlation.

Definition bucketResultsOf (bucketStats : list (Z * Z * (list num * list num)))
  : list BucketResult :=
  flat_map (fun e => if (length (fst (snd e)) <? 10)%nat then []
                     else [bucketResultOf (fst e) (fst (snd e)) (snd (snd e))])
           bucketStats.

(** The body of the loop over the configurations, after [calculateDelays]:
    the bucket results and [totalPoints]. *)
Definition validateDelays (a : Analyzer num) : option (list BucketResult * nat) :=
  match medianTable a with
  | None => None
  | Some delayTable =>
      match validateAll (validatePoint a delayTable) (data a) [] with
      | None => None
      | Some errors =>
          Some (bucketResultsOf (bucketStatsOfErrors errors), length errors)
      end
  end.

End Workflow.

Arguments Session num : clear implicits.
Arguments ErrorEntry num : clear implicits.
Arguments BucketResult num : clear implicits.

(** *** The worker pool of [meta_analysis_parallel.js]: [processFilesInParallel]

    The promise starts one worker per log file, at most [numCPUs] at a
    time.  A worker analyses its file inside a [try] and posts one
    message, a result with [success] or an error; the handler of that
    message is the only code that runs afterwards.  The messages of the
    workers that are running arrive in any order. *)

Section WorkerPool.

Context {F R : Type}.
Variable logFiles : list F.
Variable numCPUs : nat.

(** The message of the worker of a file: [Some result] with [success],
    [None] for an error. *)
Variable message : F -> option R.

(** The variables of the promise, the workers that have still to post
    their message, and the value the promise is resolved with. *)
Record Pool := mkPool {
  pool_results : list R;
  completed : nat;
  activeWorkers : nat;
  fileIndex : nat;
  running : list F;
  resolved : option (list R)
}.

Definition startWorker (p : Pool) : Pool :=
  match nth_error logFiles (fileIndex p) with
  | None => p        (* [if (fileIndex >= logFiles.length) return] *)
  | Some logFile =>
      mkPool (pool_results p) (completed p) (S (activeWorkers p)) (S (fileIndex p))
             (running p ++ [logFile]) (resolved p)
  end.

(** [worker.on('message', ...)] for the worker of [logFile], one of those
    running: [running p = before ++ logFile :: after]. *)
Definition onMessage (p : Pool) (before : list F) (logFile : F) (after : list F)
  : Pool :=
  let activeWorkers := (activeWorkers p - 1)%nat in
  let completed := S (completed p) in
  let results :=
    match message logFile with
    | Some result => pool_results p ++ [result]
    | None => pool_results p
    end in
  if (completed =? length logFiles)%nat
  then mkPool results completed activeWorkers (fileIndex p) (before ++ after)
              (match resolved p with None => Some results | Some v => Some v end)
  else startWorker (mkPool results completed activeWorkers (fileIndex p)
                           (before ++ after) (resolved p)).

(** The promise once its executor has run: the initial batch of workers. *)
Definition startPool : Pool :=
  Nat.iter (Nat.min numCPUs (length logFiles)) startWorker
           (mkPool [] 0 0 0 [] None).

Inductive poolStep : Pool -> Pool -> Prop :=
| messageStep (p : Pool) (before : list F) (logFile : F) (after : list F) :
    running p = before ++ logFile :: after ->
    poolStep p (onMessage p before logFile after).

Inductive poolReachable : Pool -> Prop :=
| reachStart : poolReachable startPool
| reachStep (p p' : Pool) : poolReachable p -> poolStep p p' -> poolReachable p'.

(** The results of the files in the order the sequential script keeps
    them. *)
Definition successes (files : list F) : list R :=
  flat_map (fun f => match message f with Some result => [result] | None => [] end)
           files.

End WorkerPool.

Arguments Pool F R : clear implicits.

(** ** Numbers

    A number is a value that is not NaN: it compares with itself.  A
    finite number is one whose magnitude is below [Infinity]. *)

Section Numbers.

Context {num : Type} `{Number num}.
Local Open Scope num_scope.

Definition number (a : num) : Prop := (a <=? a) = true.

Definition finite (a : num) : Prop := below_Infinity (Math_abs a) = true.

(** Two results of a computation are the same: numbers that [===]
    identifies, or NaN both. *)
Definition sameNumber (x y : num) : Prop :=
  (x === y) = true \/ (~ number x /\ ~ number y).

End Numbers.


(** ** Laws of the numbers

    What the proofs below use of the comparisons and of the arithmetic.
    The comparisons order the numbers totally, NaN compares with nothing,
    and what is below [Infinity] is a number. *)

Class OrderLaws (num : Type) `{Number num} : Prop := {
  ltb_leb : forall a b, (a <? b)%num = true -> (a <=? b)%num = true;
  leb_trans : forall a b c,
    (a <=? b)%num = true -> (b <=? c)%num = true -> (a <=? c)%num = true;
  leb_ltb_trans : forall a b c,
    (a <=? b)%num = true -> (b <? c)%num = true -> (a <? c)%num = true;
  ltb_leb_trans : forall a b c,
    (a <? b)%num = true -> (b <=? c)%num = true -> (a <? c)%num = true;
  ltb_not_leb : forall a b, (a <? b)%num = true -> (b <=? a)%num = false;
  leb_total : forall a b,
    (a <=? a)%num = true -> (b <=? b)%num = true ->
    (a <? b)%num = false -> (b <=? a)%num = true;
  leb_refl_l : forall a b, (a <=? b)%num = true -> (a <=? a)%num = true;
  leb_refl_r : forall a b, (a <=? b)%num = true -> (b <=? b)%num = true;
  eqb_leb : forall a b,
    (a === b)%num = ((a <=? b)%num && (b <=? a)%num)%bool;
  zero_refl : (0 <=? 0)%num = true;
  below_Infinity_ltb : forall a b, (a <? b)%num = true -> below_Infinity a = true;
  below_Infinity_refl : forall a, below_Infinity a = true -> (a <=? a)%num = true
}.

(** The sign of a difference never contradicts the order of its operands,
    and a product with a positive factor keeps a sign that is not
    negative. *)
Class SignLaws (num : Type) `{Number num} : Prop := {
  sub_not_pos : forall a b, (a <=? b)%num = true -> ((a - b) >? 0)%num = false;
  sub_not_neg : forall a b, (a <=? b)%num = true -> (b - a <? 0)%num = false;
  mul_not_neg : forall a c,
    (a <? 0)%num = false -> (0 <? c)%num = true -> (a * c <? 0)%num = false;
  thousand_pos : (0 <? 1000)%num = true
}.

Arguments OrderLaws num {_}.
Arguments SignLaws num {_}.

(** The comparator [a - b] is positive exactly when [b < a]: a difference
    of two distinct numbers is never rounded to a zero.  The mean of two
    numbers does not see which of the values that [===] identifies (the
    two zeros) it is given. *)
Class MedianLaws (num : Type) `{Number num} : Prop := {
  sub_pos : forall a b, ((a - b) >? 0)%num = (b <? a)%num;
  mean_same : forall a a' b b',
    number a -> number b ->
    (a === a')%num = true -> (b === b')%num = true ->
    sameNumber ((a + b) / 2)%num ((a' + b') / 2)%num
}.

Arguments MedianLaws num {_}.

(** The distance to a target that is finite is a distance between
    numbers; it grows with the gap, on either side of the target, and it
    is below the tolerance on the target. *)
Class DistanceLaws (num : Type) `{Number num} : Prop := {
  difference_number : forall a t, finite (a - t)%num -> number a /\ number t;
  distance_below : forall a b t,
    finite (a - t)%num -> finite (b - t)%num ->
    (a <=? b)%num = true -> (b <=? t)%num = true ->
    (Math_abs (b - t) <=? Math_abs (a - t))%num = true;
  distance_above : forall a b t,
    finite (a - t)%num -> finite (b - t)%num ->
    (t <=? a)%num = true -> (a <=? b)%num = true ->
    (Math_abs (a - t) <=? Math_abs (b - t))%num = true;
  distance_half : forall a t,
    finite (a - t)%num -> (a <=? t)%num = true -> (t <=? a)%num = true ->
    (Math_abs (a - t) <? half)%num = true
}.

Arguments DistanceLaws num {_}.

(** The two percentile indices of an array of [n] elements are array
    indices, in order and inside the array.  [n] is the length of an
    array: at most [2 ^ 32 - 1]. *)
Class PercentileLaws (num : Type) `{Number num} `{Floor num} : Prop := {
  percentile_indices : forall n : Z, (0 < n < 2 ^ 32)%Z ->
    exists i j : Z,
      arrayIndex (Math_floor (of_Z n * (of_Z 1 / of_Z 3))%num) = Some i
      /\ arrayIndex (Math_floor (of_Z n * (of_Z 2 / of_Z 3))%num) = Some j
      /\ (0 <= i <= j)%Z /\ (j < n)%Z
}.

Arguments PercentileLaws num {_ _}.

(** ** Specifications *)

Section DetectorSpec.

Context {num : Type} `{Number num}.
Local Open Scope num_scope.

(** Sorted ascending by time: every sample is at or before the later ones. *)
Definition time_sorted (samples : list (Sample num)) : Prop :=
  StronglySorted (fun a b => (time a <=? time b) = true) samples.

(** [future] is a qualifying lambda response to the pulsewidth change from
    [prev] to [curr]. *)
Definition qualifies (cfg : Config num) (prev curr future : Sample num) : Prop :=
  (Math_sign (lambda future - lambda curr)
     === - Math_sign (pw curr - pw prev)) = true
  /\ (Math_abs (lambda future - lambda curr) >=? LAMBDA_CHANGE_THRESHOLD cfg) = true
  /\ ((time future - time curr) * 1000 <=? MAX_DELAY_MS cfg) = true.

(** The measurements [out] that index [i] of [samples] gives rise to. *)
Definition event (cfg : Config num) (samples : list (Sample num))
           (i : nat) (out : list num) : Prop :=
  exists prev curr,
    nth_error samples (i - 1) = Some prev /\ nth_error samples i = Some curr /\
    let window j := (i + 1 <= j < Nat.min (i + 100) (length samples))%nat in
    ((Math_abs (pw curr - pw prev) <? PW_CHANGE_THRESHOLD cfg) = true /\ out = []
     \/
     (Math_abs (pw curr - pw prev) <? PW_CHANGE_THRESHOLD cfg) = false /\
     ((exists j future,
          window j /\ nth_error samples j = Some future /\
          qualifies cfg prev curr future /\
          (forall j' f, (i + 1 <= j' < j)%nat -> nth_error samples j' = Some f ->
                        ~ qualifies cfg prev curr f) /\
          out = [(time future - time curr) * 1000])
      \/
      ((forall j f, window j -> nth_error samples j = Some f ->
                    ~ qualifies cfg prev curr f) /\
       out = []))).

End DetectorSpec.

Section BucketerSpec.

Context {num : Type} `{Number num}.
Local Open Scope num_scope.

(** Non-decreasing cut points. *)
Definition nondecreasing (boundaries : list num) : Prop :=
  StronglySorted (fun x y => (x <=? y) = true) boundaries.

(** The interval rule: [boundaries[i] <= value < boundaries[i+1]]. *)
Definition in_interval (value : num) (boundaries : list num) (i : nat) : Prop :=
  exists lo hi,
    nth_error boundaries i = Some lo /\ nth_error boundaries (i + 1) = Some hi
    /\ (lo <=? value) = true /\ (value <? hi) = true.

(** A grid of [n] rows of [n] cells. *)
Definition grid_shape {A : Type} (n : nat) (g : list (list A)) : Prop :=
  length g = n /\ Forall (fun row => length row = n) g.

End BucketerSpec.

Section TableSpec.

Context {num : Type} `{Number num}.

(** The bucket at [(i, j)] of a grid, when both indices are in range. *)
Definition bucketAt (g : list (list (Bucket num))) (i j : nat) : option (Bucket num) :=
  match nth_error g i with
  | Some row => nth_error row j
  | None => None
  end.

End TableSpec.

Section AggregatorSpec.

Context {num : Type} `{Number num}.
Local Open Scope num_scope.

(** The median a session's table holds for bucket [(i, j)], if any. *)
Definition sessionMedian (delayTable : list (list (Cell num))) (i j : nat)
  : option num :=
  match nth_error delayTable i with
  | Some row =>
      match nth_error row j with
      | Some c => cell_median c
      | None => None
      end
  | None => None
  end.

(** The medians that contribute to bucket [(i, j)]: one per session whose
    table has a median there, in session order. *)
Definition contributions (allResults : list (list (list (Cell num)))) (i j : nat)
  : list num :=
  flat_map (fun t => match sessionMedian t i j with Some v => [v] | None => [] end)
           allResults.

End AggregatorSpec.

Section ValidatorSpec.

Context {num : Type} `{Number num}.
Local Open Scope num_scope.

(** How far the timestamp of [s] is from [targetTime]. *)
Definition distance (targetTime : num) (s : Sample num) : num :=
  Math_abs (time s - targetTime).

(** [s] is a nearest sample of the store: its distance is below
    [Infinity] and no sample is strictly closer. *)
Definition nearest (samples : list (Sample num)) (targetTime : num)
           (s : Sample num) : Prop :=
  In s samples
  /\ below_Infinity (distance targetTime s) = true
  /\ forall s', In s' samples ->
                (distance targetTime s' <? distance targetTime s) = false.

(** The accuracy list of a bucket. *)
Definition errorsAt (key : Z * Z) (bucketErrors : Errors num) : list num :=
  match find (fun e => sameKey (fst e) key) bucketErrors with
  | Some e => snd e
  | None => []
  end.

(** The lambdas the loop records for a bucket, in the order of the points. *)
Definition recordedAt (visit : Sample num -> Outcome) (key : Z * Z)
           (points : list (Sample num)) : list num :=
  flat_map (fun point => match visit point with
                         | Recorded k v => if sameKey k key then [v] else []
                         | _ => []
                         end) points.

(** How many lambdas the accuracy lists hold in all. *)
Definition totalRecorded (bucketErrors : Errors num) : nat :=
  fold_right (fun e n => (length (snd e) + n)%nat) 0%nat bucketErrors.

(** The cell the delay table holds for bucket [(r, l)], read off its rows:
    [Some (Some ms)] is a delay in milliseconds, [Some None] a [null] cell,
    [None] a cell the table does not have. *)
Definition delayCell (delayTable : list (list (option num))) (r l : Z)
  : option (option num) :=
  if ((0 <=? r) && (0 <=? l))%Z
  then match nth_error delayTable (Z.to_nat r) with
       | Some row => nth_error row (Z.to_nat l)
       | None => None
       end
  else None.

(** [nearest], as a test. *)
Definition isNearest (samples : list (Sample num)) (targetTime : num)
           (s : Sample num) : bool :=
  below_Infinity (distance targetTime s)
  && forallb (fun s' => negb (distance targetTime s' <? distance targetTime s))
             samples.

(** The store has a nearest sample less than 0.5 s from [targetTime]. *)
Definition nearestWithin (samples : list (Sample num)) (targetTime : num) : bool :=
  existsb (fun s => isNearest samples targetTime s && (distance targetTime s <? half))
          samples.

(** Whether the lambda of [point] belongs to the accuracy list of bucket
    [key]: the RPM and the load of the point fall in the bucket, the table
    holds a delay for it, and the store has a nearest sample less than
    0.5 s from [time - delay / 1000]. *)
Definition recordsInto (a : Analyzer num) (delayTable : list (list (option num)))
           (key : Z * Z) (point : Sample num) : bool :=
  let r := getBucketIndex (config a) (rpm point) (rpmBoundaries a) in
  let l := getBucketIndex (config a) (load point) (loadBoundaries a) in
  (negb (r =? -1) && negb (l =? -1) && ((r =? fst key) && (l =? snd key)))%Z
  && match delayCell delayTable r l with
     | Some (Some ms) => nearestWithin (data a) (time point - ms / 1000)
     | _ => false
     end.

(** The accuracy list of a bucket as the store and the table determine it:
    the lambdas of the samples that belong to it, in the order of the
    store. *)
Definition accuracyList (a : Analyzer num) (delayTable : list (list (option num)))
           (key : Z * Z) : list num :=
  map (@lambda num) (filter (recordsInto a delayTable key) (data a)).

End ValidatorSpec.

Section ReportSpec.

Context {num : Type} `{Number num} `{Sqrt num}.
Local Open Scope num_scope.

(** The terms added up from the left, starting from 0. *)
Fixpoint totalFrom (acc : num) (values : list num) : num :=
  match values with
  | [] => acc
  | x :: rest => totalFrom (acc + x) rest
  end.

(** The arithmetic mean. *)
Definition average (values : list num) : num :=
  totalFrom 0 values / of_Z (Z.of_nat (length values)).

(** The population standard deviation: the square root of the mean squared
    deviation from the mean, the divisor being the number of values. *)
Definition populationStdDev (values : list num) : num :=
  Math_sqrt (average (map (fun x => (x - average values) * (x - average values))
                          values)).

End ReportSpec.

Section MedianSpec.

Context {num : Type} `{Number num}.
Local Open Scope num_scope.

(** The even/odd rule on a list taken as sorted: the average of the two
    central elements, or the central element. *)
Definition evenOddRule (s : list num) : option num :=
  match s with
  | [] => None
  | x0 :: _ =>
      let n := length s in
      Some (if Nat.even n
            then (nth (n / 2 - 1) s x0 + nth (n / 2) s x0) / 2
            else nth (n / 2) s x0)
  end.

(** Two results of [median] are the same: both [null], or the same
    number. *)
Definition sameResult (a b : option num) : Prop :=
  match a, b with
  | Some x, Some y => sameNumber x y
  | None, None => True
  | _, _ => False
  end.

End MedianSpec.

Section SearchSpec.

Context {num : Type} `{Number num}.
Local Open Scope num_scope.

(** Strictly increasing timestamps: sorted, and no timestamp twice. *)
Definition strictly_increasing (samples : list (Sample num)) : Prop :=
  StronglySorted (fun a b => (time a <? time b) = true) samples.

End SearchSpec.

Section WorkflowSpec.

Context {num : Type} `{Number num}.
Local Open Scope num_scope.

(** The samples of bucket [(i, j)]: those whose RPM index is [i] and whose
    load index is [j]. *)
Definition landsIn (cfg : Config num) (rpmB loadB : list num) (i j : nat)
           (point : Sample num) : bool :=
  ((getBucketIndex cfg (rpm point) rpmB =? Z.of_nat i)
   && (getBucketIndex cfg (load point) loadB =? Z.of_nat j))%Z.

(** What [calculateDelays] makes of one bucket: nothing below ten samples;
    otherwise the samples in time order and the delays found in them. *)
Definition withDelays (cfg : Config num) (b : Bucket num) : Bucket num :=
  if (length (bucket_data b) <? 10)%nat then b
  else mkBucket (sort byTime (bucket_data b))
                (findDelaysInSequence cfg (bucket_data b)).

(** All the samples that a grid holds, bucket after bucket. *)
Definition population (g : list (list (Bucket num))) : list (Sample num) :=
  concat (map (@bucket_data num) (concat g)).

(** The boundaries of one axis: four of the values, in order, the first
    the least value and the last the greatest. *)
Definition axis_boundaries (values boundaries : list num) : Prop :=
  exists lo p1 p2 hi,
    boundaries = [lo; p1; p2; hi]
    /\ nondecreasing boundaries
    /\ incl boundaries values
    /\ Forall (fun v => (lo <=? v) = true /\ (v <=? hi) = true) values.

(** The delays that the workflow measures in the samples of one bucket. *)
Definition measured (cfg : Config num) (members : list (Sample num)) : list num :=
  if (length members <? 10)%nat then [] else findDelaysInSequence cfg members.

(** The cell at [(i, j)] of a session's table. *)
Definition cellAt (delayTable : list (list (Cell num))) (i j : nat)
  : option (Cell num) :=
  match nth_error delayTable i with
  | Some row => nth_error row j
  | None => None
  end.

(** The accuracy lists that the bucket statistics of [validate_delays.js]
    hold: the lambdas of every bucket, without the pulsewidth changes. *)
Definition lambdasOf (bucketStats : list (Z * Z * (list num * list num)))
  : Errors num :=
  map (fun e => (fst e, fst (snd e))) bucketStats.

(** [err] is the entry of [point]: it holds the lambda and the pulsewidth
    of the point, and the pulsewidth of a sample of the store that is
    nearest to the target time, less than 0.5 s from it. *)
Definition entryOf (samples : list (Sample num)) (err : ErrorEntry num)
           (point : Sample num) : Prop :=
  exists historical,
    nearest samples (targetTimeOf point (estimatedDelay err)) historical
    /\ (distance (targetTimeOf point (estimatedDelay err)) historical <? half) = true
    /\ err_timeDiff err
       = distance (targetTimeOf point (estimatedDelay err)) historical * 1000
    /\ historicalPW err = pw historical
    /\ currentPW err = pw point
    /\ currentLambda err = lambda point
    /\ err_rpm err = rpm point /\ err_load err = load point.

(** [cfg'] is at least as strict as [cfg]: a larger pulsewidth threshold,
    a larger lambda threshold, a shorter maximal delay. *)
Definition stricter (cfg cfg' : Config num) : Prop :=
  (PW_CHANGE_THRESHOLD cfg <=? PW_CHANGE_THRESHOLD cfg') = true
  /\ (LAMBDA_CHANGE_THRESHOLD cfg <=? LAMBDA_CHANGE_THRESHOLD cfg') = true
  /\ (MAX_DELAY_MS cfg' <=? MAX_DELAY_MS cfg) = true.

End WorkflowSpec.

(** [l] is [l'] with some elements left out. *)
Inductive subsequence {A : Type} : list A -> list A -> Prop :=
| subsequence_nil : subsequence [] []
| subsequence_take x l l' : subsequence l l' -> subsequence (x :: l) (x :: l')
| subsequence_skip x l l' : subsequence l l' -> subsequence l (x :: l').


Section PoolSpec.

Context {F R : Type}.
Variable logFiles : list F.
Variable numCPUs : nat.
Variable message : F -> option R.

(** What holds of the pool whenever a handler has returned.  [finished]
    lists the files whose message has arrived, in the order of arrival:
    they and the running ones are the files started so far; the results
    are those of the finished files; the counters count them; the pool is
    never larger than [numCPUs] and is kept full while files are left;
    and the promise is resolved exactly when the last message has
    arrived. *)
Definition poolInvariant (p : Pool F R) (finished : list F) : Prop :=
  Permutation (finished ++ running p) (firstn (fileIndex p) logFiles)
  /\ pool_results p = successes message finished
  /\ completed p = length finished
  /\ activeWorkers p = length (running p)
  /\ (fileIndex p <= length logFiles)%nat
  /\ (activeWorkers p <= numCPUs)%nat
  /\ ((activeWorkers p < Nat.min numCPUs (length logFiles))%nat ->
      fileIndex p = length logFiles)
  /\ resolved p
     = if ((completed p =? length logFiles) && (0 <? length logFiles))%nat
       then Some (pool_results p) else None.

End PoolSpec.
(** ** Proofs *)

(** *** The laws hold of binary64

    The comparisons of [spec_float] are read through a key whose
    lexicographic order is the order of the values; the sign of a rounded
    result is the sign of the exact one. *)

Module F64Order.

Local Open Scope Z_scope.

(** A key whose lexicographic order is the order of the non-NaN values. *)
Definition key (x : spec_float) : option (Z * Z * Z) :=
  match x with
  | S754_nan => None
  | S754_infinity true => Some (-2, 0, 0)
  | S754_infinity false => Some (2, 0, 0)
  | S754_zero _ => Some (0, 0, 0)
  | S754_finite true m e => Some (-1, - e, Zneg m)
  | S754_finite false m e => Some (1, e, Zpos m)
  end.

Definition cmp3 (a b : Z * Z * Z) : comparison :=
  let '(a1, a2, a3) := a in
  let '(b1, b2, b3) := b in
  match a1 ?= b1 with
  | Eq => match a2 ?= b2 with Eq => a3 ?= b3 | c => c end
  | c => c
  end.

Definition lt3 (a b : Z * Z * Z) : Prop :=
  let '(a1, a2, a3) := a in
  let '(b1, b2, b3) := b in
  a1 < b1 \/ (a1 = b1 /\ (a2 < b2 \/ (a2 = b2 /\ a3 < b3))).

Lemma cmp3_Lt a b : cmp3 a b = Lt <-> lt3 a b.
Proof.
  destruct a as [[a1 a2] a3], b as [[b1 b2] b3]. unfold cmp3, lt3.
  destruct (Z.compare_spec a1 b1), (Z.compare_spec a2 b2), (Z.compare_spec a3 b3);
    split; intros; try discriminate; try reflexivity; lia.
Qed.

Lemma cmp3_Eq a b : cmp3 a b = Eq <-> a = b.
Proof.
  destruct a as [[a1 a2] a3], b as [[b1 b2] b3]. unfold cmp3.
  destruct (Z.compare_spec a1 b1), (Z.compare_spec a2 b2), (Z.compare_spec a3 b3);
    split; intros E; try discriminate; try reflexivity;
    try (injection E; intros; lia); subst; reflexivity.
Qed.

Lemma cmp3_Gt a b : cmp3 a b = Gt <-> lt3 b a.
Proof.
  destruct a as [[a1 a2] a3], b as [[b1 b2] b3]. unfold cmp3, lt3.
  destruct (Z.compare_spec a1 b1), (Z.compare_spec a2 b2), (Z.compare_spec a3 b3);
    split; intros; try discriminate; try reflexivity; lia.
Qed.

Lemma SFcompare_key x y :
  SFcompare x y =
  match key x, key y with
  | Some a, Some b => Some (cmp3 a b)
  | _, _ => None
  end.
Proof.
  destruct x as [[]|[]| |[] mx ex], y as [[]|[]| |[] my ey]; simpl; try reflexivity.
  - rewrite Z.compare_opp, (Z.compare_antisym ex ey).
    change (PosDef.Pos.compare_cont Eq mx my) with (Pos.compare mx my).
    destruct (ex ?= ey); reflexivity.
Qed.

Lemma ltb_key a b :
  PrimFloat.ltb a b = true <->
  exists ka kb, key (Prim2SF a) = Some ka /\ key (Prim2SF b) = Some kb /\ lt3 ka kb.
Proof.
  rewrite ltb_spec. unfold SFltb. rewrite SFcompare_key.
  destruct (key (Prim2SF a)) as [ka|], (key (Prim2SF b)) as [kb|];
    try (split; [discriminate | intros (? & ? & ? & ? & _); discriminate]).
  pose proof (cmp3_Lt ka kb) as HL. destruct (cmp3 ka kb); split;
    try discriminate; try reflexivity.
  - intros (x & y & [= <-] & [= <-] & Hlt). apply HL in Hlt. discriminate.
  - intros _. exists ka, kb. intuition.
  - intros (x & y & [= <-] & [= <-] & Hlt). apply HL in Hlt. discriminate.
Qed.

Lemma leb_key a b :
  PrimFloat.leb a b = true <->
  exists ka kb, key (Prim2SF a) = Some ka /\ key (Prim2SF b) = Some kb
                /\ (lt3 ka kb \/ ka = kb).
Proof.
  rewrite leb_spec. unfold SFleb. rewrite SFcompare_key.
  destruct (key (Prim2SF a)) as [ka|], (key (Prim2SF b)) as [kb|];
    try (split; [discriminate | intros (? & ? & ? & ? & _); discriminate]).
  pose proof (cmp3_Lt ka kb) as HL. pose proof (cmp3_Eq ka kb) as HE.
  pose proof (cmp3_Gt ka kb) as HG.
  destruct (cmp3 ka kb); split; try discriminate; try reflexivity.
  - intros _. exists ka, kb. intuition.
  - intros _. exists ka, kb. intuition.
  - intros (x & y & [= <-] & [= <-] & [Hlt|Heq]).
    + apply HL in Hlt. discriminate.
    + apply HE in Heq. discriminate.
Qed.

Lemma eqb_key a b :
  PrimFloat.eqb a b = true <->
  exists ka, key (Prim2SF a) = Some ka /\ key (Prim2SF b) = Some ka.
Proof.
  rewrite eqb_spec. unfold SFeqb. rewrite SFcompare_key.
  destruct (key (Prim2SF a)) as [ka|], (key (Prim2SF b)) as [kb|];
    try (split; [discriminate | intros (? & ? & ?); discriminate]).
  pose proof (cmp3_Eq ka kb) as HE.
  destruct (cmp3 ka kb); split; try discriminate; try reflexivity.
  - intros _. exists ka. split; [reflexivity|]. f_equal. symmetry. now apply HE.
  - intros (x & [= <-] & [= <-]). enough (Lt = Eq) by discriminate. now apply HE.
  - intros (x & [= <-] & [= <-]). enough (Gt = Eq) by discriminate. now apply HE.
Qed.

Lemma lt3_trans a b c : lt3 a b -> lt3 b c -> lt3 a c.
Proof.
  destruct a as [[a1 a2] a3], b as [[b1 b2] b3], c as [[c1 c2] c3].
  unfold lt3. lia.
Qed.

Lemma lt3_irrefl a : ~ lt3 a a.
Proof. destruct a as [[a1 a2] a3]. unfold lt3. lia. Qed.

Lemma lt3_total a b : lt3 a b \/ a = b \/ lt3 b a.
Proof.
  destruct a as [[a1 a2] a3], b as [[b1 b2] b3]. unfold lt3.
  destruct (Z.lt_total a1 b1) as [|[|]], (Z.lt_total a2 b2) as [|[|]],
    (Z.lt_total a3 b3) as [|[|]]; subst; auto 10; lia.
Qed.

Lemma key_top x k : key x = Some k -> lt3 k (2, 0, 0) \/ k = (2, 0, 0).
Proof.
  destruct x as [[]|[]| |[] m e]; intros [= <-]; unfold lt3; auto; left; lia.
Qed.

Lemma key_infinity : key (Prim2SF infinity) = Some (2, 0, 0).
Proof. reflexivity. Qed.

End F64Order.

Import F64Order.

Ltac keys :=
  repeat match goal with
  | H : PrimFloat.ltb _ _ = true |- _ => apply ltb_key in H; destruct H as (? & ? & ? & ? & ?)
  | H : PrimFloat.leb _ _ = true |- _ => apply leb_key in H; destruct H as (? & ? & ? & ? & ?)
  | H : PrimFloat.eqb _ _ = true |- _ => apply eqb_key in H; destruct H as (? & ? & ?)
  end;
  repeat match goal with
  | H1 : key ?x = Some ?a, H2 : key ?x = Some ?b |- _ =>
      assert (a = b) by congruence; subst b; clear H2
  end.

Lemma not_true_false b : (b = true -> False) -> b = false.
Proof. destruct b; intuition. Qed.

Lemma le3_trans a b c : (lt3 a b \/ a = b) -> (lt3 b c \/ b = c) -> lt3 a c \/ a = c.
Proof. intros [?| ->] [?| ->]; eauto using lt3_trans. Qed.

Lemma le3_lt3_trans a b c : (lt3 a b \/ a = b) -> lt3 b c -> lt3 a c.
Proof. intros [?| ->] ?; eauto using lt3_trans. Qed.

Lemma lt3_le3_trans a b c : lt3 a b -> (lt3 b c \/ b = c) -> lt3 a c.
Proof. intros ? [?| ->]; eauto using lt3_trans. Qed.

Lemma lt3_not_le3 a b : lt3 a b -> (lt3 b a \/ b = a) -> False.
Proof.
  intros ? [?| ->]; [eapply lt3_irrefl; eauto using lt3_trans | eapply lt3_irrefl; eauto].
Qed.

#[export] Instance float_OrderLaws : OrderLaws float.
Proof.
  constructor; simpl.
  - intros a b Hab. keys. apply leb_key. eauto 10.
  - intros a b c Hab Hbc. keys. apply leb_key. do 2 eexists. repeat split; eauto.
    eauto using le3_trans.
  - intros a b c Hab Hbc. keys. apply ltb_key. do 2 eexists. repeat split; eauto.
    eauto using le3_lt3_trans.
  - intros a b c Hab Hbc. keys. apply ltb_key. do 2 eexists. repeat split; eauto.
    eauto using lt3_le3_trans.
  - intros a b Hab. apply not_true_false. intros Hba. keys.
    eauto using lt3_not_le3.
  - intros a b Ha Hb Hab. keys. apply leb_key. do 2 eexists. repeat split; eauto.
    match goal with |- lt3 ?p ?q \/ _ => destruct (lt3_total q p) as [|[|]]; auto end.
    assert (PrimFloat.ltb a b = true) by (apply ltb_key; eauto 10). congruence.
  - intros a b Hab. keys. apply leb_key. eauto 10.
  - intros a b Hab. keys. apply leb_key. eauto 10.
  - intros a b. destruct (PrimFloat.eqb a b) eqn:E.
    + keys. symmetry. apply andb_true_iff. split; apply leb_key; eauto 10.
    + symmetry. apply not_true_false. intros Hc. apply andb_true_iff in Hc.
      destruct Hc as [H1 H2]. keys.
      assert (PrimFloat.eqb a b = true); [|congruence].
      apply eqb_key.
      match goal with
      | H1 : lt3 ?p ?q \/ ?p = ?q, H2 : lt3 ?q ?p \/ ?q = ?p |- _ =>
          destruct H1 as [H1| ->]; [exfalso; eauto using lt3_not_le3 | eauto]
      end.
  - reflexivity.
  - intros a b Hab. keys. apply ltb_key. do 2 eexists.
    split; [eassumption|]. split; [apply key_infinity|].
    match goal with
    | Hk : key (Prim2SF a) = Some ?k, Hlt : lt3 ?k ?k' |- _ =>
        destruct (key_top _ Hk) as [?| ->]; [assumption|];
        match goal with
        | Hk' : key (Prim2SF b) = Some k' |- _ =>
            destruct (key_top _ Hk') as [Hc| ->];
            exfalso; eauto using lt3_not_le3, lt3_irrefl
        end
    end.
  - intros a Ha. keys. apply leb_key. eauto 10.
Qed.

Module F64Sign.

Local Open Scope Z_scope.

Definition is_negative (x : spec_float) : bool :=
  match x with
  | S754_infinity true | S754_finite true _ _ => true
  | _ => false
  end.

Definition is_positive (x : spec_float) : bool :=
  match x with
  | S754_infinity false | S754_finite false _ _ => true
  | _ => false
  end.

Lemma ltb_zero_r x : PrimFloat.ltb x (F64.of_Z 0) = is_negative (Prim2SF x).
Proof.
  rewrite ltb_spec. change (Prim2SF (F64.of_Z 0)) with (S754_zero false).
  now destruct (Prim2SF x) as [[]|[]| |[] m e].
Qed.

Lemma ltb_zero_l x : PrimFloat.ltb (F64.of_Z 0) x = is_positive (Prim2SF x).
Proof.
  rewrite ltb_spec. change (Prim2SF (F64.of_Z 0)) with (S754_zero false).
  now destruct (Prim2SF x) as [[]|[]| |[] m e].
Qed.

(** Rounding keeps the sign it is given. *)
Lemma binary_round_aux_sign sx mx ex lx :
  let r := binary_round_aux prec emax sx mx ex lx in
  r = S754_nan \/ r = S754_zero sx \/ r = S754_infinity sx
  \/ exists m e, r = S754_finite sx m e.
Proof.
  unfold binary_round_aux.
  destruct (shr_fexp prec emax mx ex lx) as [mrs' e'].
  destruct (shr_fexp prec emax _ e' loc_Exact) as [mrs'' e''].
  destruct (shr_m mrs''); auto.
  destruct (e'' <=? emax - prec); eauto 10.
Qed.

Lemma binary_round_sign sx mx ex :
  let r := binary_round prec emax sx mx ex in
  r = S754_nan \/ r = S754_zero sx \/ r = S754_infinity sx
  \/ exists m e, r = S754_finite sx m e.
Proof.
  unfold binary_round.
  destruct (shl_align mx ex _) as [mz ez]. apply binary_round_aux_sign.
Qed.

Lemma binary_normalize_not_positive m e :
  m <= 0 -> is_positive (binary_normalize prec emax m e false) = false.
Proof.
  intros Hm. destruct m as [|p|p]; [reflexivity | lia |].
  simpl. destruct (binary_round_sign true p e) as [E|[E|[E|(m' & e' & E)]]];
    rewrite E; reflexivity.
Qed.

Lemma binary_normalize_not_negative m e :
  0 <= m -> is_negative (binary_normalize prec emax m e false) = false.
Proof.
  intros Hm. destruct m as [|p|p]; [reflexivity | | lia].
  simpl. destruct (binary_round_sign false p e) as [E|[E|[E|(m' & e' & E)]]];
    rewrite E; reflexivity.
Qed.

Lemma iter_xO m d : Zpos (Pos.iter xO m d) = Zpos m * 2 ^ Zpos d.
Proof.
  induction d as [|d IH] using Pos.peano_ind.
  - simpl. lia.
  - rewrite Pos.iter_succ, Pos2Z.inj_succ, Z.pow_succ_r by lia.
    rewrite (Pos2Z.inj_xO (Pos.iter xO m d)), IH. lia.
Qed.

Lemma shl_align_value mx ex ez :
  ez <= ex -> Zpos (fst (shl_align mx ex ez)) = Zpos mx * 2 ^ (ex - ez).
Proof.
  intros Hle. unfold shl_align.
  destruct (ez - ex) as [|d|d] eqn:E.
  - replace (ex - ez) with 0 by lia. simpl. lia.
  - lia.
  - simpl fst. rewrite iter_xO. f_equal. f_equal. lia.
Qed.

Lemma digits2_pos_bounds m :
  2 ^ (Zpos (digits2_pos m) - 1) <= Zpos m < 2 ^ Zpos (digits2_pos m).
Proof.
  induction m as [m IH|m IH|]; simpl digits2_pos.
  - rewrite Pos2Z.inj_succ.
    replace (Z.succ (Zpos (digits2_pos m)) - 1) with (Z.succ (Zpos (digits2_pos m) - 1)) by lia.
    rewrite !Z.pow_succ_r by lia. lia.
  - rewrite Pos2Z.inj_succ.
    replace (Z.succ (Zpos (digits2_pos m)) - 1) with (Z.succ (Zpos (digits2_pos m) - 1)) by lia.
    rewrite !Z.pow_succ_r by lia. lia.
  - simpl. lia.
Qed.

(** What canonicity says of a finite binary64 value. *)
Lemma bounded_facts m e :
  bounded prec emax m e = true ->
  Zpos m < 2 ^ 53 /\ (2 ^ 52 <= Zpos m \/ e = -1074) /\ -1074 <= e.
Proof.
  unfold bounded, canonical_mantissa, fexp, SpecFloat.emin, prec, emax.
  intros Hb. apply andb_true_iff in Hb. destruct Hb as [Hc _].
  apply Z.eqb_eq in Hc.
  pose proof (digits2_pos_bounds m) as [Hlo Hhi].
  assert (Hd : Zpos (digits2_pos m) <= 53) by lia.
  split; [|split; [|lia]].
  - eapply Z.lt_le_trans; [exact Hhi|]. apply Z.pow_le_mono_r; lia.
  - destruct (Z.eq_dec (Zpos (digits2_pos m)) 53) as [E|E].
    + left. rewrite E in Hlo. exact Hlo.
    + right. lia.
Qed.

(** Aligned to the smaller exponent, canonical mantissas compare like the
    pairs (exponent, mantissa). *)
Lemma aligned_le mx ex my ey :
  bounded prec emax mx ex = true -> bounded prec emax my ey = true ->
  (ex < ey \/ (ex = ey /\ (mx <= my)%positive)) ->
  Zpos (fst (shl_align mx ex (Z.min ex ey)))
  <= Zpos (fst (shl_align my ey (Z.min ex ey))).
Proof.
  intros Hx Hy Hle.
  apply bounded_facts in Hx. apply bounded_facts in Hy.
  rewrite !shl_align_value by lia.
  destruct Hle as [Hlt|[-> Hm]].
  - rewrite Z.min_l by lia. rewrite Z.sub_diag. 
    assert (2 ^ 1 <= 2 ^ (ey - ex)) by (apply Z.pow_le_mono_r; lia).
    change (2 ^ 0) with 1. change (2^1) with 2 in *.
    destruct Hy as (_ & [Hy|Hy] & _); [|lia]. nia.
  - rewrite Z.min_id, Z.sub_diag. change (2 ^ 0) with 1. lia.
Qed.

Lemma compare_cont_le mx my :
  PosDef.Pos.compare_cont Eq mx my <> Gt -> (mx <= my)%positive.
Proof. intros Hc. exact Hc. Qed.

(** The order of two finite values of the same sign, read off [SFleb]. *)
Lemma SFleb_finite_pos mx ex my ey :
  SFleb (S754_finite false mx ex) (S754_finite false my ey) = true ->
  ex < ey \/ (ex = ey /\ (mx <= my)%positive).
Proof.
  unfold SFleb, SFcompare.
  destruct (Z.compare_spec ex ey) as [E|E|E]; try discriminate; auto.
  intros Hc. right. split; [exact E|]. apply compare_cont_le.
  destruct (PosDef.Pos.compare_cont Eq mx my); congruence.
Qed.

Lemma SFleb_finite_neg mx ex my ey :
  SFleb (S754_finite true mx ex) (S754_finite true my ey) = true ->
  ey < ex \/ (ey = ex /\ (my <= mx)%positive).
Proof.
  unfold SFleb, SFcompare.
  destruct (Z.compare_spec ex ey) as [E|E|E]; try discriminate; auto.
  intros Hc. right. split; [now symmetry|].
  change (PosDef.Pos.compare_cont Eq mx my) with (Pos.compare mx my) in Hc.
  unfold Pos.le. rewrite Pos.compare_antisym.
  destruct (Pos.compare mx my); simpl in *; congruence.
Qed.

Lemma SFsub_not_positive x y :
  valid_binary x = true -> valid_binary y = true -> SFleb x y = true ->
  is_positive (SF64sub x y) = false.
Proof.
  intros Hx Hy Hle.
  destruct x as [sx|sx| |sx mx ex], y as [sy|sy| |sy my ey];
    try destruct sx; try destruct sy; try reflexivity; try discriminate Hle;
    unfold SF64sub, SFsub; apply binary_normalize_not_positive; simpl cond_Zopp.
  - apply SFleb_finite_neg in Hle.
    pose proof (@aligned_le my ey mx ex Hy Hx Hle) as Ha.
    rewrite (Z.min_comm ey ex) in Ha. lia.
  - lia.
  - apply SFleb_finite_pos in Hle.
    pose proof (@aligned_le mx ex my ey Hx Hy Hle). lia.
Qed.

Lemma SFsub_not_negative x y :
  valid_binary x = true -> valid_binary y = true -> SFleb x y = true ->
  is_negative (SF64sub y x) = false.
Proof.
  intros Hx Hy Hle.
  destruct x as [sx|sx| |sx mx ex], y as [sy|sy| |sy my ey];
    try destruct sx; try destruct sy; try reflexivity; try discriminate Hle;
    unfold SF64sub, SFsub; apply binary_normalize_not_negative; simpl cond_Zopp.
  - apply SFleb_finite_neg in Hle.
    pose proof (@aligned_le my ey mx ex Hy Hx Hle) as Ha. lia.
  - lia.
  - apply SFleb_finite_pos in Hle.
    pose proof (@aligned_le mx ex my ey Hx Hy Hle) as Ha.
    rewrite (Z.min_comm ex ey) in Ha. lia.
Qed.

Lemma SFmul_not_negative x y :
  is_negative x = false -> is_positive y = true ->
  is_negative (SF64mul x y) = false.
Proof.
  intros Hx Hy.
  destruct x as [sx|sx| |sx mx ex], y as [sy|sy| |sy my ey];
    try destruct sx; try destruct sy; try reflexivity; try discriminate.
  unfold SF64mul, SFmul.
  destruct (binary_round_aux_sign (xorb false false) (Zpos (mx * my)) (ex + ey) loc_Exact)
    as [E|[E|[E|(m' & e' & E)]]]; rewrite E; reflexivity.
Qed.

End F64Sign.

Import F64Sign.

#[export] Instance float_SignLaws : SignLaws float.
Proof.
  constructor; simpl.
  - intros a b Hab. rewrite ltb_zero_l, sub_spec. rewrite leb_spec in Hab.
    apply SFsub_not_positive; auto using Prim2SF_valid.
  - intros a b Hab. rewrite ltb_zero_r, sub_spec. rewrite leb_spec in Hab.
    apply SFsub_not_negative; auto using Prim2SF_valid.
  - intros a c Ha Hc. rewrite ltb_zero_r in *. rewrite ltb_zero_l in Hc.
    rewrite mul_spec. now apply SFmul_not_negative.
  - reflexivity.
Qed.

(** **** No underflow to zero

    A difference of two distinct values is at least the smallest
    subnormal, so it is rounded to a value that is not a zero. *)

Module F64Round.

Local Open Scope Z_scope.

Lemma iter_pos_succ {A : Type} (f : A -> A) (p : positive) (x : A) :
  iter_pos f (Pos.succ p) x = f (iter_pos f p x).
Proof.
  assert (Hcomm : forall p x, iter_pos f p (f x) = f (iter_pos f p x)).
  { clear. induction p as [p IH|p IH|]; intros x; simpl.
    - now rewrite !IH.
    - now rewrite !IH.
    - reflexivity. }
  revert x. induction p as [p IH|p IH|]; intros x; simpl.
  - rewrite !IH. now rewrite !Hcomm.
  - now rewrite !Hcomm.
  - reflexivity.
Qed.

Lemma shr_1_m mrs : 0 <= shr_m mrs -> shr_m (shr_1 mrs) = shr_m mrs / 2.
Proof.
  destruct mrs as [m r s]. simpl. intros Hm.
  destruct m as [|[p|p|]|p]; cbn [shr_m]; try lia;
    [apply Z.div_unique with (r := 0) | apply Z.div_unique with (r := 1)
    | apply Z.div_unique with (r := 0) | apply Z.div_unique with (r := 1)]; lia.
Qed.

Lemma iter_shr_1_m p mrs :
  0 <= shr_m mrs -> shr_m (iter_pos shr_1 p mrs) = shr_m mrs / 2 ^ Zpos p.
Proof.
  intros Hm. induction p as [|p IH] using Pos.peano_ind.
  - simpl iter_pos. rewrite shr_1_m by assumption. reflexivity.
  - rewrite iter_pos_succ, shr_1_m.
    + rewrite IH, Pos2Z.inj_succ, Z.pow_succ_r by lia.
      rewrite Z.div_div by lia. f_equal. lia.
    + rewrite IH. apply Z.div_pos; lia.
Qed.

(** Above the smallest exponent, the shift of [shr_fexp] leaves a positive
    mantissa positive. *)
Lemma shr_fexp_positive m e l :
  0 < m -> SpecFloat.emin prec emax <= e ->
  0 < shr_m (fst (shr_fexp prec emax m e l))
  /\ SpecFloat.emin prec emax <= snd (shr_fexp prec emax m e l).
Proof.
  intros Hm He. unfold shr_fexp, shr.
  destruct m as [|p|p]; try lia. simpl Zdigits2.
  pose proof (digits2_pos_bounds p) as [Hlo Hhi].
  assert (Hrec : shr_m (shr_record_of_loc (Zpos p) l) = Zpos p)
    by (destruct l as [|[]]; reflexivity).
  destruct (fexp prec emax (Zpos (digits2_pos p) + e) - e) as [|n|n] eqn:En; simpl.
  - rewrite Hrec. lia.
  - rewrite iter_shr_1_m by (rewrite Hrec; lia). rewrite Hrec. split; [|lia].
    assert (Hn : Zpos n <= Zpos (digits2_pos p) - 1).
    { unfold fexp, SpecFloat.emin, prec, emax in *. lia. }
    assert (2 ^ Zpos n <= Zpos p).
    { eapply Z.le_trans; [|exact Hlo]. apply Z.pow_le_mono_r; lia. }
    apply Z.div_str_pos. lia.
  - rewrite Hrec. lia.
Qed.

Lemma round_nearest_even_positive m l : 0 < m -> 0 < round_nearest_even m l.
Proof.
  intros Hm. destruct l as [|[]]; simpl; try lia. destruct (Z.even m); lia.
Qed.

(** A positive mantissa above the smallest exponent never rounds to a
    zero: the result is a finite value or an infinity of the given sign. *)
Lemma binary_round_aux_nonzero sx mx ex lx :
  0 < mx -> SpecFloat.emin prec emax <= ex ->
  binary_round_aux prec emax sx mx ex lx = S754_infinity sx
  \/ exists m e, binary_round_aux prec emax sx mx ex lx = S754_finite sx m e.
Proof.
  intros Hm He. unfold binary_round_aux.
  pose proof (@shr_fexp_positive mx ex lx Hm He) as [H1 H1'].
  destruct (shr_fexp prec emax mx ex lx) as [mrs' e']. simpl in H1, H1'.
  pose proof (@shr_fexp_positive _ e' loc_Exact
                (@round_nearest_even_positive _ (loc_of_shr_record mrs') H1) H1') as [H2 _].
  destruct (shr_fexp prec emax _ e' loc_Exact) as [mrs'' e'']. simpl in H2.
  destruct (shr_m mrs''); try lia.
  destruct (e'' <=? emax - prec); eauto.
Qed.

Lemma binary_round_nonzero sx mx ex :
  SpecFloat.emin prec emax <= ex ->
  binary_round prec emax sx mx ex = S754_infinity sx
  \/ exists m e, binary_round prec emax sx mx ex = S754_finite sx m e.
Proof.
  intros He. unfold binary_round.
  destruct (shl_align mx ex _) as [mz ez] eqn:E.
  apply binary_round_aux_nonzero; [lia|].
  unfold shl_align in E.
  destruct (_ - ex) as [|d|d] eqn:Ed; injection E as <- <-; try lia.
  unfold fexp. lia.
Qed.

Lemma binary_normalize_positive m e :
  0 < m -> SpecFloat.emin prec emax <= e ->
  is_positive (binary_normalize prec emax m e false) = true.
Proof.
  intros Hm He. destruct m as [|p|p]; try lia. simpl.
  destruct (@binary_round_nonzero false p e He) as [E|(m' & e' & E)]; rewrite E; reflexivity.
Qed.

Lemma aligned_lt mx ex my ey :
  bounded prec emax mx ex = true -> bounded prec emax my ey = true ->
  (ex < ey \/ (ex = ey /\ (mx < my)%positive)) ->
  Zpos (fst (shl_align mx ex (Z.min ex ey)))
  < Zpos (fst (shl_align my ey (Z.min ex ey))).
Proof.
  intros Hx Hy Hlt.
  apply bounded_facts in Hx. apply bounded_facts in Hy.
  rewrite !shl_align_value by lia.
  destruct Hlt as [Hlt|[-> Hm]].
  - rewrite Z.min_l by lia. rewrite Z.sub_diag.
    assert (2 ^ 1 <= 2 ^ (ey - ex)) by (apply Z.pow_le_mono_r; lia).
    change (2 ^ 0) with 1. change (2^1) with 2 in *.
    destruct Hy as (_ & [Hy|Hy] & _); [|lia]. nia.
  - rewrite Z.min_id, Z.sub_diag. change (2 ^ 0) with 1. lia.
Qed.

Lemma SFltb_finite_pos mx ex my ey :
  SFltb (S754_finite false mx ex) (S754_finite false my ey) = true ->
  ex < ey \/ (ex = ey /\ (mx < my)%positive).
Proof.
  unfold SFltb, SFcompare.
  destruct (Z.compare_spec ex ey) as [E|E|E]; try discriminate; auto.
  intros Hc. right. split; [exact E|].
  change (PosDef.Pos.compare_cont Eq mx my) with (Pos.compare mx my) in Hc.
  unfold Pos.lt. destruct (Pos.compare mx my); congruence.
Qed.

Lemma SFltb_finite_neg mx ex my ey :
  SFltb (S754_finite true mx ex) (S754_finite true my ey) = true ->
  ey < ex \/ (ey = ex /\ (my < mx)%positive).
Proof.
  unfold SFltb, SFcompare.
  destruct (Z.compare_spec ex ey) as [E|E|E]; try discriminate; auto.
  intros Hc. right. split; [now symmetry|].
  change (PosDef.Pos.compare_cont Eq mx my) with (Pos.compare mx my) in Hc.
  unfold Pos.lt. rewrite Pos.compare_antisym.
  destruct (Pos.compare mx my); simpl in *; congruence.
Qed.

Lemma valid_emin s m e :
  valid_binary (S754_finite s m e) = true -> SpecFloat.emin prec emax <= e.
Proof. intros Hv. apply bounded_facts in Hv. unfold SpecFloat.emin, prec, emax. lia. Qed.

(** The difference of two values in strict order is positive: it does not
    underflow to a zero. *)
Lemma SFsub_positive x y :
  valid_binary x = true -> valid_binary y = true -> SFltb y x = true ->
  is_positive (SF64sub x y) = true.
Proof.
  intros Hx Hy Hlt.
  destruct x as [sx|sx| |sx mx ex], y as [sy|sy| |sy my ey];
    try destruct sx; try destruct sy; try reflexivity; try discriminate Hlt;
    unfold SF64sub, SFsub; apply binary_normalize_positive; simpl cond_Zopp;
    try (apply Z.min_glb; eapply valid_emin; eassumption).
  - apply SFltb_finite_neg in Hlt.
    pose proof (@aligned_lt mx ex my ey Hx Hy Hlt) as Ha. lia.
  - lia.
  - apply SFltb_finite_pos in Hlt.
    pose proof (@aligned_lt my ey mx ex Hy Hx Hlt) as Ha.
    rewrite (Z.min_comm ey ex) in Ha. lia.
Qed.

End F64Round.

(** **** The mean of two numbers

    Values that [===] identifies are the same value or the two zeros, and
    a sum does not see the sign of a zero unless both operands are
    zeros. *)

Module F64Mean.

Import F64Round.
Local Open Scope Z_scope.

Definition is_finite (x : spec_float) : bool :=
  match x with
  | S754_zero _ | S754_finite _ _ _ => true
  | _ => false
  end.

Definition is_nan (x : spec_float) : bool :=
  match x with
  | S754_nan => true
  | _ => false
  end.

Lemma ltb_infinity x :
  PrimFloat.ltb (abs x) infinity = is_finite (Prim2SF x).
Proof.
  rewrite ltb_spec, abs_spec. change (Prim2SF infinity) with (S754_infinity false).
  now destruct (Prim2SF x) as [[]|[]| |[] m e].
Qed.

Lemma SFeqb_refl x : is_nan x = false -> SFeqb x x = true.
Proof.
  intros Hx. unfold SFeqb. rewrite SFcompare_key.
  destruct (key x) as [k|] eqn:E.
  - now rewrite (proj2 (cmp3_Eq k k) eq_refl).
  - destruct x as [[]|[]| |[] m e]; discriminate.
Qed.

(** Numbers that [===] identifies are the same value or two zeros. *)
Lemma key_same x x' :
  key x = key x' -> is_nan x = false ->
  x = x' \/ exists s s', x = S754_zero s /\ x' = S754_zero s'.
Proof.
  destruct x as [[]|[]| |[] m e], x' as [[]|[]| |[] m' e']; simpl;
    intros E Hx; try discriminate; eauto; injection E; intros; subst; auto.
  left. f_equal. lia.
Qed.

Definition two : spec_float := Eval cbv in Prim2SF 2.

Lemma SFsame_refl r :
  SFeqb r r = true \/ (is_nan r = true /\ is_nan r = true).
Proof.
  destruct (is_nan r) eqn:E; [now right | left; now apply SFeqb_refl].
Qed.

(** The mean of two numbers, for either of the zeros. *)
Lemma SFmean_same x x' y y' :
  is_nan x = false -> is_nan y = false ->
  key x = key x' -> key y = key y' ->
  let r := SF64div (SF64add x y) two in
  let r' := SF64div (SF64add x' y') two in
  SFeqb r r' = true \/ (is_nan r = true /\ is_nan r' = true).
Proof.
  intros Nx Ny Kx Ky.
  destruct (@key_same x x' Kx Nx) as [<-|(sx & sx' & -> & ->)],
           (@key_same y y' Ky Ny) as [<-|(sy & sy' & -> & ->)]; cbv zeta.
  - apply SFsame_refl.
  - destruct x as [[]|[]| |[] m e]; try discriminate; destruct sy, sy';
      try apply SFsame_refl; left; reflexivity.
  - destruct y as [[]|[]| |[] m e]; try discriminate; destruct sx, sx';
      try apply SFsame_refl; left; reflexivity.
  - left. now destruct sx, sx', sy, sy'.
Qed.

End F64Mean.

Import F64Round F64Mean.

Lemma leb_refl_number x : PrimFloat.leb x x = negb (is_nan (Prim2SF x)).
Proof.
  rewrite leb_spec. unfold SFleb. rewrite SFcompare_key.
  destruct (Prim2SF x) as [[]|[]| |[] m e]; simpl;
    rewrite ?Z.compare_refl, ?Pos.compare_refl; reflexivity.
Qed.

#[export] Instance float_MedianLaws : MedianLaws float.
Proof.
  constructor; unfold sameNumber, number; simpl.
  - intros a b. rewrite ltb_zero_l, sub_spec.
    destruct (PrimFloat.ltb b a) eqn:E.
    + rewrite ltb_spec in E. apply SFsub_positive; auto using Prim2SF_valid.
    + destruct (PrimFloat.leb a a) eqn:Ea, (PrimFloat.leb b b) eqn:Eb.
      * apply SFsub_not_positive; auto using Prim2SF_valid.
        rewrite <- leb_spec. exact (@leb_total float _ _ b a Eb Ea E).
      * rewrite leb_refl_number in Eb.
        destruct (Prim2SF b); try discriminate. now destruct (Prim2SF a).
      * rewrite leb_refl_number in Ea. now destruct (Prim2SF a).
      * rewrite leb_refl_number in Ea. now destruct (Prim2SF a).
  - intros a a' b b' Ha Hb Ea Eb. rewrite leb_refl_number in Ha, Hb.
    apply eqb_key in Ea, Eb.
    destruct Ea as (ka & Ka & Ka'), Eb as (kb & Kb & Kb').
    rewrite eqb_spec, !leb_refl_number, !div_spec, !add_spec.
    destruct (@SFmean_same (Prim2SF a) (Prim2SF a') (Prim2SF b) (Prim2SF b'))
      as [E|[E E']]; try congruence.
    + now destruct (is_nan (Prim2SF a)).
    + now destruct (is_nan (Prim2SF b)).
    + now left.
    + right. change (Prim2SF (F64.of_Z 2)) with two. rewrite E, E'. split; discriminate.
Qed.

(** **** Rounding to nearest is monotone

    The rounding of [SpecFloat] is followed bit by bit: the shifts keep
    the quotient and the position of the remainder with respect to the
    midpoint, so that the rounded value is a function of the exact value,
    an integer number of units of [2 ^ -1074], and this function is
    monotone. *)

Module F64Nearest.

Import F64Round F64Mean.
Local Open Scope Z_scope.

Lemma digits2_log2 p : Zpos (digits2_pos p) = Z.log2 (Zpos p) + 1.
Proof.
  pose proof (digits2_pos_bounds p) as Hb.
  rewrite (@Z.log2_unique (Zpos p) (Zpos (digits2_pos p) - 1)); try lia.
  replace (Z.succ (Zpos (digits2_pos p) - 1)) with (Zpos (digits2_pos p)) by lia.
  exact Hb.
Qed.

(** Where a remainder [rho] of a division by [2 ^ n] lies with respect to
    the midpoint. *)
Definition locOf (rho n : Z) : location :=
  if rho =? 0 then loc_Exact else loc_Inexact (2 * rho ?= 2 ^ n).

(** The round and sticky bits after [j] shifts describe the remainder. *)
Definition bitsOf (rho j : Z) (r s : bool) : Prop :=
  exists sigma,
    rho = (if r then 2 ^ (j - 1) else 0) + sigma
    /\ 0 <= sigma < 2 ^ (j - 1)
    /\ (s = true <-> sigma <> 0).

Lemma bitsOf_loc rho j r s m :
  1 <= j -> bitsOf rho j r s ->
  loc_of_shr_record (Build_shr_record m r s) = locOf rho j.
Proof.
  intros Hj (sigma & -> & Hs & Hiff). unfold locOf.
  assert (Hp : 2 ^ j = 2 * 2 ^ (j - 1)).
  { rewrite <- Z.pow_succ_r by lia. f_equal. lia. }
  assert (Hsig : if s then sigma <> 0 else sigma = 0).
  { destruct s; [now apply Hiff|]. destruct (Z.eq_dec sigma 0); [assumption|].
    assert (false = true) by (now apply Hiff). discriminate. }
  assert (0 < 2 ^ (j - 1)) by (apply Z.pow_pos_nonneg; lia).
  destruct r, s; cbn [loc_of_shr_record];
    match goal with
    | |- _ = (if ?c =? 0 then _ else loc_Inexact (?a ?= ?b)) =>
        destruct (Z.eqb_spec c 0); try lia; try reflexivity;
        destruct (Z.compare_spec a b); try lia; reflexivity
    end.
Qed.

Lemma shr_1_bits M j m r s :
  0 <= M -> 1 <= j -> m = M / 2 ^ j -> bitsOf (M mod 2 ^ j) j r s ->
  exists r' s',
    shr_1 (Build_shr_record m r s) = Build_shr_record (M / 2 ^ (j + 1)) r' s'
    /\ bitsOf (M mod 2 ^ (j + 1)) (j + 1) r' s'.
Proof.
  intros HM Hj Hm (sigma & Hrho & Hs & Hiff).
  assert (Hpj : 0 < 2 ^ j) by (apply Z.pow_pos_nonneg; lia).
  assert (Hp : 2 ^ (j + 1) = 2 ^ j * 2) by (rewrite Z.pow_add_r by lia; reflexivity).
  assert (Hhalf : 2 ^ j = 2 * 2 ^ (j - 1)).
  { rewrite <- Z.pow_succ_r by lia. f_equal. lia. }
  assert (Hm0 : 0 <= m) by (subst m; apply Z.div_pos; lia).
  assert (Hq : M / 2 ^ (j + 1) = m / 2).
  { rewrite Hp, <- Z.div_div by lia. now subst m. }
  assert (Hr : M mod 2 ^ (j + 1) = (m mod 2) * 2 ^ j + M mod 2 ^ j).
  { rewrite Hp, Z.rem_mul_r by lia. subst m. lia. }
  pose proof (Z.mod_pos_bound M (2 ^ j) Hpj) as Hbound.
  exists (Z.odd m), (r || s)%bool. split.
  - rewrite Hq. clear -Hm0.
    destruct m as [|[p|p|]|p]; try lia; cbn [shr_1]; f_equal;
      [apply Z.div_unique with (r := 1) | apply Z.div_unique with (r := 0)]; lia.
  - exists (M mod 2 ^ j). replace (j + 1 - 1) with j by lia.
    split; [|split; [exact Hbound|]].
    + rewrite Hr. rewrite Zmod_odd. destruct (Z.odd m); lia.
    + assert (Hsig : if s then sigma <> 0 else sigma = 0).
      { destruct s; [now apply Hiff|]. destruct (Z.eq_dec sigma 0); [assumption|].
        assert (false = true) by (now apply Hiff). discriminate. }
      assert (0 < 2 ^ (j - 1)) by (apply Z.pow_pos_nonneg; lia).
      rewrite Hrho. destruct r, s; simpl; split; intros; try reflexivity;
        try discriminate; lia.
Qed.

(** [p] shifts from an exact record: the quotient by [2 ^ p], and the
    location of the remainder. *)
Lemma iter_shr_1_spec p M :
  0 <= M ->
  exists r s,
    iter_pos shr_1 p (Build_shr_record M false false)
    = Build_shr_record (M / 2 ^ Zpos p) r s
    /\ bitsOf (M mod 2 ^ Zpos p) (Zpos p) r s.
Proof.
  intros HM. induction p as [|p IH] using Pos.peano_ind.
  - exists (Z.odd M), false. split.
    + cbn [iter_pos]. clear -HM.
      destruct M as [|[p|p|]|p]; try lia; cbn [shr_1]; f_equal;
        [apply Z.div_unique with (r := 1) | apply Z.div_unique with (r := 0)]; lia.
    + exists 0. change (2 ^ (1 - 1)) with 1. change (2 ^ 1) with 2.
      rewrite Zmod_odd. split; [destruct (Z.odd M); lia|]. split; [lia|].
      split; [discriminate | congruence].
  - destruct IH as (r & s & E & Hb).
    rewrite iter_pos_succ, E, Pos2Z.inj_succ.
    destruct (@shr_1_bits M (Zpos p) (M / 2 ^ Zpos p) r s HM ltac:(lia) eq_refl Hb)
      as (r' & s' & E' & Hb').
    exists r', s'. unfold Z.succ. auto.
Qed.


(** ***** The nearest value of a scaled integer

    [N] counts units of [2 ^ -1074].  [shiftOf N] is the number of low bits
    that do not fit in 53 bits of mantissa. *)

Definition shiftOf (N : Z) : Z := Z.max (Z.log2 N + 1 - 53) 0.

Definition rounded (N : Z) : Z :=
  round_nearest_even (N / 2 ^ shiftOf N) (locOf (N mod 2 ^ shiftOf N) (shiftOf N)).

Definition nearestPair (N : Z) : Z * Z :=
  if rounded N =? 2 ^ 53 then (2 ^ 52, -1074 + shiftOf N + 1)
  else (rounded N, -1074 + shiftOf N).

Definition nearestValue (sx : bool) (N : Z) : spec_float :=
  match fst (nearestPair N) with
  | Zpos p => if snd (nearestPair N) <=? emax - prec
              then S754_finite sx p (snd (nearestPair N))
              else S754_infinity sx
  | Z0 => S754_zero sx
  | Zneg _ => S754_nan
  end.

Lemma shiftOf_spec N :
  0 < N ->
  0 <= shiftOf N
  /\ 0 < N / 2 ^ shiftOf N < 2 ^ 53
  /\ (0 < shiftOf N -> 2 ^ 52 <= N / 2 ^ shiftOf N)
  /\ (shiftOf N = 0 -> N / 2 ^ shiftOf N = N /\ N mod 2 ^ shiftOf N = 0).
Proof.
  intros HN. unfold shiftOf.
  pose proof (Z.log2_spec N HN) as [Hlo Hhi].
  pose proof (Z.log2_nonneg N) as HL.
  set (L := Z.log2 N) in *.
  destruct (Z.max_spec (L + 1 - 53) 0) as [[Hc ->]|[Hc ->]].
  - (* fits *)
    change (2 ^ 0) with 1. rewrite Z.div_1_r, Z.mod_1_r.
    split; [lia|]. split; [|split; [lia|auto]].
    split; [lia|]. eapply Z.lt_le_trans; [exact Hhi|].
    apply Z.pow_le_mono_r; lia.
  - assert (Hn : 0 <= L + 1 - 53) by lia.
    assert (Hp : 0 < 2 ^ (L + 1 - 53)) by (apply Z.pow_pos_nonneg; lia).
    assert (E1 : 2 ^ Z.succ L = 2 ^ 53 * 2 ^ (L + 1 - 53)).
    { rewrite <- Z.pow_add_r by lia. f_equal. lia. }
    split; [lia|].
    destruct (Z.eq_dec (L + 1 - 53) 0) as [E0|E0].
    + rewrite E0. change (2 ^ 0) with 1. rewrite Z.div_1_r, Z.mod_1_r.
      split; [|split; [lia|auto]]. split; [lia|].
      rewrite E1, E0 in Hhi. change (2 ^ 0) with 1 in Hhi. lia.
    + assert (E2 : 2 ^ L = 2 ^ 52 * 2 ^ (L + 1 - 53)).
      { rewrite <- Z.pow_add_r by lia. f_equal. lia. }
      assert (H52 : 2 ^ 52 <= N / 2 ^ (L + 1 - 53)).
      { apply Z.div_le_lower_bound; lia. }
      split; [|split; [auto | lia]]. split; [lia|].
      apply Z.div_lt_upper_bound; lia.
Qed.

Lemma rounded_bounds N :
  0 < N ->
  N / 2 ^ shiftOf N <= rounded N <= N / 2 ^ shiftOf N + 1
  /\ (shiftOf N = 0 -> rounded N = N).
Proof.
  intros HN. unfold rounded. split.
  - destruct (locOf _ _) as [|[]]; simpl; try lia. destruct (Z.even _); lia.
  - intros E0. destruct (shiftOf_spec HN) as (_ & _ & _ & Hz).
    destruct (Hz E0) as [-> ->]. reflexivity.
Qed.

Lemma fexp_shift m e :
  0 < m -> -1074 <= e ->
  fexp prec emax (Z.log2 m + 1 + e) - e = shiftOf (m * 2 ^ (e + 1074)) - (e + 1074).
Proof.
  intros Hm He. unfold shiftOf, fexp, SpecFloat.emin, prec, emax.
  rewrite Z.log2_mul_pow2 by lia. lia.
Qed.

(** The first shift of the rounding: the quotient and the location of the
    remainder, for the scaled integer [N] of the mantissa. *)
Lemma shr_fexp_first M e :
  -1074 <= e -> e + 1074 <= shiftOf (Zpos M * 2 ^ (e + 1074)) ->
  let N := Zpos M * 2 ^ (e + 1074) in
  exists mrs,
    shr_fexp prec emax (Zpos M) e loc_Exact = (mrs, -1074 + shiftOf N)
    /\ shr_m mrs = N / 2 ^ shiftOf N
    /\ loc_of_shr_record mrs = locOf (N mod 2 ^ shiftOf N) (shiftOf N).
Proof.
  intros He Hk N. unfold shr_fexp. simpl Zdigits2. rewrite digits2_log2.
  rewrite fexp_shift by lia. fold N. change (e + 1074 <= shiftOf N) in Hk.
  set (n := shiftOf N) in *. set (k := e + 1074) in *.
  assert (Hpk : 0 < 2 ^ k) by (apply Z.pow_pos_nonneg; lia).
  unfold shr, shr_record_of_loc.
  destruct (n - k) as [|p|p] eqn:Ep.
  - assert (n = k) by lia. eexists. split; [f_equal; lia|]. cbn [shr_m loc_of_shr_record].
    replace n with k by lia. unfold N. rewrite Z.div_mul, Z.mod_mul by lia.
    split; reflexivity.
  - destruct (@iter_shr_1_spec p (Zpos M) ltac:(lia)) as (r & s & E & Hb).
    rewrite E. eexists. split; [f_equal; lia|]. cbn [shr_m].
    assert (Hn : 2 ^ n = 2 ^ Zpos p * 2 ^ k).
    { rewrite <- Z.pow_add_r by lia. f_equal. lia. }
    assert (Hpp : 0 < 2 ^ Zpos p) by (apply Z.pow_pos_nonneg; lia).
    split.
    + unfold N. rewrite Hn, Z.div_mul_cancel_r by lia. reflexivity.
    + rewrite (@bitsOf_loc _ (Zpos p) r s _ ltac:(lia) Hb).
      unfold locOf, N. rewrite Hn, Z.mul_mod_distr_r by lia.
      set (rho := Zpos M mod 2 ^ Zpos p).
      destruct (Z.eqb_spec rho 0) as [->|Hrho]; [reflexivity|].
      destruct (Z.eqb_spec (rho * 2 ^ k) 0) as [E0|_]; [nia|].
      f_equal. rewrite Z.mul_assoc.
      apply Zmult_compare_compat_r. lia.
  - exfalso. lia.
Qed.

(** The second shift: a carry out of the mantissa moves one bit. *)
Lemma shr_fexp_second N :
  0 < N ->
  exists mrs,
    shr_fexp prec emax (rounded N) (-1074 + shiftOf N) loc_Exact
    = (mrs, snd (nearestPair N))
    /\ shr_m mrs = fst (nearestPair N)
    /\ 0 < fst (nearestPair N).
Proof.
  intros HN.
  destruct (shiftOf_spec HN) as (Hn & [Hq0 Hq] & Hnormal & Hexact).
  destruct (rounded_bounds HN) as [[Hlo Hhi] Hsame].
  unfold nearestPair, shr_fexp, shr.
  set (n := shiftOf N) in *. set (m := rounded N) in *.
  destruct (Z.eqb_spec m (2 ^ 53)) as [E|E].
  - rewrite E. eexists. cbn [fst snd]. split; [|split; [|reflexivity]].
    + replace (fexp prec emax (Zdigits2 (2 ^ 53) + (-1074 + n)) - (-1074 + n)) with 1.
      * cbn [iter_pos]. reflexivity.
      * change (Zdigits2 (2 ^ 53)) with 54.
        unfold fexp, SpecFloat.emin, prec, emax. lia.
    + reflexivity.
  - assert (Hm : 0 < m < 2 ^ 53) by lia.
    destruct m as [|p|p] eqn:Em; try lia.
    simpl Zdigits2. rewrite digits2_log2.
    pose proof (Z.log2_spec (Zpos p) ltac:(lia)) as [Hl1 Hl2].
    pose proof (Z.log2_nonneg (Zpos p)) as Hl0.
    assert (Hl53 : Z.log2 (Zpos p) < 53).
    { apply Z.log2_lt_pow2; lia. }
    assert (Hshift : fexp prec emax (Z.log2 (Zpos p) + 1 + (-1074 + n)) - (-1074 + n) = 0).
    { unfold fexp, SpecFloat.emin, prec, emax.
      destruct (Z.eq_dec n 0) as [E0|E0]; [lia|].
      assert (52 <= Z.log2 (Zpos p)) by (apply Z.log2_le_pow2; lia).
      lia. }
    rewrite Hshift. eexists. cbn [fst snd shr_m shr_record_of_loc].
    split; [reflexivity|]. split; [reflexivity | lia].
Qed.

(** Rounding a mantissa at an exponent is taking the nearest value of its
    scaled integer. *)
Lemma binary_round_aux_nearest sx M e :
  -1074 <= e -> e + 1074 <= shiftOf (Zpos M * 2 ^ (e + 1074)) ->
  binary_round_aux prec emax sx (Zpos M) e loc_Exact
  = nearestValue sx (Zpos M * 2 ^ (e + 1074)).
Proof.
  intros He Hk. unfold binary_round_aux.
  destruct (@shr_fexp_first M e He Hk) as (mrs & -> & Hm & Hloc).
  rewrite Hm, Hloc. fold (rounded (Zpos M * 2 ^ (e + 1074))).
  assert (HN : 0 < Zpos M * 2 ^ (e + 1074)).
  { apply Z.mul_pos_pos; [lia | apply Z.pow_pos_nonneg; lia]. }
  destruct (@shr_fexp_second _ HN) as (mrs' & -> & Hm' & Hpos).
  rewrite Hm'. unfold nearestValue.
  destruct (fst (nearestPair _)); try lia. reflexivity.
Qed.

Lemma binary_round_nearest sx M e :
  -1074 <= e ->
  binary_round prec emax sx M e = nearestValue sx (Zpos M * 2 ^ (e + 1074)).
Proof.
  intros He. unfold binary_round. rewrite digits2_log2.
  pose proof (@fexp_shift (Zpos M) e ltac:(lia) He) as Hf.
  set (N := Zpos M * 2 ^ (e + 1074)) in *.
  set (e' := fexp prec emax (Z.log2 (Zpos M) + 1 + e)) in *.
  assert (He' : -1074 <= e')
    by (unfold e', fexp, SpecFloat.emin, prec, emax; lia).
  unfold shl_align.
  destruct (e' - e) as [|d|d] eqn:Ed.
  - rewrite binary_round_aux_nearest; fold N; try lia. reflexivity.
  - rewrite binary_round_aux_nearest; fold N; try lia. reflexivity.
  - assert (HN : Zpos (Pos.iter xO M d) * 2 ^ (e' + 1074) = N).
    { rewrite iter_xO. unfold N. rewrite <- Z.mul_assoc, <- Z.pow_add_r by lia.
      f_equal. f_equal. lia. }
    rewrite binary_round_aux_nearest; rewrite ?HN; try lia. reflexivity.
Qed.


(** ***** The nearest value grows with the integer *)

Lemma shiftOf_mono N1 N2 : 0 < N1 <= N2 -> shiftOf N1 <= shiftOf N2.
Proof.
  intros HN. unfold shiftOf.
  pose proof (Z.log2_le_mono N1 N2 ltac:(lia)). lia.
Qed.

Lemma round_nearest_even_mono q rho1 rho2 n :
  0 <= rho1 <= rho2 ->
  round_nearest_even q (locOf rho1 n) <= round_nearest_even q (locOf rho2 n).
Proof.
  intros Hrho. unfold locOf.
  destruct (Z.eqb_spec rho1 0) as [E1|E1], (Z.eqb_spec rho2 0) as [E2|E2];
    try lia; cbn [round_nearest_even].
  - destruct (2 * rho2 ?= 2 ^ n); try lia. destruct (Z.even q); lia.
  - destruct (Z.compare_spec (2 * rho1) (2 ^ n)), (Z.compare_spec (2 * rho2) (2 ^ n));
      try lia; destruct (Z.even q); lia.
Qed.

Lemma rounded_mono N1 N2 :
  0 < N1 <= N2 -> shiftOf N1 = shiftOf N2 -> rounded N1 <= rounded N2.
Proof.
  intros HN En.
  destruct (@rounded_bounds N1 ltac:(lia)) as [[Hlo1 Hhi1] _].
  destruct (@rounded_bounds N2 ltac:(lia)) as [[Hlo2 Hhi2] _].
  destruct (@shiftOf_spec N1 ltac:(lia)) as (Hn & _).
  assert (Hp : 0 < 2 ^ shiftOf N1) by (apply Z.pow_pos_nonneg; lia).
  pose proof (Z.div_le_mono N1 N2 (2 ^ shiftOf N1) Hp ltac:(lia)) as Hq.
  rewrite <- En in *.
  destruct (Z.eq_dec (N1 / 2 ^ shiftOf N1) (N2 / 2 ^ shiftOf N1)) as [E|E]; [|lia].
  unfold rounded. rewrite <- En, <- E.
  apply round_nearest_even_mono.
  pose proof (Z.div_mod N1 (2 ^ shiftOf N1) ltac:(lia)) as D1.
  pose proof (Z.div_mod N2 (2 ^ shiftOf N1) ltac:(lia)) as D2.
  pose proof (Z.mod_pos_bound N1 (2 ^ shiftOf N1) Hp).
  rewrite <- E in D2. lia.
Qed.

Lemma nearestPair_positive N : 0 < N -> 0 < fst (nearestPair N).
Proof. intros HN. now destruct (shr_fexp_second HN) as (mrs & _ & _ & Hpos). Qed.

(** Mantissa and exponent of the nearest value grow, exponent first. *)
Lemma nearestPair_mono N1 N2 :
  0 < N1 <= N2 ->
  snd (nearestPair N1) < snd (nearestPair N2)
  \/ (snd (nearestPair N1) = snd (nearestPair N2)
      /\ fst (nearestPair N1) <= fst (nearestPair N2)).
Proof.
  intros HN.
  pose proof (shiftOf_mono HN) as Hn.
  destruct (@rounded_bounds N1 ltac:(lia)) as [[Hlo1 Hhi1] _].
  destruct (@rounded_bounds N2 ltac:(lia)) as [[Hlo2 Hhi2] _].
  destruct (@shiftOf_spec N1 ltac:(lia)) as (Hn1 & [_ Hq1] & _ & _).
  destruct (@shiftOf_spec N2 ltac:(lia)) as (Hn2 & [_ Hq2] & Hnormal2 & _).
  unfold nearestPair.
  destruct (Z.eq_dec (shiftOf N1) (shiftOf N2)) as [E|E].
  - pose proof (rounded_mono HN E) as Hr. rewrite E.
    destruct (Z.eqb_spec (rounded N1) (2 ^ 53)), (Z.eqb_spec (rounded N2) (2 ^ 53));
      cbn [fst snd]; lia.
  - destruct (Z.eqb_spec (rounded N1) (2 ^ 53)), (Z.eqb_spec (rounded N2) (2 ^ 53));
      cbn [fst snd]; lia.
Qed.

Lemma nearestValue_zero sx : nearestValue sx 0 = S754_zero sx.
Proof. reflexivity. Qed.

Lemma nearestValue_mono N1 N2 :
  0 <= N1 <= N2 ->
  SFleb (nearestValue false N1) (nearestValue false N2) = true.
Proof.
  intros HN.
  destruct (Z.eq_dec N1 0) as [->|H1].
  - rewrite nearestValue_zero. destruct (Z.eq_dec N2 0) as [->|H2]; [reflexivity|].
    unfold nearestValue. pose proof (@nearestPair_positive N2 ltac:(lia)).
    destruct (fst (nearestPair N2)); try lia.
    destruct (_ <=? _); reflexivity.
  - pose proof (@nearestPair_mono N1 N2 ltac:(lia)) as Hm.
    pose proof (@nearestPair_positive N1 ltac:(lia)).
    pose proof (@nearestPair_positive N2 ltac:(lia)).
    unfold nearestValue.
    destruct (fst (nearestPair N1)) as [|m1|m1]; try lia.
    destruct (fst (nearestPair N2)) as [|m2|m2]; try lia.
    set (e1 := snd (nearestPair N1)) in *. set (e2 := snd (nearestPair N2)) in *.
    destruct (Z.leb_spec e1 (emax - prec)), (Z.leb_spec e2 (emax - prec));
      try reflexivity; try lia.
    unfold SFleb, SFcompare.
    destruct Hm as [Hlt|[-> Hle]].
    + now rewrite (proj2 (Z.compare_lt_iff e1 e2) Hlt).
    + rewrite Z.compare_refl.
      change (PosDef.Pos.compare_cont Eq m1 m2) with (Pos.compare m1 m2).
      destruct (Pos.compare_spec m1 m2); try reflexivity. lia.
Qed.

Lemma SFabs_nearestValue sx N :
  SFabs (nearestValue sx N) = nearestValue false N.
Proof.
  unfold nearestValue. destruct (fst (nearestPair N)); try reflexivity.
  destruct (_ <=? _); reflexivity.
Qed.

(** ***** Values as scaled integers *)

Definition Zval (x : spec_float) : Z :=
  match x with
  | S754_finite s m e => cond_Zopp s (Zpos m * 2 ^ (e + 1074))
  | _ => 0
  end.

(** A canonical value is its own nearest value. *)
Lemma nearestValue_canonical sx m e :
  bounded prec emax m e = true ->
  nearestValue sx (Zpos m * 2 ^ (e + 1074)) = S754_finite sx m e.
Proof.
  intros Hb. pose proof (bounded_facts _ _ Hb) as (Hm & _ & He).
  unfold bounded, canonical_mantissa in Hb. apply andb_true_iff in Hb.
  destruct Hb as [Hc Hmax]. apply Z.eqb_eq in Hc. apply Z.leb_le in Hmax.
  rewrite digits2_log2 in Hc.
  assert (Hp : 0 < 2 ^ (e + 1074)) by (apply Z.pow_pos_nonneg; lia).
  assert (Hs : shiftOf (Zpos m * 2 ^ (e + 1074)) = e + 1074).
  { unfold shiftOf. rewrite Z.log2_mul_pow2 by lia.
    unfold fexp, SpecFloat.emin, prec, emax in Hc. lia. }
  assert (Hr : rounded (Zpos m * 2 ^ (e + 1074)) = Zpos m).
  { unfold rounded. rewrite Hs, Z.div_mul, Z.mod_mul by lia. reflexivity. }
  unfold nearestValue, nearestPair. rewrite Hr, Hs.
  destruct (Z.eqb_spec (Zpos m) (2 ^ 53)); [lia|]. cbn [fst snd].
  replace (-1074 + (e + 1074)) with e by lia.
  destruct (Z.leb_spec e (emax - prec)); [reflexivity | lia].
Qed.

Lemma Zval_aligned m e ez :
  -1074 <= ez <= e ->
  Zpos m * 2 ^ (e + 1074) = Zpos (fst (shl_align m e ez)) * 2 ^ (ez + 1074).
Proof.
  intros He. rewrite shl_align_value by lia.
  rewrite <- Z.mul_assoc, <- Z.pow_add_r by lia. f_equal. f_equal. lia.
Qed.


Lemma Zval_positive m e : 0 < Zpos m * 2 ^ (e + 1074) \/ e + 1074 < 0.
Proof.
  destruct (Z.lt_ge_cases (e + 1074) 0); [now right|]. left.
  apply Z.mul_pos_pos; [lia | apply Z.pow_pos_nonneg; lia].
Qed.

(** The order of finite values is the order of their scaled integers. *)
Lemma SFleb_Zval x y :
  valid_binary x = true -> valid_binary y = true ->
  is_finite x = true -> is_finite y = true ->
  SFleb x y = true -> Zval x <= Zval y.
Proof.
  intros Hx Hy Fx Fy Hle.
  destruct x as [sx|sx| |sx mx ex], y as [sy|sy| |sy my ey]; try discriminate;
    cbn [Zval]; try lia.
  - pose proof (bounded_facts _ _ Hy) as (_ & _ & He).
    destruct (Zval_positive my ey); [|lia].
    destruct sy; [discriminate Hle | cbn [cond_Zopp]; lia].
  - pose proof (bounded_facts _ _ Hx) as (_ & _ & He).
    destruct (Zval_positive mx ex); [|lia].
    destruct sx; [cbn [cond_Zopp]; lia | discriminate Hle].
  - pose proof (bounded_facts _ _ Hx) as (_ & _ & Hex).
    pose proof (bounded_facts _ _ Hy) as (_ & _ & Hey).
    destruct (Zval_positive mx ex); [|lia].
    destruct (Zval_positive my ey); [|lia].
    assert (Hp : 0 < 2 ^ (Z.min ex ey + 1074)) by (apply Z.pow_pos_nonneg; lia).
    destruct sx, sy; cbn [cond_Zopp]; try lia; try discriminate Hle.
    + apply SFleb_finite_neg in Hle.
      pose proof (@aligned_le my ey mx ex Hy Hx Hle) as Ha.
      rewrite (@Zval_aligned mx ex (Z.min ey ex)), (@Zval_aligned my ey (Z.min ey ex)) by lia.
      rewrite (Z.min_comm ey ex) in *. nia.
    + apply SFleb_finite_pos in Hle.
      pose proof (@aligned_le mx ex my ey Hx Hy Hle) as Ha.
      rewrite (@Zval_aligned mx ex (Z.min ex ey)), (@Zval_aligned my ey (Z.min ex ey)) by lia.
      nia.
Qed.

Lemma binary_normalize_nearest D e :
  -1074 <= e ->
  SFabs (binary_normalize prec emax D e false)
  = nearestValue false (Z.abs D * 2 ^ (e + 1074)).
Proof.
  intros He. destruct D as [|p|p]; simpl binary_normalize.
  - reflexivity.
  - rewrite binary_round_nearest by assumption. apply SFabs_nearestValue.
  - rewrite binary_round_nearest by assumption. apply SFabs_nearestValue.
Qed.

(** The magnitude of a difference of finite values is the nearest value
    of the exact difference. *)
Lemma SFabs_sub x y :
  valid_binary x = true -> valid_binary y = true ->
  is_finite x = true -> is_finite y = true ->
  SFabs (SF64sub x y) = nearestValue false (Z.abs (Zval x - Zval y)).
Proof.
  intros Hx Hy Fx Fy.
  destruct x as [sx|sx| |sx mx ex], y as [sy|sy| |sy my ey]; try discriminate.
  - now destruct sx, sy.
  - pose proof (bounded_facts _ _ Hy) as (_ & _ & He).
    destruct (Zval_positive my ey); [|lia].
    cbn [SF64sub SFsub SFabs Zval].
    replace (Z.abs (0 - cond_Zopp sy (Zpos my * 2 ^ (ey + 1074))))
      with (Zpos my * 2 ^ (ey + 1074)) by (destruct sy; cbn [cond_Zopp]; lia).
    symmetry. now apply nearestValue_canonical.
  - pose proof (bounded_facts _ _ Hx) as (_ & _ & He).
    destruct (Zval_positive mx ex); [|lia].
    cbn [SF64sub SFsub SFabs Zval].
    replace (Z.abs (cond_Zopp sx (Zpos mx * 2 ^ (ex + 1074)) - 0))
      with (Zpos mx * 2 ^ (ex + 1074)) by (destruct sx; cbn [cond_Zopp]; lia).
    symmetry. now apply nearestValue_canonical.
  - pose proof (bounded_facts _ _ Hx) as (_ & _ & Hex).
    pose proof (bounded_facts _ _ Hy) as (_ & _ & Hey).
    unfold SF64sub, SFsub. rewrite binary_normalize_nearest by lia.
    f_equal. cbn [Zval].
    rewrite (@Zval_aligned mx ex (Z.min ex ey)), (@Zval_aligned my ey (Z.min ex ey)) by lia.
    assert (Hp : 0 < 2 ^ (Z.min ex ey + 1074)) by (apply Z.pow_pos_nonneg; lia).
    set (X := Zpos (fst (shl_align mx ex (Z.min ex ey)))).
    set (Y := Zpos (fst (shl_align my ey (Z.min ex ey)))).
    set (P := 2 ^ (Z.min ex ey + 1074)) in *.
    rewrite <- (Z.abs_eq P) at 1 by lia. rewrite <- Z.abs_mul. f_equal.
    destruct sx, sy; cbn [cond_Zopp]; lia.
Qed.

Lemma SFsub_finite x y :
  is_finite (SF64sub x y) = true -> is_finite x = true /\ is_finite y = true.
Proof.
  destruct x as [sx|sx| |sx mx ex], y as [sy|sy| |sy my ey];
    try destruct sx; try destruct sy; try discriminate; auto.
Qed.

End F64Nearest.

Import F64Nearest.

#[export] Instance float_DistanceLaws : DistanceLaws float.
Proof.
  constructor; unfold finite, number; simpl.
  - intros a t Hf. rewrite ltb_infinity, sub_spec in Hf.
    apply SFsub_finite in Hf. rewrite !leb_refl_number.
    destruct Hf as [Ha Ht]. split; [now destruct (Prim2SF a) | now destruct (Prim2SF t)].
  - intros a b t Ha Hb Hab Hbt.
    rewrite ltb_infinity, sub_spec in Ha, Hb.
    apply SFsub_finite in Ha, Hb. destruct Ha as [Fa Ft], Hb as [Fb _].
    rewrite leb_spec in Hab, Hbt.
    apply SFleb_Zval in Hab, Hbt; auto using Prim2SF_valid.
    rewrite leb_spec, !abs_spec, !sub_spec, !SFabs_sub by auto using Prim2SF_valid.
    apply nearestValue_mono. lia.
  - intros a b t Ha Hb Hta Hab.
    rewrite ltb_infinity, sub_spec in Ha, Hb.
    apply SFsub_finite in Ha, Hb. destruct Ha as [Fa Ft], Hb as [Fb _].
    rewrite leb_spec in Hta, Hab.
    apply SFleb_Zval in Hta, Hab; auto using Prim2SF_valid.
    rewrite leb_spec, !abs_spec, !sub_spec, !SFabs_sub by auto using Prim2SF_valid.
    apply nearestValue_mono. lia.
  - intros a t Ha Hat Hta.
    rewrite ltb_infinity, sub_spec in Ha.
    apply SFsub_finite in Ha. destruct Ha as [Fa Ft].
    rewrite leb_spec in Hat, Hta.
    apply SFleb_Zval in Hat, Hta; auto using Prim2SF_valid.
    rewrite ltb_spec, abs_spec, sub_spec, SFabs_sub by auto using Prim2SF_valid.
    replace (Zval (Prim2SF a) - Zval (Prim2SF t))%Z with 0%Z by lia.
    reflexivity.
Qed.

(** **** [Math.round] on binary64

    The value of a finite double is an integer number of units of
    [2 ^ -1074]; an integer [r] is [r * 2 ^ 1074] units. *)

Module F64Integer.

Local Open Scope Z_scope.

(** An integer below [2 ^ 53] is a double. *)
Lemma integer_canonical p :
  Zpos p < 2 ^ 53 ->
  exists m e,
    bounded prec emax m e = true
    /\ Zpos m * 2 ^ (e + 1074) = Zpos p * 2 ^ 1074.
Proof.
  intros Hp.
  pose proof (Z.log2_spec (Zpos p) ltac:(lia)) as [Hlo Hhi].
  pose proof (Z.log2_nonneg (Zpos p)) as HL.
  assert (HL52 : Z.log2 (Zpos p) < 53) by (apply Z.log2_lt_pow2; lia).
  set (L := Z.log2 (Zpos p)) in *.
  assert (Hpow : 0 < 2 ^ (52 - L)) by (apply Z.pow_pos_nonneg; lia).
  assert (Hm : 0 < Zpos p * 2 ^ (52 - L)) by lia.
  exists (Z.to_pos (Zpos p * 2 ^ (52 - L))), (L - 52).
  assert (Hlog : Z.log2 (Zpos p * 2 ^ (52 - L)) = 52).
  { rewrite Z.log2_mul_pow2 by lia. fold L. lia. }
  split.
  - unfold bounded, canonical_mantissa. apply andb_true_iff. split.
    + apply Z.eqb_eq. rewrite digits2_log2, Z2Pos.id, Hlog by lia.
      unfold fexp, SpecFloat.emin, prec, emax. lia.
    + apply Z.leb_le. unfold prec, emax. lia.
  - rewrite Z2Pos.id by lia. rewrite <- Z.mul_assoc, <- Z.pow_add_r by lia.
    f_equal. f_equal. lia.
Qed.



End F64Integer.

Import F64Integer.

(** *** The laws hold of exact arithmetic *)

Lemma Exact_ltb_lt (a b : Q) : Exact.ltb a b = true <-> (a < b)%Q.
Proof.
  unfold Exact.ltb. destruct (Qle_bool b a) eqn:E; simpl.
  - apply Qle_bool_iff in E. split; [discriminate|].
    intros Hlt. exfalso. exact (Qlt_not_le _ _ Hlt E).
  - split; [intros _|reflexivity]. apply Qnot_le_lt. intros Hle.
    apply Qle_bool_iff in Hle. congruence.
Qed.

Lemma Exact_ltb_ge (a b : Q) : Exact.ltb a b = false <-> (b <= a)%Q.
Proof.
  unfold Exact.ltb. destruct (Qle_bool b a) eqn:E; simpl.
  - apply Qle_bool_iff in E. tauto.
  - split; [discriminate|]. intros Hle. apply Qle_bool_iff in Hle. congruence.
Qed.

Ltac exact_props :=
  cbv [ltb leb eqb add sub mul div neg Math_abs half of_Z below_Infinity
       Q_Number] in *;
  repeat match goal with
  | H : Exact.ltb _ _ = true |- _ => apply Exact_ltb_lt in H
  | H : Exact.ltb _ _ = false |- _ => apply Exact_ltb_ge in H
  | H : Qle_bool _ _ = true |- _ => apply Qle_bool_iff in H
  | H : Qeq_bool _ _ = true |- _ => apply Qeq_bool_iff in H
  | |- Exact.ltb _ _ = true => apply Exact_ltb_lt
  | |- Exact.ltb _ _ = false => apply Exact_ltb_ge
  | |- Qle_bool _ _ = true => apply Qle_bool_iff
  | |- Qeq_bool _ _ = true => apply Qeq_bool_iff
  end.

#[export] Instance Q_OrderLaws : OrderLaws Q.
Proof.
  constructor; intros; exact_props; try lra; try reflexivity.
  - destruct (Qle_bool b a) eqn:E; [|reflexivity]. exact_props. lra.
  - destruct (Qeq_bool a b) eqn:E; symmetry.
    + apply andb_true_iff. split; exact_props; lra.
    + apply not_true_iff_false. intros Hc. apply andb_true_iff in Hc.
      destruct Hc as [H1 H2]. apply not_true_iff_false in E. apply E.
      exact_props. lra.
Qed.

#[export] Instance Q_SignLaws : SignLaws Q.
Proof.
  constructor; intros; exact_props; unfold inject_Z in *; try lra.
  apply Qmult_le_0_compat; lra.
Qed.

Lemma Qabs_le_cases (x y : Q) :
  ((x <= y /\ - x <= y) -> Qabs x <= y)%Q.
Proof. intros [H1 H2]. apply Qabs_case; intros; lra. Qed.

Lemma Qabs_ge (x : Q) : (x <= Qabs x /\ - x <= Qabs x)%Q.
Proof.
  split; [apply Qle_Qabs|]. rewrite <- Qabs_opp. apply Qle_Qabs.
Qed.

#[export] Instance Q_MedianLaws : MedianLaws Q.
Proof.
  constructor; unfold sameNumber, number; intros; exact_props.
  - destruct (Exact.ltb b a) eqn:E; exact_props; unfold inject_Z in *; lra.
  - left. exact_props. unfold Qdiv. apply Qmult_comp; [lra | reflexivity].
Qed.

#[export] Instance Q_DistanceLaws : DistanceLaws Q.
Proof.
  constructor; unfold finite, number; intros; exact_props; try reflexivity; try lra.
  - split; exact_props; lra.
  - apply Qabs_le_cases. pose proof (Qabs_ge (a - t)). lra.
  - apply Qabs_le_cases. pose proof (Qabs_ge (b - t)). lra.
  - apply Qle_lt_trans with (y := 0%Q); [|reflexivity].
    apply Qabs_le_cases. lra.
Qed.

Section DetectorProofs.

Context {num : Type} `{Number num}.
Local Open Scope num_scope.

Lemma responds_qualifies (cfg : Config num) (prev curr future : Sample num) :
  responds cfg (- Math_sign (pw curr - pw prev)) curr future = true
  <-> qualifies cfg prev curr future.
Proof.
  unfold responds, qualifies, timeDiff.
  rewrite !andb_true_iff. tauto.
Qed.

(** The inner loop: either it stops at the first responding sample of the
    range it scans, or no sample of the range responds. *)
Lemma lookAhead_first (cfg : Config num) (samples : list (Sample num))
      (curr : Sample num) (dir : num) (k j : nat) :
  j + k <= length samples ->
  (exists j' future,
      j <= j' < j + k /\ nth_error samples j' = Some future /\
      responds cfg dir curr future = true /\
      (forall i f, j <= i < j' -> nth_error samples i = Some f ->
                   responds cfg dir curr f = false) /\
      lookAhead cfg samples curr dir j k = [timeDiff curr future])
  \/
  ((forall i f, j <= i < j + k -> nth_error samples i = Some f ->
                responds cfg dir curr f = false) /\
   lookAhead cfg samples curr dir j k = []).
Proof.
  revert j. induction k as [|k IH]; intros j Hlen.
  - right. split; [intros i f Hi; lia | reflexivity].
  - simpl. destruct (nth_error samples j) as [future|] eqn:Hj.
    + destruct (responds cfg dir curr future) eqn:Hr.
      * left. exists j, future. repeat split; try lia; auto.
      * destruct (IH (S j)) as [(j' & f' & Hj' & Hn & Hq & Hfirst & Hout)|[Hnone Hout]];
          [lia | |].
        -- left. exists j', f'. repeat split; try lia; auto.
           intros i f Hi Hf. destruct (Nat.eq_dec i j) as [->|Hne].
           ++ congruence.
           ++ apply (Hfirst i f); [lia | exact Hf].
        -- right. split; [|exact Hout].
           intros i f Hi Hf. destruct (Nat.eq_dec i j) as [->|Hne].
           ++ congruence.
           ++ apply (Hnone i f); [lia | exact Hf].
    + apply nth_error_None in Hj. lia.
Qed.

Lemma detectFrom_concat (cfg : Config num) (samples : list (Sample num)) (k i : nat) :
  detectFrom cfg samples i k = concat (map (detectAt cfg samples) (seq i k)).
Proof.
  revert i. induction k as [|k IH]; intros i; simpl; [reflexivity|].
  now rewrite IH.
Qed.

Lemma detectAt_event (cfg : Config num) (samples : list (Sample num)) (i : nat) :
  1 <= i -> i + 1 < length samples ->
  event cfg samples i (detectAt cfg samples i).
Proof.
  intros Hi Hn. unfold event, detectAt.
  destruct (nth_error samples (i - 1)) as [prev|] eqn:Hp;
    [|apply nth_error_None in Hp; lia].
  destruct (nth_error samples i) as [curr|] eqn:Hc;
    [|apply nth_error_None in Hc; lia].
  exists prev, curr. repeat split.
  destruct (Math_abs (pw curr - pw prev) <? PW_CHANGE_THRESHOLD cfg) eqn:Hpw.
  - left. auto.
  - right. split; [reflexivity|].
    destruct (lookAhead_first cfg samples curr (- Math_sign (pw curr - pw prev))
                (Nat.min (i + 100) (length samples) - (i + 1)) (i + 1))
      as [(j & future & Hj & Hf & Hq & Hfirst & Hout)|[Hnone Hout]]; [lia| |].
    + left. exists j, future. repeat split; try lia; auto.
      * apply responds_qualifies in Hq. apply Hq.
      * apply responds_qualifies in Hq. apply Hq.
      * apply responds_qualifies in Hq. apply Hq.
      * intros j' f Hj' Hf' Hq'. apply responds_qualifies in Hq'.
        rewrite (Hfirst j' f) in Hq'; [discriminate | lia | exact Hf'].
    + right. split; [|exact Hout].
      intros j f Hj Hf Hq. apply responds_qualifies in Hq.
      rewrite (Hnone j f) in Hq; [discriminate | lia | exact Hf].
Qed.

Lemma lookAhead_length (cfg : Config num) (samples : list (Sample num))
      (curr : Sample num) (dir : num) (k j : nat) :
  length (lookAhead cfg samples curr dir j k) <= 1.
Proof.
  revert j. induction k as [|k IH]; intros j; simpl; [lia|].
  destruct (nth_error samples j); [|simpl; lia].
  destruct (responds cfg dir curr s); [simpl; lia | apply IH].
Qed.

Lemma detectAt_length (cfg : Config num) (samples : list (Sample num)) (i : nat) :
  length (detectAt cfg samples i) <= 1.
Proof.
  unfold detectAt.
  destruct (nth_error samples (i - 1)); [|simpl; lia].
  destruct (nth_error samples i); [|simpl; lia].
  destruct (_ <? _); [simpl; lia | apply lookAhead_length].
Qed.

(** Sorting leaves a list alone when no element has to move behind its
    successors. *)
Lemma sort_sorted {A : Type} (cmp : A -> A -> num) (l : list A) :
  StronglySorted (fun a b => (cmp a b >? 0) = false) l -> sort cmp l = l.
Proof.
  induction 1 as [|x l Hl IH Hx]; [reflexivity|].
  change (sort cmp (x :: l)) with (sort_insert cmp x (sort cmp l)).
  rewrite IH.
  destruct l as [|y l']; [reflexivity|].
  simpl. inversion Hx as [|? ? Hxy _]; subst. now rewrite Hxy.
Qed.

Lemma sort_byTime_sorted `{!SignLaws num} (samples : list (Sample num)) :
  time_sorted samples -> sort byTime samples = samples.
Proof.
  intros Hs. apply sort_sorted.
  induction Hs as [|x l Hl IH Hx]; constructor; auto.
  eapply Forall_impl; [|exact Hx].
  intros b Hb. unfold byTime. now apply sub_not_pos.
Qed.

(** C1. On a sample list sorted ascending by time, the detector's output is
    the concatenation, over the indices [i = 1 .. n-2] in order, of what
    each index gives rise to: nothing when the pulsewidth change at [i] is
    below the threshold; otherwise the time difference (in ms) to the first
    sample [j] of the window [i+1 <= j < min (i+100, n)] whose lambda moved
    against the pulsewidth change by at least the lambda threshold within
    [MAX_DELAY_MS], and nothing when the window has no such sample.  Each
    index gives at most one measurement. *)
Theorem detector_first_match `{!SignLaws num}
        (cfg : Config num) (samples : list (Sample num)) :
  time_sorted samples ->
  exists outs : list (list num),
    findDelaysInSequence cfg samples = concat outs
    /\ length outs = (length samples - 2)%nat
    /\ forall k, (k < length samples - 2)%nat ->
         event cfg samples (k + 1) (nth k outs [])
         /\ (length (nth k outs []) <= 1)%nat.
Proof.
  intros Hs.
  exists (map (detectAt cfg samples) (seq 1 (length samples - 2))).
  unfold findDelaysInSequence. rewrite (sort_byTime_sorted Hs).
  split; [apply detectFrom_concat|].
  split; [now rewrite length_map, length_seq|].
  intros k Hk.
  rewrite (nth_indep _ [] (detectAt cfg samples 0))
    by (rewrite length_map, length_seq; exact Hk).
  rewrite map_nth, seq_nth by exact Hk.
  replace (1 + k)%nat with (k + 1)%nat by lia.
  split; [apply detectAt_event; lia | apply detectAt_length].
Qed.

(** At positions [i < j] of a sorted list the times are in order. *)
Lemma time_sorted_nth (samples : list (Sample num)) (i j : nat) (a b : Sample num) :
  time_sorted samples -> (i < j)%nat ->
  nth_error samples i = Some a -> nth_error samples j = Some b ->
  (time a <=? time b) = true.
Proof.
  intros Hs. revert i j. induction Hs as [|x l Hl IH Hx]; intros i j Hij Hi Hj.
  - destruct i; discriminate.
  - destruct j as [|j]; [lia|]. simpl in Hj. destruct i as [|i].
    + injection Hi as <-. rewrite Forall_forall in Hx.
      apply Hx. eapply nth_error_In; eauto.
    + simpl in Hi. apply (IH i j); auto. lia.
Qed.

(** Every measurement of the inner loop is the time difference to a later
    sample that passed the three tests. *)
Lemma lookAhead_In (cfg : Config num) (samples : list (Sample num))
      (curr : Sample num) (dir : num) (k j : nat) (td : num) :
  In td (lookAhead cfg samples curr dir j k) ->
  exists j' future,
    (j <= j')%nat /\ nth_error samples j' = Some future /\
    responds cfg dir curr future = true /\ td = timeDiff curr future.
Proof.
  revert j. induction k as [|k IH]; intros j Hin; simpl in Hin; [contradiction|].
  destruct (nth_error samples j) as [future|] eqn:Hj; [|contradiction].
  destruct (responds cfg dir curr future) eqn:Hr.
  - destruct Hin as [<-|[]]. exists j, future. auto.
  - destruct (IH _ Hin) as (j' & f & Hle & Hf & Hq & Htd).
    exists j', f. repeat split; auto. lia.
Qed.

Lemma detect_In (cfg : Config num) (samples : list (Sample num)) (td : num) :
  In td (detectFrom cfg samples 1 (length samples - 2)) ->
  exists i j curr future,
    (i < j)%nat /\ nth_error samples i = Some curr /\
    nth_error samples j = Some future /\
    (timeDiff curr future <=? MAX_DELAY_MS cfg) = true /\
    td = timeDiff curr future.
Proof.
  rewrite detectFrom_concat, in_concat.
  intros (out & Hout & Hin). apply in_map_iff in Hout.
  destruct Hout as (i & <- & Hi). unfold detectAt in Hin.
  destruct (nth_error samples (i - 1)) as [prev|]; [|contradiction].
  destruct (nth_error samples i) as [curr|] eqn:Hc; [|contradiction].
  destruct (_ <? _); [contradiction|].
  apply lookAhead_In in Hin. destruct Hin as (j & future & Hj & Hf & Hq & Htd).
  exists i, j, curr, future. repeat split; auto; [lia|].
  unfold responds in Hq. apply andb_true_iff in Hq. apply Hq.
Qed.

(** The measurements are numbers: a NaN fails the test against
    [MAX_DELAY_MS]. *)
Lemma delays_numbers `{!OrderLaws num} (cfg : Config num)
      (samples : list (Sample num)) :
  Forall number (findDelaysInSequence cfg samples).
Proof.
  apply Forall_forall. intros td Hin. unfold findDelaysInSequence in Hin.
  apply detect_In in Hin.
  destruct Hin as (i & j & curr & future & _ & _ & _ & Hmax & ->).
  exact (leb_refl_l _ _ Hmax).
Qed.


End DetectorProofs.

Section BucketerProofs.

Context {num : Type} `{Number num}.
Local Open Scope num_scope.

Lemma in_bucket_interval (value : num) (boundaries : list num) (i : nat) :
  in_bucket value boundaries i = true <-> in_interval value boundaries i.
Proof.
  unfold in_bucket, in_interval, geb_elem, ltb_elem.
  destruct (nth_error boundaries i) as [lo|];
    destruct (nth_error boundaries (i + 1)) as [hi|]; simpl;
    rewrite ?andb_true_iff, ?andb_false_r; split;
    try discriminate; try (intros (? & ? & ? & ? & _); discriminate);
    try (intros []; discriminate).
  - intros [Hlo Hhi]. exists lo, hi. auto.
  - intros (lo' & hi' & [= <-] & [= <-] & Hlo & Hhi). auto.
Qed.

(** The loop returns the first index of its range that passes the test. *)
Lemma getBucketIndex_loop_Some (value : num) (boundaries : list num) (k i r : nat) :
  getBucketIndex_loop value boundaries i k = Some r <->
  (i <= r < i + k)%nat /\ in_bucket value boundaries r = true
  /\ forall r', (i <= r' < r)%nat -> in_bucket value boundaries r' = false.
Proof.
  revert i. induction k as [|k IH]; intros i; simpl.
  - split; [discriminate | lia].
  - destruct (in_bucket value boundaries i) eqn:Hi.
    + split.
      * intros [= <-]. repeat split; try lia; auto.
      * intros (Hr & Hb & Hfirst). f_equal.
        destruct (Nat.eq_dec i r) as [|Hne]; [assumption|].
        rewrite (Hfirst i) in Hi; [discriminate | lia].
    + rewrite IH. split.
      * intros (Hr & Hb & Hfirst). repeat split; try lia; auto.
        intros r' Hr'. destruct (Nat.eq_dec r' i) as [->|]; [assumption|].
        apply Hfirst. lia.
      * intros (Hr & Hb & Hfirst).
        assert (i <> r) by (intros ->; congruence).
        repeat split; try lia; auto. intros r' Hr'. apply Hfirst. lia.
Qed.

Lemma getBucketIndex_loop_None (value : num) (boundaries : list num) (k i : nat) :
  getBucketIndex_loop value boundaries i k = None <->
  forall r, (i <= r < i + k)%nat -> in_bucket value boundaries r = false.
Proof.
  revert i. induction k as [|k IH]; intros i; simpl.
  - split; [intros _ r Hr; lia | reflexivity].
  - destruct (in_bucket value boundaries i) eqn:Hi.
    + split; [discriminate|]. intros Hall. rewrite (Hall i) in Hi; [discriminate | lia].
    + rewrite IH. split; intros Hall r Hr.
      * destruct (Nat.eq_dec r i) as [->|]; [assumption | apply Hall; lia].
      * apply Hall. lia.
Qed.

(** The range of [getBucketIndex]. *)
Lemma getBucketIndex_range (cfg : Config num) (value : num) (boundaries : list num) :
  getBucketIndex cfg value boundaries = (-1)%Z
  \/ (0 <= getBucketIndex cfg value boundaries < Z.of_nat (BUCKET_COUNT cfg))%Z.
Proof.
  unfold getBucketIndex.
  destruct (getBucketIndex_loop value boundaries 0 (BUCKET_COUNT cfg)) as [r|] eqn:E.
  - apply getBucketIndex_loop_Some in E. right. lia.
  - destruct (eqb_elem _ _); [|now left].
    destruct (BUCKET_COUNT cfg); [left; reflexivity | right; lia].
Qed.

Lemma StronglySorted_nth_error {A : Type} (R : A -> A -> Prop) (l : list A)
      (i j : nat) (a b : A) :
  StronglySorted R l -> (i < j)%nat ->
  nth_error l i = Some a -> nth_error l j = Some b -> R a b.
Proof.
  intros Hs. revert i j. induction Hs as [|x l Hl IH Hx]; intros i j Hij Hi Hj.
  - destruct i; discriminate.
  - destruct j as [|j]; [lia|]. simpl in Hj. destruct i as [|i].
    + injection Hi as <-. rewrite Forall_forall in Hx.
      apply Hx. eapply nth_error_In; eauto.
    + simpl in Hi. apply (IH i j); auto. lia.
Qed.

Section Ordered.

Context `{!OrderLaws num}.
Variables (cfg : Config num) (value first last : num) (boundaries : list num).
Hypothesis Hcount : (1 <= BUCKET_COUNT cfg)%nat.
Hypothesis Hlength : length boundaries = (BUCKET_COUNT cfg + 1)%nat.
Hypothesis Hsorted : nondecreasing boundaries.
Hypothesis Hfirst : nth_error boundaries 0 = Some first.
Hypothesis Hlast : nth_error boundaries (BUCKET_COUNT cfg) = Some last.

Lemma boundaries_le (i j : nat) (x y : num) :
  (i < j)%nat -> nth_error boundaries i = Some x ->
  nth_error boundaries j = Some y -> (x <=? y) = true.
Proof.
  intros Hij Hi Hj.
  exact (@StronglySorted_nth_error _ (fun x y => (x <=? y) = true)
           boundaries i j x y Hsorted Hij Hi Hj).
Qed.

(** A value inside an interval lies in [first, last). *)
Lemma interval_inside (i : nat) :
  in_interval value boundaries i ->
  (i < BUCKET_COUNT cfg)%nat /\ (first <=? value) = true /\ (value <? last) = true.
Proof.
  intros (lo & hi & Hlo & Hhi & Hle & Hlt).
  assert (Hi : (i + 1 < length boundaries)%nat)
    by (apply nth_error_Some; congruence).
  split; [lia|]. split.
  - destruct i as [|i]; [congruence|].
    eapply leb_trans; [|exact Hle].
    eapply (boundaries_le (i := 0) (j := S i)); eauto. lia.
  - destruct (Nat.eq_dec (i + 1) (BUCKET_COUNT cfg)) as [E|E].
    + rewrite E in Hhi. congruence.
    + eapply ltb_leb_trans; [exact Hlt|].
      eapply (boundaries_le (i := i + 1) (j := BUCKET_COUNT cfg)); eauto. lia.
Qed.

(** Below the cut point [k], a value from [first] on is in an interval. *)
Lemma interval_below (k : nat) (hi : num) :
  (k <= BUCKET_COUNT cfg)%nat -> nth_error boundaries k = Some hi ->
  (first <=? value) = true -> (value <? hi) = true ->
  exists i, (i < k)%nat /\ in_interval value boundaries i.
Proof.
  revert hi. induction k as [|k IH]; intros hi Hk Hhi Hge Hlt.
  - assert (hi = first) by congruence. subst hi.
    rewrite (ltb_not_leb _ _ Hlt) in Hge. discriminate.
  - destruct (nth_error boundaries k) as [lo|] eqn:Hlo;
      [|apply nth_error_None in Hlo; lia].
    destruct (value <? lo) eqn:E.
    + destruct (IH lo) as (i & Hi & Hin); auto; [lia|]. exists i. split; [lia|auto].
    + exists k. split; [lia|]. exists lo, hi.
      replace (k + 1)%nat with (S k) by lia. repeat split; auto.
      apply leb_total; auto.
      * eapply leb_refl_r; eauto.
      * eapply leb_refl_l. eapply (boundaries_le (i := k) (j := S k)); eauto.
Qed.

Lemma interval_unique (i i' : nat) :
  in_interval value boundaries i -> in_interval value boundaries i' -> i = i'.
Proof.
  assert (Hlt : forall i i', (i < i')%nat -> in_interval value boundaries i ->
                             in_interval value boundaries i' -> False).
  { clear i i'. intros i i' Hii (lo & hi & Hlo & Hhi & Hle & Hlt)
                       (lo' & hi' & Hlo' & Hhi' & Hle' & Hlt').
    assert (Hv : (value <? lo') = true).
    { destruct (Nat.eq_dec (i + 1) i') as [E|E].
      - rewrite E in Hhi. congruence.
      - eapply ltb_leb_trans; [exact Hlt|].
        eapply (boundaries_le (i := i + 1) (j := i')); eauto. lia. }
    rewrite (ltb_not_leb _ _ Hv) in Hle'. discriminate. }
  intros Hi Hi'. destruct (Nat.lt_total i i') as [Hc|[Hc|Hc]]; auto;
    exfalso; eauto.
Qed.

(** C4. With [BUCKET_COUNT + 1] non-decreasing cut points, [getBucketIndex]
    returns the first index whose interval [boundaries[i] <= value <
    boundaries[i+1]] holds the value, the last index when the value equals
    the final cut point, and -1 otherwise.  It returns -1 exactly for the
    values outside [first, last], and a value in [first, last) lies in
    exactly one interval. *)
Theorem bucket_of_spec :
  (forall i : nat,
      getBucketIndex cfg value boundaries = Z.of_nat i <->
      ((i < BUCKET_COUNT cfg)%nat /\ in_interval value boundaries i
       /\ forall i', (i' < i)%nat -> ~ in_interval value boundaries i')
      \/ ((value === last) = true /\ i = (BUCKET_COUNT cfg - 1)%nat))
  /\ (getBucketIndex cfg value boundaries = (-1)%Z <->
      ~ ((first <=? value) = true /\ (value <=? last) = true))
  /\ ((first <=? value) = true -> (value <? last) = true ->
      exists i, ((i < BUCKET_COUNT cfg)%nat /\ in_interval value boundaries i)
                /\ forall i', (i' < BUCKET_COUNT cfg)%nat /\ in_interval value boundaries i'
                              -> i' = i).
Proof.
  assert (Hfl : (first <=? last) = true)
    by (eapply (boundaries_le (i := 0) (j := BUCKET_COUNT cfg)); eauto; lia).
  assert (Heq : (value === last) = true ->
                forall r, in_bucket value boundaries r = false).
  { intros He r. destruct (in_bucket value boundaries r) eqn:Hr; [|reflexivity].
    apply in_bucket_interval, interval_inside in Hr. destruct Hr as (_ & _ & Hlt).
    rewrite eqb_leb in He. apply andb_true_iff in He. destruct He as [_ He].
    rewrite (ltb_not_leb _ _ Hlt) in He. discriminate. }
  unfold getBucketIndex, eqb_elem. rewrite Hlast.
  destruct (getBucketIndex_loop value boundaries 0 (BUCKET_COUNT cfg)) as [r|] eqn:E.
  - apply getBucketIndex_loop_Some in E. destruct E as (Hr & Hb & Hmin).
    pose proof Hb as Hin. apply in_bucket_interval in Hin.
    pose proof (interval_inside Hin) as (_ & Hge & Hlt).
    split; [|split].
    + intros i. split.
      * intros Hi. apply Nat2Z.inj in Hi. subst i. left.
        repeat split; [lia | exact Hin |].
        intros i' Hi' Hc. apply in_bucket_interval in Hc.
        rewrite Hmin in Hc; [discriminate | lia].
      * intros [(Hi & Hini & _)|[He _]].
        -- f_equal. eapply interval_unique; eauto.
        -- rewrite (Heq He r) in Hb. discriminate.
    + split; [lia|]. intros Hout. exfalso. apply Hout. split; [exact Hge|].
      now apply ltb_leb.
    + intros _ _. exists r. split; [split; [lia | exact Hin]|].
      intros i' [_ Hi']. eapply interval_unique; eauto.
  - pose proof (proj1 (getBucketIndex_loop_None _ _ _ _) E) as Hnone.
    assert (Hno : forall i, ~ in_interval value boundaries i).
    { intros i Hi. pose proof (interval_inside Hi) as (Hlt & _).
      apply in_bucket_interval in Hi. rewrite Hnone in Hi; [discriminate | lia]. }
    split; [|split].
    + intros i. destruct (value === last) eqn:He.
      * split.
        -- intros Hi. right. split; [reflexivity|]. lia.
        -- intros [(_ & Hi & _)|[_ ->]]; [exfalso; eapply Hno; eauto | lia].
      * split; [lia|].
        intros [(_ & Hi & _)|[Hc _]]; [exfalso; eapply Hno; eauto | discriminate].
    + destruct (value === last) eqn:He.
      * split; [lia|]. intros Hout. exfalso. apply Hout.
        rewrite eqb_leb in He. apply andb_true_iff in He. destruct He as [He1 He2].
        split; [|exact He1]. eapply leb_trans; eauto.
      * split; [intros _|reflexivity]. intros [Hge Hle].
        destruct (value <? last) eqn:Hlt.
        -- destruct (interval_below (k := BUCKET_COUNT cfg) (hi := last))
             as (i & _ & Hi); auto. eapply Hno; eauto.
        -- assert (Hle' : (last <=? value) = true).
           { apply leb_total; auto; [eapply leb_refl_l | eapply leb_refl_r]; eauto. }
           rewrite eqb_leb, Hle, Hle' in He. discriminate.
    + intros Hge Hlt.
      destruct (interval_below (k := BUCKET_COUNT cfg) (hi := last))
        as (i & _ & Hi); auto. exfalso. eapply Hno; eauto.
Qed.

End Ordered.

(** *** Accesses to the grids *)

Lemma at_index_Some {A : Type} (l : list A) (i : Z) :
  (0 <= i < Z.of_nat (length l))%Z -> exists x, at_index l i = Some x.
Proof.
  intros Hi. unfold at_index.
  destruct (Z.ltb_spec i 0); [lia|].
  destruct (nth_error l (Z.to_nat i)) as [x|] eqn:E; [eauto|].
  apply nth_error_None in E. lia.
Qed.

Lemma at_index_In {A : Type} (l : list A) (i : Z) (x : A) :
  at_index l i = Some x -> In x l /\ (0 <= i < Z.of_nat (length l))%Z.
Proof.
  unfold at_index. destruct (Z.ltb_spec i 0); [discriminate|].
  intros E. split; [eapply nth_error_In; eauto|].
  assert (Z.to_nat i < length l)%nat by (apply nth_error_Some; congruence). lia.
Qed.

Lemma set_index_length {A : Type} (l : list A) (i : Z) (x : A) :
  (0 <= i < Z.of_nat (length l))%Z -> length (set_index l i x) = length l.
Proof.
  intros Hi. unfold set_index.
  rewrite length_app, length_firstn. cbn [length]. rewrite length_skipn. lia.
Qed.

Lemma set_index_In {A : Type} (l : list A) (i : Z) (x y : A) :
  In y (set_index l i x) -> y = x \/ In y l.
Proof.
  unfold set_index. rewrite in_app_iff. simpl.
  intros [Hy|[Hy|Hy]]; auto.
  - right. rewrite <- (firstn_skipn (Z.to_nat i) l). apply in_or_app. now left.
  - right. rewrite <- (firstn_skipn (S (Z.to_nat i)) l). apply in_or_app. now right.
Qed.

Lemma grid_shape_row {A : Type} (n : nat) (g : list (list A)) (r : Z) :
  grid_shape n g -> (0 <= r < Z.of_nat n)%Z ->
  exists row, at_index g r = Some row /\ length row = n.
Proof.
  intros [Hlen Hrows] Hr.
  destruct (@at_index_Some _ g r) as [row Hrow]; [lia|].
  exists row. split; [exact Hrow|].
  rewrite Forall_forall in Hrows. apply Hrows. eapply at_index_In; eauto.
Qed.

Lemma pushData_shape (n : nat) (g : list (list (Bucket num))) (r l : Z)
      (point : Sample num) :
  grid_shape n g -> (0 <= r < Z.of_nat n)%Z -> (0 <= l < Z.of_nat n)%Z ->
  exists g', pushData g r l point = Some g' /\ grid_shape n g'.
Proof.
  intros Hg Hr Hl. pose proof Hg as [Hlen Hrows].
  destruct (grid_shape_row Hg Hr) as (row & Hrow & Hn).
  destruct (@at_index_Some _ row l) as [b Hb]; [lia|].
  unfold pushData. rewrite Hrow, Hb. eexists. split; [reflexivity|].
  split.
  - rewrite set_index_length; lia.
  - rewrite Forall_forall in *. intros row' Hin.
    apply set_index_In in Hin. destruct Hin as [->|Hin]; [|auto].
    rewrite set_index_length; lia.
Qed.

Lemma assignAll_shape (cfg : Config num) (rpmB loadB : list num)
      (points : list (Sample num)) (g : list (list (Bucket num))) :
  grid_shape (BUCKET_COUNT cfg) g ->
  exists g', assignAll cfg rpmB loadB g points = Some g'
             /\ grid_shape (BUCKET_COUNT cfg) g'.
Proof.
  revert g. induction points as [|point rest IH]; intros g Hg; simpl; [eauto|].
  unfold assignPoint.
  destruct (getBucketIndex_range cfg (rpm point) rpmB) as [Hr|Hr];
    destruct (getBucketIndex_range cfg (load point) loadB) as [Hl|Hl].
  - rewrite Hr. simpl. auto.
  - rewrite Hr. simpl. auto.
  - rewrite Hl, andb_false_r. auto.
  - replace (negb (_ =? -1)%Z && negb (_ =? -1)%Z) with true.
    + destruct (pushData_shape point Hg Hr Hl) as (g' & -> & Hg'). auto.
    + symmetry. apply andb_true_iff.
      split; apply negb_true_iff, Z.eqb_neq; lia.
Qed.

Lemma estimateAt_shape (n : nat) (delayTable : list (list (option num))) (r l : Z) :
  grid_shape n delayTable -> (0 <= r < Z.of_nat n)%Z -> (0 <= l < Z.of_nat n)%Z ->
  estimateAt delayTable r l = Null \/ exists ms, estimateAt delayTable r l = Delay ms.
Proof.
  intros Hg Hr Hl.
  destruct (grid_shape_row Hg Hr) as (row & Hrow & Hn).
  destruct (@at_index_Some _ row l) as [c Hc]; [lia|].
  unfold estimateAt. rewrite Hrow, Hc. destruct c; eauto.
Qed.

(** C10. [getBucketIndex] returns -1 or an index below [BUCKET_COUNT], so
    on grids of [BUCKET_COUNT] rows and columns [assignToBuckets] reads and
    writes existing cells only, and the validator's table lookup always
    finds a cell ([null] or a delay). *)
Theorem bucket_access_in_range (a : Analyzer num)
        (delayTable : list (list (option num))) :
  grid_shape (BUCKET_COUNT (config a)) (buckets a) ->
  grid_shape (BUCKET_COUNT (config a)) delayTable ->
  (forall value boundaries,
      getBucketIndex (config a) value boundaries = (-1)%Z
      \/ (0 <= getBucketIndex (config a) value boundaries
          < Z.of_nat (BUCKET_COUNT (config a)))%Z)
  /\ (exists a', assignToBuckets a = Some a'
                 /\ grid_shape (BUCKET_COUNT (config a)) (buckets a'))
  /\ (forall point,
         let r := getBucketIndex (config a) (rpm point) (rpmBoundaries a) in
         let l := getBucketIndex (config a) (load point) (loadBoundaries a) in
         r <> (-1)%Z -> l <> (-1)%Z ->
         (estimateAt delayTable r l = Null
          \/ exists ms, estimateAt delayTable r l = Delay ms)
         /\ visitLinear a delayTable point <> Thrown).
Proof.
  intros Hb Ht. split; [intros; apply getBucketIndex_range|]. split.
  - unfold assignToBuckets.
    destruct (@assignAll_shape (config a) (rpmBoundaries a) (loadBoundaries a)
                (data a) (buckets a) Hb) as (g' & -> & Hg').
    eexists. split; [reflexivity | exact Hg'].
  - intros point r l Hr Hl. subst r l.
    destruct (getBucketIndex_range (config a) (rpm point) (rpmBoundaries a))
      as [?|Hr']; [contradiction|].
    destruct (getBucketIndex_range (config a) (load point) (loadBoundaries a))
      as [?|Hl']; [contradiction|].
    pose proof (estimateAt_shape Ht Hr' Hl') as He.
    split; [exact He|].
    unfold visitLinear.
    destruct (_ || _); [discriminate|].
    destruct He as [->|[ms ->]]; [discriminate|].
    destruct (foundLinear _ _); discriminate.
Qed.

End BucketerProofs.

Section TableProofs.

Context {num : Type} `{Number num}.
Local Open Scope num_scope.

Lemma forEach_Some {A B : Type} (f : A -> option B) (g : A -> B) (l : list A) :
  (forall x, In x l -> f x = Some (g x)) -> forEach f l = Some (map g l).
Proof.
  induction l as [|x l IH]; intros Hf; simpl; [reflexivity|].
  rewrite (Hf x) by now left. rewrite IH; [reflexivity|].
  intros y Hy. apply Hf. now right.
Qed.

Lemma nth_error_map_seq {B : Type} (g : nat -> B) (n i : nat) :
  (i < n)%nat -> nth_error (map g (seq 0 n)) i = Some (g i).
Proof.
  intros Hi. rewrite nth_error_map, nth_error_seq.
  destruct (Nat.ltb_spec i n); [reflexivity | lia].
Qed.

Lemma tableCell_shape (n : nat) (g : list (list (Bucket num))) (i j : nat) :
  grid_shape n g -> (i < n)%nat -> (j < n)%nat ->
  exists bucket,
    bucketAt g i j = Some bucket
    /\ tableCell g i j = Some (roundedDelay (median (bucket_delays bucket))).
Proof.
  intros Hg Hi Hj.
  destruct (@grid_shape_row _ n g (Z.of_nat i) Hg) as (row & Hrow & Hn); [lia|].
  destruct (@at_index_Some _ row (Z.of_nat j)) as [b Hb]; [lia|].
  exists b. unfold tableCell, bucketAt. rewrite Hrow, Hb.
  unfold at_index in Hrow, Hb.
  destruct (Z.ltb_spec (Z.of_nat i) 0); [lia|].
  destruct (Z.ltb_spec (Z.of_nat j) 0); [lia|].
  rewrite Nat2Z.id in Hrow, Hb. now rewrite Hrow, Hb.
Qed.

Lemma median_nil_iff (arr : list num) : median arr = None <-> arr = [].
Proof. destruct arr; simpl; split; congruence. Qed.




End TableProofs.

Section AggregatorProofs.

Context {num : Type} `{Number num} `{Sqrt num}.
Local Open Scope num_scope.

Lemma medianAt_shape (delayTable : list (list (Cell num))) (i j : nat) :
  grid_shape 3 delayTable -> (i < 3)%nat -> (j < 3)%nat ->
  medianAt delayTable i j = Some (sessionMedian delayTable i j).
Proof.
  intros Hg Hi Hj.
  destruct (@grid_shape_row _ 3 delayTable (Z.of_nat i) Hg) as (row & Hrow & Hn); [lia|].
  destruct (@at_index_Some _ row (Z.of_nat j)) as [c Hc]; [lia|].
  unfold medianAt, sessionMedian. rewrite Hrow, Hc.
  unfold at_index in Hrow, Hc.
  destruct (Z.ltb_spec (Z.of_nat i) 0); [lia|].
  destruct (Z.ltb_spec (Z.of_nat j) 0); [lia|].
  rewrite Nat2Z.id in Hrow, Hc. now rewrite Hrow, Hc.
Qed.

Lemma collectValues_shape (allResults : list (list (list (Cell num)))) (i j : nat) :
  Forall (grid_shape 3) allResults -> (i < 3)%nat -> (j < 3)%nat ->
  collectValues allResults i j = Some (contributions allResults i j).
Proof.
  intros Hall Hi Hj. induction Hall as [|t rest Ht Hrest IH]; [reflexivity|].
  simpl. rewrite (medianAt_shape Ht Hi Hj), IH.
  destruct (sessionMedian t i j); reflexivity.
Qed.

Lemma bucketStat_None (i j : nat) (values : list num) :
  bucketStat i j values = None <-> (length values < 2)%nat.
Proof.
  unfold bucketStat. destruct values as [|v0 rest]; [simpl; split; [lia|reflexivity]|].
  destruct (Nat.ltb_spec 1 (length (v0 :: rest))); split; try discriminate; try lia.
  reflexivity.
Qed.

Lemma bucketStat_Some (i j : nat) (v0 : num) (rest : list num) :
  (2 <= length (v0 :: rest))%nat ->
  let values := v0 :: rest in
  let n := of_Z (Z.of_nat (length values)) in
  let m := fold_left add values 0 / n in
  let sd := Math_sqrt (fold_left (fun a b => a + (b - m) * (b - m)) values 0 / n) in
  let lo := fold_left Math_min rest v0 in
  let hi := fold_left Math_max rest v0 in
  bucketStat i j values =
  Some (mkBucketStats i j (length values) values m sd ((sd / m) * 100) lo hi (hi - lo)).
Proof.
  intros Hlen. unfold bucketStat.
  destruct (Nat.ltb_spec 1 (length (v0 :: rest))); [reflexivity | lia].
Qed.

Lemma gridIndices_In (n i j : nat) :
  In (i, j) (gridIndices n) <-> (i < n)%nat /\ (j < n)%nat.
Proof.
  unfold gridIndices. rewrite in_flat_map. split.
  - intros (i' & Hi' & Hin). apply in_map_iff in Hin.
    destruct Hin as (j' & [= <- <-] & Hj'). apply in_seq in Hi', Hj'. lia.
  - intros [Hi Hj]. exists i. split; [apply in_seq; lia|].
    apply in_map_iff. exists j. split; [reflexivity | apply in_seq; lia].
Qed.

(** Looking a bucket up among the entries built from a list of indices. *)
Lemma statsLookup_entries (f : nat * nat -> option (BucketStats num))
      (indices : list (nat * nat)) (i j : nat) :
  statsLookup
    (flat_map (fun e : nat * nat * option (BucketStats num) =>
                 match snd e with Some st => [(fst e, st)] | None => [] end)
              (map (fun ij => (ij, f ij)) indices)) i j
  = if existsb (fun ij => ((fst ij =? i) && (snd ij =? j))%nat) indices
    then f (i, j) else None.
Proof.
  unfold statsLookup. induction indices as [|[i0 j0] rest IH]; [reflexivity|].
  simpl. destruct ((i0 =? i) && (j0 =? j))%nat eqn:E; simpl.
  - apply andb_true_iff in E. destruct E as [Ei Ej].
    apply Nat.eqb_eq in Ei, Ej. subst i0 j0.
    destruct (f (i, j)) as [st|] eqn:Ef; simpl.
    + now rewrite !Nat.eqb_refl.
    + rewrite IH. now destruct (existsb _ rest).
  - destruct (f (i0, j0)) as [st|]; simpl; [|exact IH]. now rewrite E.
Qed.

Lemma bucketStatsOf_shape (allResults : list (list (list (Cell num)))) :
  Forall (grid_shape 3) allResults ->
  exists bucketStats,
    bucketStatsOf allResults = Some bucketStats
    /\ forall i j, (i < 3)%nat -> (j < 3)%nat ->
         statsLookup bucketStats i j = bucketStat i j (contributions allResults i j).
Proof.
  intros Hall. unfold bucketStatsOf.
  rewrite (forEach_Some _
             (fun ij => (ij, bucketStat (fst ij) (snd ij)
                                        (contributions allResults (fst ij) (snd ij))))).
  - eexists. split; [reflexivity|]. intros i j Hi Hj.
    rewrite (statsLookup_entries
               (fun ij => bucketStat (fst ij) (snd ij)
                                     (contributions allResults (fst ij) (snd ij)))).
    replace (existsb _ (gridIndices 3)) with true; [reflexivity|].
    symmetry. apply existsb_exists. exists (i, j).
    split; [apply gridIndices_In; lia | simpl; now rewrite !Nat.eqb_refl].
  - intros [i j] Hin. apply gridIndices_In in Hin. simpl.
    rewrite collectValues_shape; [reflexivity | exact Hall | lia | lia].
Qed.

(** C8. For every bucket the aggregator keeps the medians of the sessions
    whose table has one there; with fewer than two it records nothing for
    the bucket, and otherwise the mean, the standard deviation that divides
    by the number of values, [CV = stdDev / mean * 100], min, max and
    range.  On binary64 the medians 90, 100, 110 give mean 100, a standard
    deviation between 8.1645 and 8.1655 and a CV between 8.16 and 8.17; in
    exact arithmetic their variance is 200/3. *)
Theorem cross_session_stats (allResults : list (list (list (Cell num)))) :
  Forall (grid_shape 3) allResults ->
  exists bucketStats,
    bucketStatsOf allResults = Some bucketStats
    /\ (forall i j, (i < 3)%nat -> (j < 3)%nat ->
          let vs := contributions allResults i j in
          ((length vs < 2)%nat -> statsLookup bucketStats i j = None)
          /\ ((2 <= length vs)%nat ->
              exists st v0 rest,
                statsLookup bucketStats i j = Some st
                /\ vs = v0 :: rest
                /\ values st = vs /\ filesWithData st = length vs
                /\ mean st = sum vs / len vs
                /\ stdDev st = Math_sqrt (sumSquares (mean st) vs / len vs)
                /\ cv st = (stdDev st / mean st) * 100
                /\ min st = fold_left Math_min rest v0
                /\ max st = fold_left Math_max rest v0
                /\ range st = max st - min st))
    /\ (exists st : BucketStats float,
           bucketStat 0 0 [90; 100; 110]%float = Some st
           /\ mean st = 100%float
           /\ PrimFloat.ltb 8.1645 (stdDev st) = true
           /\ PrimFloat.ltb (stdDev st) 8.1655 = true
           /\ PrimFloat.ltb 8.16 (cv st) = true
           /\ PrimFloat.ltb (cv st) 8.17 = true
           /\ min st = 90%float /\ max st = 110%float /\ range st = 20%float)
    /\ (varianceOf [90; 100; 110] == 200 # 3)%Q.
Proof.
  intros Hall. destruct (bucketStatsOf_shape Hall) as (bucketStats & Hstats & Hlookup).
  exists bucketStats. split; [exact Hstats|]. split; [|split].
  - intros i j Hi Hj vs. rewrite (Hlookup i j Hi Hj). fold vs. split.
    + intros Hlen. now apply bucketStat_None.
    + intros Hlen. destruct vs as [|v0 rest] eqn:Evs; [simpl in Hlen; lia|].
      rewrite (@bucketStat_Some i j v0 rest Hlen).
      eexists. exists v0, rest. repeat split.
  - eexists. split; [reflexivity|]. simpl. repeat split; reflexivity.
  - reflexivity.
Qed.

End AggregatorProofs.

(** To show [b = false], assume [b = true]. *)
Ltac refute E :=
  match goal with |- ?b = false => destruct b eqn:E; [|reflexivity] end.

Section ValidatorProofs.

Context {num : Type} `{Number num} `{Sqrt num}.
Local Open Scope num_scope.

Lemma sameKey_eq (k1 k2 : Z * Z) : sameKey k1 k2 = true <-> k1 = k2.
Proof.
  destruct k1 as [a b], k2 as [c d]. unfold sameKey. simpl.
  rewrite andb_true_iff, !Z.eqb_eq. split; [intros [-> ->]; reflexivity|].
  intros [= -> ->]. auto.
Qed.

Lemma errorsAt_pushLambda (key k : Z * Z) (v : num) (bucketErrors : Errors num) :
  errorsAt key (pushLambda k v bucketErrors)
  = if sameKey k key then errorsAt key bucketErrors ++ [v]
    else errorsAt key bucketErrors.
Proof.
  unfold errorsAt. induction bucketErrors as [|[k0 vs] rest IH]; simpl.
  - destruct (sameKey k key); reflexivity.
  - destruct (sameKey k0 k) eqn:E0; simpl.
    + apply sameKey_eq in E0. subst k0. destruct (sameKey k key); reflexivity.
    + destruct (sameKey k0 key) eqn:E1; [|exact IH].
      apply sameKey_eq in E1. subst k0.
      destruct (sameKey k key) eqn:E2; [|reflexivity].
      apply sameKey_eq in E2. subst k.
      assert (sameKey key key = true) by now apply sameKey_eq. congruence.
Qed.

(** The loop records, bucket by bucket, what the visits record. *)
Lemma visitAll_recorded (visit : Sample num -> Outcome) (points : list (Sample num))
      (bucketErrors bucketErrors' : Errors num) (key : Z * Z) :
  visitAll visit points bucketErrors = Some bucketErrors' ->
  errorsAt key bucketErrors' = errorsAt key bucketErrors ++ recordedAt visit key points.
Proof.
  revert bucketErrors. induction points as [|point rest IH]; intros errs Hrun; simpl in *.
  - injection Hrun as <-. now rewrite app_nil_r.
  - destruct (visit point) as [|k v|]; [now apply IH | | discriminate].
    rewrite (IH _ Hrun), errorsAt_pushLambda.
    destruct (sameKey k key); [now rewrite <- app_assoc | reflexivity].
Qed.

Lemma visitAll_returns (visit : Sample num -> Outcome) (points : list (Sample num))
      (bucketErrors : Errors num) :
  (forall point, visit point <> Thrown) ->
  exists bucketErrors', visitAll visit points bucketErrors = Some bucketErrors'.
Proof.
  intros Hv. revert bucketErrors. induction points as [|point rest IH]; intros errs; simpl.
  - eauto.
  - destruct (visit point) eqn:E; [apply IH | apply IH | now apply Hv in E].
Qed.

Lemma visitLinear_not_Thrown (a : Analyzer num)
      (delayTable : list (list (option num))) (point : Sample num) :
  grid_shape (BUCKET_COUNT (config a)) delayTable ->
  visitLinear a delayTable point <> Thrown.
Proof.
  intros Ht. unfold visitLinear.
  destruct (getBucketIndex_range (config a) (rpm point) (rpmBoundaries a)) as [->|Hr];
    [discriminate|].
  destruct (getBucketIndex_range (config a) (load point) (loadBoundaries a)) as [->|Hl];
    [rewrite orb_true_r; discriminate|].
  destruct (_ || _); [discriminate|].
  destruct (estimateAt_shape Ht Hr Hl) as [->|[ms ->]]; [discriminate|].
  destruct (foundLinear _ _); discriminate.
Qed.

(** *** The linear scan *)

Section Scan.

Context `{!OrderLaws num}.
Variable targetTime : num.

(** What the scan knows after the samples [seen]. *)
Definition scanned (seen : list (Sample num)) (closestIdx : Z) (minTimeDiff : Bound num)
  : Prop :=
  match minTimeDiff with
  | Infinity =>
      closestIdx = (-1)%Z
      /\ forall s, In s seen -> below_Infinity (distance targetTime s) = false
  | Finite m =>
      exists s, at_index seen closestIdx = Some s
                /\ m = distance targetTime s
                /\ nearest seen targetTime s
  end.

Lemma ltb_trans (a b c : num) : (a <? b) = true -> (b <? c) = true -> (a <? c) = true.
Proof. intros Hab Hbc. eapply ltb_leb_trans; [exact Hab | now apply ltb_leb]. Qed.

Lemma closestFrom_scanned (rest seen : list (Sample num)) (closestIdx : Z)
      (minTimeDiff : Bound num) :
  scanned seen closestIdx minTimeDiff ->
  let '(idx, bound) :=
    closestFrom targetTime rest (Z.of_nat (length seen)) closestIdx minTimeDiff in
  scanned (seen ++ rest) idx bound.
Proof.
  revert seen closestIdx minTimeDiff.
  induction rest as [|d rest IH]; intros seen idx bound Hinv; simpl.
  - now rewrite app_nil_r.
  - replace (seen ++ d :: rest) with ((seen ++ [d]) ++ rest)
      by now rewrite <- app_assoc.
    replace (Z.of_nat (length seen) + 1)%Z with (Z.of_nat (length (seen ++ [d])))
      by (rewrite length_app; simpl; lia).
    fold (distance targetTime d).
    destruct (below (distance targetTime d) bound) eqn:Hb; apply IH.
    + (* [d] becomes the closest *)
      exists d. split; [|split; [reflexivity|]].
      * unfold at_index. destruct (Z.ltb_spec (Z.of_nat (length seen)) 0); [lia|].
        rewrite Nat2Z.id, nth_error_app2, Nat.sub_diag by lia. reflexivity.
      * split; [apply in_or_app; right; now left|].
        destruct bound as [|m]; simpl in Hb.
        -- destruct Hinv as [_ Hinv]. split; [exact Hb|].
           intros s' Hs'. apply in_app_or in Hs'. destruct Hs' as [Hs'|[<-|[]]].
           ++ refute E.
              apply below_Infinity_ltb in E. rewrite (Hinv s' Hs') in E. discriminate.
           ++ refute E.
              pose proof (ltb_not_leb _ _ E) as Hn.
              apply below_Infinity_refl in Hb. congruence.
        -- destruct Hinv as (s & Hs & -> & _ & _ & Hmin).
           split; [eapply below_Infinity_ltb; eauto|].
           intros s' Hs'. apply in_app_or in Hs'. destruct Hs' as [Hs'|[<-|[]]].
           ++ refute E.
              pose proof (ltb_trans _ _ _ E Hb) as Ht.
              rewrite (Hmin s' Hs') in Ht. discriminate.
           ++ refute E.
              pose proof (ltb_not_leb _ _ E) as Hn.
              apply ltb_leb, leb_refl_l in E. congruence.
    + (* the closest so far stays *)
      destruct bound as [|m]; simpl in Hb.
      * destruct Hinv as [-> Hinv]. split; [reflexivity|].
        intros s Hs. apply in_app_or in Hs. destruct Hs as [Hs|[<-|[]]]; auto.
      * destruct Hinv as (s & Hs & -> & Hin & Hinf & Hmin).
        exists s. split; [|split; [reflexivity|]].
        -- unfold at_index in *. destruct (idx <? 0)%Z; [discriminate|].
           rewrite nth_error_app1; [exact Hs|]. apply nth_error_Some. congruence.
        -- split; [apply in_or_app; now left|]. split; [exact Hinf|].
           intros s' Hs'. apply in_app_or in Hs'. destruct Hs' as [Hs'|[<-|[]]]; auto.
Qed.

Lemma closestLinear_scanned (samples : list (Sample num)) :
  let '(idx, bound) := closestLinear samples targetTime in
  scanned samples idx bound.
Proof.
  unfold closestLinear.
  apply (closestFrom_scanned samples [] (-1)%Z Infinity).
  split; [reflexivity | intros s []].
Qed.

(** The scan accepts exactly when a nearest sample is within the
    tolerance. *)
Lemma foundLinear_nearest (samples : list (Sample num)) :
  foundLinear samples targetTime = true <->
  exists s, nearest samples targetTime s /\ (distance targetTime s <? half) = true.
Proof.
  unfold foundLinear. pose proof (closestLinear_scanned samples) as Hs.
  destruct (closestLinear samples targetTime) as [idx [|m]]; simpl in *.
  - rewrite andb_false_r. split; [discriminate|].
    intros (s & (Hin & Hinf & _) & _). destruct Hs as [_ Hs].
    rewrite (Hs s Hin) in Hinf. discriminate.
  - destruct Hs as (s & Hat & -> & Hnear).
    assert (Hidx : (idx =? -1)%Z = false).
    { apply at_index_In in Hat. apply Z.eqb_neq. lia. }
    rewrite Hidx. simpl. split.
    + intros Hlt. exists s. auto.
    + intros (s' & (Hin' & Hinf' & Hmin') & Hlt').
      destruct Hnear as (Hin & Hinf & Hmin).
      eapply leb_ltb_trans; [|exact Hlt'].
      apply leb_total; auto using below_Infinity_refl.
Qed.

End Scan.

Lemma totalRecorded_pushLambda (k : Z * Z) (v : num) (bucketErrors : Errors num) :
  totalRecorded (pushLambda k v bucketErrors) = S (totalRecorded bucketErrors).
Proof.
  induction bucketErrors as [|[k0 vs] rest IH]; simpl; [reflexivity|].
  destruct (sameKey k0 k); simpl.
  - rewrite length_app. simpl. lia.
  - rewrite IH. lia.
Qed.

Lemma totalRecorded_In (bucketErrors : Errors num) (e : Z * Z * list num) :
  In e bucketErrors -> (length (snd e) <= totalRecorded bucketErrors)%nat.
Proof.
  induction bucketErrors as [|e0 rest IH]; intros Hin; [contradiction|].
  simpl. destruct Hin as [->|Hin]; [lia|]. apply IH in Hin. lia.
Qed.

Lemma visitAll_total (visit : Sample num -> Outcome) (points : list (Sample num))
      (bucketErrors bucketErrors' : Errors num) :
  visitAll visit points bucketErrors = Some bucketErrors' ->
  (totalRecorded bucketErrors' <= totalRecorded bucketErrors + length points)%nat.
Proof.
  revert bucketErrors. induction points as [|point rest IH]; intros errs Hrun; simpl in *.
  - injection Hrun as <-. lia.
  - destruct (visit point) as [|k v|]; [| |discriminate].
    + apply IH in Hrun. lia.
    + apply IH in Hrun. rewrite totalRecorded_pushLambda in Hrun. lia.
Qed.

Lemma visitAll_Skipped (visit : Sample num -> Outcome) (points : list (Sample num))
      (bucketErrors : Errors num) :
  (forall point, In point points -> visit point = Skipped) ->
  visitAll visit points bucketErrors = Some bucketErrors.
Proof.
  induction points as [|point rest IH]; intros Hs; simpl; [reflexivity|].
  rewrite (Hs point) by now left. apply IH. intros p Hp. apply Hs. now right.
Qed.

Lemma visitLinear_not_found (a : Analyzer num)
      (delayTable : list (list (option num))) (point : Sample num) :
  grid_shape (BUCKET_COUNT (config a)) delayTable ->
  (forall ms, foundLinear (data a) (time point - ms / 1000) = false) ->
  visitLinear a delayTable point = Skipped.
Proof.
  intros Ht Hfar. pose proof (visitLinear_not_Thrown a point Ht) as Hthrown.
  unfold visitLinear, targetTimeOf in *.
  destruct (_ || _); [reflexivity|].
  destruct (estimateAt _ _ _) as [| | |ms]; try reflexivity; [contradiction|].
  now rewrite Hfar.
Qed.

(** The spec-side readings agree with the code's. *)
Lemma nearestWithin_nearest (samples : list (Sample num)) (targetTime : num) :
  nearestWithin samples targetTime = true
  <-> exists s, nearest samples targetTime s
                /\ (distance targetTime s <? half) = true.
Proof.
  unfold nearestWithin, isNearest, nearest. rewrite existsb_exists. split.
  - intros (s & Hin & Hs). apply andb_true_iff in Hs. destruct Hs as [Hs Hh].
    apply andb_true_iff in Hs. destruct Hs as [Hb Hall].
    rewrite forallb_forall in Hall.
    exists s. split; [|exact Hh]. split; [exact Hin|]. split; [exact Hb|].
    intros s' Hs'. apply Hall in Hs'. now apply negb_true_iff in Hs'.
  - intros (s & (Hin & Hb & Hall) & Hh). exists s. split; [exact Hin|].
    rewrite Hb, Hh, andb_true_r. cbn [andb].
    apply forallb_forall. intros s' Hs'. apply negb_true_iff. now apply Hall.
Qed.

Lemma foundLinear_nearestWithin `{!OrderLaws num} (samples : list (Sample num))
      (targetTime : num) :
  foundLinear samples targetTime = nearestWithin samples targetTime.
Proof.
  apply eq_true_iff_eq. rewrite nearestWithin_nearest.
  apply foundLinear_nearest.
Qed.

Lemma estimateAt_delayCell (delayTable : list (list (option num))) (r l : Z) :
  (0 <= r)%Z -> (0 <= l)%Z ->
  delayCell delayTable r l
  = match estimateAt delayTable r l with
    | Delay ms => Some (Some ms)
    | Null => Some None
    | _ => None
    end.
Proof.
  intros Hr Hl. unfold delayCell, estimateAt, at_index.
  destruct (Z.leb_spec 0 r); [|lia]. destruct (Z.leb_spec 0 l); [|lia].
  destruct (Z.ltb_spec r 0); [lia|]. cbn [andb].
  destruct (nth_error delayTable (Z.to_nat r)) as [row|]; [|reflexivity].
  destruct (Z.ltb_spec l 0); [lia|].
  destruct (nth_error row (Z.to_nat l)) as [[ms|]|]; reflexivity.
Qed.

Lemma visitLinear_recordsInto `{!OrderLaws num} (a : Analyzer num)
      (delayTable : list (list (option num))) (key : Z * Z) (point : Sample num) :
  match visitLinear a delayTable point with
  | Recorded k v => if sameKey k key then [v] else []
  | _ => []
  end = if recordsInto a delayTable key point then [lambda point] else [].
Proof.
  unfold visitLinear, recordsInto, targetTimeOf.
  set (r := getBucketIndex (config a) (rpm point) (rpmBoundaries a)).
  set (l := getBucketIndex (config a) (load point) (loadBoundaries a)).
  destruct (getBucketIndex_range (config a) (rpm point) (rpmBoundaries a))
    as [Hr|Hr]; fold r in Hr; [rewrite Hr; reflexivity|].
  destruct (getBucketIndex_range (config a) (load point) (loadBoundaries a))
    as [Hl|Hl]; fold l in Hl; [rewrite Hl, orb_true_r, andb_false_r; reflexivity|].
  replace (r =? -1)%Z with false by (symmetry; apply Z.eqb_neq; lia).
  replace (l =? -1)%Z with false by (symmetry; apply Z.eqb_neq; lia).
  cbn [orb negb andb].
  rewrite (@estimateAt_delayCell delayTable r l) by lia.
  destruct (estimateAt delayTable r l) as [| | |ms];
    try (rewrite andb_false_r; reflexivity).
  rewrite foundLinear_nearestWithin.
  destruct (nearestWithin (data a) (time point - ms / 1000)).
  - rewrite andb_true_r. reflexivity.
  - rewrite andb_false_r. reflexivity.
Qed.

Lemma recorded_accuracy `{!OrderLaws num} (a : Analyzer num)
      (delayTable : list (list (option num))) (key : Z * Z)
      (points : list (Sample num)) :
  recordedAt (visitLinear a delayTable) key points
  = map (@lambda num) (filter (recordsInto a delayTable key) points).
Proof.
  induction points as [|point rest IH]; [reflexivity|].
  unfold recordedAt in *. cbn [flat_map filter].
  rewrite visitLinear_recordsInto, IH.
  destruct (recordsInto a delayTable key point); reflexivity.
Qed.

(** The run of the loop on a table of the right shape. *)
Lemma calculateLambdaErrors_accuracy `{!OrderLaws num} (a : Analyzer num)
      (delayTable : list (list (option num))) :
  grid_shape (BUCKET_COUNT (config a)) delayTable ->
  exists bucketErrors,
    visitAll (visitLinear a delayTable) (data a) [] = Some bucketErrors
    /\ calculateLambdaErrors a delayTable = Some (reportOf bucketErrors)
    /\ forall key, errorsAt key bucketErrors = accuracyList a delayTable key.
Proof.
  intros Ht.
  destruct (visitAll_returns (visitLinear a delayTable) (data a) [])
    as [errs Hrun]; [intros p; now apply visitLinear_not_Thrown|].
  exists errs. split; [exact Hrun|]. split.
  - unfold calculateLambdaErrors. now rewrite Hrun.
  - intros key. rewrite (visitAll_recorded _ _ _ key Hrun). cbn [errorsAt find app].
    apply recorded_accuracy.
Qed.

(** The keys of the accuracy lists stay distinct. *)
Lemma pushLambda_key (key k : Z * Z) (v : num) (bucketErrors : Errors num) :
  In k (map fst (pushLambda key v bucketErrors)) ->
  k = key \/ In k (map fst bucketErrors).
Proof.
  induction bucketErrors as [|[k0 vs] rest IH]; cbn [pushLambda map fst In].
  - intros [<-|[]]. now left.
  - destruct (sameKey k0 key); cbn [map fst In].
    + intros Hin. now right.
    + intros [<-|Hin]; [right; now left|].
      destruct (IH Hin) as [->|Hrest]; [now left | right; now right].
Qed.

Lemma pushLambda_NoDup (key : Z * Z) (v : num) (bucketErrors : Errors num) :
  NoDup (map fst bucketErrors) -> NoDup (map fst (pushLambda key v bucketErrors)).
Proof.
  induction bucketErrors as [|[k0 vs] rest IH]; cbn [pushLambda map fst]; intros Hnd.
  - constructor; [intros [] | constructor].
  - destruct (sameKey k0 key) eqn:Ek; cbn [map fst]; [exact Hnd|].
    inversion Hnd as [|? ? Hk0 Hrest]; subst. constructor; [|now apply IH].
    intros Hin. apply pushLambda_key in Hin. destruct Hin as [->|Hin].
    + assert (sameKey key key = true) by now apply sameKey_eq. congruence.
    + contradiction.
Qed.

Lemma visitAll_NoDup (visit : Sample num -> Outcome) (points : list (Sample num))
      (bucketErrors bucketErrors' : Errors num) :
  visitAll visit points bucketErrors = Some bucketErrors' ->
  NoDup (map fst bucketErrors) -> NoDup (map fst bucketErrors').
Proof.
  revert bucketErrors. induction points as [|point rest IH]; intros errs Hrun Hnd;
    cbn [visitAll] in Hrun.
  - now injection Hrun as <-.
  - destruct (visit point) as [|k v|]; [| |discriminate].
    + now apply (IH errs).
    + apply (IH _ Hrun). now apply pushLambda_NoDup.
Qed.

Lemma errorsAt_entry (bucketErrors : Errors num) (e : Z * Z * list num) :
  NoDup (map fst bucketErrors) -> In e bucketErrors ->
  errorsAt (fst e) bucketErrors = snd e.
Proof.
  induction bucketErrors as [|e0 rest IH]; intros Hnd Hin; [contradiction|].
  cbn [map] in Hnd. inversion Hnd as [|? ? Hk0 Hrest]; subst.
  unfold errorsAt in *. cbn [find].
  destruct (sameKey (fst e0) (fst e)) eqn:Ek.
  - destruct Hin as [->|Hin]; [reflexivity|]. exfalso. apply Hk0.
    apply sameKey_eq in Ek. rewrite Ek. now apply in_map.
  - destruct Hin as [->|Hin]; [|now apply IH].
    assert (sameKey (fst e) (fst e) = true) by now apply sameKey_eq. congruence.
Qed.

Lemma errorsAt_found (bucketErrors : Errors num) (key : Z * Z) :
  errorsAt key bucketErrors <> [] ->
  exists e, In e bucketErrors /\ fst e = key /\ snd e = errorsAt key bucketErrors.
Proof.
  unfold errorsAt.
  destruct (find (fun e => sameKey (fst e) key) bucketErrors) as [e|] eqn:E;
    [|intros Hne; now contradiction Hne].
  intros _. apply find_some in E. destruct E as [Hin Hk]. apply sameKey_eq in Hk.
  now exists e.
Qed.

(** The buckets that reach 10 lambdas. *)
Lemma counted_keys (bucketErrors : Errors num) (key : Z * Z) :
  NoDup (map fst bucketErrors) ->
  In key (map fst (filter (fun e => (10 <=? length (snd e))%nat) bucketErrors))
  <-> (10 <= length (errorsAt key bucketErrors))%nat.
Proof.
  intros Hnd. rewrite in_map_iff. split.
  - intros (e & <- & Hin). apply filter_In in Hin. destruct Hin as [Hin Hten].
    rewrite (@errorsAt_entry bucketErrors e Hnd Hin). now apply Nat.leb_le.
  - intros Hten. destruct (@errorsAt_found bucketErrors key) as (e & Hin & Hk & He).
    + intros E. rewrite E in Hten. cbn [length] in Hten. lia.
    + exists e. split; [exact Hk|]. apply filter_In. split; [exact Hin|].
      apply Nat.leb_le. now rewrite He.
Qed.

Lemma counted_NoDup (bucketErrors : Errors num) (keep : Z * Z * list num -> bool) :
  NoDup (map fst bucketErrors) -> NoDup (map fst (filter keep bucketErrors)).
Proof.
  induction bucketErrors as [|e rest IH]; cbn [map filter]; intros Hnd; [constructor|].
  inversion Hnd as [|? ? Hk Hrest]; subst.
  destruct (keep e); cbn [map]; [|now apply IH].
  constructor; [|now apply IH].
  intros Hin. apply Hk. apply in_map_iff in Hin. destruct Hin as (e' & <- & Hin).
  apply filter_In in Hin. now apply in_map.
Qed.

(** The statistics of the code are the mean and the population standard
    deviation. *)
Lemma totalFrom_fold (values : list num) (acc : num) :
  totalFrom acc values = fold_left add values acc.
Proof.
  revert acc. induction values as [|x rest IH]; intros acc; [reflexivity|].
  cbn [totalFrom fold_left]. apply IH.
Qed.

Lemma sumSquares_total (mean : num) (values : list num) (acc : num) :
  fold_left (fun a b => a + pow2 (b - mean)) values acc
  = totalFrom acc (map (fun x => (x - mean) * (x - mean)) values).
Proof.
  revert acc. induction values as [|x rest IH]; intros acc; [reflexivity|].
  cbn [fold_left map totalFrom]. apply IH.
Qed.

Lemma stdDevOf_population (values : list num) :
  stdDevOf values = populationStdDev values.
Proof.
  unfold stdDevOf, varianceOf, populationStdDev, average, meanOf, sumSquares, sum, len.
  rewrite sumSquares_total, !totalFrom_fold, length_map. reflexivity.
Qed.

Lemma stdDevsOf_population (bucketErrors : Errors num) (lists : Z * Z -> list num) :
  NoDup (map fst bucketErrors) ->
  (forall key, errorsAt key bucketErrors = lists key) ->
  stdDevsOf bucketErrors
  = map (fun key => populationStdDev (lists key))
        (map fst (filter (fun e => (10 <=? length (snd e))%nat) bucketErrors)).
Proof.
  intros Hnd Hlists. unfold stdDevsOf. rewrite map_map.
  rewrite (filter_ext (fun e : Z * Z * list num => negb (length (snd e) <? 10)%nat)
                      (fun e => (10 <=? length (snd e))%nat))
    by (intros e; now rewrite Nat.ltb_antisym, negb_involutive).
  apply map_ext_in. intros e Hin. apply filter_In in Hin. destruct Hin as [Hin _].
  rewrite <- Hlists, (@errorsAt_entry bucketErrors e Hnd Hin). apply stdDevOf_population.
Qed.

(** No sample of the store is near enough to the target the table gives
    for [point]. *)
Lemma visitLinear_far `{!OrderLaws num} (a : Analyzer num)
      (delayTable : list (list (option num))) (point : Sample num) :
  grid_shape (BUCKET_COUNT (config a)) delayTable ->
  (forall ms,
      delayCell delayTable
                (getBucketIndex (config a) (rpm point) (rpmBoundaries a))
                (getBucketIndex (config a) (load point) (loadBoundaries a))
      = Some (Some ms) ->
      forall s, nearest (data a) (time point - ms / 1000) s ->
                (distance (time point - ms / 1000) s <? half) = false) ->
  visitLinear a delayTable point = Skipped.
Proof.
  intros Ht Hfar. pose proof (visitLinear_not_Thrown a point Ht) as Hthrown.
  unfold visitLinear, targetTimeOf in *.
  set (r := getBucketIndex (config a) (rpm point) (rpmBoundaries a)) in *.
  set (l := getBucketIndex (config a) (load point) (loadBoundaries a)) in *.
  destruct (getBucketIndex_range (config a) (rpm point) (rpmBoundaries a))
    as [Hr|Hr]; fold r in Hr; [rewrite Hr; reflexivity|].
  destruct (getBucketIndex_range (config a) (load point) (loadBoundaries a))
    as [Hl|Hl]; fold l in Hl; [rewrite Hl, orb_true_r; reflexivity|].
  destruct (_ || _); [reflexivity|].
  pose proof (@estimateAt_delayCell delayTable r l ltac:(lia) ltac:(lia)) as Hcell.
  destruct (estimateAt delayTable r l) as [| | |ms]; try reflexivity; [contradiction|].
  rewrite foundLinear_nearestWithin.
  destruct (nearestWithin (data a) (time point - ms / 1000)) eqn:En; [|reflexivity].
  apply nearestWithin_nearest in En. destruct En as (s & Hs & Hh).
  rewrite (Hfar ms Hcell s Hs) in Hh. discriminate.
Qed.

Lemma accuracyList_length (a : Analyzer num) (delayTable : list (list (option num)))
      (key : Z * Z) :
  (length (accuracyList a delayTable key) <= length (data a))%nat.
Proof. unfold accuracyList. rewrite length_map. apply filter_length_le. Qed.

(** C6. The validator's loop never throws on a table of [BUCKET_COUNT]
    rows and columns, and the accuracy list it builds for a bucket is the
    list the store and the table determine: the lambdas, in store order, of
    the samples of that bucket whose table cell holds a delay and that have
    a nearest sample less than 0.5 s from [time - delay / 1000].  Sample by
    sample: one whose RPM or load is in no bucket records nothing; the
    table has a cell for every other; on a [null] cell nothing is recorded;
    on a delay, with [targetTime = time - delay / 1000], the lambda goes to
    the sample's own bucket exactly when a nearest sample of the store is
    less than 0.5 s from [targetTime], and is passed over otherwise. *)
Theorem validator_point `{!OrderLaws num} (a : Analyzer num)
        (delayTable : list (list (option num))) :
  grid_shape (BUCKET_COUNT (config a)) delayTable ->
  exists report,
    calculateLambdaErrors a delayTable = Some report
    /\ (forall key,
           errorsAt key (bucketErrors report) = accuracyList a delayTable key)
    /\ (forall key,
           errorsAt key (bucketErrors report)
           = recordedAt (visitLinear a delayTable) key (data a))
    /\ forall point,
         let r := getBucketIndex (config a) (rpm point) (rpmBoundaries a) in
         let l := getBucketIndex (config a) (load point) (loadBoundaries a) in
         let visit := visitLinear a delayTable point in
         ((r = (-1)%Z \/ l = (-1)%Z) -> visit = Skipped)
         /\ (r <> (-1)%Z -> l <> (-1)%Z ->
             (exists cell, delayCell delayTable r l = Some cell)
             /\ (delayCell delayTable r l = Some None -> visit = Skipped)
             /\ forall ms,
                 delayCell delayTable r l = Some (Some ms) ->
                 let targetTime := time point - ms / 1000 in
                 let close :=
                   exists s, nearest (data a) targetTime s
                             /\ (distance targetTime s <? half) = true in
                 (close -> visit = Recorded (r, l) (lambda point))
                 /\ (~ close -> visit = Skipped)).
Proof.
  intros Ht.
  destruct (calculateLambdaErrors_accuracy a Ht) as (errs & Hrun & Hcalc & Hacc).
  exists (reportOf errs). split; [exact Hcalc|]. split; [exact Hacc|]. split.
  - intros key. cbn [reportOf bucketErrors].
    now rewrite (visitAll_recorded _ _ _ key Hrun).
  - intros point.
    set (r := getBucketIndex (config a) (rpm point) (rpmBoundaries a)).
    set (l := getBucketIndex (config a) (load point) (loadBoundaries a)).
    assert (Hv : visitLinear a delayTable point =
                 if ((r =? -1)%Z || (l =? -1)%Z)%bool then Skipped
                 else match estimateAt delayTable r l with
                      | Delay ms =>
                          if foundLinear (data a) (time point - ms / 1000)
                          then Recorded (r, l) (lambda point) else Skipped
                      | NoRow => Thrown
                      | _ => Skipped
                      end) by reflexivity.
    rewrite Hv. clear Hv. split.
    + intros [->| ->]; [reflexivity | now rewrite orb_true_r].
    + intros Hr Hl.
      replace ((r =? -1)%Z || (l =? -1)%Z)%bool with false
        by (symmetry; apply orb_false_iff; split; now apply Z.eqb_neq).
      destruct (getBucketIndex_range (config a) (rpm point) (rpmBoundaries a))
        as [?|Hr']; [contradiction|].
      destruct (getBucketIndex_range (config a) (load point) (loadBoundaries a))
        as [?|Hl']; [contradiction|].
      fold r in Hr'. fold l in Hl'.
      rewrite (@estimateAt_delayCell delayTable r l) by lia.
      destruct (estimateAt_shape Ht Hr' Hl') as [E|[ms0 E]]; rewrite E.
      * split; [now exists None|]. split; [reflexivity|]. intros ms Hms. discriminate.
      * split; [now exists (Some ms0)|]. split; [intros Hn; discriminate|].
        intros ms Hms. injection Hms as <-.
        pose proof (foundLinear_nearest (time point - ms0 / 1000) (data a)) as Hfound.
        destruct (foundLinear (data a) (time point - ms0 / 1000)); split; auto.
        -- intros Hn. exfalso. apply Hn, Hfound. reflexivity.
        -- intros Hc. apply Hfound in Hc. discriminate.
Qed.

(** C7. The report is that of the accuracy lists the store and the table
    determine.  The buckets that count are those whose list has at least
    10 lambdas, each once: [bucketsAnalyzed] is their number, and
    [avgStdDev] the arithmetic mean of the population standard deviations
    of their lists, or 0 when there is none; a bucket below 10 lambdas is
    left out of both.  No bucket counts, and the result is [avgStdDev = 0]
    with [bucketsAnalyzed = 0], for a store of fewer than 10 samples, and
    when for each sample every nearest sample of the store is 0.5 s or
    more from the target time the table gives it: the loop then records
    nothing at all. *)
Theorem validator_report `{!OrderLaws num} (a : Analyzer num)
        (delayTable : list (list (option num))) :
  grid_shape (BUCKET_COUNT (config a)) delayTable ->
  exists report,
    calculateLambdaErrors a delayTable = Some report
    /\ (forall key,
           errorsAt key (bucketErrors report) = accuracyList a delayTable key)
    /\ let keys :=
         map fst (filter (fun e => (10 <=? length (snd e))%nat)
                         (bucketErrors report)) in
       let stdDevs :=
         map (fun key => populationStdDev (accuracyList a delayTable key)) keys in
       NoDup keys
       /\ (forall key,
              In key keys <-> (10 <= length (accuracyList a delayTable key))%nat)
       /\ bucketsAnalyzed report = length keys
       /\ (keys <> [] -> avgStdDev report = average stdDevs)
       /\ (keys = [] -> avgStdDev report = 0 /\ bucketsAnalyzed report = 0%nat)
       /\ ((length (data a) < 10)%nat ->
           avgStdDev report = 0 /\ bucketsAnalyzed report = 0%nat)
       /\ ((forall point ms,
               In point (data a) ->
               delayCell delayTable
                         (getBucketIndex (config a) (rpm point) (rpmBoundaries a))
                         (getBucketIndex (config a) (load point) (loadBoundaries a))
               = Some (Some ms) ->
               forall s, nearest (data a) (time point - ms / 1000) s ->
                         (distance (time point - ms / 1000) s <? half) = false)
           -> bucketErrors report = []
              /\ avgStdDev report = 0 /\ bucketsAnalyzed report = 0%nat).
Proof.
  intros Ht.
  destruct (calculateLambdaErrors_accuracy a Ht) as (errs & Hrun & Hcalc & Hacc).
  assert (Hnd : NoDup (map fst errs))
    by (apply (visitAll_NoDup _ _ _ Hrun); constructor).
  exists (reportOf errs). split; [exact Hcalc|]. split; [exact Hacc|].
  unfold reportOf. cbn [bucketErrors avgStdDev bucketsAnalyzed].
  rewrite (@stdDevsOf_population errs (accuracyList a delayTable) Hnd Hacc).
  set (keys := map fst (filter (fun e : Z * Z * list num =>
                                  (10 <=? length (snd e))%nat) errs)).
  assert (Hkeys : forall key,
             In key keys <-> (10 <= length (accuracyList a delayTable key))%nat).
  { intros key. rewrite <- Hacc. now apply counted_keys. }
  assert (Hnone : keys = [] ->
                  (if (0 <? length (map (fun key => populationStdDev
                                                      (accuracyList a delayTable key))
                                        keys))%nat
                   then sum (map (fun key => populationStdDev
                                               (accuracyList a delayTable key)) keys)
                        / len (map (fun key => populationStdDev
                                                 (accuracyList a delayTable key)) keys)
                   else 0) = 0
                  /\ length (map (fun key => populationStdDev
                                               (accuracyList a delayTable key)) keys)
                     = 0%nat).
  { intros ->. split; reflexivity. }
  split; [now apply counted_NoDup|]. split; [exact Hkeys|].
  split; [apply length_map|]. split; [|split; [exact Hnone|split]].
  - intros Hne. destruct keys as [|k ks]; [contradiction|].
    unfold average, sum, len. now rewrite totalFrom_fold.
  - intros Hlen. apply Hnone. destruct keys as [|k ks] eqn:Ek; [reflexivity|].
    exfalso. assert (Hk : In k keys) by (rewrite Ek; now left).
    rewrite <- Ek in Hkeys. apply Hkeys in Hk.
    pose proof (accuracyList_length a delayTable k). lia.
  - intros Hfar.
    assert (Hempty : errs = []).
    { rewrite visitAll_Skipped in Hrun; [now injection Hrun as <-|].
      intros point Hp. apply visitLinear_far; [exact Ht|].
      intros ms. now apply Hfar. }
    subst errs. split; [reflexivity|]. now apply Hnone.
Qed.

End ValidatorProofs.

Section MedianProofs.

Context {num : Type} `{Number num}.
Local Open Scope num_scope.

Lemma sort_insert_Permutation {A : Type} (cmp : A -> A -> num) (x : A) (l : list A) :
  Permutation (x :: l) (sort_insert cmp x l).
Proof.
  induction l as [|y l IH]; simpl; [reflexivity|].
  destruct (cmp x y >? 0); [|reflexivity].
  rewrite perm_swap. now apply perm_skip.
Qed.

Lemma sort_Permutation {A : Type} (cmp : A -> A -> num) (l : list A) :
  Permutation l (sort cmp l).
Proof.
  induction l as [|x l IH]; [reflexivity|].
  change (sort cmp (x :: l)) with (sort_insert cmp x (sort cmp l)).
  rewrite <- sort_insert_Permutation. now apply perm_skip.
Qed.

Section Sorting.

Context `{!OrderLaws num} `{!MedianLaws num}.

Lemma leb_or (a b : num) :
  number a -> number b -> (a <=? b) = true \/ (b <? a) = true.
Proof.
  intros Ha Hb. destruct (b <? a) eqn:E; [now right|]. left.
  now apply leb_total.
Qed.

Lemma leb_not_ltb (a b : num) : (a <=? b) = true -> (b <? a) = false.
Proof.
  intros Hab. destruct (b <? a) eqn:E; [|reflexivity].
  rewrite (ltb_not_leb _ _ E) in Hab. discriminate.
Qed.

Lemma sort_insert_ascending (x : num) (l : list num) :
  number x -> Forall number l ->
  nondecreasing l -> nondecreasing (sort_insert sub x l).
Proof.
  intros Hx Hn. induction 1 as [|y l Hl IH Hy]; simpl.
  - repeat constructor.
  - apply Forall_cons_iff in Hn. destruct Hn as [Hny Hn].
    rewrite sub_pos. destruct (y <? x) eqn:E.
    + constructor; [exact (IH Hn)|].
      apply ltb_leb in E.
      eapply Permutation_Forall; [apply sort_insert_Permutation|].
      constructor; assumption.
    + assert (Hxy : (x <=? y) = true) by now apply leb_total.
      constructor; [constructor; assumption|].
      constructor; [exact Hxy|].
      eapply Forall_impl; [|exact Hy]. intros z Hz. eapply leb_trans; eauto.
Qed.

Lemma sort_ascending (l : list num) :
  Forall number l -> nondecreasing (sort sub l).
Proof.
  induction 1 as [|x l Hx Hl IH]; [constructor|].
  change (sort sub (x :: l)) with (sort_insert sub x (sort sub l)).
  apply sort_insert_ascending; [exact Hx| |exact IH].
  eapply Permutation_Forall; [apply sort_Permutation|exact Hl].
Qed.

(** *** Order statistics by counting *)

Definition countBelow (v : num) (l : list num) : nat :=
  length (filter (fun x => x <? v) l).
Definition countUpTo (v : num) (l : list num) : nat :=
  length (filter (fun x => x <=? v) l).

Lemma filter_length_Permutation {A : Type} (f : A -> bool) (l l' : list A) :
  Permutation l l' -> length (filter f l) = length (filter f l').
Proof.
  induction 1 as [|x l l' _ IH|x y l|l l' l'' _ IH1 _ IH2]; simpl.
  - reflexivity.
  - destruct (f x); simpl; now rewrite IH.
  - destruct (f x), (f y); reflexivity.
  - now rewrite IH1.
Qed.

Lemma filter_none {A : Type} (f : A -> bool) (l : list A) :
  Forall (fun x => f x = false) l -> filter f l = [].
Proof.
  induction 1 as [|x l Hx _ IH]; simpl; [reflexivity|]. now rewrite Hx.
Qed.

Lemma filter_all {A : Type} (f : A -> bool) (l : list A) :
  Forall (fun x => f x = true) l -> filter f l = l.
Proof.
  induction 1 as [|x l Hx _ IH]; simpl; [reflexivity|]. now rewrite Hx, IH.
Qed.

Lemma Forall_nth_number (s : list num) (i : nat) (d : num) :
  Forall number s -> (i < length s)%nat -> number (nth i s d).
Proof.
  intros Hs Hi. eapply Forall_forall; [exact Hs|]. now apply nth_In.
Qed.

Lemma nondecreasing_nth (s : list num) (i j : nat) (d : num) :
  Forall number s -> nondecreasing s -> (i <= j < length s)%nat ->
  (nth i s d <=? nth j s d) = true.
Proof.
  intros Hn Hs Hij. destruct (Nat.eq_dec i j) as [->|Hne].
  - apply Forall_nth_number; [exact Hn | lia].
  - apply (@StronglySorted_nth_error _ (fun x y => (x <=? y) = true) s i j);
      auto; try lia; apply nth_error_nth'; lia.
Qed.

(** The element at position [k] of a sorted list has at most [k] elements
    strictly below it and more than [k] elements up to it. *)
Lemma sorted_rank (s : list num) (k : nat) (d : num) :
  Forall number s -> nondecreasing s -> (k < length s)%nat ->
  (countBelow (nth k s d) s <= k < countUpTo (nth k s d) s)%nat.
Proof.
  intros Hn Hs Hk. unfold countBelow, countUpTo.
  assert (Hge : forall j, (k <= j < length s)%nat -> (nth j s d <? nth k s d) = false).
  { intros j Hj. apply leb_not_ltb. apply nondecreasing_nth; auto; lia. }
  assert (Hle : forall j, (j <= k)%nat -> (nth j s d <=? nth k s d) = true).
  { intros j Hj. apply nondecreasing_nth; auto; lia. }
  remember (nth k s d) as v eqn:Ev. clear Ev. split.
  - rewrite <- (firstn_skipn k s). rewrite filter_app, length_app.
    rewrite (@filter_none _ (fun x => x <? v) (skipn k s)).
    + pose proof (filter_length_le (fun x => x <? v) (firstn k s)) as Hf.
      rewrite length_firstn in Hf. simpl. lia.
    + apply Forall_forall. intros x Hx. apply In_nth with (d := d) in Hx.
      destruct Hx as (j & Hj & <-). rewrite length_skipn in Hj.
      rewrite nth_skipn. apply Hge. lia.
  - rewrite <- (firstn_skipn (S k) s). rewrite filter_app, length_app.
    rewrite (@filter_all _ (fun x => x <=? v) (firstn (S k) s)).
    + rewrite length_firstn. lia.
    + apply Forall_forall. intros x Hx. apply In_nth with (d := d) in Hx.
      destruct Hx as (j & Hj & <-). rewrite length_firstn in Hj.
      rewrite nth_firstn. destruct (Nat.ltb_spec j (S k)); [|lia].
      apply Hle. lia.
Qed.

(** Two numbers of the same rank are the same number. *)
Lemma rank_unique (l : list num) (k : nat) (v w : num) :
  number v -> number w ->
  (countBelow v l <= k < countUpTo v l)%nat ->
  (countBelow w l <= k < countUpTo w l)%nat ->
  (v === w) = true.
Proof.
  assert (Hlt : forall v w, (v <? w) = true ->
                            (countUpTo v l <= countBelow w l)%nat).
  { clear v w. intros v w Hvw. unfold countUpTo, countBelow.
    induction l as [|x l IH]; simpl; [lia|].
    destruct (x <=? v) eqn:E; simpl.
    - rewrite (leb_ltb_trans _ _ _ E Hvw). simpl. lia.
    - destruct (x <? w); simpl; lia. }
  intros Nv Nw Hv Hw. rewrite eqb_leb. apply andb_true_iff. split.
  - destruct (leb_or Nv Nw) as [|Hc]; [assumption|]. apply Hlt in Hc. lia.
  - destruct (leb_or Nw Nv) as [|Hc]; [assumption|]. apply Hlt in Hc. lia.
Qed.

(** Sorted lists with the same elements agree position by position. *)
Lemma sorted_nth_same (s s' : list num) (k : nat) (d d' : num) :
  Forall number s -> nondecreasing s -> nondecreasing s' -> Permutation s s' ->
  (k < length s)%nat -> (nth k s d === nth k s' d') = true.
Proof.
  intros Hn Hs Hs' Hp Hk.
  assert (Hn' : Forall number s') by (eapply Permutation_Forall; eauto).
  assert (Hk' : (k < length s')%nat) by now rewrite <- (Permutation_length Hp).
  pose proof (@sorted_rank s k d Hn Hs Hk) as Hr.
  pose proof (@sorted_rank s' k d' Hn' Hs' Hk') as Hr'.
  apply (@rank_unique s k); auto using Forall_nth_number.
  unfold countBelow, countUpTo in *.
  now rewrite !(filter_length_Permutation _ Hp).
Qed.

Lemma even_mod2 (n : nat) : Nat.even n = (n mod 2 =? 0)%nat.
Proof.
  destruct (Nat.even n) eqn:E; symmetry.
  - apply Nat.even_spec in E. destruct E as [k ->]. apply Nat.eqb_eq.
    rewrite Nat.mul_comm. apply Nat.Div0.mod_mul.
  - apply Nat.eqb_neq. intros Hm. apply Nat.Div0.mod_divides in Hm.
    destruct Hm as [k Hk].
    assert (Nat.even n = true) by (apply Nat.even_spec; exists k; lia).
    congruence.
Qed.

Lemma median_rule (arr : list num) : median arr = evenOddRule (sort sub arr).
Proof.
  destruct arr as [|x0 arr]; [reflexivity|].
  pose proof (Permutation_length (sort_Permutation sub (x0 :: arr))) as Hlen.
  unfold median, evenOddRule.
  remember (sort sub (x0 :: arr)) as s eqn:Es. clear Es.
  destruct s as [|y0 s']; [discriminate|].
  assert (Hmid : (length (y0 :: s') / 2 < length (y0 :: s'))%nat)
    by (apply Nat.div_lt; simpl; lia).
  f_equal. rewrite even_mod2, (nth_indep _ x0 y0 Hmid).
  destruct (_ =? 0)%nat; [|reflexivity].
  rewrite (nth_indep _ x0 y0) by lia. reflexivity.
Qed.

Lemma median_same (arr arr' : list num) :
  Forall number arr -> Permutation arr arr' ->
  sameResult (median arr) (median arr').
Proof.
  intros Hn Hp.
  assert (Hs : Permutation (sort sub arr) (sort sub arr')).
  { rewrite <- (sort_Permutation sub arr), <- (sort_Permutation sub arr'). exact Hp. }
  assert (Hn' : Forall number arr') by (eapply Permutation_Forall; eauto).
  assert (Hns : Forall number (sort sub arr))
    by (eapply Permutation_Forall; [apply sort_Permutation|exact Hn]).
  pose proof (Permutation_length Hs) as Hlen.
  pose proof (Permutation_length (sort_Permutation sub arr)) as Hlen0.
  pose proof (sort_ascending Hn) as Ha. pose proof (sort_ascending Hn') as Ha'.
  destruct arr as [|x0 arr], arr' as [|x0' arr'];
    try (apply Permutation_length in Hp; discriminate); [exact I|].
  unfold median, sameResult. rewrite <- Hlen.
  set (s := sort sub (x0 :: arr)) in *. set (s' := sort sub (x0' :: arr')) in *.
  simpl in Hlen0.
  assert (Hmid : (length s / 2 < length s)%nat) by (apply Nat.div_lt; lia).
  destruct (length s mod 2 =? 0)%nat.
  - apply mean_same; try (apply Forall_nth_number; [exact Hns | lia]);
      apply sorted_nth_same; auto; lia.
  - left. apply sorted_nth_same; auto.
Qed.

End Sorting.

(** C5. The median of a list of numbers is the even/odd rule applied to
    the list sorted ascending: a sorted list with the same elements as the
    input exists and the result is the rule on it; reordering the input
    gives the same result; the result is absent exactly for the empty
    list.  The measurement lists of the detector are lists of numbers.  On
    binary64, [median [100, 200, 300] = 200] and
    [median [100, 200, 300, 400] = 250]. *)
Theorem median_spec `{!OrderLaws num} `{!MedianLaws num} :
  (forall arr : list num,
      Forall number arr ->
      exists s, Permutation arr s /\ nondecreasing s /\ median arr = evenOddRule s)
  /\ (forall arr arr' : list num,
         Forall number arr -> Permutation arr arr' ->
         sameResult (median arr) (median arr'))
  /\ (forall arr : list num, median arr = None <-> arr = [])
  /\ (forall (cfg : Config num) (samples : list (Sample num)),
         Forall number (findDelaysInSequence cfg samples))
  /\ median [100; 200; 300]%float = Some 200%float
  /\ median [100; 200; 300; 400]%float = Some 250%float
  /\ median [300; 100; 200]%float = Some 200%float
  /\ median [400; 100; 300; 200]%float = Some 250%float.
Proof.
  split; [|split; [|split; [|split]]].
  - intros arr Hn. exists (sort sub arr).
    split; [apply sort_Permutation|].
    split; [now apply sort_ascending | apply median_rule].
  - apply median_same.
  - apply median_nil_iff.
  - apply delays_numbers.
  - repeat split; reflexivity.
Qed.


End MedianProofs.

Section SearchProofs.

Context {num : Type} `{Number num}.
Context `{!OrderLaws num} `{!DistanceLaws num}.
Local Open Scope num_scope.

Variable times : list num.
Variable targetTime : num.
Hypothesis Hsorted : nondecreasing times.
Hypothesis Hfinite : Forall (fun t => finite (t - targetTime)) times.

Local Notation "'dist' t" := (Math_abs (t - targetTime)) (at level 10, t at level 9).

Lemma times_finite (i : Z) (t : num) :
  at_index times i = Some t -> finite (t - targetTime).
Proof.
  intros Hi. apply at_index_In in Hi. destruct Hi as [Hin _].
  exact (proj1 (Forall_forall _ _) Hfinite t Hin).
Qed.

Lemma times_number (i : Z) (t : num) :
  at_index times i = Some t ->
  number t /\ number targetTime /\ number (dist t).
Proof.
  intros Hi. pose proof (times_finite _ Hi) as Hf.
  destruct (difference_number _ _ Hf) as [Ht HT].
  repeat split; auto. now apply below_Infinity_refl.
Qed.

Lemma times_le (i j : Z) (t t' : num) :
  (i <= j)%Z -> at_index times i = Some t -> at_index times j = Some t' ->
  (t <=? t') = true.
Proof.
  intros Hij Hi Hj. destruct (Z.eq_dec i j) as [->|Hne].
  - assert (t = t') by congruence. subst. apply (times_number _ Hi).
  - unfold at_index in *.
    destruct (Z.ltb_spec i 0); [discriminate|].
    destruct (Z.ltb_spec j 0); [discriminate|].
    apply (@StronglySorted_nth_error _ (fun x y => (x <=? y) = true) times
             (Z.to_nat i) (Z.to_nat j)); auto. lia.
Qed.

(** On the target the distance is at most any other. *)
Lemma distance_zero (a x : num) :
  finite (a - targetTime) -> finite (x - targetTime) ->
  (a <=? targetTime) = true -> (targetTime <=? a) = true ->
  (dist a <=? dist x) = true.
Proof.
  intros Ha Hx Hle Hge.
  destruct (difference_number _ _ Hx) as [Nx NT].
  destruct (leb_or Nx NT) as [Hxt|Htx].
  - apply distance_below; auto. eapply leb_trans; eauto.
  - apply distance_above; auto. eapply leb_trans; [exact Hle | now apply ltb_leb].
Qed.

(** A bound is at most [x]. *)
Definition atMost (b : Bound num) (x : num) : Prop :=
  match b with
  | Infinity => True
  | Finite m => (m <=? x) = true
  end.

(** What the search knows when it tests [left <= right]. *)
Definition searched (left right closest : Z) (minDiff : Bound num) : Prop :=
  (0 <= left)%Z /\ (right < Z.of_nat (length times))%Z /\ (left <= right + 1)%Z
  /\ (forall i t, (i < left)%Z -> at_index times i = Some t ->
                  (t <? targetTime) = true /\ atMost minDiff (dist t))
  /\ (forall i t, (right < i)%Z -> at_index times i = Some t ->
                  (targetTime <? t) = true /\ atMost minDiff (dist t))
  /\ match minDiff with
     | Infinity => left = 0%Z /\ right = (Z.of_nat (length times) - 1)%Z
     | Finite m => exists t, at_index times closest = Some t /\ m = dist t
     end.

(** What the search returns: -1 when no timestamp is within the tolerance,
    and otherwise the index of a timestamp that is within the tolerance and
    as close to the target as any. *)
Definition searchResult (r : Z) : Prop :=
  (r = (-1)%Z /\ forall i t, at_index times i = Some t -> (dist t <? half) = false)
  \/ (exists t, at_index times r = Some t /\ (dist t <? half) = true
                /\ forall i t', at_index times i = Some t' ->
                                (dist t <=? dist t') = true).

(** Leaving the loop with an empty interval. *)
Lemma search_exit (left right closest : Z) (minDiff : Bound num) :
  searched left right closest minDiff -> (right < left)%Z ->
  searchResult (if withinTolerance minDiff then closest else (-1)%Z).
Proof.
  intros (Hl & Hr & Hlr & Hlow & Hhigh & Hmin) Hexit.
  assert (Hevery : forall i t, at_index times i = Some t -> atMost minDiff (dist t)).
  { intros i t Hi. destruct (Z.lt_ge_cases i left).
    - apply (Hlow i t); assumption.
    - apply (Hhigh i t); [lia | assumption]. }
  destruct minDiff as [|m]; simpl.
  - left. split; [reflexivity|]. intros i t Hi.
    apply at_index_In in Hi. destruct Hmin. lia.
  - destruct Hmin as (t & Ht & ->). destruct (dist t <? half) eqn:Eh.
    + right. exists t. repeat split; auto.
    + left. split; [reflexivity|]. intros i t' Hi. refute E.
      rewrite (leb_ltb_trans _ _ _ (Hevery i t' Hi) E) in Eh. discriminate.
Qed.

(** One probe: the new bound is the distance of the new closest index, is
    at most the distance probed, and is at most the old bound. *)
Lemma probe_bound (mid closest : Z) (minDiff : Bound num) (t : num) :
  at_index times mid = Some t ->
  match minDiff with
  | Infinity => True
  | Finite m => exists t0, at_index times closest = Some t0 /\ m = dist t0
  end ->
  exists m t',
    (if below (dist t) minDiff then (mid, Finite (dist t)) else (closest, minDiff))
    = (fst (if below (dist t) minDiff then (mid, Finite (dist t)) else (closest, minDiff)),
       Finite m)
    /\ at_index times
         (fst (if below (dist t) minDiff then (mid, Finite (dist t))
               else (closest, minDiff))) = Some t'
    /\ m = dist t' /\ (m <=? dist t) = true
    /\ match minDiff with
       | Infinity => True
       | Finite m0 => (m <=? m0) = true
       end.
Proof.
  intros Ht Hmin. destruct (times_number _ Ht) as (_ & _ & Nd).
  destruct (below (dist t) minDiff) eqn:Eb; simpl.
  - exists (dist t), t. repeat split; auto.
    destruct minDiff as [|m]; simpl in *; [exact I | now apply ltb_leb].
  - destruct minDiff as [|m]; simpl in Eb.
    + pose proof (times_finite _ Ht) as Hf. unfold finite in Hf.
      rewrite Hf in Eb. discriminate.
    + destruct Hmin as (t0 & Ht0 & ->). destruct (times_number _ Ht0) as (_ & _ & Nd0).
      exists (dist t0), t0. repeat split; auto. now apply leb_total.
Qed.

Lemma findClosestLoop_result (fuel : nat) (left right closest : Z)
      (minDiff : Bound num) :
  searched left right closest minDiff ->
  (right - left < Z.of_nat fuel)%Z ->
  exists r, findClosestLoop times targetTime fuel left right closest minDiff = Some r
            /\ searchResult r.
Proof.
  revert left right closest minDiff.
  induction fuel as [|fuel IH]; intros left right closest minDiff Hinv Hfuel.
  { cbn [findClosestLoop]. destruct (Z.leb_spec left right) as [Hle|Hgt]; [lia|].
    eexists. split; [reflexivity | exact (search_exit Hinv Hgt)]. }
  cbn [findClosestLoop]. destruct (Z.leb_spec left right) as [Hle|Hgt];
    [|eexists; split; [reflexivity | exact (search_exit Hinv Hgt)]].
  pose proof Hinv as (Hl & Hr & Hlr & Hlow & Hhigh & Hmin).
  set (mid := ((left + right) / 2)%Z).
  assert (Hmid : (left <= mid <= right)%Z).
  { unfold mid. split.
    - apply Z.div_le_lower_bound; lia.
    - apply Z.div_le_upper_bound; lia. }
  destruct (@at_index_Some _ times mid) as [t Ht]; [lia|]. rewrite Ht.
  pose proof (times_finite _ Ht) as Ft.
  destruct (times_number _ Ht) as (Nt & NT & _).
  assert (Hmin' : match minDiff with
                  | Infinity => True
                  | Finite m => exists t0, at_index times closest = Some t0 /\ m = dist t0
                  end) by (destruct minDiff; auto).
  destruct (@probe_bound mid closest minDiff t Ht Hmin')
    as (m & t' & Hpair & Hclosest & Hm & Hmt & Hold).
  destruct (if below (dist t) minDiff then (mid, Finite (dist t)) else (closest, minDiff))
    as [closest' minDiff'] eqn:Epair.
  simpl in Hpair, Hclosest. injection Hpair as ->.
  assert (Hkeep : forall x, atMost minDiff x -> minDiff <> Infinity -> (m <=? x) = true).
  { intros x Hx Hne. destruct minDiff as [|m0]; [contradiction|].
    simpl in Hx. eapply leb_trans; eauto. }
  destruct (t <? targetTime) eqn:Elt; [|destruct (targetTime <? t) eqn:Egt].
  - (* the target is above the probe: go right *)
    apply IH; [|lia].
    split; [lia|]. split; [lia|]. split; [lia|]. split; [|split].
    + intros i ti Hi Hti. destruct (Z.lt_ge_cases i left) as [Hil|Hil].
      * destruct (Hlow i ti Hil Hti) as [Hb Hd]. split; [exact Hb|].
        apply Hkeep; [exact Hd|]. intros ->. destruct Hmin.
        apply at_index_In in Hti. lia.
      * assert (Hle' : (ti <=? t) = true) by (apply (times_le (i := i) (j := mid)); auto; lia).
        split; [eapply leb_ltb_trans; eauto|].
        simpl. eapply leb_trans; [exact Hmt|].
        apply distance_below; [exact (times_finite _ Hti) | exact Ft | exact Hle'
                               | now apply ltb_leb].
    + intros i ti Hi Hti. destruct (Hhigh i ti Hi Hti) as [Hb Hd]. split; [exact Hb|].
      apply Hkeep; [exact Hd|]. intros ->. destruct Hmin.
      apply at_index_In in Hti. lia.
    + exists t'. auto.
  - (* the target is below the probe: go left *)
    apply IH; [|lia].
    split; [lia|]. split; [lia|]. split; [lia|]. split; [|split].
    + intros i ti Hi Hti. destruct (Hlow i ti Hi Hti) as [Hb Hd]. split; [exact Hb|].
      apply Hkeep; [exact Hd|]. intros ->. destruct Hmin.
      apply at_index_In in Hti. lia.
    + intros i ti Hi Hti. destruct (Z.lt_ge_cases right i) as [Hir|Hir].
      * destruct (Hhigh i ti Hir Hti) as [Hb Hd]. split; [exact Hb|].
        apply Hkeep; [exact Hd|]. intros ->. destruct Hmin.
        apply at_index_In in Hti. lia.
      * assert (Hle' : (t <=? ti) = true) by (apply (times_le (i := mid) (j := i)); auto; lia).
        split; [eapply ltb_leb_trans; eauto|].
        simpl. eapply leb_trans; [exact Hmt|].
        apply distance_above; [exact Ft | exact (times_finite _ Hti) | now apply ltb_leb
                               | exact Hle'].
    + exists t'. auto.
  - (* the probe is the target *)
    eexists. split; [reflexivity|]. right. exists t.
    assert (H1 : (t <=? targetTime) = true) by now apply leb_total.
    assert (H2 : (targetTime <=? t) = true) by now apply leb_total.
    repeat split; auto.
    + now apply distance_half.
    + intros i ti Hti. apply distance_zero; auto. exact (times_finite _ Hti).
Qed.

End SearchProofs.

Section VariantsAgree.

Context {num : Type} `{Number num}.
Context `{!OrderLaws num} `{!DistanceLaws num}.
Local Open Scope num_scope.

Lemma at_index_map {A B : Type} (f : A -> B) (l : list A) (i : Z) (y : B) :
  at_index (map f l) i = Some y <-> exists x, at_index l i = Some x /\ y = f x.
Proof.
  unfold at_index. destruct (i <? 0)%Z.
  - split; [discriminate | intros (x & Hx & _); discriminate].
  - rewrite nth_error_map. destruct (nth_error l (Z.to_nat i)) as [x|]; simpl.
    + split; [intros [= <-]; eauto | intros (x' & [= <-] & ->); reflexivity].
    + split; [discriminate | intros (x & Hx & _); discriminate].
Qed.

Lemma strictly_increasing_times (samples : list (Sample num)) :
  strictly_increasing samples -> nondecreasing (map time samples).
Proof.
  induction 1 as [|x l Hl IH Hx]; simpl; constructor; auto.
  apply Forall_map. eapply Forall_impl; [|exact Hx].
  intros y Hy. now apply ltb_leb.
Qed.

Lemma strictly_increasing_NoDup (samples : list (Sample num)) :
  strictly_increasing samples -> NoDup samples.
Proof.
  induction 1 as [|x l Hl IH Hx]; constructor; auto.
  intros Hin. rewrite Forall_forall in Hx. specialize (Hx x Hin).
  pose proof (ltb_not_leb _ _ Hx) as Hn. rewrite (ltb_leb _ _ Hx) in Hn. discriminate.
Qed.

(** C3, as amended. On a store with strictly increasing timestamps, each
    at a finite distance from the target, the binary search returns, and
    it returns -1 exactly when the linear scan rejects the target.
    Otherwise both variants point at a nearest sample, at the same distance
    from the target and within the tolerance; their indices are equal
    whenever only one sample is nearest. *)
Theorem search_variants_agree (samples : list (Sample num)) (targetTime : num) :
  strictly_increasing samples ->
  Forall (fun s => finite (time s - targetTime)) samples ->
  exists r,
    findClosestIndex (map time samples) targetTime = Some r
    /\ (foundLinear samples targetTime = true <-> r <> (-1)%Z)
    /\ (r <> (-1)%Z ->
        exists sB sL,
          at_index samples r = Some sB
          /\ at_index samples (fst (closestLinear samples targetTime)) = Some sL
          /\ nearest samples targetTime sB
          /\ nearest samples targetTime sL
          /\ (distance targetTime sL === distance targetTime sB) = true
          /\ (distance targetTime sB <? half) = true
          /\ ((forall s s', nearest samples targetTime s ->
                            nearest samples targetTime s' -> s = s')
              -> fst (closestLinear samples targetTime) = r)).
Proof.
  intros Hstrict Hfin.
  pose proof (strictly_increasing_times Hstrict) as Hsorted.
  assert (Hfinite : Forall (fun t => finite (t - targetTime)) (map time samples))
    by now apply Forall_map.
  assert (Hnum : forall s, In s samples -> number (distance targetTime s)).
  { intros s Hs. apply below_Infinity_refl.
    exact (proj1 (Forall_forall _ _) Hfin s Hs). }
  destruct (@findClosestLoop_result _ _ _ _ (map time samples) targetTime Hsorted Hfinite
              (S (length (map time samples))) 0%Z
              (Z.of_nat (length (map time samples)) - 1)%Z 0%Z Infinity)
    as (r & Hr & Hres).
  { unfold searched. split; [lia|]. split; [lia|]. split; [lia|].
    split; [|split; [|split; reflexivity]];
      intros i t Hi Hti; apply at_index_In in Hti; lia. }
  { lia. }
  exists r. split; [exact Hr|].
  pose proof (foundLinear_nearest targetTime samples) as Hfound.
  destruct Hres as [[-> Hfar]|(t & Ht & Hhalf & Hclosest)].
  - (* nothing within the tolerance *)
    split; [|intros Hc; now contradiction Hc].
    split; [|intros Hc; now contradiction Hc].
    intros Hf. apply Hfound in Hf. destruct Hf as (s & (Hin & _) & Hs).
    apply In_nth_error in Hin. destruct Hin as [i Hi].
    unfold distance in Hs.
    rewrite (Hfar (Z.of_nat i) (time s)) in Hs; [discriminate|].
    apply at_index_map. exists s. split; [|reflexivity].
    unfold at_index. destruct (Z.ltb_spec (Z.of_nat i) 0); [lia|].
    now rewrite Nat2Z.id.
  - apply at_index_map in Ht. destruct Ht as (sB & HsB & ->).
    assert (Hrne : r <> (-1)%Z) by (apply at_index_In in HsB; lia).
    assert (HinB : In sB samples) by (eapply at_index_In; eauto).
    assert (HnearB : nearest samples targetTime sB).
    { split; [exact HinB|].
      split; [exact (proj1 (Forall_forall _ _) Hfin sB HinB)|].
      intros s' Hs'. apply leb_not_ltb.
      apply In_nth_error in Hs'. destruct Hs' as [i Hi].
      apply (Hclosest (Z.of_nat i)). apply at_index_map. exists s'.
      split; [|reflexivity]. unfold at_index.
      destruct (Z.ltb_spec (Z.of_nat i) 0); [lia|]. now rewrite Nat2Z.id. }
    assert (Hyes : foundLinear samples targetTime = true)
      by (apply Hfound; exists sB; auto).
    split; [tauto|]. intros _.
    pose proof (closestLinear_scanned targetTime samples) as Hscan.
    destruct (closestLinear samples targetTime) as [idx [|m]]; simpl in *.
    + destruct Hscan as [_ Hscan].
      specialize (Hscan sB HinB). destruct HnearB as (_ & Hb & _).
      rewrite Hb in Hscan. discriminate.
    + destruct Hscan as (sL & HsL & -> & HnearL).
      exists sB, sL. repeat split; auto; try apply HnearB; try apply HnearL.
      * rewrite eqb_leb. apply andb_true_iff.
        destruct HnearB as (_ & _ & HminB). destruct HnearL as (HinL & _ & HminL).
        split; apply leb_total; try (apply Hnum; assumption); auto.
      * intros Huniq. assert (sL = sB) by now apply Huniq. subst sL.
        pose proof (strictly_increasing_NoDup Hstrict) as Hnodup.
        unfold at_index in HsL, HsB.
        destruct (Z.ltb_spec idx 0); [discriminate|].
        destruct (Z.ltb_spec r 0); [discriminate|].
        assert (Z.to_nat idx = Z.to_nat r); [|lia].
        eapply (proj1 (NoDup_nth_error samples) Hnodup); [|congruence].
        apply nth_error_Some. congruence.
Qed.

End VariantsAgree.

(** *** The rest of the workflow

    How the functions above behave together with the rest of the
    program: the two validators, the detector's own sort, the boundaries,
    the bucketing and the detection per bucket, the thresholds, the
    sessions and the master table of the meta-analysis, the worker pool,
    and the validator of [validate_delays.js]. *)

(** **** The percentile indices on binary64

    [1/3] and [2/3] are rounded down, and so is no product [n * (2/3)]
    rounded up to more than [n - 1/2]. *)

Module F64Percentile.

Local Open Scope Z_scope.

Lemma of_Z_canonical n :
  0 < n < 2 ^ 53 ->
  exists m e,
    Prim2SF (F64.of_Z n) = S754_finite false m e
    /\ bounded prec emax m e = true
    /\ Zpos m * 2 ^ (e + 1074) = n * 2 ^ 1074.
Proof.
  intros Hn. destruct n as [|p|p]; try lia.
  unfold F64.of_Z. cbn [binary_normalize].
  rewrite binary_round_nearest by lia.
  destruct (@integer_canonical p ltac:(lia)) as (m & e & Hb & Hv).
  replace (Zpos p * 2 ^ (0 + 1074)) with (Zpos m * 2 ^ (e + 1074))
    by (rewrite Hv; reflexivity).
  rewrite nearestValue_canonical by exact Hb.
  rewrite Prim2SF_SF2Prim by exact Hb. exists m, e. auto.
Qed.

(** An odd multiple of one half, below [2 ^ 52], is a double. *)
Lemma half_integer_canonical p :
  1 < Zpos p < 2 ^ 53 ->
  exists m e,
    bounded prec emax m e = true
    /\ Zpos m * 2 ^ (e + 1074) = Zpos p * 2 ^ 1073.
Proof.
  intros Hp.
  pose proof (Z.log2_spec (Zpos p) ltac:(lia)) as [Hlo Hhi].
  pose proof (Z.log2_nonneg (Zpos p)) as HL.
  assert (HL52 : Z.log2 (Zpos p) < 53) by (apply Z.log2_lt_pow2; lia).
  set (L := Z.log2 (Zpos p)) in *.
  assert (Hpow : 0 < 2 ^ (52 - L)) by (apply Z.pow_pos_nonneg; lia).
  assert (Hm : 0 < Zpos p * 2 ^ (52 - L)) by lia.
  exists (Z.to_pos (Zpos p * 2 ^ (52 - L))), (L - 53).
  assert (Hlog : Z.log2 (Zpos p * 2 ^ (52 - L)) = 52).
  { rewrite Z.log2_mul_pow2 by lia. fold L. lia. }
  split.
  - unfold bounded, canonical_mantissa. apply andb_true_iff. split.
    + apply Z.eqb_eq. rewrite digits2_log2, Z2Pos.id, Hlog by lia.
      unfold fexp, SpecFloat.emin, prec, emax. lia.
    + apply Z.leb_le. unfold prec, emax. lia.
  - rewrite Z2Pos.id by lia. rewrite <- Z.mul_assoc, <- Z.pow_add_r by lia.
    f_equal. f_equal. lia.
Qed.

(** The product of an integer and a normal double below one. *)
Lemma scaled_nearest n (c : float) mc ec :
  0 < n < 2 ^ 53 -> Prim2SF c = S754_finite false mc ec ->
  2 ^ 52 <= Zpos mc -> -1022 <= ec ->
  Prim2SF (F64.of_Z n * c)%float
  = nearestValue false (n * Zpos mc * 2 ^ (ec + 1074)).
Proof.
  intros Hn Hc Hmc Hec.
  destruct (of_Z_canonical Hn) as (m & e & Hx & Hb & Hv).
  pose proof (bounded_facts _ _ Hb) as (Hm & _ & He).
  assert (HU : 0 < 2 ^ 1074) by (apply Z.pow_pos_nonneg; lia).
  assert (He52 : -52 <= e).
  { destruct (Z.le_gt_cases (-52) e) as [|Hlt]; [assumption|exfalso].
    assert (Hp : 2 ^ (e + 1074) <= 2 ^ 1021) by (apply Z.pow_le_mono_r; lia).
    assert (Hpp : 0 < 2 ^ (e + 1074)) by (apply Z.pow_pos_nonneg; lia).
    assert (Hs : 2 ^ 1074 = 2 ^ 53 * 2 ^ 1021)
      by (rewrite <- Z.pow_add_r by lia; reflexivity).
    assert (Hlt' : Zpos m * 2 ^ (e + 1074) < 2 ^ 53 * 2 ^ 1021).
    { apply Z.le_lt_trans with (m := Zpos m * 2 ^ 1021).
      - apply Z.mul_le_mono_nonneg_l; lia.
      - apply Z.mul_lt_mono_pos_r; [apply Z.pow_pos_nonneg; lia | exact Hm]. }
    nia. }
  rewrite mul_spec, Hx, Hc. unfold SF64mul, SFmul. cbn [xorb].
  assert (Hlog : 52 <= Z.log2 (Zpos (m * mc))).
  { change 52 with (Z.log2 (2 ^ 52)). apply Z.log2_le_mono.
    rewrite Pos2Z.inj_mul. nia. }
  rewrite binary_round_aux_nearest.
  - f_equal. apply Z.mul_reg_r with (p := 2 ^ 1074); [lia|].
    rewrite Pos2Z.inj_mul.
    replace (Zpos m * Zpos mc * 2 ^ (e + ec + 1074) * 2 ^ 1074)
      with (Zpos m * 2 ^ (e + 1074) * (Zpos mc * 2 ^ (ec + 1074))).
    + rewrite Hv. ring.
    + assert (Hpw : 2 ^ (e + ec + 1074) * 2 ^ 1074 = 2 ^ (e + 1074) * 2 ^ (ec + 1074)).
      { rewrite <- !Z.pow_add_r by lia. f_equal. lia. }
      rewrite <- (Z.mul_assoc _ (2 ^ (e + ec + 1074))), Hpw. ring.
  - lia.
  - unfold shiftOf. rewrite Z.log2_mul_pow2 by lia. lia.
Qed.

(** A value rounded from below a double stays below it. *)
Lemma nearest_below N mF eF :
  0 <= N <= Zpos mF * 2 ^ (eF + 1074) ->
  bounded prec emax mF eF = true ->
  valid_binary (nearestValue false N) = true ->
  is_finite (nearestValue false N) = true
  /\ 0 <= Zval (nearestValue false N) <= Zpos mF * 2 ^ (eF + 1074).
Proof.
  intros HN Hb Hv.
  pose proof (@nearestValue_mono N (Zpos mF * 2 ^ (eF + 1074)) HN) as Hle.
  rewrite (@nearestValue_canonical false _ _ Hb) in Hle.
  pose proof (bounded_facts _ _ Hb) as (_ & _ & HeF).
  assert (HF : 0 < Zpos mF * 2 ^ (eF + 1074)).
  { apply Z.mul_pos_pos; [lia | apply Z.pow_pos_nonneg; lia]. }
  assert (Hsign : match nearestValue false N with
                  | S754_zero s | S754_infinity s | S754_finite s _ _ => s = false
                  | S754_nan => True
                  end).
  { unfold nearestValue. destruct (fst (nearestPair N)); [reflexivity| |exact I].
    destruct (snd (nearestPair N) <=? emax - prec); reflexivity. }
  destruct (nearestValue false N) as [s|s| |s m e] eqn:EP.
  - cbn [Zval is_finite]. split; [reflexivity | lia].
  - subst s. discriminate Hle.
  - discriminate Hle.
  - subst s. split; [reflexivity|].
    pose proof (@SFleb_Zval (S754_finite false m e) (S754_finite false mF eF)
                  Hv Hb eq_refl eq_refl Hle) as HZ.
    cbn [Zval cond_Zopp] in *.
    pose proof (bounded_facts _ _ Hv) as (_ & _ & He).
    assert (0 < 2 ^ (e + 1074)) by (apply Z.pow_pos_nonneg; lia).
    split; [nia | exact HZ].
Qed.

Lemma index_canonical (y : float) m e z :
  Prim2SF y = S754_finite false m e -> -1074 <= e ->
  Zpos m * 2 ^ (e + 1074) = z * 2 ^ 1074 -> z < 2 ^ 32 - 1 ->
  F64Index.index y = Some z.
Proof.
  intros Hy He Hv Hz. unfold F64Index.index. rewrite Hy.
  assert (HU : 0 < 2 ^ 1074) by (apply Z.pow_pos_nonneg; lia).
  assert (Hk : Z.shiftl (Zpos m) e = z /\ Z.shiftl z (- e) = Zpos m).
  { destruct (Z.le_gt_cases 0 e) as [Hpos|Hneg].
    - assert (HE : 0 < 2 ^ e) by (apply Z.pow_pos_nonneg; lia).
      assert (Hz' : z = Zpos m * 2 ^ e).
      { apply Z.mul_reg_r with (p := 2 ^ 1074); [lia|].
        rewrite <- Hv, Z.pow_add_r by lia. ring. }
      rewrite Z.shiftl_mul_pow2 by lia. split; [lia|].
      rewrite Z.shiftl_div_pow2 by lia. rewrite Z.opp_involutive, Hz'.
      apply Z.div_mul. lia.
    - assert (HE : 0 < 2 ^ (- e)) by (apply Z.pow_pos_nonneg; lia).
      assert (Hm : Zpos m = z * 2 ^ (- e)).
      { apply Z.mul_reg_r with (p := 2 ^ (e + 1074));
          [apply Z.neq_sym, Z.lt_neq, Z.pow_pos_nonneg; lia|].
        rewrite Hv, <- Z.mul_assoc, <- Z.pow_add_r by lia.
        f_equal. f_equal. lia. }
      rewrite Z.shiftl_div_pow2 by lia. rewrite Hm at 1.
      rewrite Z.div_mul by lia. split; [reflexivity|].
      rewrite Z.shiftl_mul_pow2 by lia. lia. }
  destruct Hk as [-> ->]. rewrite Z.eqb_refl.
  destruct (Z.ltb_spec z (2 ^ 32 - 1)); [reflexivity | lia].
Qed.

(** The floor of a double that is not negative, as an array index: the
    number of whole units in it. *)
Lemma floor_index (x : float) :
  is_finite (Prim2SF x) = true ->
  0 <= Zval (Prim2SF x) < (2 ^ 32 - 1) * 2 ^ 1074 ->
  F64Index.index (F64Index.floor x) = Some (Zval (Prim2SF x) / 2 ^ 1074).
Proof.
  intros Hf HZ. pose proof (Prim2SF_valid x) as Hv.
  assert (HU : 0 < 2 ^ 1074) by (apply Z.pow_pos_nonneg; lia).
  unfold F64Index.floor.
  destruct (Prim2SF x) as [s|s| |s m e] eqn:Ex; try discriminate.
  - unfold F64Index.index. rewrite Ex. reflexivity.
  - pose proof (bounded_facts _ _ Hv) as (Hm & _ & He).
    assert (Hp : 0 < 2 ^ (e + 1074)) by (apply Z.pow_pos_nonneg; lia).
    cbn [Zval] in *. destruct s; cbn [cond_Zopp] in *; [nia|].
    destruct (Z.ltb_spec e 0) as [Hneg|Hpos].
    + assert (HE : 0 < 2 ^ (- e)) by (apply Z.pow_pos_nonneg; lia).
      assert (Hs : 2 ^ 1074 = 2 ^ (e + 1074) * 2 ^ (- e)).
      { rewrite <- Z.pow_add_r by lia. f_equal. lia. }
      assert (Hq : Zpos m * 2 ^ (e + 1074) / 2 ^ 1074 = Zpos m / 2 ^ (- e)).
      { rewrite Hs, (Z.mul_comm (2 ^ (e + 1074))).
        apply Z.div_mul_cancel_r; lia. }
      rewrite Hq, Z.shiftr_div_pow2 by lia.
      set (z := Zpos m / 2 ^ (- e)).
      assert (Hz : 0 <= z < 2 ^ 32 - 1).
      { split; [apply Z.div_pos; lia|].
        unfold z. rewrite <- Hq. apply Z.div_lt_upper_bound; lia. }
      destruct (Z.eq_dec z 0) as [->|Hnz]; [reflexivity|].
      destruct (@of_Z_canonical z ltac:(lia)) as (m' & e' & Hy & Hb & Hv').
      pose proof (bounded_facts _ _ Hb) as (_ & _ & He').
      apply (@index_canonical _ m' e' z Hy He' Hv'). lia.
    + assert (HE : 0 < 2 ^ e) by (apply Z.pow_pos_nonneg; lia).
      assert (Hq : Zpos m * 2 ^ (e + 1074) = Zpos m * 2 ^ e * 2 ^ 1074).
      { rewrite Z.pow_add_r by lia. ring. }
      rewrite Hq, Z.div_mul by lia.
      apply (@index_canonical _ m e _ Ex He Hq). nia.
Qed.

Definition third : positive := 6004799503160661.

Lemma percentile_index n :
  0 < n < 2 ^ 32 ->
  exists i j,
    F64Index.index (F64Index.floor (F64.of_Z n * (F64.of_Z 1 / F64.of_Z 3))%float) = Some i
    /\ F64Index.index (F64Index.floor (F64.of_Z n * (F64.of_Z 2 / F64.of_Z 3))%float) = Some j
    /\ 0 <= i <= j /\ j < n.
Proof.
  intros Hn. destruct (Z.eq_dec n 1) as [->|Hn1].
  { exists 0, 0. repeat split; try reflexivity; lia. }
  assert (HU : 0 < 2 ^ 1074) by (apply Z.pow_pos_nonneg; lia).
  assert (Hn53 : 0 < n < 2 ^ 53) by lia.
  assert (H1 : Prim2SF (F64.of_Z 1 / F64.of_Z 3)%float = S754_finite false third (-54))
    by reflexivity.
  assert (H2 : Prim2SF (F64.of_Z 2 / F64.of_Z 3)%float = S754_finite false third (-53))
    by reflexivity.
  pose proof (@scaled_nearest n _ _ _ Hn53 H1 ltac:(unfold third; lia) ltac:(lia)) as E1.
  pose proof (@scaled_nearest n _ _ _ Hn53 H2 ltac:(unfold third; lia) ltac:(lia)) as E2.
  set (x1 := (F64.of_Z n * (F64.of_Z 1 / F64.of_Z 3))%float) in *.
  set (x2 := (F64.of_Z n * (F64.of_Z 2 / F64.of_Z 3))%float) in *.
  change (-54 + 1074) with 1020 in E1. change (-53 + 1074) with 1021 in E2.
  set (N1 := n * Zpos third * 2 ^ 1020) in *.
  set (N2 := n * Zpos third * 2 ^ 1021) in *.
  assert (P1020 : 0 < 2 ^ 1020) by (apply Z.pow_pos_nonneg; lia).
  assert (S1021 : 2 ^ 1021 = 2 * 2 ^ 1020)
    by (rewrite <- Z.pow_succ_r by lia; reflexivity).
  assert (S1073 : 2 ^ 1073 = 2 ^ 52 * 2 ^ 1021)
    by (rewrite <- Z.pow_add_r by lia; reflexivity).
  assert (S1074 : 2 ^ 1074 = 2 * 2 ^ 1073)
    by (rewrite <- Z.pow_succ_r by lia; reflexivity).
  assert (H12 : 0 <= N1 <= N2) by (unfold N1, N2, third; nia).
  destruct (2 * n - 1) as [|p|p] eqn:Ep; try lia.
  destruct (@half_integer_canonical p ltac:(lia)) as (mF & eF & HbF & HvF).
  assert (H2F : 0 <= N2 <= Zpos mF * 2 ^ (eF + 1074)).
  { rewrite HvF, <- Ep. unfold N2, third. rewrite S1073.
    assert (0 < 2 ^ 1021) by lia. nia. }
  pose proof (Prim2SF_valid x1) as V1. pose proof (Prim2SF_valid x2) as V2.
  rewrite E1 in V1. rewrite E2 in V2.
  destruct (@nearest_below N1 mF eF ltac:(lia) HbF V1) as (F1 & Z1lo & Z1hi).
  destruct (@nearest_below N2 mF eF H2F HbF V2) as (F2 & Z2lo & Z2hi).
  pose proof (@SFleb_Zval _ _ V1 V2 F1 F2 (nearestValue_mono H12)) as Z12.
  rewrite <- E1 in F1, Z1lo, Z1hi, Z12. rewrite <- E2 in F2, Z2lo, Z2hi, Z12.
  rewrite HvF, <- Ep in Z1hi, Z2hi.
  assert (Hlt : Zval (Prim2SF x2) < n * 2 ^ 1074) by (rewrite S1074; nia).
  exists (Zval (Prim2SF x1) / 2 ^ 1074), (Zval (Prim2SF x2) / 2 ^ 1074).
  split; [apply floor_index; [exact F1 | nia]|].
  split; [apply floor_index; [exact F2 | nia]|].
  split; [split|].
  - apply Z.div_pos; lia.
  - apply Z.div_le_mono; lia.
  - apply Z.div_lt_upper_bound; lia.
Qed.

End F64Percentile.

#[export] Instance float_PercentileLaws : PercentileLaws float.
Proof. constructor. exact F64Percentile.percentile_index. Qed.

(** **** The percentile indices in exact arithmetic *)

Lemma Exact_index_floor (x : Q) :
  (0 <= x)%Q -> (Qfloor x < 2 ^ 32 - 1)%Z ->
  ExactIndex.index (ExactIndex.floor x) = Some (Qfloor x) /\ (0 <= Qfloor x)%Z.
Proof.
  intros Hx Hlt. unfold ExactIndex.index, ExactIndex.floor.
  rewrite Qfloor_Z.
  assert (H0 : (0 <= Qfloor x)%Z).
  { change 0%Z with (Qfloor 0). apply Qfloor_resp_le. exact Hx. }
  split; [|exact H0].
  replace (Qeq_bool (inject_Z (Qfloor x)) (inject_Z (Qfloor x))) with true
    by (symmetry; apply Qeq_bool_iff; reflexivity).
  destruct (Z.leb_spec 0 (Qfloor x)); [|lia].
  destruct (Z.ltb_spec (Qfloor x) (2 ^ 32 - 1)); [reflexivity | lia].
Qed.

#[export] Instance Q_PercentileLaws : PercentileLaws Q.
Proof.
  constructor. intros n Hn.
  cbv [of_Z mul div Q_Number Math_floor arrayIndex Q_Floor].
  assert (Hn0 : (0 < inject_Z n)%Q) by (unfold inject_Z, Qlt; simpl; lia).
  change (inject_Z 1) with 1%Q. change (inject_Z 2) with 2%Q.
  change (inject_Z 3) with 3%Q.
  set (q := inject_Z n) in *.
  change (1 / 3)%Q with (1 # 3)%Q. change (2 / 3)%Q with (2 # 3)%Q.
  set (x1 := (q * (1 # 3))%Q).
  set (x2 := (q * (2 # 3))%Q).
  assert (H1 : (0 <= x1)%Q) by (unfold x1; lra).
  assert (H12 : (x1 <= x2)%Q) by (unfold x1, x2; lra).
  assert (H2 : (x2 < q)%Q) by (unfold x2; lra).
  assert (Hj : (Qfloor x2 < n)%Z).
  { rewrite Zlt_Qlt. apply Qle_lt_trans with (y := x2); [apply Qfloor_le | exact H2]. }
  assert (Hij : (Qfloor x1 <= Qfloor x2)%Z) by (apply Qfloor_resp_le; exact H12).
  destruct (@Exact_index_floor x1 H1 ltac:(lia)) as [E1 Hi].
  destruct (@Exact_index_floor x2 ltac:(lra) ltac:(lia)) as [E2 _].
  exists (Qfloor x1), (Qfloor x2). repeat split; assumption.
Qed.

Section ValidatorsAgree.

Context {num : Type} `{Number num} `{Sqrt num}.
Context `{!OrderLaws num} `{!DistanceLaws num}.
Local Open Scope num_scope.

Lemma time_sorted_times (samples : list (Sample num)) :
  time_sorted samples -> nondecreasing (map time samples).
Proof.
  induction 1 as [|x l Hl IH Hx]; simpl; constructor; auto.
  now apply Forall_map.
Qed.

Lemma at_index_of_nat {A : Type} (l : list A) (i : nat) (x : A) :
  nth_error l i = Some x -> at_index l (Z.of_nat i) = Some x.
Proof.
  intros Hi. unfold at_index.
  destruct (Z.ltb_spec (Z.of_nat i) 0); [lia|]. now rewrite Nat2Z.id.
Qed.

(** On a store sorted by time, the binary search finds an index exactly
    when the scan accepts the target. *)
Lemma found_agree (samples : list (Sample num)) (targetTime : num) :
  time_sorted samples ->
  Forall (fun s => finite (time s - targetTime)) samples ->
  exists r, findClosestIndex (map time samples) targetTime = Some r
            /\ negb (r =? -1)%Z = foundLinear samples targetTime.
Proof.
  intros Hs Hfin.
  pose proof (time_sorted_times Hs) as Hsorted.
  assert (Hfinite : Forall (fun t => finite (t - targetTime)) (map time samples))
    by now apply Forall_map.
  destruct (@findClosestLoop_result _ _ _ _ (map time samples) targetTime Hsorted Hfinite
              (S (length (map time samples))) 0%Z
              (Z.of_nat (length (map time samples)) - 1)%Z 0%Z Infinity)
    as (r & Hr & Hres).
  { unfold searched. split; [lia|]. split; [lia|]. split; [lia|].
    split; [|split; [|split; reflexivity]];
      intros i t Hi Hti; apply at_index_In in Hti; lia. }
  { lia. }
  exists r. split; [exact Hr|].
  pose proof (foundLinear_nearest targetTime samples) as Hfound.
  destruct Hres as [[-> Hfar]|(t & Ht & Hhalf & Hclosest)].
  - simpl. symmetry. apply not_true_iff_false. intros Hf.
    apply Hfound in Hf. destruct Hf as (s & (Hin & _) & Hlt).
    apply In_nth_error in Hin. destruct Hin as [i Hi].
    unfold distance in Hlt.
    rewrite (Hfar (Z.of_nat i) (time s)) in Hlt; [discriminate|].
    apply at_index_map. exists s. split; [now apply at_index_of_nat | reflexivity].
  - apply at_index_map in Ht. destruct Ht as (sB & HsB & ->).
    assert (Hrne : (r =? -1)%Z = false)
      by (apply at_index_In in HsB; apply Z.eqb_neq; lia).
    rewrite Hrne. simpl. symmetry. apply Hfound. exists sB. split; [|exact Hhalf].
    assert (HinB : In sB samples) by (eapply at_index_In; eauto).
    split; [exact HinB|].
    split; [exact (proj1 (Forall_forall _ _) Hfin sB HinB)|].
    intros s' Hs'. apply leb_not_ltb.
    apply In_nth_error in Hs'. destruct Hs' as [i Hi].
    apply (Hclosest (Z.of_nat i)). apply at_index_map. exists s'.
    split; [now apply at_index_of_nat | reflexivity].
Qed.

Lemma visitAll_ext (visit visit' : Sample num -> Outcome) (points : list (Sample num))
      (bucketErrors : Errors num) :
  (forall point, In point points -> visit point = visit' point) ->
  visitAll visit points bucketErrors = visitAll visit' points bucketErrors.
Proof.
  revert bucketErrors. induction points as [|p points IH]; intros e Hext; simpl.
  - reflexivity.
  - rewrite <- (Hext p) by now left.
    destruct (visit p); try reflexivity; apply IH; intros q Hq; apply Hext; now right.
Qed.

(** X1. On a store sorted by time and a table of [BUCKET_COUNT] rows and
    columns, the validator with the binary search gives the report of the
    validator with the linear scan: the same accuracy lists in the same
    order, the same [avgStdDev] and the same [bucketsAnalyzed].  The
    targets are taken at a finite distance from the timestamps. *)
Theorem validators_agree (a : Analyzer num) (delayTable : list (list (option num))) :
  grid_shape (BUCKET_COUNT (config a)) delayTable ->
  time_sorted (data a) ->
  (forall point r l ms,
      In point (data a) -> estimateAt delayTable r l = Delay ms ->
      Forall (fun s => finite (time s - targetTimeOf point ms)) (data a)) ->
  calculateLambdaErrorsParallel a delayTable = calculateLambdaErrors a delayTable.
Proof.
  intros Hg Hs Hfin. unfold calculateLambdaErrorsParallel, calculateLambdaErrors.
  f_equal. apply visitAll_ext. intros point Hin.
  unfold visitBinary, visitLinear.
  set (r := getBucketIndex (config a) (rpm point) (rpmBoundaries a)).
  set (l := getBucketIndex (config a) (load point) (loadBoundaries a)).
  destruct (getBucketIndex_range (config a) (rpm point) (rpmBoundaries a)) as [Hr|Hr];
    fold r in Hr; [rewrite Hr; reflexivity|].
  destruct (getBucketIndex_range (config a) (load point) (loadBoundaries a)) as [Hl|Hl];
    fold l in Hl; [rewrite Hl, orb_true_r; reflexivity|].
  destruct ((r =? -1)%Z || (l =? -1)%Z); [reflexivity|].
  destruct (estimateAt_shape Hg Hr Hl) as [E|[ms E]]; rewrite E;
    [reflexivity|].
  destruct (@found_agree (data a) (targetTimeOf point ms) Hs (Hfin point r l ms Hin E))
    as (idx & -> & <-).
  reflexivity.
Qed.

End ValidatorsAgree.

Section DetectorSort.

Context {num : Type} `{Number num}.
Context `{!OrderLaws num} `{!SignLaws num} `{!MedianLaws num}.
Local Open Scope num_scope.

(** Sorting the samples by time sorts their timestamps. *)
Lemma sort_byTime_times (samples : list (Sample num)) :
  map time (sort byTime samples) = sort sub (map time samples).
Proof.
  induction samples as [|x l IH]; [reflexivity|].
  change (sort byTime (x :: l)) with (sort_insert byTime x (sort byTime l)).
  change (sort sub (map time (x :: l)))
    with (sort_insert sub (time x) (sort sub (map time l))).
  rewrite <- IH. generalize (sort byTime l). clear IH. intros s.
  induction s as [|y s IHs]; [reflexivity|]. simpl. unfold byTime at 1.
  destruct (time x - time y >? 0); simpl; [now rewrite IHs | reflexivity].
Qed.

Lemma times_time_sorted (samples : list (Sample num)) :
  nondecreasing (map time samples) -> time_sorted samples.
Proof.
  induction samples as [|x l IH]; intros Hs; [constructor|].
  inversion Hs as [|? ? Hl Hx]; subst. constructor; [now apply IH|].
  now apply Forall_map in Hx.
Qed.

(** The sort of the detector puts samples without NaN timestamps in
    ascending order of time. *)
Lemma sort_byTime_ascending (samples : list (Sample num)) :
  Forall (fun s => number (time s)) samples ->
  time_sorted (sort byTime samples).
Proof.
  intros Hn. apply times_time_sorted. rewrite sort_byTime_times.
  apply sort_ascending. now apply Forall_map.
Qed.

(** X2. Whatever the order of its input, the detector works on the
    samples sorted by time: when no timestamp is NaN its result is the
    result on a list with the same samples in ascending order of time, and
    every measurement is between 0 and [MAX_DELAY_MS]. *)
Theorem detector_sorts_input (cfg : Config num) (samples : list (Sample num)) :
  Forall (fun s => number (time s)) samples ->
  exists sorted,
    Permutation samples sorted
    /\ time_sorted sorted
    /\ findDelaysInSequence cfg samples = findDelaysInSequence cfg sorted
    /\ forall td, In td (findDelaysInSequence cfg samples) ->
                  (td <=? MAX_DELAY_MS cfg) = true /\ (0 <=? td) = true.
Proof.
  intros Hn. pose proof (sort_byTime_ascending Hn) as Hs.
  exists (sort byTime samples).
  split; [apply sort_Permutation|]. split; [exact Hs|]. split.
  - unfold findDelaysInSequence. now rewrite (sort_byTime_sorted Hs).
  - intros td Hin. unfold findDelaysInSequence in Hin.
    apply detect_In in Hin.
    destruct Hin as (i & j & curr & future & Hij & Hi & Hj & Hmax & ->).
    split; [exact Hmax|].
    apply leb_total.
    + eapply leb_refl_l; eauto.
    + apply zero_refl.
    + unfold timeDiff. apply mul_not_neg; [|apply thousand_pos].
      apply sub_not_neg. eapply time_sorted_nth; eauto.
Qed.

(** Two lists sorted by time that hold the same samples are the same list
    when the timestamps tell the samples apart. *)
Lemma time_sorted_unique (l l' : list (Sample num)) :
  time_sorted l -> time_sorted l' -> Permutation l l' ->
  (forall a b, In a l -> In b l -> (time a === time b) = true -> a = b) ->
  l = l'.
Proof.
  intros Hl. revert l'. induction Hl as [|x t Ht IH Hx]; intros l' Hl' Hp Hd.
  - apply Permutation_nil in Hp. now subst.
  - destruct l' as [|y t']; [apply Permutation_sym, Permutation_nil in Hp; discriminate|].
    inversion Hl' as [|? ? Ht' Hy]; subst.
    assert (Hxin : In x (y :: t')) by (eapply Permutation_in; [exact Hp | now left]).
    assert (Hyin : In y (x :: t))
      by (eapply Permutation_in; [apply Permutation_sym; exact Hp | now left]).
    assert (Exy : x = y).
    { destruct Hxin as [->|Hxin]; [reflexivity|].
      destruct Hyin as [->|Hyin]; [reflexivity|].
      apply Hd; [now left | now right |].
      rewrite eqb_leb. apply andb_true_iff. split.
      - exact (proj1 (Forall_forall _ _) Hx y Hyin).
      - exact (proj1 (Forall_forall _ _) Hy x Hxin). }
    subst y. f_equal. apply IH; auto.
    + eapply Permutation_cons_inv; eauto.
    + intros a b Ha Hb. apply Hd; now right.
Qed.

(** X3. When no timestamp is NaN and the timestamps tell the samples
    apart, the result of the detector does not depend on the order in
    which the samples are given. *)
Theorem detector_order_independent (cfg : Config num)
        (samples samples' : list (Sample num)) :
  Forall (fun s => number (time s)) samples ->
  (forall a b, In a samples -> In b samples -> (time a === time b) = true -> a = b) ->
  Permutation samples samples' ->
  findDelaysInSequence cfg samples = findDelaysInSequence cfg samples'.
Proof.
  intros Hn Hd Hp. unfold findDelaysInSequence.
  assert (Hn' : Forall (fun s => number (time s)) samples')
    by (eapply Permutation_Forall; eauto).
  assert (E : sort byTime samples = sort byTime samples').
  { apply time_sorted_unique; try now apply sort_byTime_ascending.
    - rewrite <- (sort_Permutation byTime samples), <- (sort_Permutation byTime samples').
      exact Hp.
    - intros a b Ha Hb. apply Hd.
      + eapply Permutation_in; [apply Permutation_sym, sort_Permutation | exact Ha].
      + eapply Permutation_in; [apply Permutation_sym, sort_Permutation | exact Hb]. }
  now rewrite E.
Qed.

End DetectorSort.

Section Assignment.

Context {num : Type} `{Number num}.
Local Open Scope num_scope.

Lemma nth_error_set_index {A : Type} (l : list A) (i : Z) (x : A) (k : nat) :
  (0 <= i < Z.of_nat (length l))%Z ->
  nth_error (set_index l i x) k
  = if (k =? Z.to_nat i)%nat then Some x else nth_error l k.
Proof.
  intros Hi. unfold set_index.
  assert (Hlen : length (firstn (Z.to_nat i) l) = Z.to_nat i)
    by (rewrite length_firstn; lia).
  destruct (Nat.eqb_spec k (Z.to_nat i)) as [->|Hne].
  - rewrite nth_error_app2 by lia. rewrite Hlen, Nat.sub_diag. reflexivity.
  - destruct (Nat.lt_ge_cases k (Z.to_nat i)) as [Hlt|Hge].
    + rewrite nth_error_app1 by lia. rewrite nth_error_firstn.
      destruct (Nat.ltb_spec k (Z.to_nat i)); [reflexivity | lia].
    + rewrite nth_error_app2 by lia. rewrite Hlen.
      destruct (k - Z.to_nat i)%nat as [|d] eqn:Ed; [lia|]. cbn [nth_error].
      rewrite nth_error_skipn. f_equal. lia.
Qed.

Lemma bucketAt_at_index (g : list (list (Bucket num))) (i j : nat) :
  bucketAt g i j
  = match at_index g (Z.of_nat i) with
    | Some row => at_index row (Z.of_nat j)
    | None => None
    end.
Proof.
  unfold bucketAt, at_index.
  destruct (Z.ltb_spec (Z.of_nat i) 0); [lia|]. rewrite Nat2Z.id.
  destruct (nth_error g i); [|reflexivity].
  destruct (Z.ltb_spec (Z.of_nat j) 0); [lia|]. now rewrite Nat2Z.id.
Qed.

(** One [push]: the bucket addressed gets the point at the end of its
    data, and every other bucket is left as it is. *)
Lemma pushData_bucketAt (n : nat) (g g' : list (list (Bucket num))) (r l : Z)
      (point : Sample num) (i j : nat) (b : Bucket num) :
  grid_shape n g -> pushData g r l point = Some g' ->
  bucketAt g i j = Some b ->
  bucketAt g' i j
  = Some (if ((r =? Z.of_nat i) && (l =? Z.of_nat j))%Z
          then mkBucket (bucket_data b ++ [point]) (bucket_delays b)
          else b).
Proof.
  intros [Hlen Hrows] Hpush Hb. unfold pushData in Hpush.
  destruct (at_index g r) as [row|] eqn:Hrow; [|discriminate].
  destruct (at_index row l) as [b0|] eqn:Hb0; [|discriminate].
  injection Hpush as <-.
  pose proof (at_index_In _ _ Hrow) as [_ Hr].
  pose proof (at_index_In _ _ Hb0) as [_ Hl].
  unfold bucketAt in *. rewrite nth_error_set_index by exact Hr.
  unfold at_index in Hrow, Hb0.
  destruct (Z.ltb_spec r 0); [lia|]. destruct (Z.ltb_spec l 0); [lia|].
  destruct (Nat.eqb_spec i (Z.to_nat r)) as [Ei|Ei].
  - subst i. rewrite Hrow in Hb. rewrite nth_error_set_index by exact Hl.
    rewrite Z2Nat.id by lia. rewrite Z.eqb_refl. simpl.
    destruct (Nat.eqb_spec j (Z.to_nat l)) as [Ej|Ej].
    + subst j. rewrite Z2Nat.id by lia. rewrite Z.eqb_refl.
      rewrite Hb0 in Hb. injection Hb as ->. reflexivity.
    + destruct (Z.eqb_spec l (Z.of_nat j)) as [E|E]; [lia | exact Hb].
  - destruct (Z.eqb_spec r (Z.of_nat i)) as [E|E]; [lia|]. simpl. exact Hb.
Qed.

Lemma assignAll_buckets (cfg : Config num) (rpmB loadB : list num)
      (points : list (Sample num)) (g g' : list (list (Bucket num)))
      (i j : nat) (b : Bucket num) :
  grid_shape (BUCKET_COUNT cfg) g ->
  assignAll cfg rpmB loadB g points = Some g' ->
  bucketAt g i j = Some b ->
  bucketAt g' i j
  = Some (mkBucket (bucket_data b ++ filter (landsIn cfg rpmB loadB i j) points)
                   (bucket_delays b)).
Proof.
  revert g b. induction points as [|p points IH]; intros g b Hg Hall Hb; simpl in *.
  - injection Hall as <-. rewrite app_nil_r. now destruct b.
  - destruct (assignPoint cfg rpmB loadB g p) as [g1|] eqn:Hp; [|discriminate].
    unfold assignPoint in Hp. unfold landsIn at 1.
    set (r := getBucketIndex cfg (rpm p) rpmB) in *.
    set (l := getBucketIndex cfg (load p) loadB) in *.
    destruct (getBucketIndex_range cfg (rpm p) rpmB) as [Hr|Hr]; fold r in Hr.
    { rewrite Hr in *. simpl in Hp. injection Hp as <-.
      destruct (Z.eqb_spec (-1) (Z.of_nat i)); [lia|]. simpl. eauto. }
    destruct (getBucketIndex_range cfg (load p) loadB) as [Hl|Hl]; fold l in Hl.
    { rewrite Hl in *. rewrite andb_false_r in Hp. injection Hp as <-.
      destruct (Z.eqb_spec (-1) (Z.of_nat j)); [lia|].
      rewrite andb_false_r. eauto. }
    destruct (Z.eqb_spec r (-1)); [lia|]. destruct (Z.eqb_spec l (-1)); [lia|].
    simpl in Hp.
    destruct (pushData_shape p Hg Hr Hl) as (g2 & Hg2 & Hshape).
    rewrite Hp in Hg2. injection Hg2 as <-.
    rewrite (IH g1 _ Hshape Hall (@pushData_bucketAt _ _ _ _ _ _ i j _ Hg Hp Hb)).
    destruct ((r =? Z.of_nat i) && (l =? Z.of_nat j))%Z; simpl;
      [rewrite <- app_assoc|]; reflexivity.
Qed.

(** X4. On a grid of [BUCKET_COUNT] rows and columns [assignToBuckets]
    returns, and afterwards the data of bucket [(i, j)] is what it was,
    followed by the samples whose RPM index is [i] and whose load index is
    [j], in the order of the store.  A sample with no RPM or no load
    bucket goes to no bucket; the samples, the delays and the boundaries
    are untouched. *)
Theorem assignToBuckets_partition (a : Analyzer num) :
  let cfg := config a in
  grid_shape (BUCKET_COUNT cfg) (buckets a) ->
  exists a',
    assignToBuckets a = Some a'
    /\ data a' = data a /\ config a' = cfg
    /\ rpmBoundaries a' = rpmBoundaries a /\ loadBoundaries a' = loadBoundaries a
    /\ grid_shape (BUCKET_COUNT cfg) (buckets a')
    /\ forall i j, (i < BUCKET_COUNT cfg)%nat -> (j < BUCKET_COUNT cfg)%nat ->
         exists b b',
           bucketAt (buckets a) i j = Some b
           /\ bucketAt (buckets a') i j = Some b'
           /\ bucket_data b'
              = bucket_data b
                ++ filter (landsIn cfg (rpmBoundaries a) (loadBoundaries a) i j) (data a)
           /\ bucket_delays b' = bucket_delays b.
Proof.
  intros cfg Hg. unfold assignToBuckets. fold cfg.
  destruct (assignAll_shape cfg (rpmBoundaries a) (loadBoundaries a) (data a) Hg)
    as (g' & Hall & Hshape).
  rewrite Hall. eexists. split; [reflexivity|]. simpl.
  repeat (split; [reflexivity|]). split; [exact Hshape|].
  intros i j Hi Hj.
  destruct (@grid_shape_row _ _ (buckets a) (Z.of_nat i) Hg) as (row & Hrow & Hn); [lia|].
  destruct (@at_index_Some _ row (Z.of_nat j)) as [b Hb]; [lia|].
  assert (Hat : bucketAt (buckets a) i j = Some b)
    by (rewrite bucketAt_at_index, Hrow; exact Hb).
  exists b. eexists. split; [exact Hat|].
  split; [exact (@assignAll_buckets _ _ _ _ _ _ i j _ Hg Hall Hat)|].
  split; reflexivity.
Qed.

End Assignment.

Section Delays.

Context {num : Type} `{Number num}.
Local Open Scope num_scope.

(** Writing one cell of a grid: the shape stays, the cell written holds
    the new bucket, and the others are left as they are. *)
Lemma set_cell_shape (n : nat) (g : list (list (Bucket num))) (r l : Z)
      (row : list (Bucket num)) (b : Bucket num) :
  grid_shape n g -> at_index g r = Some row ->
  (0 <= l < Z.of_nat (length row))%Z ->
  grid_shape n (set_index g r (set_index row l b)).
Proof.
  intros [Hlen Hrows] Hrow Hl.
  pose proof (at_index_In _ _ Hrow) as [Hin Hr].
  split.
  - rewrite set_index_length by exact Hr. exact Hlen.
  - apply Forall_forall. intros y Hy.
    destruct (set_index_In _ _ _ _ Hy) as [->|Hy'].
    + rewrite set_index_length by exact Hl.
      exact (proj1 (Forall_forall _ _) Hrows _ Hin).
    + exact (proj1 (Forall_forall _ _) Hrows _ Hy').
Qed.

Lemma set_cell_bucketAt (g : list (list (Bucket num))) (r l : Z)
      (row : list (Bucket num)) (b : Bucket num) (i j : nat) :
  at_index g r = Some row -> (0 <= l < Z.of_nat (length row))%Z ->
  bucketAt (set_index g r (set_index row l b)) i j
  = if ((r =? Z.of_nat i) && (l =? Z.of_nat j))%Z then Some b
    else bucketAt g i j.
Proof.
  intros Hrow Hl. pose proof (at_index_In _ _ Hrow) as [_ Hr].
  unfold bucketAt. rewrite nth_error_set_index by exact Hr.
  unfold at_index in Hrow. destruct (Z.ltb_spec r 0); [lia|].
  destruct (Nat.eqb_spec i (Z.to_nat r)) as [Ei|Ei].
  - subst i. rewrite Z2Nat.id by lia. rewrite Z.eqb_refl, Hrow. simpl.
    rewrite nth_error_set_index by exact Hl.
    destruct (Nat.eqb_spec j (Z.to_nat l)) as [Ej|Ej].
    + subst j. rewrite Z2Nat.id by lia. now rewrite Z.eqb_refl.
    + destruct (Z.eqb_spec l (Z.of_nat j)); [lia | reflexivity].
  - destruct (Z.eqb_spec r (Z.of_nat i)); [lia | reflexivity].
Qed.

Lemma delaysAt_cell (n : nat) (cfg : Config num) (g : list (list (Bucket num)))
      (ij : nat * nat) :
  grid_shape n g -> (fst ij < n)%nat -> (snd ij < n)%nat ->
  exists g',
    delaysAt cfg g ij = Some g' /\ grid_shape n g'
    /\ forall i j,
         bucketAt g' i j
         = if ((fst ij =? i) && (snd ij =? j))%nat
           then option_map (withDelays cfg) (bucketAt g i j)
           else bucketAt g i j.
Proof.
  intros Hg Hi Hj. unfold delaysAt.
  destruct (@grid_shape_row _ _ g (Z.of_nat (fst ij)) Hg) as (row & Hrow & Hn); [lia|].
  destruct (@at_index_Some _ row (Z.of_nat (snd ij))) as [b Hb]; [lia|].
  rewrite Hrow, Hb.
  assert (Hat : bucketAt g (fst ij) (snd ij) = Some b)
    by (rewrite bucketAt_at_index, Hrow; exact Hb).
  destruct (length (bucket_data b) <? 10)%nat eqn:Hfew.
  - exists g. split; [reflexivity|]. split; [exact Hg|]. intros i j.
    destruct (Nat.eqb_spec (fst ij) i) as [<-|]; [|reflexivity].
    destruct (Nat.eqb_spec (snd ij) j) as [<-|]; [|reflexivity].
    simpl. rewrite Hat. simpl. unfold withDelays. now rewrite Hfew.
  - eexists. split; [reflexivity|].
    split; [apply set_cell_shape; [exact Hg | exact Hrow | lia]|].
    intros i j. rewrite (@set_cell_bucketAt g _ _ row _ i j Hrow) by lia.
    destruct (Nat.eqb_spec (fst ij) i) as [<-|Ei].
    + rewrite Z.eqb_refl.
      destruct (Nat.eqb_spec (snd ij) j) as [<-|Ej].
      * rewrite Z.eqb_refl. simpl. rewrite Hat. simpl.
        unfold withDelays. now rewrite Hfew.
      * destruct (Z.eqb_spec (Z.of_nat (snd ij)) (Z.of_nat j)); [lia | reflexivity].
    + destruct (Z.eqb_spec (Z.of_nat (fst ij)) (Z.of_nat i)); [lia | reflexivity].
Qed.

Lemma delaysAll_cells (n : nat) (cfg : Config num) (cells : list (nat * nat))
      (g : list (list (Bucket num))) :
  grid_shape n g -> NoDup cells ->
  (forall ij, In ij cells -> (fst ij < n)%nat /\ (snd ij < n)%nat) ->
  exists g',
    delaysAll cfg g cells = Some g' /\ grid_shape n g'
    /\ forall i j,
         bucketAt g' i j
         = if existsb (fun ij => ((fst ij =? i) && (snd ij =? j))%nat) cells
           then option_map (withDelays cfg) (bucketAt g i j)
           else bucketAt g i j.
Proof.
  revert g. induction cells as [|ij cells IH]; intros g Hg Hnd Hin; simpl.
  - exists g. split; [reflexivity|]. split; [exact Hg | reflexivity].
  - inversion Hnd as [|? ? Hnot Hnd']; subst.
    destruct (Hin ij (or_introl eq_refl)) as [Hi Hj].
    destruct (@delaysAt_cell n cfg g ij Hg Hi Hj) as (g1 & E1 & Hg1 & Hat1).
    rewrite E1.
    destruct (IH g1 Hg1 Hnd' (fun c Hc => Hin c (or_intror Hc)))
      as (g' & E' & Hg' & Hat').
    exists g'. split; [exact E'|]. split; [exact Hg'|]. intros i j.
    rewrite Hat', Hat1.
    destruct (((fst ij =? i) && (snd ij =? j))%nat) eqn:Ehere; simpl.
    + destruct (existsb _ cells) eqn:Ethere; [|reflexivity].
      exfalso. apply Hnot. apply existsb_exists in Ethere.
      destruct Ethere as (c & Hc & Ec).
      apply andb_true_iff in Ehere, Ec.
      destruct Ehere as [E1' E2']. destruct Ec as [E3 E4].
      apply Nat.eqb_eq in E1', E2', E3, E4.
      destruct ij, c. simpl in *. subst. exact Hc.
    + reflexivity.
Qed.

Lemma gridIndices_NoDup (n : nat) : NoDup (gridIndices n).
Proof.
  unfold gridIndices. generalize (seq_NoDup n 0).
  generalize (seq 0 n) at 1 3. intros rows Hrows.
  induction Hrows as [|i rows Hnot Hrows IH]; simpl; [constructor|].
  apply NoDup_app.
  - apply Finite.Injective_map_NoDup; [|apply seq_NoDup].
    intros a b E. now injection E.
  - exact IH.
  - intros [i' j'] Hin Hin'. apply in_map_iff in Hin.
    destruct Hin as (j & E & _). injection E as <- <-.
    apply in_flat_map in Hin'. destruct Hin' as (i2 & Hi2 & Hin').
    apply in_map_iff in Hin'. destruct Hin' as (j2 & E2 & _).
    injection E2 as <- <-. contradiction.
Qed.

Lemma gridIndices_existsb (n i j : nat) :
  existsb (fun ij => ((fst ij =? i) && (snd ij =? j))%nat) (gridIndices n)
  = ((i <? n) && (j <? n))%nat.
Proof.
  destruct (existsb _ (gridIndices n)) eqn:E.
  - apply existsb_exists in E. destruct E as ([i' j'] & Hin & Eij).
    apply gridIndices_In in Hin. apply andb_true_iff in Eij.
    destruct Eij as [Ei Ej]. apply Nat.eqb_eq in Ei, Ej. simpl in *. subst.
    symmetry. apply andb_true_iff. split; apply Nat.ltb_lt; lia.
  - destruct (Nat.ltb_spec i n); [|reflexivity].
    destruct (Nat.ltb_spec j n); [|reflexivity].
    exfalso. apply Bool.not_true_iff_false in E. apply E.
    apply existsb_exists. exists (i, j). split.
    + apply gridIndices_In. lia.
    + simpl. now rewrite !Nat.eqb_refl.
Qed.

(** X5. On a grid of [BUCKET_COUNT] rows and columns [calculateDelays]
    returns, and it treats every bucket on its own: a bucket of fewer than
    ten samples is left as it is, delays included; any other bucket has
    its samples put in time order, and its delays replaced by those that
    [findDelaysInSequence] finds in them.  Samples, boundaries and the
    shape of the grid are kept. *)
Theorem calculateDelays_buckets (a : Analyzer num) :
  let cfg := config a in
  grid_shape (BUCKET_COUNT cfg) (buckets a) ->
  exists a',
    calculateDelays a = Some a'
    /\ data a' = data a /\ config a' = cfg
    /\ rpmBoundaries a' = rpmBoundaries a /\ loadBoundaries a' = loadBoundaries a
    /\ grid_shape (BUCKET_COUNT cfg) (buckets a')
    /\ forall i j, (i < BUCKET_COUNT cfg)%nat -> (j < BUCKET_COUNT cfg)%nat ->
         exists b b',
           bucketAt (buckets a) i j = Some b
           /\ bucketAt (buckets a') i j = Some b'
           /\ Permutation (bucket_data b) (bucket_data b')
           /\ ((length (bucket_data b) < 10)%nat -> b' = b)
           /\ ((10 <= length (bucket_data b))%nat ->
               bucket_data b' = sort byTime (bucket_data b)
               /\ bucket_delays b' = findDelaysInSequence cfg (bucket_data b)).
Proof.
  intros cfg Hg. unfold calculateDelays. fold cfg.
  destruct (@delaysAll_cells (BUCKET_COUNT cfg) cfg (gridIndices (BUCKET_COUNT cfg))
              (buckets a) Hg (gridIndices_NoDup _))
    as (g' & E & Hg' & Hat).
  { intros [i j] Hin. apply gridIndices_In in Hin. exact Hin. }
  rewrite E. eexists. split; [reflexivity|]. simpl.
  repeat (split; [reflexivity|]). split; [exact Hg'|].
  intros i j Hi Hj.
  destruct (@tableCell_shape _ _ _ (buckets a) i j Hg Hi Hj) as (b & Hb & _).
  exists b, (withDelays cfg b). split; [exact Hb|].
  split.
  { rewrite Hat, gridIndices_existsb, Hb.
    destruct (Nat.ltb_spec i (BUCKET_COUNT cfg)); [|lia].
    destruct (Nat.ltb_spec j (BUCKET_COUNT cfg)); [|lia]. reflexivity. }
  unfold withDelays.
  destruct (Nat.ltb_spec (length (bucket_data b)) 10) as [Hfew|Hmany].
  - split; [apply Permutation_refl|]. split; [reflexivity | lia].
  - simpl. split; [apply sort_Permutation|]. split; [lia|]. split; reflexivity.
Qed.

End Delays.

Section Boundaries.

Context {num : Type} `{Number num} `{Floor num}.
Context `{!OrderLaws num} `{!MedianLaws num} `{!PercentileLaws num}.
Local Open Scope num_scope.

Lemma at_index_nth (l : list num) (i : Z) (d : num) :
  (0 <= i < Z.of_nat (length l))%Z ->
  at_index l i = Some (nth (Z.to_nat i) l d).
Proof.
  intros Hi. unfold at_index. destruct (Z.ltb_spec i 0); [lia|].
  apply nth_error_nth'. lia.
Qed.

Lemma boundariesOf_empty : boundariesOf (@nil num) = None.
Proof. reflexivity. Qed.

Lemma boundariesOf_axis (values : list num) :
  Forall number values -> values <> [] ->
  (Z.of_nat (length values) < 2 ^ 32)%Z ->
  exists boundaries,
    boundariesOf values = Some boundaries /\ axis_boundaries values boundaries.
Proof.
  intros Hnum Hne Hlen. unfold boundariesOf, percentile.
  pose proof (sort_Permutation sub values) as Hperm.
  pose proof (sort_ascending Hnum) as Hasc.
  assert (Hnum' : Forall number (sort sub values))
    by (eapply Permutation_Forall; eassumption).
  rewrite <- (Permutation_length Hperm).
  set (sorted := sort sub values) in *.
  assert (Hn : (0 < length values)%nat) by (destruct values; [congruence | simpl; lia]).
  assert (Hls : length sorted = length values)
    by (symmetry; apply Permutation_length; exact Hperm).
  destruct (percentile_indices (n := Z.of_nat (length values)) ltac:(lia))
    as (i & j & Ei & Ej & Hij & Hj).
  rewrite Ei, Ej.
  destruct values as [|d values']; [congruence|]. set (values := d :: values') in *.
  rewrite (@at_index_nth sorted 0 d), (@at_index_nth sorted i d),
    (@at_index_nth sorted j d),
    (@at_index_nth sorted (Z.of_nat (length values) - 1) d) by lia.
  eexists. split; [reflexivity|].
  set (n := length values) in *.
  assert (Hle : forall x y, (x <= y < n)%nat -> (nth x sorted d <=? nth y sorted d) = true).
  { intros x y Hxy. apply nondecreasing_nth; [exact Hnum' | exact Hasc | lia]. }
  assert (Hin : forall x, (x < n)%nat -> In (nth x sorted d) values).
  { intros x Hx. apply (Permutation_in _ (Permutation_sym Hperm)).
    apply nth_In. lia. }
  do 4 eexists. split; [reflexivity|]. split; [|split].
  - unfold nondecreasing.
    repeat (constructor; [|repeat (constructor; [apply Hle; lia|]); constructor]).
    constructor.
  - intros b [<-|[<-|[<-|[<-|[]]]]]; apply Hin; lia.
  - apply Forall_forall. intros v Hv.
    apply (Permutation_in _ Hperm) in Hv.
    destruct (In_nth _ _ d Hv) as (k & Hk & <-).
    split; apply Hle; lia.
Qed.

(** A value between the first and the last of four boundaries has one of
    the three buckets. *)
Lemma getBucketIndex_covered (cfg : Config num) (v lo p1 p2 hi : num) :
  BUCKET_COUNT cfg = 3%nat ->
  number v -> number p1 -> number p2 -> number hi ->
  (lo <=? v) = true -> (v <=? hi) = true ->
  (0 <= getBucketIndex cfg v [lo; p1; p2; hi] < 3)%Z.
Proof.
  intros Hc Hv H1 H2 H3 Hlo Hhi. unfold getBucketIndex. rewrite Hc.
  cbn [getBucketIndex_loop]. unfold in_bucket. cbn [nth_error Nat.add geb_elem ltb_elem].
  rewrite Hlo. cbn [andb].
  destruct (v <? p1) eqn:E1; [simpl; lia|].
  rewrite (leb_total _ _ Hv H1 E1). cbn [andb].
  destruct (v <? p2) eqn:E2; [simpl; lia|].
  rewrite (leb_total _ _ Hv H2 E2). cbn [andb].
  destruct (v <? hi) eqn:E3; [simpl; lia|].
  cbn [eqb_elem]. rewrite eqb_leb, Hhi, (leb_total _ _ Hv H3 E3). simpl. lia.
Qed.

Lemma at_index_split {A : Type} (l : list A) (i : Z) (x : A) :
  at_index l i = Some x ->
  exists l1 l2, l = l1 ++ x :: l2 /\ forall y, set_index l i y = l1 ++ y :: l2.
Proof.
  intros Hx. pose proof (at_index_In _ _ Hx) as [_ Hi].
  unfold at_index in Hx. destruct (Z.ltb_spec i 0); [lia|].
  exists (firstn (Z.to_nat i) l), (skipn (S (Z.to_nat i)) l). split.
  - rewrite <- (firstn_skipn (Z.to_nat i) l) at 1. f_equal.
    clear Hi. revert l Hx. induction (Z.to_nat i) as [|k IH]; intros [|y l] Hx;
      try discriminate; simpl in *.
    + now injection Hx as ->.
    + exact (IH l Hx).
  - reflexivity.
Qed.

(** One [push] adds the point to the population of the grid. *)
Lemma pushData_population (g g' : list (list (Bucket num))) (r l : Z)
      (point : Sample num) :
  pushData g r l point = Some g' ->
  Permutation (population g') (point :: population g).
Proof.
  unfold pushData. intros Hpush.
  destruct (at_index g r) as [row|] eqn:Hrow; [|discriminate].
  destruct (at_index row l) as [b|] eqn:Hb; [|discriminate].
  injection Hpush as <-.
  destruct (at_index_split _ _ Hrow) as (g1 & g2 & -> & ->).
  destruct (at_index_split _ _ Hb) as (r1 & r2 & -> & ->).
  unfold population.
  repeat (rewrite ?concat_app, ?map_app; cbn [concat map bucket_data]).
  rewrite <- !app_assoc. cbn [app].
  apply Permutation_sym.
  etransitivity; [apply Permutation_middle|]. apply Permutation_app_head.
  etransitivity; [apply Permutation_middle|]. apply Permutation_app_head.
  etransitivity; [apply Permutation_middle|]. apply Permutation_app_head.
  apply Permutation_refl.
Qed.

Lemma assignAll_population (cfg : Config num) (rpmB loadB : list num)
      (points : list (Sample num)) (g g' : list (list (Bucket num))) :
  assignAll cfg rpmB loadB g points = Some g' ->
  Forall (fun p => getBucketIndex cfg (rpm p) rpmB <> (-1)%Z
                   /\ getBucketIndex cfg (load p) loadB <> (-1)%Z) points ->
  Permutation (population g') (population g ++ points).
Proof.
  revert g. induction points as [|p points IH]; intros g Hall Hin; simpl in Hall.
  - injection Hall as <-. now rewrite app_nil_r.
  - inversion Hin as [|? ? [Hr Hl] Hin']; subst.
    destruct (assignPoint cfg rpmB loadB g p) as [g1|] eqn:Hp; [|discriminate].
    unfold assignPoint in Hp.
    destruct (Z.eqb_spec (getBucketIndex cfg (rpm p) rpmB) (-1)); [contradiction|].
    destruct (Z.eqb_spec (getBucketIndex cfg (load p) loadB) (-1)); [contradiction|].
    simpl in Hp.
    etransitivity; [exact (IH g1 Hall Hin')|].
    etransitivity; [apply Permutation_app_tail, (pushData_population _ _ _ _ Hp)|].
    simpl. apply Permutation_middle.
Qed.

Lemma emptyBuckets_shape (cfg : Config num) :
  grid_shape (BUCKET_COUNT cfg) (emptyBuckets cfg).
Proof.
  unfold emptyBuckets. split; [apply repeat_length|].
  apply Forall_forall. intros row Hrow. apply repeat_spec in Hrow. subst.
  apply repeat_length.
Qed.

Lemma emptyBuckets_population (cfg : Config num) :
  population (emptyBuckets cfg) = [].
Proof.
  unfold population, emptyBuckets.
  assert (Hrow : forall c, concat (map (@bucket_data num)
                                       (repeat (mkBucket [] []) c)) = []).
  { induction c as [|c IHc]; [reflexivity | exact IHc]. }
  generalize (BUCKET_COUNT cfg) at 2. intros rows.
  induction rows as [|k IH]; [reflexivity|]. cbn [repeat concat].
  now rewrite map_app, concat_app, IH, app_nil_r.
Qed.

Lemma emptyBuckets_bucketAt (cfg : Config num) (i j : nat) (b : Bucket num) :
  bucketAt (emptyBuckets cfg) i j = Some b -> b = mkBucket [] [].
Proof.
  unfold bucketAt, emptyBuckets. intros Hb.
  destruct (nth_error _ i) as [row|] eqn:Hrow; [|discriminate].
  apply nth_error_In, repeat_spec in Hrow. subst row.
  apply nth_error_In, repeat_spec in Hb. exact Hb.
Qed.

Lemma axis_covered (cfg : Config num) (values boundaries : list num) (v : num) :
  BUCKET_COUNT cfg = 3%nat -> Forall number values ->
  axis_boundaries values boundaries -> In v values ->
  (0 <= getBucketIndex cfg v boundaries < 3)%Z.
Proof.
  intros Hc Hnum (lo & p1 & p2 & hi & -> & _ & Hincl & Hall) Hv.
  pose proof (proj1 (Forall_forall _ _) Hnum) as Hn.
  destruct (proj1 (Forall_forall _ _) Hall v Hv) as [Hlo Hhi].
  apply getBucketIndex_covered; try assumption; apply Hn; try assumption;
    apply Hincl; simpl; auto.
Qed.

Lemma boundaries_returned (a : Analyzer num) :
  Forall (fun s => number (rpm s) /\ number (load s)) (data a) ->
  (Z.of_nat (length (data a)) < 2 ^ 32)%Z -> data a <> [] ->
  exists rpmB loadB,
    calculateBucketBoundaries a
    = Some (mkAnalyzer (config a) (data a) (buckets a) rpmB loadB)
    /\ axis_boundaries (map (@rpm num) (data a)) rpmB
    /\ axis_boundaries (map (@load num) (data a)) loadB.
Proof.
  intros Hnum Hlen Hne. unfold calculateBucketBoundaries.
  destruct (@boundariesOf_axis (map (@rpm num) (data a))) as (rpmB & Er & Hr).
  { apply Forall_map. eapply Forall_impl; [|exact Hnum]. now intros s [? _]. }
  { destruct (data a); [congruence | discriminate]. }
  { now rewrite length_map. }
  destruct (@boundariesOf_axis (map (@load num) (data a))) as (loadB & El & Hl).
  { apply Forall_map. eapply Forall_impl; [|exact Hnum]. now intros s [_ ?]. }
  { destruct (data a); [congruence | discriminate]. }
  { now rewrite length_map. }
  rewrite Er, El. exists rpmB, loadB. auto.
Qed.

(** X6. [calculateBucketBoundaries] raises its [TypeError] exactly when
    there is no sample.  Otherwise each axis gets four boundaries taken
    from the samples, in nondecreasing order, the first the least value
    and the last the greatest; samples, grid and configuration are left
    as they are. *)
Theorem boundaries_of_samples (a : Analyzer num) :
  Forall (fun s => number (rpm s) /\ number (load s)) (data a) ->
  (Z.of_nat (length (data a)) < 2 ^ 32)%Z ->
  (data a = [] -> calculateBucketBoundaries a = None)
  /\ (data a <> [] ->
      exists a',
        calculateBucketBoundaries a = Some a'
        /\ data a' = data a /\ config a' = config a /\ buckets a' = buckets a
        /\ axis_boundaries (map (@rpm num) (data a)) (rpmBoundaries a')
        /\ axis_boundaries (map (@load num) (data a)) (loadBoundaries a')).
Proof.
  intros Hnum Hlen. split.
  - intros E. unfold calculateBucketBoundaries. rewrite E. reflexivity.
  - intros Hne.
    destruct (boundaries_returned a Hnum Hlen Hne) as (rpmB & loadB & E & Hr & Hl).
    rewrite E. eexists. split; [reflexivity|]. simpl. auto 10.
Qed.

(** X7. With the three buckets per axis of the default configuration no
    sample is lost: after [calculateBucketBoundaries] every sample has an
    RPM bucket and a load bucket, and [assignToBuckets] spreads the
    samples over the grid, each in exactly one bucket. *)
Theorem every_sample_assigned (cfg : Config num) (samples : list (Sample num)) :
  BUCKET_COUNT cfg = 3%nat ->
  Forall (fun s => number (rpm s) /\ number (load s)) samples ->
  samples <> [] -> (Z.of_nat (length samples) < 2 ^ 32)%Z ->
  exists a1 a2,
    calculateBucketBoundaries (parsed cfg samples) = Some a1
    /\ assignToBuckets a1 = Some a2
    /\ Forall (fun s =>
                 (0 <= getBucketIndex cfg (rpm s) (rpmBoundaries a1) < 3)%Z
                 /\ (0 <= getBucketIndex cfg (load s) (loadBoundaries a1) < 3)%Z)
              samples
    /\ Permutation (population (buckets a2)) samples.
Proof.
  intros Hc Hnum Hne Hlen.
  destruct (@boundaries_returned (parsed cfg samples) Hnum Hlen Hne)
    as (rpmB & loadB & E1 & Hr & Hl).
  cbn [parsed data config buckets] in E1, Hr, Hl.
  set (a1 := mkAnalyzer cfg samples (emptyBuckets cfg) rpmB loadB) in *.
  assert (Hcover : Forall (fun s =>
                 (0 <= getBucketIndex cfg (rpm s) (rpmBoundaries a1) < 3)%Z
                 /\ (0 <= getBucketIndex cfg (load s) (loadBoundaries a1) < 3)%Z)
              samples).
  { apply Forall_forall. intros s Hs. split.
    - apply (@axis_covered cfg (map (@rpm num) samples)); try assumption.
      + apply Forall_map. eapply Forall_impl; [|exact Hnum]. now intros ? [? _].
      + now apply in_map.
    - apply (@axis_covered cfg (map (@load num) samples)); try assumption.
      + apply Forall_map. eapply Forall_impl; [|exact Hnum]. now intros ? [_ ?].
      + now apply in_map. }
  exists a1. unfold assignToBuckets. cbn [a1 config data buckets rpmBoundaries loadBoundaries].
  destruct (@assignAll_shape _ _ cfg rpmB loadB samples
              (emptyBuckets cfg) (emptyBuckets_shape cfg)) as (g & Eg & _).
  rewrite Eg. eexists. split; [exact E1|]. split; [reflexivity|].
  split; [exact Hcover|]. simpl.
  pose proof (@assignAll_population cfg _ _ samples _ _ Eg) as Hp.
  rewrite emptyBuckets_population in Hp. apply Hp.
  eapply Forall_impl; [|exact Hcover]. simpl. intros s [? ?]. lia.
Qed.

(** X8. With a [BUCKET_COUNT] other than 3 the four boundaries do not
    cover the samples: above 3, a sample with the greatest value of an
    axis gets no bucket; below 3, neither does any sample above the upper
    percentile boundary. *)
Theorem other_counts_lose_samples (cfg : Config num) (values boundaries : list num)
        (v : num) :
  Forall number values -> axis_boundaries values boundaries -> In v values ->
  ((3 < BUCKET_COUNT cfg)%nat ->
   Forall (fun w => (w <=? v) = true) values ->
   getBucketIndex cfg v boundaries = (-1)%Z)
  /\ ((BUCKET_COUNT cfg < 3)%nat ->
      (exists p2, nth_error boundaries 2 = Some p2 /\ (p2 <? v) = true) ->
      getBucketIndex cfg v boundaries = (-1)%Z).
Proof.
  intros Hnum (lo & p1 & p2 & hi & -> & Hsorted & Hincl & Hall) Hv.
  assert (Hp1 : In p1 values) by (apply Hincl; simpl; auto).
  assert (Hp2 : In p2 values) by (apply Hincl; simpl; auto).
  assert (Hhi : In hi values) by (apply Hincl; simpl; auto).
  unfold nondecreasing in Hsorted.
  assert (H12 : (p1 <=? p2) = true).
  { inversion Hsorted as [|? ? Hs1 _]; subst. inversion Hs1 as [|? ? _ Hf]; subst.
    inversion Hf; assumption. }
  split.
  - intros Hn Hmax. pose proof (proj1 (Forall_forall _ _) Hmax) as Hle.
    unfold getBucketIndex.
    replace (getBucketIndex_loop v [lo; p1; p2; hi] 0 (BUCKET_COUNT cfg))
      with (@None nat).
    + destruct (BUCKET_COUNT cfg) as [|[|[|[|n]]]]; try lia.
      cbn [nth_error]. destruct n; reflexivity.
    + symmetry. apply getBucketIndex_loop_None. intros r _. unfold in_bucket.
      pose proof (leb_not_ltb _ _ (Hle _ Hp1)) as F1.
      pose proof (leb_not_ltb _ _ (Hle _ Hp2)) as F2.
      pose proof (leb_not_ltb _ _ (Hle _ Hhi)) as F3.
      destruct r as [|[|[|[|r]]]]; simpl;
        rewrite ?F1, ?F2, ?F3, ?andb_false_r; try reflexivity.
      destruct r; reflexivity.
  - intros Hn (q & Eq & Hlt). injection Eq as <-.
    assert (Hlt1 : (p1 <? v) = true) by exact (leb_ltb_trans _ _ _ H12 Hlt).
    unfold getBucketIndex.
    replace (getBucketIndex_loop v [lo; p1; p2; hi] 0 (BUCKET_COUNT cfg))
      with (@None nat).
    + destruct (BUCKET_COUNT cfg) as [|[|[|n]]]; try lia;
        cbn [nth_error eqb_elem]; rewrite eqb_leb.
      * destruct (_ && _); reflexivity.
      * rewrite (ltb_not_leb _ _ Hlt1). reflexivity.
      * rewrite (ltb_not_leb _ _ Hlt). reflexivity.
    + symmetry. apply getBucketIndex_loop_None. intros r Hr. unfold in_bucket.
      pose proof (leb_not_ltb _ _ (ltb_leb _ _ Hlt1)) as F1.
      pose proof (leb_not_ltb _ _ (ltb_leb _ _ Hlt)) as F2.
      destruct r as [|[|r]]; [| |lia]; simpl; rewrite ?F1, ?F2; apply andb_false_r.
Qed.

Lemma generateTable_cells (a : Analyzer num) :
  grid_shape (BUCKET_COUNT (config a)) (buckets a) ->
  exists table,
    generateTable a = Some table
    /\ forall i j, (i < BUCKET_COUNT (config a))%nat -> (j < BUCKET_COUNT (config a))%nat ->
         exists b row,
           bucketAt (buckets a) i j = Some b
           /\ nth_error (rows table) i = Some row
           /\ nth_error (row_delays row) j
              = Some (roundedDelay (median (bucket_delays b))).
Proof.
  intros Hg. unfold generateTable.
  set (n := BUCKET_COUNT (config a)) in *.
  set (rpmValues := map (axisValue (rpmBoundaries a)) (seq 0 n)).
  set (loadValues := map (axisValue (loadBoundaries a)) (seq 0 n)).
  set (cellOf i j :=
         match bucketAt (buckets a) i j with
         | Some bucket => roundedDelay (median (bucket_delays bucket))
         | None => None
         end).
  assert (Hrows : forall i, In i (seq 0 n) ->
            forEach (tableCell (buckets a) i) (seq 0 n) = Some (map (cellOf i) (seq 0 n))).
  { intros i Hi. apply in_seq in Hi. apply forEach_Some. intros j Hj. apply in_seq in Hj.
    destruct (@tableCell_shape _ _ n (buckets a) i j Hg) as (b & Hb & Hc); try lia.
    unfold cellOf. now rewrite Hb. }
  rewrite (forEach_Some
             (fun i => match forEach (tableCell (buckets a) i) (seq 0 n) with
                       | Some delays => Some (mkRow (nth i rpmValues None) loadValues delays)
                       | None => None
                       end)
             (fun i => mkRow (nth i rpmValues None) loadValues (map (cellOf i) (seq 0 n))));
    [|intros i Hi; now rewrite Hrows].
  eexists. split; [reflexivity|]. cbn [rows]. intros i j Hi Hj.
  destruct (@tableCell_shape _ _ n (buckets a) i j Hg) as (b & Hb & _); try lia.
  exists b. eexists. split; [exact Hb|].
  split; [apply nth_error_map_seq; exact Hi|]. cbn [row_delays].
  rewrite nth_error_map_seq by exact Hj. unfold cellOf. now rewrite Hb.
Qed.

(** The three steps between the parser and the table, on the samples of
    one file. *)
Lemma workflow_buckets (cfg : Config num) (samples : list (Sample num)) :
  Forall (fun s => number (rpm s) /\ number (load s)) samples ->
  (Z.of_nat (length samples) < 2 ^ 32)%Z -> samples <> [] ->
  exists rpmB loadB g2 g3,
    calculateBucketBoundaries (parsed cfg samples)
    = Some (mkAnalyzer cfg samples (emptyBuckets cfg) rpmB loadB)
    /\ assignToBuckets (mkAnalyzer cfg samples (emptyBuckets cfg) rpmB loadB)
       = Some (mkAnalyzer cfg samples g2 rpmB loadB)
    /\ calculateDelays (mkAnalyzer cfg samples g2 rpmB loadB)
       = Some (mkAnalyzer cfg samples g3 rpmB loadB)
    /\ grid_shape (BUCKET_COUNT cfg) g2 /\ grid_shape (BUCKET_COUNT cfg) g3
    /\ axis_boundaries (map (@rpm num) samples) rpmB
    /\ axis_boundaries (map (@load num) samples) loadB
    /\ forall i j, (i < BUCKET_COUNT cfg)%nat -> (j < BUCKET_COUNT cfg)%nat ->
         bucketAt g3 i j
         = Some (withDelays cfg (mkBucket (filter (landsIn cfg rpmB loadB i j) samples) [])).
Proof.
  intros Hnum Hlen Hne.
  destruct (@boundaries_returned (parsed cfg samples) Hnum Hlen Hne)
    as (rpmB & loadB & E1 & Hr & Hl).
  cbn [parsed data config buckets] in E1, Hr, Hl.
  exists rpmB, loadB. unfold assignToBuckets, calculateDelays.
  cbn [config data buckets rpmBoundaries loadBoundaries].
  destruct (@assignAll_shape _ _ cfg rpmB loadB samples
              (emptyBuckets cfg) (emptyBuckets_shape cfg)) as (g2 & E2 & Hg2).
  destruct (@delaysAll_cells _ _ (BUCKET_COUNT cfg) cfg (gridIndices (BUCKET_COUNT cfg))
              g2 Hg2 (gridIndices_NoDup _))
    as (g3 & E3 & Hg3 & Hat3).
  { intros [i j] Hin. apply gridIndices_In in Hin. exact Hin. }
  exists g2, g3. rewrite E2, E3. repeat (split; [assumption || reflexivity|]).
  intros i j Hi Hj.
  destruct (@tableCell_shape _ _ _ (emptyBuckets cfg) i j (emptyBuckets_shape cfg) Hi Hj)
    as (b0 & Hb0 & _).
  pose proof (assignAll_buckets _ _ _ _ i j (emptyBuckets_shape cfg) E2 Hb0) as Hb2.
  rewrite (emptyBuckets_bucketAt _ _ _ Hb0) in Hb2. cbn [bucket_data bucket_delays app] in Hb2.
  rewrite Hat3, gridIndices_existsb, Hb2.
  destruct (Nat.ltb_spec i (BUCKET_COUNT cfg)); [|lia].
  destruct (Nat.ltb_spec j (BUCKET_COUNT cfg)); [|lia]. reflexivity.
Qed.

Lemma withDelays_measured (cfg : Config num) (members : list (Sample num)) :
  bucket_delays (withDelays cfg (mkBucket members [])) = measured cfg members.
Proof.
  unfold withDelays, measured. cbn [bucket_data].
  destruct (length members <? 10)%nat; reflexivity.
Qed.

(** X9. The workflow of [analyze] from the parsed samples to the table.
    Without samples it ends in the [TypeError] of the boundaries.
    Otherwise it returns a table, and the cell of bucket [(i, j)] is the
    rounded median of the delays measured in the samples of that bucket,
    in the order of the log: [null] exactly when the bucket has fewer than
    ten samples or no delay is found in them. *)
Theorem analysis_table (cfg : Config num) (samples : list (Sample num)) :
  Forall (fun s => number (rpm s) /\ number (load s)) samples ->
  (Z.of_nat (length samples) < 2 ^ 32)%Z ->
  (samples = [] -> analyzeParsed (parsed cfg samples) = None)
  /\ (samples <> [] ->
      exists a table,
        analyzeParsed (parsed cfg samples) = Some (a, table)
        /\ data a = samples
        /\ axis_boundaries (map (@rpm num) samples) (rpmBoundaries a)
        /\ axis_boundaries (map (@load num) samples) (loadBoundaries a)
        /\ forall i j, (i < BUCKET_COUNT cfg)%nat -> (j < BUCKET_COUNT cfg)%nat ->
             let members :=
               filter (landsIn cfg (rpmBoundaries a) (loadBoundaries a) i j) samples in
             exists row,
               nth_error (rows table) i = Some row
               /\ nth_error (row_delays row) j
                  = Some (roundedDelay (median (measured cfg members)))
               /\ (nth_error (row_delays row) j = Some None
                   <-> measured cfg members = [])).
Proof.
  intros Hnum Hlen. unfold analyzeParsed. split.
  - intros ->. reflexivity.
  - intros Hne.
    destruct (workflow_buckets cfg Hnum Hlen Hne)
      as (rpmB & loadB & g2 & g3 & E1 & E2 & E3 & Hg2 & Hg3 & Hr & Hl & Hat).
    rewrite E1, E2, E3.
    destruct (@generateTable_cells (mkAnalyzer cfg samples g3 rpmB loadB) Hg3)
      as (table & E4 & Hcells).
    rewrite E4. do 2 eexists. split; [reflexivity|].
    cbn [data rpmBoundaries loadBoundaries config buckets] in *.
    split; [reflexivity|]. split; [exact Hr|]. split; [exact Hl|].
    intros i j Hi Hj.
    set (members := filter (landsIn cfg rpmB loadB i j) samples).
    destruct (Hcells i j Hi Hj) as (b3 & row & Hb3 & Hrow & Hcell).
    exists row. split; [exact Hrow|].
    rewrite (Hat i j Hi Hj) in Hb3. injection Hb3 as <-.
    fold members in Hcell. rewrite withDelays_measured in Hcell.
    split; [exact Hcell|]. rewrite Hcell. split.
    + intros E. injection E as E.
      destruct (median (measured cfg members)) eqn:Em; [discriminate|].
      apply median_nil_iff. exact Em.
    + intros ->. reflexivity.
Qed.

End Boundaries.

Section DelaysAgain.

Context {num : Type} `{Number num}.
Context `{!OrderLaws num} `{!SignLaws num} `{!MedianLaws num}.
Local Open Scope num_scope.

Lemma set_index_same {A : Type} (l : list A) (i : Z) (x : A) :
  at_index l i = Some x -> set_index l i x = l.
Proof.
  intros Hx. destruct (at_index_split _ _ Hx) as (l1 & l2 & E & Hset).
  now rewrite Hset.
Qed.

Lemma withDelays_again (cfg : Config num) (b : Bucket num) :
  Forall (fun s => number (time s)) (bucket_data b) ->
  withDelays cfg (withDelays cfg b) = withDelays cfg b.
Proof.
  intros Hn. unfold withDelays at 2.
  destruct (length (bucket_data b) <? 10)%nat eqn:Hfew.
  - unfold withDelays. now rewrite Hfew.
  - unfold withDelays. cbn [bucket_data].
    rewrite <- (Permutation_length (sort_Permutation byTime (bucket_data b))), Hfew.
    pose proof (sort_byTime_sorted (sort_byTime_ascending Hn)) as Hs.
    unfold findDelaysInSequence. now rewrite !Hs.
Qed.

Lemma delaysAll_fixed (n : nat) (cfg : Config num) (cells : list (nat * nat))
      (g : list (list (Bucket num))) :
  grid_shape n g ->
  (forall ij, In ij cells ->
     exists b, bucketAt g (fst ij) (snd ij) = Some b /\ withDelays cfg b = b) ->
  delaysAll cfg g cells = Some g.
Proof.
  intros Hg. induction cells as [|ij cells IH]; intros Hfix; [reflexivity|].
  cbn [delaysAll].
  destruct (Hfix ij (or_introl eq_refl)) as (b & Hb & Eb).
  assert (Hat : delaysAt cfg g ij = Some g).
  { unfold delaysAt. rewrite bucketAt_at_index in Hb.
    destruct (at_index g (Z.of_nat (fst ij))) as [row|] eqn:Hrow; [|discriminate].
    rewrite Hb. unfold withDelays in Eb.
    destruct (length (bucket_data b) <? 10)%nat; [reflexivity|].
    rewrite Eb, (set_index_same _ _ Hb), (set_index_same _ _ Hrow). reflexivity. }
  rewrite Hat. apply IH. intros c Hc. apply Hfix. now right.
Qed.

Lemma bucketAt_population (g : list (list (Bucket num))) (i j : nat) (b : Bucket num) :
  bucketAt g i j = Some b -> incl (bucket_data b) (population g).
Proof.
  unfold bucketAt. intros Hb s Hs.
  destruct (nth_error g i) as [row|] eqn:Hrow; [|discriminate].
  unfold population. apply in_concat. exists (bucket_data b). split; [|exact Hs].
  apply in_map. apply in_concat. exists row.
  split; [eapply nth_error_In; eassumption | eapply nth_error_In; eassumption].
Qed.

(** X10. [calculateDelays] a second time changes nothing: when no
    timestamp in the buckets is NaN, the samples it has put in time order
    stay in place and the same delays are found in them. *)
Theorem calculateDelays_again (a a1 : Analyzer num) :
  grid_shape (BUCKET_COUNT (config a)) (buckets a) ->
  Forall (fun s => number (time s)) (population (buckets a)) ->
  calculateDelays a = Some a1 ->
  calculateDelays a1 = Some a1.
Proof.
  intros Hg Hnum E. unfold calculateDelays in E.
  destruct (@delaysAll_cells _ _ (BUCKET_COUNT (config a)) (config a)
              (gridIndices (BUCKET_COUNT (config a))) (buckets a) Hg (gridIndices_NoDup _))
    as (g1 & E1 & Hg1 & Hat).
  { intros [i j] Hin. apply gridIndices_In in Hin. exact Hin. }
  rewrite E1 in E. injection E as <-.
  unfold calculateDelays. cbn [config buckets data rpmBoundaries loadBoundaries].
  rewrite (@delaysAll_fixed (BUCKET_COUNT (config a)) (config a) _ g1 Hg1); [reflexivity|].
  intros [i j] Hin. apply gridIndices_In in Hin. destruct Hin as [Hi Hj]. cbn [fst snd].
  destruct (@tableCell_shape _ _ _ (buckets a) i j Hg Hi Hj) as (b & Hb & _).
  exists (withDelays (config a) b). split.
  - rewrite Hat, gridIndices_existsb, Hb.
    destruct (Nat.ltb_spec i (BUCKET_COUNT (config a))); [|lia].
    destruct (Nat.ltb_spec j (BUCKET_COUNT (config a))); [|lia]. reflexivity.
  - apply withDelays_again. apply Forall_forall. intros s Hs.
    apply (proj1 (Forall_forall _ _) Hnum). exact (bucketAt_population _ _ _ Hb s Hs).
Qed.

End DelaysAgain.

Section Thresholds.

Context {num : Type} `{Number num} `{!OrderLaws num}.
Local Open Scope num_scope.

Lemma subsequence_refl {A : Type} (l : list A) : subsequence l l.
Proof. induction l; constructor; assumption. Qed.

Lemma subsequence_nil_l {A : Type} (l : list A) : subsequence [] l.
Proof. induction l; constructor; assumption. Qed.

Lemma subsequence_app {A : Type} (l1 l1' l2 l2' : list A) :
  subsequence l1 l1' -> subsequence l2 l2' -> subsequence (l1 ++ l2) (l1' ++ l2').
Proof.
  intros H1 H2. induction H1; simpl; try constructor; assumption.
Qed.

Lemma responds_stricter (cfg cfg' : Config num) (dir : num) (curr future : Sample num) :
  stricter cfg cfg' ->
  responds cfg' dir curr future = true -> responds cfg dir curr future = true.
Proof.
  intros (_ & Hl & Hm). unfold responds. intros Hr.
  apply andb_true_iff in Hr. destruct Hr as [Hr H3].
  apply andb_true_iff in Hr. destruct Hr as [H1 H2].
  rewrite H1, (leb_trans _ _ _ Hl H2), (leb_trans _ _ _ H3 Hm). reflexivity.
Qed.

Lemma lookAhead_stricter (cfg cfg' : Config num) (samples : list (Sample num))
      (curr : Sample num) (dir : num) (k j : nat) :
  stricter cfg cfg' ->
  (length (lookAhead cfg' samples curr dir j k)
   <= length (lookAhead cfg samples curr dir j k))%nat.
Proof.
  intros Hs. revert j. induction k as [|k IH]; intros j; simpl; [lia|].
  destruct (nth_error samples j) as [future|]; [|simpl; lia].
  destruct (responds cfg' dir curr future) eqn:E'.
  - rewrite (responds_stricter _ _ _ Hs E'). simpl. lia.
  - destruct (responds cfg dir curr future).
    + apply lookAhead_length.
    + apply IH.
Qed.

Lemma lookAhead_same (cfg cfg' : Config num) (samples : list (Sample num))
      (curr : Sample num) (dir : num) (k j : nat) :
  LAMBDA_CHANGE_THRESHOLD cfg' = LAMBDA_CHANGE_THRESHOLD cfg ->
  MAX_DELAY_MS cfg' = MAX_DELAY_MS cfg ->
  lookAhead cfg' samples curr dir j k = lookAhead cfg samples curr dir j k.
Proof.
  intros Hl Hm. revert j. induction k as [|k IH]; intros j; simpl; [reflexivity|].
  destruct (nth_error samples j) as [future|]; [|reflexivity].
  unfold responds. rewrite Hl, Hm, IH. reflexivity.
Qed.

Lemma detectAt_stricter (cfg cfg' : Config num) (samples : list (Sample num)) (i : nat) :
  stricter cfg cfg' ->
  (length (detectAt cfg' samples i) <= length (detectAt cfg samples i))%nat
  /\ (LAMBDA_CHANGE_THRESHOLD cfg' = LAMBDA_CHANGE_THRESHOLD cfg ->
      MAX_DELAY_MS cfg' = MAX_DELAY_MS cfg ->
      detectAt cfg' samples i = detectAt cfg samples i \/ detectAt cfg' samples i = []).
Proof.
  intros Hs. pose proof Hs as (Hp & _). unfold detectAt.
  destruct (nth_error samples (i - 1)) as [prev|]; [|split; [simpl; lia | auto]].
  destruct (nth_error samples i) as [curr|]; [|split; [simpl; lia | auto]].
  cbv zeta.
  destruct (Math_abs (pw curr - pw prev) <? PW_CHANGE_THRESHOLD cfg) eqn:E.
  - rewrite (ltb_leb_trans _ _ _ E Hp). split; [simpl; lia | auto].
  - destruct (Math_abs (pw curr - pw prev) <? PW_CHANGE_THRESHOLD cfg') eqn:E'.
    + split; [simpl; lia | auto].
    + split; [apply lookAhead_stricter; exact Hs|].
      intros Hl Hm. left. apply lookAhead_same; assumption.
Qed.

Lemma stricter_length (cfg cfg' : Config num) (samples : list (Sample num)) :
  stricter cfg cfg' ->
  (length (findDelaysInSequence cfg' samples)
   <= length (findDelaysInSequence cfg samples))%nat.
Proof.
  intros Hs. unfold findDelaysInSequence. rewrite !detectFrom_concat.
  generalize (seq 1 (length (sort byTime samples) - 2)). intros indices.
  induction indices as [|i indices IH]; simpl; [lia|].
  rewrite !length_app.
  pose proof (proj1 (detectAt_stricter (sort byTime samples) i Hs)). lia.
Qed.

(** X11. Raising the pulsewidth or the lambda threshold, or lowering the
    maximal delay, never adds a measurement: the stricter configuration
    finds at most as many delays in the same samples.  When only the
    pulsewidth threshold is raised, the delays found are those found
    before with some of them left out. *)
Theorem stricter_thresholds (cfg cfg' : Config num) (samples : list (Sample num)) :
  stricter cfg cfg' ->
  (length (findDelaysInSequence cfg' samples)
   <= length (findDelaysInSequence cfg samples))%nat
  /\ (LAMBDA_CHANGE_THRESHOLD cfg' = LAMBDA_CHANGE_THRESHOLD cfg ->
      MAX_DELAY_MS cfg' = MAX_DELAY_MS cfg ->
      subsequence (findDelaysInSequence cfg' samples)
                  (findDelaysInSequence cfg samples)).
Proof.
  intros Hs. split; [apply stricter_length; exact Hs|].
  unfold findDelaysInSequence. rewrite !detectFrom_concat.
  generalize (seq 1 (length (sort byTime samples) - 2)). intros indices.
  intros Hl Hm. induction indices as [|i indices IH]; simpl; [constructor|].
  apply subsequence_app; [|exact IH].
  destruct (proj2 (detectAt_stricter (sort byTime samples) i Hs) Hl Hm) as [->| ->].
  - apply subsequence_refl.
  - apply subsequence_nil_l.
Qed.

End Thresholds.

Section MetaAnalysis.

Context {num : Type} `{Number num} `{Floor num} `{Sqrt num}.
Context `{!OrderLaws num} `{!MedianLaws num} `{!PercentileLaws num}.
Local Open Scope num_scope.

Lemma findDelays_length (cfg : Config num) (samples : list (Sample num)) :
  (length (findDelaysInSequence cfg samples) <= length samples - 2)%nat.
Proof.
  unfold findDelaysInSequence. rewrite detectFrom_concat.
  assert (Hgen : forall data indices,
             (length (concat (map (detectAt cfg data) indices)) <= length indices)%nat).
  { intros data indices. induction indices as [|i indices IH]; simpl; [lia|].
    rewrite length_app. pose proof (detectAt_length cfg data i). lia. }
  eapply Nat.le_trans; [apply Hgen|]. rewrite length_seq.
  rewrite <- (Permutation_length (sort_Permutation byTime samples)). lia.
Qed.

Lemma measured_length (cfg : Config num) (members : list (Sample num)) :
  (length (measured cfg members) <= length members)%nat.
Proof.
  unfold measured. destruct (length members <? 10)%nat; [simpl; lia|].
  pose proof (findDelays_length cfg members). lia.
Qed.

(** Predicates that exclude one another select at most the whole list. *)
Lemma filter_disjoint_length {A K : Type} (P : K -> A -> bool) (keys : list K)
      (l : list A) :
  NoDup keys ->
  (forall x k k', P k x = true -> P k' x = true -> k = k') ->
  (list_sum (map (fun k => length (filter (P k) l)) keys) <= length l)%nat.
Proof.
  intros Hnd Huniq. induction l as [|x l IH]; [simpl|].
  - clear Hnd. induction keys; simpl; [lia | assumption].
  - assert (Hone : (length (filter (fun k => P k x) keys) <= 1)%nat).
    { clear IH. induction Hnd as [|k keys Hnot Hnd IHk]; simpl; [lia|].
      destruct (P k x) eqn:Ek; [|exact IHk]. simpl.
      rewrite (@filter_none _ (fun k => P k x) keys); [simpl; lia|].
      apply Forall_forall. intros k' Hk'.
      destruct (P k' x) eqn:Ek'; [|reflexivity].
      exfalso. apply Hnot. now rewrite (Huniq x k k' Ek Ek'). }
    assert (Hsplit : list_sum (map (fun k => length (filter (P k) (x :: l))) keys)
                     = (length (filter (fun k => P k x) keys)
                        + list_sum (map (fun k => length (filter (P k) l)) keys))%nat).
    { clear. induction keys as [|k keys IHk]; [reflexivity|].
      cbn [map].
      match goal with
      | |- list_sum (?a :: ?l1) = (?b + list_sum (?c :: ?l2))%nat =>
          change (a + list_sum l1 = b + (c + list_sum l2))%nat
      end.
      rewrite IHk. cbn [filter].
      destruct (P k x); cbn [length]; lia. }
    rewrite Hsplit. cbn [length]. lia.
Qed.

Lemma landsIn_unique (cfg : Config num) (rpmB loadB : list num) (s : Sample num)
      (k k' : nat * nat) :
  landsIn cfg rpmB loadB (fst k) (snd k) s = true ->
  landsIn cfg rpmB loadB (fst k') (snd k') s = true -> k = k'.
Proof.
  unfold landsIn. intros E E'.
  apply andb_true_iff in E, E'. destruct E as [E1 E2], E' as [E1' E2'].
  apply Z.eqb_eq in E1, E2, E1', E2'. destruct k, k'. simpl in *. f_equal; lia.
Qed.

Lemma extractCell_shape (n : nat) (g : list (list (Bucket num))) (i j : nat) :
  grid_shape n g -> (i < n)%nat -> (j < n)%nat ->
  exists bucket,
    bucketAt g i j = Some bucket
    /\ extractCell g i j = Some (sessionCell (bucket_delays bucket)).
Proof.
  intros Hg Hi Hj.
  destruct (@grid_shape_row _ n g (Z.of_nat i) Hg) as (row & Hrow & Hn); [lia|].
  destruct (@at_index_Some _ row (Z.of_nat j)) as [b Hb]; [lia|].
  exists b. unfold extractCell. rewrite bucketAt_at_index, Hrow, Hb. auto.
Qed.

Lemma extractCell_missing (n : nat) (g : list (list (Bucket num))) (j : nat) :
  grid_shape n g -> (n < 3)%nat -> extractCell g n j = None.
Proof.
  intros [Hlen _] _. unfold extractCell, at_index.
  destruct (Z.ltb_spec (Z.of_nat n) 0); [reflexivity|].
  rewrite Nat2Z.id. replace (nth_error g n) with (@None (list (Bucket num)));
    [reflexivity|].
  symmetry. apply nth_error_None. lia.
Qed.

Lemma sessionCell_median (delays : list num) :
  cell_median (sessionCell delays) = None <-> cell_count (sessionCell delays) = 0%nat.
Proof.
  unfold sessionCell. cbn [cell_median cell_count].
  destruct delays as [|d delays]; [simpl; tauto|].
  cbn [length Nat.ltb Nat.leb]. split; [|discriminate].
  destruct (median (d :: delays)) eqn:Em; [discriminate|].
  apply median_nil_iff in Em. discriminate.
Qed.

Lemma counters_bound (cells : list (Cell num)) (total n : nat) :
  fold_left (fun total c => (total + cell_count c)%nat) cells total
  = (total + list_sum (map (@cell_count num) cells))%nat
  /\ (fold_left (fun n c => if (0 <? cell_count c)%nat then S n else n) cells n
      <= n + length cells)%nat
  /\ (fold_left (fun n c => if (0 <? cell_count c)%nat then S n else n) cells n
      <= n + list_sum (map (@cell_count num) cells))%nat.
Proof.
  revert total n. induction cells as [|c cells IH]; intros total n; simpl.
  - lia.
  - destruct (IH (total + cell_count c)%nat
                 (if (0 <? cell_count c)%nat then S n else n)) as (E1 & E2 & E3).
    rewrite E1. destruct (Nat.ltb_spec 0 (cell_count c)); lia.
Qed.

(** The session of one file, from its samples. *)
Lemma analyzeFile_session (cfg : Config num) (samples : list (Sample num)) :
  BUCKET_COUNT cfg = 3%nat ->
  Forall (fun s => number (rpm s) /\ number (load s)) samples ->
  (Z.of_nat (length samples) < 2 ^ 32)%Z -> samples <> [] ->
  exists rpmB loadB,
    boundariesOf (map (@rpm num) samples) = Some rpmB
    /\ boundariesOf (map (@load num) samples) = Some loadB
    /\ let cellOf i j :=
         sessionCell (measured cfg (filter (landsIn cfg rpmB loadB i j) samples)) in
       let table := map (fun i => map (cellOf i) (seq 0 3)) (seq 0 3) in
       analyzeFile cfg samples
       = Some (mkSession
                 (length samples)
                 (fold_left (fun total c => (total + cell_count c)%nat) (concat table) 0%nat)
                 (fold_left (fun n c => if (0 <? cell_count c)%nat then S n else n)
                            (concat table) 0%nat)
                 rpmB loadB table).
Proof.
  intros Hc Hnum Hlen Hne.
  destruct (workflow_buckets cfg Hnum Hlen Hne)
    as (rpmB & loadB & g2 & g3 & E1 & E2 & E3 & Hg2 & Hg3 & Hr & Hl & Hat).
  exists rpmB, loadB.
  assert (HB : boundariesOf (map (@rpm num) samples) = Some rpmB
               /\ boundariesOf (map (@load num) samples) = Some loadB).
  { unfold calculateBucketBoundaries in E1. cbn [parsed data] in E1.
    destruct (boundariesOf (map (@rpm num) samples)); [|discriminate].
    destruct (boundariesOf (map (@load num) samples)); [|discriminate].
    injection E1 as -> ->. auto. }
  split; [exact (proj1 HB)|]. split; [exact (proj2 HB)|]. intros cellOf table.
  unfold analyzeFile. rewrite E1, E2, E3. unfold sessionOf.
  cbn [buckets data rpmBoundaries loadBoundaries].
  rewrite Hc in Hg3, Hat.
  rewrite (forEach_Some (fun i => forEach (extractCell g3 i) (seq 0 3))
                        (fun i => map (cellOf i) (seq 0 3))); [reflexivity|].
  intros i Hi. apply in_seq in Hi. apply forEach_Some. intros j Hj. apply in_seq in Hj.
  destruct (@extractCell_shape 3 g3 i j Hg3) as (b & Hb & Ecell); try lia.
  rewrite Ecell. rewrite Hat in Hb by lia. injection Hb as <-.
  unfold cellOf. now rewrite withDelays_measured.
Qed.

Lemma session_shape_of (cfg : Config num) (samples : list (Sample num))
      (result : Session num) :
  BUCKET_COUNT cfg = 3%nat ->
  Forall (fun s => number (rpm s) /\ number (load s)) samples ->
  (Z.of_nat (length samples) < 2 ^ 32)%Z ->
  analyzeFile cfg samples = Some result ->
  samples <> [] /\ grid_shape 3 (delayTable result).
Proof.
  intros Hc Hnum Hlen E.
  assert (Hne : samples <> []) by (intros ->; discriminate E).
  split; [exact Hne|].
  destruct (@analyzeFile_session cfg samples Hc Hnum Hlen Hne)
    as (rpmB & loadB & _ & _ & E').
  cbv zeta in E'. rewrite E' in E. injection E as <-.
  split; [reflexivity | repeat constructor].
Qed.

(** X12. What the meta-analysis keeps of one log file, with the three
    buckets per axis of its configuration.  A file without samples
    throws and is left out.  Any other file gives a session whose table
    has three rows of three cells; the cell of bucket [(i, j)] counts the
    delays measured in the samples of that bucket and holds their rounded
    median, which is [null] exactly when the count is zero.
    [totalMeasurements] is the sum of the nine counts and is at most the
    number of samples, and [bucketsWithData] is at most nine and at most
    [totalMeasurements]. *)
Theorem session_of_file (cfg : Config num) (samples : list (Sample num)) :
  BUCKET_COUNT cfg = 3%nat ->
  Forall (fun s => number (rpm s) /\ number (load s)) samples ->
  (Z.of_nat (length samples) < 2 ^ 32)%Z ->
  (samples = [] -> analyzeFile cfg samples = None)
  /\ (samples <> [] ->
      exists result,
        analyzeFile cfg samples = Some result
        /\ dataPoints result = length samples
        /\ grid_shape 3 (delayTable result)
        /\ (forall i j, (i < 3)%nat -> (j < 3)%nat ->
              let members :=
                filter (landsIn cfg (session_rpmBoundaries result)
                                (session_loadBoundaries result) i j) samples in
              exists c,
                cellAt (delayTable result) i j = Some c
                /\ cell_count c = length (measured cfg members)
                /\ cell_median c = roundedDelay (median (measured cfg members))
                /\ (cell_median c = None <-> cell_count c = 0%nat))
        /\ totalMeasurements result
           = list_sum (map (@cell_count num) (concat (delayTable result)))
        /\ (totalMeasurements result <= length samples)%nat
        /\ (bucketsWithData result <= 9)%nat
        /\ (bucketsWithData result <= totalMeasurements result)%nat).
Proof.
  intros Hc Hnum Hlen. split.
  - intros ->. reflexivity.
  - intros Hne.
    destruct (@analyzeFile_session cfg samples Hc Hnum Hlen Hne)
      as (rpmB & loadB & _ & _ & E).
    cbv zeta in E. rewrite E. eexists. split; [reflexivity|].
    cbn [dataPoints delayTable session_rpmBoundaries session_loadBoundaries
         totalMeasurements bucketsWithData].
    set (cellOf i j :=
           sessionCell (measured cfg (filter (landsIn cfg rpmB loadB i j) samples))).
    set (table := map (fun i => map (cellOf i) (seq 0 3)) (seq 0 3)).
    destruct (counters_bound (concat table) 0 0) as (Etotal & Hnine & Hwith).
    split; [reflexivity|]. split; [split; [reflexivity | repeat constructor]|].
    split; [|split; [exact Etotal|split; [|split; [exact Hnine|]]]].
    + intros i j Hi Hj. exists (cellOf i j). split.
      * destruct i as [|[|[|i]]], j as [|[|[|j]]]; try lia; reflexivity.
      * unfold cellOf at 1 2. unfold sessionCell at 1 2. cbn [cell_count cell_median].
        split; [reflexivity|]. split; [|apply sessionCell_median].
        destruct (measured cfg _) as [|d l]; reflexivity.
    + change (fold_left (fun total c => (total + cell_count c)%nat) (concat table) 0
              <= length samples)%nat.
      rewrite Etotal.
      pose proof (@filter_disjoint_length _ _
                    (fun k => landsIn cfg rpmB loadB (fst k) (snd k))
                    (gridIndices 3) samples (gridIndices_NoDup 3)
                    (@landsIn_unique cfg rpmB loadB)) as Hsum.
      eapply Nat.le_trans; [|exact Hsum]. cbn [table seq map concat app gridIndices flat_map
                                                list_sum fst snd Nat.add].
      unfold cellOf, sessionCell. cbn [cell_count].
      repeat match goal with
             | |- context [length (measured cfg ?l)] =>
                 let H := fresh in
                 pose proof (measured_length cfg l) as H;
                 generalize dependent (length (measured cfg l)); intros
             end.
      unfold list_sum. cbn [fold_right]. lia.
    + change (fold_left (fun n c => if (0 <? cell_count c)%nat then S n else n)
                        (concat table) 0
              <= fold_left (fun total c => (total + cell_count c)%nat) (concat table) 0)%nat.
      rewrite Etotal. exact Hwith.
Qed.

Lemma forEach_returns {A B : Type} (f : A -> option B) (l : list A) :
  (forall x, In x l -> exists y, f x = Some y) ->
  exists ys, forEach f l = Some ys /\ length ys = length l.
Proof.
  induction l as [|x l IH]; intros Hf; simpl.
  - exists []. auto.
  - destruct (Hf x (or_introl eq_refl)) as [y Ey]. rewrite Ey.
    destruct (IH (fun z Hz => Hf z (or_intror Hz))) as (ys & Eys & Hlen).
    rewrite Eys. exists (y :: ys). simpl. auto.
Qed.

Lemma calculateLambdaErrors_returns (a : Analyzer num)
      (delayTable : list (list (option num))) :
  grid_shape (BUCKET_COUNT (config a)) delayTable ->
  exists report, calculateLambdaErrors a delayTable = Some report.
Proof.
  intros Hg. unfold calculateLambdaErrors.
  destruct (visitAll_returns (visitLinear a delayTable) (data a) [])
    as [errors E].
  { intros point. apply visitLinear_not_Thrown. exact Hg. }
  rewrite E. eexists. reflexivity.
Qed.

Lemma ownTableOf_shape (result : Session num) :
  grid_shape 3 (delayTable result) ->
  exists own, ownTableOf result = Some own /\ grid_shape 3 own.
Proof.
  intros Hg. unfold ownTableOf.
  rewrite (forEach_Some _ (fun i => map (sessionMedian (delayTable result) i) (seq 0 3))).
  - eexists. split; [reflexivity|]. split; [reflexivity | repeat constructor].
  - intros i Hi. apply in_seq in Hi. apply forEach_Some. intros j Hj. apply in_seq in Hj.
    apply medianAt_shape; [exact Hg | lia | lia].
Qed.

Lemma allResultsOf_In (cfg : Config num) (files : list (list (Sample num)))
      (entry : list (Sample num) * Session num) :
  In entry (allResultsOf cfg files) <->
  In (fst entry) files /\ analyzeFile cfg (fst entry) = Some (snd entry).
Proof.
  unfold allResultsOf. rewrite in_flat_map. split.
  - intros (samples & Hin & He).
    destruct (analyzeFile cfg samples) as [result|] eqn:E; [|contradiction].
    destruct He as [<-|[]]. simpl. auto.
  - intros [Hin E]. exists (fst entry). split; [exact Hin|].
    rewrite E. left. now destruct entry.
Qed.

Lemma estimateAt_map_seq (f : nat -> nat -> option num) (n i j : nat) :
  (i < n)%nat -> (j < n)%nat ->
  estimateAt (map (fun i => map (f i) (seq 0 n)) (seq 0 n)) (Z.of_nat i) (Z.of_nat j)
  = match f i j with Some ms => Delay ms | None => Null end.
Proof.
  intros Hi Hj. unfold estimateAt, at_index.
  destruct (Z.ltb_spec (Z.of_nat i) 0); [lia|].
  destruct (Z.ltb_spec (Z.of_nat j) 0); [lia|].
  rewrite !Nat2Z.id, (nth_error_map_seq _ Hi), (nth_error_map_seq _ Hj).
  reflexivity.
Qed.

Lemma allResultsOf_files (cfg : Config num) (files : list (list (Sample num))) :
  BUCKET_COUNT cfg = 3%nat ->
  Forall (fun samples =>
            Forall (fun s => number (rpm s) /\ number (load s)) samples
            /\ (Z.of_nat (length samples) < 2 ^ 32)%Z) files ->
  map fst (allResultsOf cfg files)
  = filter (fun samples => negb (length samples =? 0)%nat) files.
Proof.
  intros Hc Hfiles. unfold allResultsOf.
  induction Hfiles as [|samples files [Hnum Hlen] _ IH]; [reflexivity|].
  cbn [flat_map filter]. rewrite map_app, IH.
  destruct samples as [|s samples]; [reflexivity|].
  destruct (@analyzeFile_session cfg (s :: samples) Hc Hnum Hlen ltac:(discriminate))
    as (rpmB & loadB & _ & _ & E).
  cbv zeta in E. rewrite E. reflexivity.
Qed.

(** X13. With three buckets per axis the meta-analysis does not throw.
    It keeps one session per log file that has samples, in the order of
    the files; every session table has three rows of three cells; the
    master table has the same shape, and the validator runs on it and on
    each session's own table.  The master table is [null] at a bucket
    where fewer than two sessions have a median, and holds the rounded
    mean of the medians elsewhere. *)
Theorem meta_analysis_returns (cfg : Config num) (files : list (list (Sample num))) :
  BUCKET_COUNT cfg = 3%nat ->
  Forall (fun samples =>
            Forall (fun s => number (rpm s) /\ number (load s)) samples
            /\ (Z.of_nat (length samples) < 2 ^ 32)%Z) files ->
  let allResults := allResultsOf cfg files in
  let tables := map (fun e => delayTable (snd e)) allResults in
  exists masterTable crossValResults,
    metaAnalysis cfg files = Some (masterTable, crossValResults)
    /\ map fst allResults
       = filter (fun samples => negb (length samples =? 0)%nat) files
    /\ length crossValResults = length allResults
    /\ Forall (grid_shape 3) tables
    /\ grid_shape 3 masterTable
    /\ forall i j, (i < 3)%nat -> (j < 3)%nat ->
         let vs := contributions tables i j in
         ((length vs < 2)%nat ->
          estimateAt masterTable (Z.of_nat i) (Z.of_nat j) = Null)
         /\ ((2 <= length vs)%nat ->
             estimateAt masterTable (Z.of_nat i) (Z.of_nat j)
             = Delay (round1 (meanOf vs))).
Proof.
  intros Hc Hfiles allResults tables.
  assert (Hentry : forall entry, In entry allResults ->
            Forall (fun s => number (rpm s) /\ number (load s)) (fst entry)
            /\ (Z.of_nat (length (fst entry)) < 2 ^ 32)%Z
            /\ fst entry <> []
            /\ grid_shape 3 (delayTable (snd entry))).
  { intros entry Hin. apply allResultsOf_In in Hin. destruct Hin as [Hin E].
    destruct (proj1 (Forall_forall _ _) Hfiles _ Hin) as [Hnum Hlen].
    destruct (@session_shape_of cfg (fst entry) (snd entry)) as [Hne Hg]; auto. }
  assert (Htables : Forall (grid_shape 3) tables).
  { apply Forall_forall. intros t Ht. apply in_map_iff in Ht.
    destruct Ht as (entry & <- & Hin). apply (Hentry entry Hin). }
  destruct (bucketStatsOf_shape Htables) as (bucketStats & Estats & Hlookup).
  unfold metaAnalysis. fold allResults. fold tables. rewrite Estats.
  assert (Hmaster : grid_shape 3 (masterTableOf bucketStats))
    by (split; [reflexivity | repeat constructor]).
  destruct (@forEach_returns _ _ (crossValidate cfg (masterTableOf bucketStats)) allResults)
    as (crossValResults & Ecross & Hlen).
  { intros entry Hin. destruct (Hentry entry Hin) as (Hnum & Hlen & Hne & Hg).
    destruct (workflow_buckets cfg Hnum Hlen Hne)
      as (rpmB & loadB & g2 & g3 & E1 & E2 & _).
    unfold crossValidate. rewrite E1, E2.
    destruct (@calculateLambdaErrors_returns (mkAnalyzer cfg (fst entry) g2 rpmB loadB)
                (masterTableOf bucketStats)) as [masterErrors Em].
    { cbn [config]. now rewrite Hc. }
    destruct (@ownTableOf_shape (snd entry) Hg) as (own & Eown & Hown).
    destruct (@calculateLambdaErrors_returns (mkAnalyzer cfg (fst entry) g2 rpmB loadB) own)
      as [ownErrors Eo].
    { cbn [config]. now rewrite Hc. }
    rewrite Em, Eown, Eo. eexists. reflexivity. }
  rewrite Ecross. exists (masterTableOf bucketStats), crossValResults.
  split; [reflexivity|]. split; [|split; [exact Hlen|split; [exact Htables|split; [exact Hmaster|]]]].
  - apply allResultsOf_files; assumption.
  - intros i j Hi Hj. set (vs := contributions tables i j).
    assert (Hcell : estimateAt (masterTableOf bucketStats) (Z.of_nat i) (Z.of_nat j)
                    = match bucketStat i j vs with
                      | Some st => Delay (round1 (mean st))
                      | None => Null
                      end).
    { unfold vs. rewrite <- (Hlookup i j Hi Hj).
      change (masterTableOf bucketStats)
        with (map (fun i => map ((fun i j => option_map (fun st => round1 (mean st))
                                                        (statsLookup bucketStats i j)) i)
                                (seq 0 3)) (seq 0 3)).
      rewrite estimateAt_map_seq by assumption.
      destruct (statsLookup bucketStats i j); reflexivity. }
    rewrite Hcell. split.
    + intros Hfew. now rewrite (proj2 (bucketStat_None i j vs) Hfew).
    + intros Hmany. clearbody vs. destruct vs as [|v0 rest]; [simpl in Hmany; lia|].
      pose proof (bucketStat_Some i j Hmany) as E. cbv zeta in E.
      rewrite E. reflexivity.
Qed.

Lemma getBucketIndex_count (cfg cfg' : Config num) (v : num) (boundaries : list num) :
  BUCKET_COUNT cfg' = BUCKET_COUNT cfg ->
  getBucketIndex cfg' v boundaries = getBucketIndex cfg v boundaries.
Proof. intros E. unfold getBucketIndex. now rewrite E. Qed.

Lemma counters_le (cells' cells : list (Cell num)) :
  Forall2 (fun c' c => (cell_count c' <= cell_count c)%nat) cells' cells ->
  forall total' total n' n, (total' <= total)%nat -> (n' <= n)%nat ->
  (fold_left (fun total c => (total + cell_count c)%nat) cells' total'
   <= fold_left (fun total c => (total + cell_count c)%nat) cells total)%nat
  /\ (fold_left (fun n c => if (0 <? cell_count c)%nat then S n else n) cells' n'
      <= fold_left (fun n c => if (0 <? cell_count c)%nat then S n else n) cells n)%nat.
Proof.
  induction 1 as [|c' c cells' cells Hc _ IH]; intros total' total n' n Ht Hn; simpl.
  - auto.
  - apply IH; [lia|].
    destruct (Nat.ltb_spec 0 (cell_count c')), (Nat.ltb_spec 0 (cell_count c)); lia.
Qed.

(** X14. The sweep of [test_thresholds.js]: on the same log file, with
    three buckets per axis, a stricter configuration has the same
    boundaries and the same samples per bucket, and so at most as many
    measurements in every bucket, at most as many in total and at most as
    many buckets with data. *)
Theorem stricter_session (cfg cfg' : Config num) (samples : list (Sample num)) :
  stricter cfg cfg' ->
  BUCKET_COUNT cfg = 3%nat -> BUCKET_COUNT cfg' = 3%nat ->
  Forall (fun s => number (rpm s) /\ number (load s)) samples ->
  (Z.of_nat (length samples) < 2 ^ 32)%Z -> samples <> [] ->
  exists result result',
    analyzeFile cfg samples = Some result
    /\ analyzeFile cfg' samples = Some result'
    /\ session_rpmBoundaries result' = session_rpmBoundaries result
    /\ session_loadBoundaries result' = session_loadBoundaries result
    /\ (forall i j, (i < 3)%nat -> (j < 3)%nat ->
          exists c c',
            cellAt (delayTable result) i j = Some c
            /\ cellAt (delayTable result') i j = Some c'
            /\ (cell_count c' <= cell_count c)%nat)
    /\ (totalMeasurements result' <= totalMeasurements result)%nat
    /\ (bucketsWithData result' <= bucketsWithData result)%nat.
Proof.
  intros Hs Hc Hc' Hnum Hlen Hne.
  destruct (@analyzeFile_session cfg samples Hc Hnum Hlen Hne)
    as (rpmB & loadB & Er & El & E).
  destruct (@analyzeFile_session cfg' samples Hc' Hnum Hlen Hne)
    as (rpmB' & loadB' & Er' & El' & E').
  rewrite Er in Er'. injection Er' as <-. rewrite El in El'. injection El' as <-.
  cbv zeta in E, E'. rewrite E, E'. do 2 eexists.
  split; [reflexivity|]. split; [reflexivity|].
  cbn [session_rpmBoundaries session_loadBoundaries delayTable
       totalMeasurements bucketsWithData].
  split; [reflexivity|]. split; [reflexivity|].
  assert (Hcell : forall i j,
            (cell_count (sessionCell (measured cfg'
                           (filter (landsIn cfg' rpmB loadB i j) samples)))
             <= cell_count (sessionCell (measured cfg
                              (filter (landsIn cfg rpmB loadB i j) samples))))%nat).
  { intros i j. unfold sessionCell. cbn [cell_count].
    replace (filter (landsIn cfg' rpmB loadB i j) samples)
      with (filter (landsIn cfg rpmB loadB i j) samples).
    - unfold measured. destruct (length _ <? 10)%nat; [simpl; lia|].
      apply stricter_length. exact Hs.
    - apply filter_ext. intros s. unfold landsIn.
      now rewrite !(@getBucketIndex_count cfg cfg') by congruence. }
  split.
  - intros i j Hi Hj. do 2 eexists.
    split; [|split; [|apply (Hcell i j)]];
      destruct i as [|[|[|i]]], j as [|[|[|j]]]; try lia; reflexivity.
  - apply counters_le; [|lia|lia].
    cbn [seq map concat app]. repeat (constructor; [apply Hcell|]). constructor.
Qed.

End MetaAnalysis.

Section PoolProofs.

Context {F R : Type}.
Variable logFiles : list F.
Variable numCPUs : nat.
Variable message : F -> option R.

Lemma firstn_snoc (l : list F) (k : nat) (f : F) :
  nth_error l k = Some f -> firstn (S k) l = firstn k l ++ [f].
Proof.
  revert k. induction l as [|x l IH]; intros [|k] E; try discriminate.
  - simpl in E. injection E as ->. reflexivity.
  - simpl in E. cbn [firstn app]. f_equal. exact (IH k E).
Qed.

Lemma startWorker_batch (k : nat) :
  (k <= length logFiles)%nat ->
  Nat.iter k (startWorker logFiles) (mkPool (@nil R) 0 0 0 [] None)
  = mkPool [] 0 k k (firstn k logFiles) None.
Proof.
  induction k as [|k IH]; intros Hk; [reflexivity|].
  rewrite Nat.iter_succ, IH by lia. unfold startWorker. cbn [fileIndex].
  destruct (nth_error logFiles k) as [f|] eqn:E.
  - cbn [pool_results completed activeWorkers running resolved].
    now rewrite (firstn_snoc _ _ E).
  - apply nth_error_None in E. lia.
Qed.

Lemma successes_app (l l' : list F) :
  successes message (l ++ l') = successes message l ++ successes message l'.
Proof. unfold successes. apply flat_map_app. Qed.

Lemma startPool_invariant :
  poolInvariant logFiles numCPUs message (@startPool F R logFiles numCPUs) [].
Proof.
  unfold startPool. rewrite startWorker_batch by lia.
  set (k := Nat.min numCPUs (length logFiles)).
  unfold poolInvariant.
  cbn [pool_results completed activeWorkers fileIndex running resolved app length].
  split; [apply Permutation_refl|]. split; [reflexivity|]. split; [reflexivity|].
  split; [rewrite length_firstn; lia|]. split; [lia|]. split; [lia|].
  split; [lia|].
  destruct (length logFiles); reflexivity.
Qed.

Lemma poolStep_invariant (p p' : Pool F R) (finished : list F) :
  poolInvariant logFiles numCPUs message p finished ->
  poolStep logFiles message p p' ->
  exists logFile,
    In logFile (running p)
    /\ poolInvariant logFiles numCPUs message p' (finished ++ [logFile]).
Proof.
  intros (Hperm & Hres & Hdone & Hact & Hidx & Hcpu & Hfull & Hresolved) Hstep.
  destruct Hstep as [p before f after Hrun].
  exists f. split; [rewrite Hrun; apply in_elt|].
  assert (Hlen : length (running p) = S (length (before ++ after))).
  { rewrite Hrun, !length_app. simpl. lia. }
  assert (Hperm' : Permutation ((finished ++ [f]) ++ before ++ after)
                               (firstn (fileIndex p) logFiles)).
  { etransitivity; [|exact Hperm]. rewrite Hrun, <- app_assoc.
    apply Permutation_app_head. simpl. apply Permutation_middle. }
  assert (Hres' : match message f with
                  | Some result => pool_results p ++ [result]
                  | None => pool_results p
                  end = successes message (finished ++ [f])).
  { rewrite successes_app, <- Hres. unfold successes at 1. simpl.
    destruct (message f); [reflexivity | now rewrite app_nil_r]. }
  assert (Hstarted : (length (finished ++ [f]) + length (before ++ after)
                      = fileIndex p)%nat).
  { rewrite <- length_app, (Permutation_length Hperm'), length_firstn. lia. }
  rewrite length_app in Hstarted. simpl in Hstarted.
  assert (Hnotyet : (completed p =? length logFiles)%nat = false).
  { apply Nat.eqb_neq. lia. }
  rewrite Hnotyet in Hresolved. simpl in Hresolved.
  unfold onMessage. cbv zeta.
  destruct (Nat.eqb_spec (S (completed p)) (length logFiles)) as [Elast|Emore].
  - unfold poolInvariant.
    cbn [pool_results completed activeWorkers fileIndex running resolved].
    rewrite length_app. cbn [length].
    split; [exact Hperm'|]. split; [exact Hres'|]. split; [lia|].
    split; [lia|]. split; [lia|]. split; [lia|]. split; [lia|].
    rewrite Hresolved, (proj2 (Nat.eqb_eq _ _) Elast).
    destruct (Nat.ltb_spec 0 (length logFiles)); [reflexivity | lia].
  - unfold startWorker. cbn [fileIndex].
    destruct (nth_error logFiles (fileIndex p)) as [g|] eqn:Eg.
    + assert (Hlt : (fileIndex p < length logFiles)%nat)
        by (apply nth_error_Some; congruence).
      unfold poolInvariant.
      cbn [pool_results completed activeWorkers fileIndex running resolved].
      rewrite (firstn_snoc _ _ Eg), !length_app. cbn [length].
      split.
      { rewrite !app_assoc. apply Permutation_app_tail.
        rewrite <- !app_assoc. rewrite <- app_assoc in Hperm'. exact Hperm'. }
      split; [exact Hres'|]. split; [lia|]. split; [rewrite length_app in Hlen; lia|].
      split; [lia|]. split; [lia|].
      split; [intros Hfew; assert (fileIndex p = length logFiles) by (apply Hfull; lia); lia|].
      rewrite Hresolved.
      destruct (Nat.eqb_spec (S (completed p)) (length logFiles)); [lia | reflexivity].
    + apply nth_error_None in Eg.
      unfold poolInvariant.
      cbn [pool_results completed activeWorkers fileIndex running resolved].
      rewrite length_app. cbn [length].
      split; [exact Hperm'|]. split; [exact Hres'|]. split; [lia|].
      split; [lia|]. split; [lia|]. split; [lia|]. split; [lia|].
      rewrite Hresolved.
      destruct (Nat.eqb_spec (S (completed p)) (length logFiles)); [lia | reflexivity].
Qed.

Lemma poolReachable_invariant (p : Pool F R) :
  poolReachable logFiles numCPUs message p ->
  exists finished, poolInvariant logFiles numCPUs message p finished.
Proof.
  induction 1 as [|p p' _ [finished IH] Hstep].
  - exists []. apply startPool_invariant.
  - destruct (poolStep_invariant IH Hstep) as (f & _ & Hinv). eauto.
Qed.

(** X15. The worker pool of [processFilesInParallel].  Whenever a handler
    has returned, at most [numCPUs] workers are running, the pool is full
    while files are left to start, every file started so far is running
    or finished and each only once, [fileIndex] is [completed] plus
    [activeWorkers], and [results] holds the results of the finished
    files that succeeded, in the order their messages arrived. *)
Theorem pool_invariant (p : Pool F R) :
  poolReachable logFiles numCPUs message p ->
  exists finished,
    Permutation (finished ++ running p) (firstn (fileIndex p) logFiles)
    /\ pool_results p = successes message finished
    /\ completed p = length finished
    /\ activeWorkers p = length (running p)
    /\ fileIndex p = (completed p + activeWorkers p)%nat
    /\ (fileIndex p <= length logFiles)%nat
    /\ (activeWorkers p <= numCPUs)%nat
    /\ ((activeWorkers p < Nat.min numCPUs (length logFiles))%nat ->
        fileIndex p = length logFiles).
Proof.
  intros Hreach. destruct (poolReachable_invariant Hreach) as [finished Hinv].
  exists finished.
  destruct Hinv as (Hperm & Hres & Hdone & Hact & Hidx & Hcpu & Hfull & _).
  repeat (split; [assumption|]). split; [|auto].
  pose proof (Permutation_length Hperm) as Hlen.
  rewrite length_app, length_firstn in Hlen. lia.
Qed.

(** X16. The promise of [processFilesInParallel].  With at least one CPU
    and one log file it cannot get stuck before it is resolved: a worker
    is running, each message completes one more file, and after the
    message of the last file the promise is resolved, with the results of
    the files that succeeded, in the order of arrival: a permutation of
    the results that the sequential script keeps.  Without a log file no
    worker is started and the promise is never resolved. *)
Theorem pool_resolves (p : Pool F R) :
  poolReachable logFiles numCPUs message p ->
  (forall p', poolStep logFiles message p p' -> completed p' = S (completed p))
  /\ ((1 <= numCPUs)%nat -> logFiles <> [] -> resolved p = None ->
      exists p', poolStep logFiles message p p')
  /\ (forall results, resolved p = Some results ->
        completed p = length logFiles /\ running p = []
        /\ results = pool_results p
        /\ Permutation results (successes message logFiles))
  /\ (logFiles = [] ->
      resolved p = None /\ forall p', ~ poolStep logFiles message p p').
Proof.
  intros Hreach. destruct (poolReachable_invariant Hreach) as [finished Hinv].
  pose proof Hinv as (Hperm & Hres & Hdone & Hact & Hidx & Hcpu & Hfull & Hresolved).
  pose proof (Permutation_length Hperm) as Hlen.
  rewrite length_app, length_firstn in Hlen.
  split; [|split; [|split]].
  - intros p' Hstep. destruct Hstep as [q before f after _]. unfold onMessage.
    cbv zeta. destruct (S (completed q) =? length logFiles)%nat; [reflexivity|].
    unfold startWorker. cbn [fileIndex].
    destruct (nth_error logFiles (fileIndex q)); reflexivity.
  - intros Hcpus Hfiles Hnone.
    assert (Hn : (0 < length logFiles)%nat) by (destruct logFiles; [congruence | simpl; lia]).
    destruct (running p) as [|f after] eqn:Hrun.
    + exfalso. simpl in Hact, Hlen.
      assert (Hend : fileIndex p = length logFiles) by (apply Hfull; lia).
      rewrite Hresolved in Hnone.
      replace (completed p =? length logFiles)%nat with true in Hnone
        by (symmetry; apply Nat.eqb_eq; lia).
      destruct (Nat.ltb_spec 0 (length logFiles)); [discriminate | lia].
    + eexists. apply (messageStep logFiles message p [] f after). exact Hrun.
  - intros results Hsome. rewrite Hresolved in Hsome.
    destruct (Nat.eqb_spec (completed p) (length logFiles)) as [Eall|]; [|discriminate].
    destruct (0 <? length logFiles)%nat; [|discriminate]. injection Hsome as <-.
    assert (Hrun : running p = []).
    { destruct (running p); [reflexivity | simpl in Hlen; lia]. }
    split; [exact Eall|]. split; [exact Hrun|]. split; [reflexivity|].
    rewrite Hres. rewrite Hrun, app_nil_r in Hperm.
    assert (Hall : fileIndex p = length logFiles) by (rewrite Hrun in Hlen; simpl in Hlen; lia).
    rewrite Hall, firstn_all in Hperm.
    unfold successes. apply Permutation_flat_map. exact Hperm.
  - intros Hnil. subst logFiles. simpl in *. split.
    + rewrite Hresolved. now rewrite andb_false_r.
    + intros p' Hstep. destruct Hstep as [q before f after Hrun].
      rewrite Hrun, length_app in Hlen. simpl in Hlen. lia.
Qed.

End PoolProofs.

Section ValidateDelays.

Context {num : Type} `{Number num} `{Sqrt num} `{!OrderLaws num}.
Local Open Scope num_scope.

(** The two validators take the same decision at every point. *)
Lemma validatePoint_visit (a : Analyzer num) (delayTable : list (list (option num)))
      (point : Sample num) :
  match validatePoint a delayTable point with
  | Passed => visitLinear a delayTable point = Skipped
  | Pushed err =>
      visitLinear a delayTable point = Recorded (err_bucket err) (currentLambda err)
      /\ entryOf (data a) err point
  | Failed => visitLinear a delayTable point = Thrown
  end.
Proof.
  unfold validatePoint, visitLinear.
  set (r := getBucketIndex (config a) (rpm point) (rpmBoundaries a)).
  set (l := getBucketIndex (config a) (load point) (loadBoundaries a)).
  destruct ((r =? -1)%Z || (l =? -1)%Z); [reflexivity|].
  destruct (estimateAt delayTable r l) as [| | |ms]; try reflexivity.
  unfold foundLinear.
  pose proof (@closestLinear_scanned _ _ _ (targetTimeOf point ms) (data a)) as Hs.
  destruct (closestLinear (data a) (targetTimeOf point ms)) as [idx [|m]].
  - cbn [withinTolerance]. now rewrite andb_false_r.
  - cbn [withinTolerance].
    destruct (negb (idx =? -1)%Z && (m <? half)) eqn:Hfound; [|reflexivity].
    destruct Hs as (s & Hat & -> & Hnear). rewrite Hat.
    split; [reflexivity|]. exists s. cbn [estimatedDelay err_timeDiff historicalPW
      currentPW currentLambda err_rpm err_load].
    apply andb_true_iff in Hfound. destruct Hfound as [_ Hhalf]. auto 10.
Qed.

Lemma lambdasOf_pushStats (err : ErrorEntry num)
      (bucketStats : list (Z * Z * (list num * list num))) :
  lambdasOf (pushStats err bucketStats)
  = pushLambda (err_bucket err) (currentLambda err) (lambdasOf bucketStats).
Proof.
  induction bucketStats as [|[k [lambdas pwChanges]] rest IH]; [reflexivity|].
  cbn [pushStats lambdasOf map fst snd pushLambda].
  destruct (sameKey k (err_bucket err)); [reflexivity|].
  cbn [map fst snd]. f_equal. exact IH.
Qed.

Lemma validateAll_visitAll (a : Analyzer num) (delayTable : list (list (option num)))
      (points : list (Sample num)) (errors : list (ErrorEntry num))
      (bucketErrors : Errors num) (seen : list (Sample num)) :
  lambdasOf (bucketStatsOfErrors errors) = bucketErrors ->
  Forall (fun err => exists point, In point (seen ++ points) /\ entryOf (data a) err point)
         errors ->
  (length errors <= length seen)%nat ->
  match validateAll (validatePoint a delayTable) points errors,
        visitAll (visitLinear a delayTable) points bucketErrors with
  | Some errors', Some bucketErrors' =>
      lambdasOf (bucketStatsOfErrors errors') = bucketErrors'
      /\ Forall (fun err => exists point, In point (seen ++ points)
                                          /\ entryOf (data a) err point) errors'
      /\ (length errors' <= length seen + length points)%nat
  | None, None => True
  | _, _ => False
  end.
Proof.
  revert errors bucketErrors seen.
  induction points as [|point rest IH]; intros errors bucketErrors seen Hl Hall Hlen.
  - cbn [validateAll visitAll]. rewrite app_nil_r in *. simpl. auto with arith.
  - cbn [validateAll visitAll].
    pose proof (validatePoint_visit a delayTable point) as Hv.
    assert (Hseen : seen ++ point :: rest = (seen ++ [point]) ++ rest)
      by now rewrite <- app_assoc.
    assert (Hlen' : (length seen + length (point :: rest)
                     = length (seen ++ [point]) + length rest)%nat)
      by (rewrite length_app; simpl; lia).
    rewrite Hseen, Hlen'.
    destruct (validatePoint a delayTable point) as [|err|].
    + rewrite Hv. apply IH; [exact Hl| |rewrite length_app; simpl; lia].
      now rewrite <- Hseen.
    + destruct Hv as [Hv Hentry]. rewrite Hv. apply IH.
      * unfold bucketStatsOfErrors. rewrite fold_left_app. cbn [fold_left].
        rewrite lambdasOf_pushStats. f_equal. exact Hl.
      * apply Forall_app. split; [now rewrite <- Hseen|].
        constructor; [|constructor]. exists point. split; [|exact Hentry].
        apply in_or_app. left. apply in_or_app. right. now left.
      * rewrite !length_app. simpl. lia.
    + rewrite Hv. exact I.
Qed.

Lemma validateAll_report (a : Analyzer num) (delayTable : list (list (option num))) :
  grid_shape (BUCKET_COUNT (config a)) delayTable ->
  exists errors report,
    validateAll (validatePoint a delayTable) (data a) [] = Some errors
    /\ calculateLambdaErrors a delayTable = Some report
    /\ lambdasOf (bucketStatsOfErrors errors) = bucketErrors report
    /\ map (@lambdaStdDev num) (bucketResultsOf (bucketStatsOfErrors errors))
       = stdDevsOf (bucketErrors report)
    /\ (length errors <= length (data a))%nat
    /\ Forall (fun err => exists point, In point (data a) /\ entryOf (data a) err point)
              errors.
Proof.
  intros Hg.
  destruct (visitAll_returns (visitLinear a delayTable) (data a) [])
    as [bucketErrors' Evisit].
  { intros point. apply visitLinear_not_Thrown. exact Hg. }
  pose proof (@validateAll_visitAll a delayTable (data a) [] [] [] eq_refl
                (Forall_nil _) (Nat.le_refl _)) as Hboth.
  rewrite Evisit in Hboth.
  destruct (validateAll (validatePoint a delayTable) (data a) []) as [errors|];
    [|contradiction].
  destruct Hboth as (Hl & Hall & Hlen). simpl in Hall, Hlen.
  unfold calculateLambdaErrors. rewrite Evisit.
  exists errors. eexists. split; [reflexivity|]. split; [reflexivity|].
  cbn [option_map reportOf bucketErrors]. split; [exact Hl|].
  split; [|split; [exact Hlen | exact Hall]].
  rewrite <- Hl. unfold stdDevsOf, bucketResultsOf, lambdasOf.
  generalize (bucketStatsOfErrors errors). intros stats.
  induction stats as [|[k [lambdas pwChanges]] stats IH]; [reflexivity|].
  cbn [flat_map map filter fst snd].
  destruct (length lambdas <? 10)%nat; cbn [negb app map]; [exact IH|].
  f_equal. exact IH.
Qed.

Lemma medianTable_shape (a : Analyzer num) :
  grid_shape 3 (buckets a) ->
  exists delayTable, medianTable a = Some delayTable /\ grid_shape 3 delayTable.
Proof.
  intros Hg. unfold medianTable.
  set (cellOf i j :=
         match bucketAt (buckets a) i j with
         | Some bucket => if (0 <? length (bucket_delays bucket))%nat
                          then median (bucket_delays bucket) else None
         | None => None
         end).
  rewrite (forEach_Some _ (fun i => map (cellOf i) (seq 0 3))).
  - eexists. split; [reflexivity|]. split; [reflexivity | repeat constructor].
  - intros i Hi. apply in_seq in Hi. apply forEach_Some. intros j Hj. apply in_seq in Hj.
    destruct (@grid_shape_row _ _ (buckets a) (Z.of_nat i) Hg) as (r & Hr & Hn); [lia|].
    destruct (@at_index_Some _ r (Z.of_nat j)) as [b Hb]; [lia|].
    unfold ownMedian, cellOf. rewrite bucketAt_at_index, Hr, Hb. reflexivity.
Qed.

(** X17. The validator of [validate_delays.js] and [calculateLambdaErrors]
    agree.  With three buckets per axis the script builds its table of
    medians and neither validator throws on it; they keep the same
    points, so that the bucket statistics hold, bucket by bucket and in
    the same order, the accuracy lists of the report, and the standard
    deviations of the bucket results are those that the report averages.
    Every entry of [errors] belongs to a point of the store: it holds the
    lambda and the pulsewidth of that point, and the pulsewidth of a
    sample nearest to the target time and less than 0.5 s from it. *)
Theorem validate_delays_agrees (a : Analyzer num) :
  BUCKET_COUNT (config a) = 3%nat -> grid_shape 3 (buckets a) ->
  exists delayTable errors report,
    medianTable a = Some delayTable
    /\ validateAll (validatePoint a delayTable) (data a) [] = Some errors
    /\ validateDelays a
       = Some (bucketResultsOf (bucketStatsOfErrors errors), length errors)
    /\ calculateLambdaErrors a delayTable = Some report
    /\ lambdasOf (bucketStatsOfErrors errors) = bucketErrors report
    /\ map (@lambdaStdDev num) (bucketResultsOf (bucketStatsOfErrors errors))
       = stdDevsOf (bucketErrors report)
    /\ (length errors <= length (data a))%nat
    /\ Forall (fun err => exists point, In point (data a) /\ entryOf (data a) err point)
              errors.
Proof.
  intros Hc Hg.
  destruct (medianTable_shape a Hg) as (delayTable & Et & Hshape).
  rewrite <- Hc in Hshape.
  destruct (validateAll_report a Hshape) as (errors & report & Ev & Er & Hrest).
  exists delayTable, errors, report.
  split; [exact Et|]. split; [exact Ev|].
  split; [unfold validateDelays; now rewrite Et, Ev|]. split; [exact Er | exact Hrest].
Qed.

End ValidateDelays.

(** ** Concrete runs on binary64 *)

Section Binary64Runs.

Local Open Scope float_scope.

(** The default configuration of [analyze_lambda_delay.js]. *)
Definition defaultConfig : Config float := mkConfig 500 1 0.5 0.05 2000 3.

(** A pulsewidth step followed, 0.25 s later, by a lambda drop. *)
Definition stepSamples : list (Sample float) :=
  [ mkSample 9 1000 1 1 30;
    mkSample 10 1000 2 1 30;
    mkSample 10.125 1000 2 1 30;
    mkSample 10.25 1000 2 0.75 30;
    mkSample 11 1000 2 0.75 30 ].

Lemma detector_first_match_witness :
  exists outs : list (list float),
    findDelaysInSequence defaultConfig stepSamples = concat outs
    /\ length outs = 3%nat
    /\ forall k, (k < 3)%nat ->
         event defaultConfig stepSamples (k + 1) (nth k outs [])
         /\ (length (nth k outs []) <= 1)%nat.
Proof.
  apply (@detector_first_match float _ _ defaultConfig stepSamples).
  unfold stepSamples. repeat constructor.
Defined.




Definition rpmCuts : list float := [599; 1412; 1898; 4350].

Lemma bucket_of_spec_witness :
  (forall i : nat,
      getBucketIndex defaultConfig 1412 rpmCuts = Z.of_nat i <->
      ((i < 3)%nat /\ in_interval 1412 rpmCuts i
       /\ forall i', (i' < i)%nat -> ~ in_interval 1412 rpmCuts i')
      \/ ((1412 =? 4350) = true /\ i = 2%nat))
  /\ (getBucketIndex defaultConfig 1412 rpmCuts = (-1)%Z <->
      ~ ((599 <=? 1412) = true /\ (1412 <=? 4350) = true))
  /\ ((599 <=? 1412) = true -> (1412 <? 4350) = true ->
      exists i, ((i < 3)%nat /\ in_interval 1412 rpmCuts i)
                /\ forall i', (i' < 3)%nat /\ in_interval 1412 rpmCuts i' -> i' = i).
Proof.
  exact (@bucket_of_spec float _ _ defaultConfig 1412 599 4350 rpmCuts
           ltac:(simpl; lia) eq_refl ltac:(unfold rpmCuts; repeat constructor)
           eq_refl eq_refl).
Defined.

(** An analyser right after construction, with two samples loaded, and a
    table with one [null] cell. *)
Definition freshAnalyzer : Analyzer float :=
  mkAnalyzer defaultConfig
             [mkSample 0 700 1 1 20; mkSample 1 2000 2 1 50]
             (emptyBuckets defaultConfig) rpmCuts [14; 33; 41; 97].

Definition someTable : list (list (option float)) :=
  [ [None; Some 646.5; Some 240.5];
    [Some 558; Some 201; Some 288.5];
    [Some 282.5; Some 159; Some 269] ].

Lemma bucket_access_in_range_witness :
  (forall value boundaries,
      getBucketIndex defaultConfig value boundaries = (-1)%Z
      \/ (0 <= getBucketIndex defaultConfig value boundaries < 3)%Z)
  /\ (exists a', assignToBuckets freshAnalyzer = Some a'
                 /\ grid_shape 3 (buckets a'))
  /\ (forall point,
         let r := getBucketIndex defaultConfig (rpm point) rpmCuts in
         let l := getBucketIndex defaultConfig (load point) [14; 33; 41; 97] in
         r <> (-1)%Z -> l <> (-1)%Z ->
         (estimateAt someTable r l = Null
          \/ exists ms, estimateAt someTable r l = Delay ms)
         /\ visitLinear freshAnalyzer someTable point <> Thrown).
Proof.
  apply (@bucket_access_in_range float _ freshAnalyzer someTable).
  - split; [reflexivity | repeat constructor].
  - split; [reflexivity | repeat constructor].
Defined.

(** Three samples half a second apart; 0.25 is midway between the first
    two timestamps. *)
Definition halfSecondSamples : list (Sample float) :=
  [ mkSample 0 1000 2 1 30; mkSample 0.5 1000 2 1 30; mkSample 1 1000 2 1 30 ].

(** C3 as stated fails: the timestamps increase strictly, both variants
    accept the target, and the linear scan keeps index 0 while the binary
    search returns index 1. *)
Lemma tie_breaks_differ :
  strictly_increasing halfSecondSamples
  /\ closestLinear halfSecondSamples 0.25 = (0%Z, Finite 0.25)
  /\ foundLinear halfSecondSamples 0.25 = true
  /\ findClosestIndex (map time halfSecondSamples) 0.25 = Some 1%Z
  /\ ~ (forall r, findClosestIndex (map time halfSecondSamples) 0.25 = Some r ->
                  r = fst (closestLinear halfSecondSamples 0.25)).
Proof.
  split; [unfold halfSecondSamples; repeat constructor|].
  repeat split; try reflexivity.
  intros Hall. specialize (Hall 1%Z eq_refl). discriminate Hall.
Qed.

(** The amended C3 on the same store, for a target nearer to the second
    timestamp than to the first. *)
Lemma search_variants_agree_witness :
  exists r,
    findClosestIndex (map time halfSecondSamples) 0.375 = Some r
    /\ (foundLinear halfSecondSamples 0.375 = true <-> r <> (-1)%Z)
    /\ (r <> (-1)%Z ->
        exists sB sL,
          at_index halfSecondSamples r = Some sB
          /\ at_index halfSecondSamples
               (fst (closestLinear halfSecondSamples 0.375)) = Some sL
          /\ nearest halfSecondSamples 0.375 sB
          /\ nearest halfSecondSamples 0.375 sL
          /\ (distance 0.375 sL === distance 0.375 sB)%num = true
          /\ (distance 0.375 sB <? half)%num = true
          /\ ((forall s s', nearest halfSecondSamples 0.375 s ->
                            nearest halfSecondSamples 0.375 s' -> s = s')
              -> fst (closestLinear halfSecondSamples 0.375) = r)).
Proof.
  exact (@search_variants_agree float _ _ _ halfSecondSamples 0.375
           ltac:(unfold halfSecondSamples; repeat constructor)
           ltac:(unfold halfSecondSamples; repeat constructor)).
Defined.

(** Why the distances are taken finite: for a target that is NaN the scan
    rejects every sample, and the binary search returns the index it
    probes first. *)
Lemma nan_target_differs :
  foundLinear halfSecondSamples nan = false
  /\ findClosestIndex (map time halfSecondSamples) nan = Some 1%Z.
Proof. split; reflexivity. Qed.

(** A table built from two measured buckets. *)
Definition measuredAnalyzer : Analyzer float :=
  mkAnalyzer defaultConfig []
             [ [mkBucket [] []; mkBucket [] []; mkBucket [] [640; 653]];
               [mkBucket [] []; mkBucket [] [558]; mkBucket [] []];
               [mkBucket [] []; mkBucket [] []; mkBucket [] []] ]
             rpmCuts [14; 33; 41; 97].


(** The table of [measuredAnalyzer], as [generateTable] prints it. *)
Lemma measured_table :
  generateTable measuredAnalyzer
  = Some (mkTable [Some 1006; Some 1655; Some 3124] [Some 24; Some 37; Some 69]
            [ mkRow (Some 1006) [Some 24; Some 37; Some 69] [None; None; Some 646.5];
              mkRow (Some 1655) [Some 24; Some 37; Some 69] [None; Some 558; None];
              mkRow (Some 3124) [Some 24; Some 37; Some 69] [None; None; None] ]).
Proof. reflexivity. Qed.

(** Three sessions whose tables hold the medians 90, 100 and 110 for
    bucket [(0, 0)] and nothing else. *)
Definition sessionWith (m : float) : list (list (Cell float)) :=
  [ [mkCell (Some m) 12; mkCell None 0; mkCell None 0];
    [mkCell None 0; mkCell None 0; mkCell None 0];
    [mkCell None 0; mkCell None 0; mkCell None 0] ].

Definition threeSessions : list (list (list (Cell float))) :=
  [sessionWith 90; sessionWith 100; sessionWith 110].

Lemma cross_session_stats_witness :
  exists bucketStats,
    bucketStatsOf threeSessions = Some bucketStats
    /\ (forall i j, (i < 3)%nat -> (j < 3)%nat ->
          let vs := contributions threeSessions i j in
          ((length vs < 2)%nat -> statsLookup bucketStats i j = None)
          /\ ((2 <= length vs)%nat ->
              exists st v0 rest,
                statsLookup bucketStats i j = Some st
                /\ vs = v0 :: rest
                /\ values st = vs /\ filesWithData st = length vs
                /\ mean st = (sum vs / len vs)%num
                /\ stdDev st = Math_sqrt (sumSquares (mean st) vs / len vs)%num
                /\ cv st = ((stdDev st / mean st) * of_Z 100)%num
                /\ min st = fold_left Math_min rest v0
                /\ max st = fold_left Math_max rest v0
                /\ range st = (max st - min st)%num))
    /\ (exists st : BucketStats float,
           bucketStat 0 0 [90; 100; 110] = Some st
           /\ mean st = 100
           /\ PrimFloat.ltb 8.1645 (stdDev st) = true
           /\ PrimFloat.ltb (stdDev st) 8.1655 = true
           /\ PrimFloat.ltb 8.16 (cv st) = true
           /\ PrimFloat.ltb (cv st) 8.17 = true
           /\ min st = 90 /\ max st = 110 /\ range st = 20)
    /\ (varianceOf [90; 100; 110] == 200 # 3)%Q.
Proof.
  exact (@cross_session_stats float _ _ threeSessions
           ltac:(repeat constructor)).
Defined.

(** Twelve samples a tenth of a second apart, all in bucket [(1, 1)]. *)
Definition steadySamples : list (Sample float) :=
  map (fun k => mkSample (PrimFloat.div (F64.of_Z k) 8) 1500 2
                         (PrimFloat.add 1 (PrimFloat.div (F64.of_Z (k mod 3)) 64)) 35)
      [0; 1; 2; 3; 4; 5; 6; 7; 8; 9; 10; 11]%Z.

Definition steadyAnalyzer : Analyzer float :=
  mkAnalyzer defaultConfig steadySamples (emptyBuckets defaultConfig)
             rpmCuts [14; 33; 41; 97].

Lemma validator_point_witness :
  exists report,
    calculateLambdaErrors steadyAnalyzer someTable = Some report
    /\ (forall key,
           errorsAt key (bucketErrors report)
           = accuracyList steadyAnalyzer someTable key)
    /\ (forall key,
           errorsAt key (bucketErrors report)
           = recordedAt (visitLinear steadyAnalyzer someTable) key steadySamples)
    /\ forall point,
         let r := getBucketIndex defaultConfig (rpm point) rpmCuts in
         let l := getBucketIndex defaultConfig (load point) [14; 33; 41; 97] in
         let visit := visitLinear steadyAnalyzer someTable point in
         ((r = (-1)%Z \/ l = (-1)%Z) -> visit = Skipped)
         /\ (r <> (-1)%Z -> l <> (-1)%Z ->
             (exists cell, delayCell someTable r l = Some cell)
             /\ (delayCell someTable r l = Some None -> visit = Skipped)
             /\ forall ms,
                 delayCell someTable r l = Some (Some ms) ->
                 let targetTime := (time point - ms / of_Z 1000)%num in
                 let close :=
                   exists s, nearest steadySamples targetTime s
                             /\ (distance targetTime s <? half)%num = true in
                 (close -> visit = Recorded (r, l) (lambda point))
                 /\ (~ close -> visit = Skipped)).
Proof.
  exact (@validator_point float _ _ _ steadyAnalyzer someTable
           ltac:(split; [reflexivity | repeat constructor])).
Defined.

(** Three samples two seconds apart, all in bucket [(1, 0)], whose delay in
    [someTable] is 558 ms: each target time is 0.558 s from the nearest
    sample. *)
Definition sparseSamples : list (Sample float) :=
  [ mkSample 0 1500 2 1 20; mkSample 2 1500 2 1.01 20; mkSample 4 1500 2 0.99 20 ].

Definition sparseAnalyzer : Analyzer float :=
  mkAnalyzer defaultConfig sparseSamples (emptyBuckets defaultConfig)
             rpmCuts [14; 33; 41; 97].

(** On the steady store bucket [(1, 1)] counts; on the sparse store every
    nearest sample is too far and the report is empty. *)
Lemma validator_report_witness :
  (exists report,
      calculateLambdaErrors steadyAnalyzer someTable = Some report
      /\ (forall key,
             errorsAt key (bucketErrors report)
             = accuracyList steadyAnalyzer someTable key)
      /\ let keys :=
           map fst (filter (fun e => (10 <=? length (snd e))%nat)
                           (bucketErrors report)) in
         let stdDevs :=
           map (fun key => populationStdDev (accuracyList steadyAnalyzer someTable key))
               keys in
         NoDup keys
         /\ (forall key,
                In key keys
                <-> (10 <= length (accuracyList steadyAnalyzer someTable key))%nat)
         /\ bucketsAnalyzed report = length keys
         /\ (keys <> [] -> avgStdDev report = average stdDevs)
         /\ (keys = [] -> avgStdDev report = of_Z 0 /\ bucketsAnalyzed report = 0%nat)
         /\ ((length steadySamples < 10)%nat ->
             avgStdDev report = of_Z 0 /\ bucketsAnalyzed report = 0%nat)
         /\ ((forall point ms,
                 In point steadySamples ->
                 delayCell someTable
                           (getBucketIndex defaultConfig (rpm point) rpmCuts)
                           (getBucketIndex defaultConfig (load point) [14; 33; 41; 97])
                 = Some (Some ms) ->
                 forall s, nearest steadySamples (time point - ms / of_Z 1000)%num s ->
                           (distance (time point - ms / of_Z 1000)%num s <? half)%num
                           = false)
             -> bucketErrors report = []
                /\ avgStdDev report = of_Z 0 /\ bucketsAnalyzed report = 0%nat))
  /\ (exists report,
         calculateLambdaErrors sparseAnalyzer someTable = Some report
         /\ bucketErrors report = []
         /\ avgStdDev report = of_Z 0 /\ bucketsAnalyzed report = 0%nat).
Proof.
  split.
  - exact (@validator_report float _ _ _ steadyAnalyzer someTable
             ltac:(split; [reflexivity | repeat constructor])).
  - destruct (@validator_report float _ _ _ sparseAnalyzer someTable
                ltac:(split; [reflexivity | repeat constructor]))
      as (report & Hrun & _ & Hstats).
    cbv zeta in Hstats. destruct Hstats as (_ & _ & _ & _ & _ & _ & Hfar).
    exists report. split; [exact Hrun|]. apply Hfar.
    intros point ms Hin Hcell s Hs.
    destruct (distance (time point - ms / of_Z 1000)%num s <? half)%num eqn:Eh;
      [exfalso | reflexivity].
    assert (Hnear : nearestWithin sparseSamples (time point - ms / of_Z 1000)%num = true)
      by (apply nearestWithin_nearest; exists s; split; [exact Hs | exact Eh]).
    destruct Hin as [<-|[<-|[<-|[]]]];
      vm_compute in Hcell; injection Hcell as <-;
      vm_compute in Hnear; discriminate Hnear.
Defined.

(** The accuracy lists of the two runs as the store and the table determine
    them: all twelve lambdas of the steady store in bucket [(1, 1)], none
    of the sparse store in bucket [(1, 0)]. *)
Lemma steady_accuracy :
  accuracyList steadyAnalyzer someTable (1, 1)%Z = map (@lambda float) steadySamples
  /\ delayCell someTable 1 1 = Some (Some 201%float)
  /\ accuracyList sparseAnalyzer someTable (1, 0)%Z = []
  /\ delayCell someTable 1 0 = Some (Some 558%float)
  /\ delayCell someTable 0 0 = Some None.
Proof. repeat split; reflexivity. Qed.

(** The report of the steady run: one bucket with twelve lambdas. *)
Lemma steady_report :
  option_map (fun r => (bucketsAnalyzed r, map (fun e => (fst e, length (snd e))) (bucketErrors r)))
             (calculateLambdaErrors steadyAnalyzer someTable)
  = Some (1%nat, [((1, 1)%Z, 12%nat)]).
Proof. reflexivity. Qed.

(** Three finite delays in two orders have the same median. *)
Lemma median_spec_witness :
  sameResult (median [300; 100; 200]) (median [100; 200; 300]).
Proof.
  apply (proj1 (proj2 (@median_spec float _ _ _))).
  - repeat constructor.
  - apply (Permutation_cons_append [100; 200] 300).
Defined.

(** The two validators on the steady store. *)
Lemma validators_agree_witness :
  calculateLambdaErrorsParallel steadyAnalyzer someTable
  = calculateLambdaErrors steadyAnalyzer someTable.
Proof.
  apply (@validators_agree float _ _ _ _ steadyAnalyzer someTable).
  - split; [reflexivity | repeat constructor].
  - unfold steadyAnalyzer, steadySamples. simpl. repeat constructor.
  - intros point r l ms Hin Hms. vm_compute in Hin.
    assert (Hcell : In ms [646.5; 240.5; 558; 201; 288.5; 282.5; 159; 269]).
    { unfold estimateAt, at_index in Hms.
      destruct (r <? 0)%Z; [discriminate|].
      destruct (Z.to_nat r) as [|[|[|[|]]]]; simpl in Hms; try discriminate;
        destruct (l <? 0)%Z; try discriminate;
        destruct (Z.to_nat l) as [|[|[|[|]]]]; simpl in Hms; try discriminate;
        injection Hms as <-; simpl; tauto. }
    simpl in Hcell.
    repeat (destruct Hin as [<-|Hin]; [
      repeat (destruct Hcell as [<-|Hcell]; [vm_compute; repeat constructor|]);
      contradiction |]).
    contradiction.
Defined.


(** The step samples in reverse order: the detector sorts them first. *)
Lemma detector_sorts_input_witness :
  exists sorted,
    Permutation (rev stepSamples) sorted /\ time_sorted sorted
    /\ findDelaysInSequence defaultConfig (rev stepSamples)
       = findDelaysInSequence defaultConfig sorted
    /\ forall td, In td (findDelaysInSequence defaultConfig (rev stepSamples)) ->
                  (td <=? 2000) = true /\ (0 <=? td) = true.
Proof.
  refine (detector_sorts_input (num := float) defaultConfig (samples := rev stepSamples) _).
  vm_compute. repeat constructor.
Defined.

Lemma detector_order_independent_witness :
  findDelaysInSequence defaultConfig stepSamples
  = findDelaysInSequence defaultConfig (rev stepSamples).
Proof.
  refine (detector_order_independent (num := float) defaultConfig
            (samples := stepSamples) (samples' := rev stepSamples) _ _ _).
  - vm_compute. repeat constructor.
  - intros a b Ha Hb. simpl in Ha, Hb.
    repeat (destruct Ha as [<-|Ha]; [
      repeat (destruct Hb as [<-|Hb];
              [vm_compute; intros E; (reflexivity || discriminate E)|]);
      contradiction |]).
    contradiction.
  - apply Permutation_rev.
Defined.

Lemma assignToBuckets_partition_witness :
  exists a',
    assignToBuckets freshAnalyzer = Some a'
    /\ data a' = data freshAnalyzer /\ config a' = defaultConfig
    /\ rpmBoundaries a' = rpmCuts /\ loadBoundaries a' = [14; 33; 41; 97]
    /\ grid_shape 3 (buckets a')
    /\ forall i j, (i < 3)%nat -> (j < 3)%nat ->
         exists b b',
           bucketAt (buckets freshAnalyzer) i j = Some b
           /\ bucketAt (buckets a') i j = Some b'
           /\ bucket_data b'
              = bucket_data b
                ++ filter (landsIn defaultConfig rpmCuts [14; 33; 41; 97] i j)
                          (data freshAnalyzer)
           /\ bucket_delays b' = bucket_delays b.
Proof.
  refine (assignToBuckets_partition (num := float) freshAnalyzer _).
  split; [reflexivity | repeat constructor].
Defined.

(** A drive of fourteen samples, eight per second: two at low RPM, then
    twelve at 2000 RPM with a pulsewidth step at 0.625 s and the drop of
    lambda that answers it 0.25 s later. *)
Definition driveSamples : list (Sample float) :=
  map (fun k => mkSample (PrimFloat.div (F64.of_Z k) 8)
                         (if (k <? 2)%Z then 1000 else 2000)
                         (if (k <? 5)%Z then 1 else 2)
                         (if (k <? 7)%Z then 1 else 0.75) 30)
      [0; 1; 2; 3; 4; 5; 6; 7; 8; 9; 10; 11; 12; 13]%Z.

(** The drive once its samples are in their buckets. *)
Definition driveAssigned : Analyzer float :=
  mkAnalyzer defaultConfig driveSamples
             [ [mkBucket [] []; mkBucket [] []; mkBucket (firstn 2 driveSamples) []];
               [mkBucket [] []; mkBucket [] []; mkBucket [] []];
               [mkBucket [] []; mkBucket [] []; mkBucket (skipn 2 driveSamples) []] ]
             [1000; 2000; 2000; 2000] [30; 30; 30; 30].

Lemma calculateDelays_buckets_witness :
  exists a',
    calculateDelays driveAssigned = Some a'
    /\ data a' = driveSamples /\ config a' = defaultConfig
    /\ rpmBoundaries a' = [1000; 2000; 2000; 2000]
    /\ loadBoundaries a' = [30; 30; 30; 30]
    /\ grid_shape 3 (buckets a')
    /\ forall i j, (i < 3)%nat -> (j < 3)%nat ->
         exists b b',
           bucketAt (buckets driveAssigned) i j = Some b
           /\ bucketAt (buckets a') i j = Some b'
           /\ Permutation (bucket_data b) (bucket_data b')
           /\ ((length (bucket_data b) < 10)%nat -> b' = b)
           /\ ((10 <= length (bucket_data b))%nat ->
               bucket_data b' = sort byTime (bucket_data b)
               /\ bucket_delays b' = findDelaysInSequence defaultConfig (bucket_data b)).
Proof.
  refine (calculateDelays_buckets (num := float) driveAssigned _).
  split; [reflexivity | repeat constructor].
Defined.

(** The buckets of the drive after [calculateDelays]: one delay of 250 ms,
    in the bucket of the twelve samples. *)
Lemma drive_delays :
  option_map (fun a => map (map (fun b => (length (bucket_data b), bucket_delays b)))
                           (buckets a))
             (calculateDelays driveAssigned)
  = Some [ [(0%nat, []); (0%nat, []); (2%nat, [])];
           [(0%nat, []); (0%nat, []); (0%nat, [])];
           [(0%nat, []); (0%nat, []); (12%nat, [250])] ].
Proof. reflexivity. Qed.

Lemma drive_numbers :
  Forall (fun s => number (rpm s) /\ number (load s)) driveSamples.
Proof. vm_compute. repeat constructor. Qed.

Lemma boundaries_of_samples_witness :
  (driveSamples = [] -> calculateBucketBoundaries (parsed defaultConfig driveSamples) = None)
  /\ (driveSamples <> [] ->
      exists a',
        calculateBucketBoundaries (parsed defaultConfig driveSamples) = Some a'
        /\ data a' = driveSamples /\ config a' = defaultConfig
        /\ buckets a' = emptyBuckets defaultConfig
        /\ axis_boundaries (map (@rpm float) driveSamples) (rpmBoundaries a')
        /\ axis_boundaries (map (@load float) driveSamples) (loadBoundaries a')).
Proof.
  refine (boundaries_of_samples (num := float) (parsed defaultConfig driveSamples) _ _).
  - exact drive_numbers.
  - reflexivity.
Defined.

Lemma every_sample_assigned_witness :
  exists a1 a2,
    calculateBucketBoundaries (parsed defaultConfig driveSamples) = Some a1
    /\ assignToBuckets a1 = Some a2
    /\ Forall (fun s =>
                 (0 <= getBucketIndex defaultConfig (rpm s) (rpmBoundaries a1) < 3)%Z
                 /\ (0 <= getBucketIndex defaultConfig (load s) (loadBoundaries a1) < 3)%Z)
              driveSamples
    /\ Permutation (population (buckets a2)) driveSamples.
Proof.
  refine (every_sample_assigned (num := float) defaultConfig (samples := driveSamples)
            _ _ _ _).
  - reflexivity.
  - exact drive_numbers.
  - discriminate.
  - reflexivity.
Defined.

Lemma analysis_table_witness :
  (driveSamples = [] -> analyzeParsed (parsed defaultConfig driveSamples) = None)
  /\ (driveSamples <> [] ->
      exists a table,
        analyzeParsed (parsed defaultConfig driveSamples) = Some (a, table)
        /\ data a = driveSamples
        /\ axis_boundaries (map (@rpm float) driveSamples) (rpmBoundaries a)
        /\ axis_boundaries (map (@load float) driveSamples) (loadBoundaries a)
        /\ forall i j, (i < 3)%nat -> (j < 3)%nat ->
             let members :=
               filter (landsIn defaultConfig (rpmBoundaries a) (loadBoundaries a) i j)
                      driveSamples in
             exists row,
               nth_error (rows table) i = Some row
               /\ nth_error (row_delays row) j
                  = Some (roundedDelay (median (measured defaultConfig members)))
               /\ (nth_error (row_delays row) j = Some None
                   <-> measured defaultConfig members = [])).
Proof.
  refine (analysis_table (num := float) defaultConfig (samples := driveSamples) _ _).
  - exact drive_numbers.
  - reflexivity.
Defined.

(** The table of the drive: 250 ms in the bucket of the twelve samples,
    [null] elsewhere. *)
Lemma drive_table :
  option_map (fun r => map (@row_delays float) (rows (snd r)))
             (analyzeParsed (parsed defaultConfig driveSamples))
  = Some [[None; None; None]; [None; None; None]; [None; None; Some 250]].
Proof. reflexivity. Qed.

(** The default thresholds and a pulsewidth threshold of 1.5 ms. *)
Definition strictConfig : Config float := mkConfig 500 1 1.5 0.05 2000 3.

Lemma stricter_thresholds_witness :
  (length (findDelaysInSequence strictConfig driveSamples)
   <= length (findDelaysInSequence defaultConfig driveSamples))%nat
  /\ (LAMBDA_CHANGE_THRESHOLD strictConfig = LAMBDA_CHANGE_THRESHOLD defaultConfig ->
      MAX_DELAY_MS strictConfig = MAX_DELAY_MS defaultConfig ->
      subsequence (findDelaysInSequence strictConfig driveSamples)
                  (findDelaysInSequence defaultConfig driveSamples)).
Proof.
  refine (stricter_thresholds (num := float) (cfg := defaultConfig) (cfg' := strictConfig)
            driveSamples _).
  repeat split; reflexivity.
Defined.

(** The step of 1 ms passes the default threshold, not the strict one. *)
Lemma strict_drive :
  findDelaysInSequence defaultConfig driveSamples = [250]
  /\ findDelaysInSequence strictConfig driveSamples = [].
Proof. split; reflexivity. Qed.

Lemma session_of_file_witness :
  (driveSamples = [] -> analyzeFile defaultConfig driveSamples = None)
  /\ (driveSamples <> [] ->
      exists result,
        analyzeFile defaultConfig driveSamples = Some result
        /\ dataPoints result = length driveSamples
        /\ grid_shape 3 (delayTable result)
        /\ (forall i j, (i < 3)%nat -> (j < 3)%nat ->
              let members :=
                filter (landsIn defaultConfig (session_rpmBoundaries result)
                                (session_loadBoundaries result) i j) driveSamples in
              exists c,
                cellAt (delayTable result) i j = Some c
                /\ cell_count c = length (measured defaultConfig members)
                /\ cell_median c = roundedDelay (median (measured defaultConfig members))
                /\ (cell_median c = None <-> cell_count c = 0%nat))
        /\ totalMeasurements result
           = list_sum (map (@cell_count float) (concat (delayTable result)))
        /\ (totalMeasurements result <= length driveSamples)%nat
        /\ (bucketsWithData result <= 9)%nat
        /\ (bucketsWithData result <= totalMeasurements result)%nat).
Proof.
  refine (session_of_file (num := float) defaultConfig (samples := driveSamples)
            _ _ _).
  - reflexivity.
  - exact drive_numbers.
  - reflexivity.
Defined.

(** Three log files, the second without a sample. *)
Definition driveFiles : list (list (Sample float)) :=
  [driveSamples; []; driveSamples].

Lemma meta_analysis_returns_witness :
  let allResults := allResultsOf defaultConfig driveFiles in
  let tables := map (fun e => delayTable (snd e)) allResults in
  exists masterTable crossValResults,
    metaAnalysis defaultConfig driveFiles = Some (masterTable, crossValResults)
    /\ map fst allResults
       = filter (fun samples => negb (length samples =? 0)%nat) driveFiles
    /\ length crossValResults = length allResults
    /\ Forall (grid_shape 3) tables
    /\ grid_shape 3 masterTable
    /\ forall i j, (i < 3)%nat -> (j < 3)%nat ->
         let vs := contributions tables i j in
         ((length vs < 2)%nat ->
          estimateAt masterTable (Z.of_nat i) (Z.of_nat j) = Null)
         /\ ((2 <= length vs)%nat ->
             estimateAt masterTable (Z.of_nat i) (Z.of_nat j)
             = Delay (round1 (meanOf vs))).
Proof.
  refine (meta_analysis_returns (num := float) defaultConfig (files := driveFiles)
            _ _).
  - reflexivity.
  - repeat (constructor; [split; [try exact drive_numbers; constructor | reflexivity]|]).
    constructor.
Defined.

(** The master table of the three files: the mean of the two medians of
    250 ms, and one pair of reports per session. *)
Lemma drive_master_table :
  option_map (fun r => (fst r, length (snd r))) (metaAnalysis defaultConfig driveFiles)
  = Some ([[None; None; None]; [None; None; None]; [None; None; Some 250]], 2%nat).
Proof. reflexivity. Qed.

(** Four buckets per axis, and two.  Of six values with the boundaries 1,
    3, 5 and 6, the greatest gets no bucket either way. *)
Definition fourConfig : Config float := mkConfig 500 1 0.5 0.05 2000 4.

Definition twoConfig : Config float := mkConfig 500 1 0.5 0.05 2000 2.

Lemma six_values : boundariesOf [4; 1; 6; 3; 5; 2] = Some [1; 3; 5; 6].
Proof. reflexivity. Qed.

Lemma six_boundaries : axis_boundaries [4; 1; 6; 3; 5; 2] [1; 3; 5; 6].
Proof.
  exists 1, 3, 5, 6. split; [reflexivity|].
  split; [repeat constructor|]. split.
  - intros x Hx. simpl in Hx. simpl. tauto.
  - repeat constructor.
Qed.

Lemma other_counts_lose_samples_witness :
  getBucketIndex fourConfig 6 [1; 3; 5; 6] = (-1)%Z
  /\ getBucketIndex twoConfig 6 [1; 3; 5; 6] = (-1)%Z.
Proof.
  split.
  - refine (proj1 (other_counts_lose_samples (num := float) fourConfig
                     (values := [4; 1; 6; 3; 5; 2]) (boundaries := [1; 3; 5; 6]) 6
                     _ six_boundaries _) _ _).
    + repeat constructor.
    + simpl. tauto.
    + vm_compute. lia.
    + repeat constructor.
  - refine (proj2 (other_counts_lose_samples (num := float) twoConfig
                     (values := [4; 1; 6; 3; 5; 2]) (boundaries := [1; 3; 5; 6]) 6
                     _ six_boundaries _) _ _).
    + repeat constructor.
    + simpl. tauto.
    + vm_compute. lia.
    + exists 5. split; reflexivity.
Defined.

Lemma stricter_session_witness :
  exists result result',
    analyzeFile defaultConfig driveSamples = Some result
    /\ analyzeFile strictConfig driveSamples = Some result'
    /\ session_rpmBoundaries result' = session_rpmBoundaries result
    /\ session_loadBoundaries result' = session_loadBoundaries result
    /\ (forall i j, (i < 3)%nat -> (j < 3)%nat ->
          exists c c',
            cellAt (delayTable result) i j = Some c
            /\ cellAt (delayTable result') i j = Some c'
            /\ (cell_count c' <= cell_count c)%nat)
    /\ (totalMeasurements result' <= totalMeasurements result)%nat
    /\ (bucketsWithData result' <= bucketsWithData result)%nat.
Proof.
  refine (stricter_session (num := float) (cfg := defaultConfig) (cfg' := strictConfig)
            (samples := driveSamples) _ _ _ _ _ _).
  - repeat split; reflexivity.
  - reflexivity.
  - reflexivity.
  - exact drive_numbers.
  - reflexivity.
  - discriminate.
Defined.

(** The pool of the three files on two CPUs.  The worker of the empty
    file posts its error first, then the two others post their results. *)
Definition drivePool : Pool (list (Sample float)) (Session float) :=
  startPool driveFiles 2.

Definition drivePool1 : Pool (list (Sample float)) (Session float) :=
  onMessage driveFiles (analyzeFile defaultConfig) drivePool [driveSamples] [] [].

Definition drivePool2 : Pool (list (Sample float)) (Session float) :=
  onMessage driveFiles (analyzeFile defaultConfig) drivePool1 [] driveSamples [driveSamples].

Definition drivePool3 : Pool (list (Sample float)) (Session float) :=
  onMessage driveFiles (analyzeFile defaultConfig) drivePool2 [] driveSamples [].

Lemma drivePool1_reachable :
  poolReachable driveFiles 2 (analyzeFile defaultConfig) drivePool1.
Proof.
  apply (reachStep (p := drivePool)); [apply reachStart|].
  apply messageStep. reflexivity.
Qed.

Lemma drivePool3_reachable :
  poolReachable driveFiles 2 (analyzeFile defaultConfig) drivePool3.
Proof.
  apply (reachStep (p := drivePool2)).
  - apply (reachStep (p := drivePool1)); [apply drivePool1_reachable|].
    apply messageStep. reflexivity.
  - apply messageStep. reflexivity.
Qed.

Lemma pool_invariant_witness :
  exists finished,
    Permutation (finished ++ running drivePool1) (firstn (fileIndex drivePool1) driveFiles)
    /\ pool_results drivePool1 = successes (analyzeFile defaultConfig) finished
    /\ completed drivePool1 = length finished
    /\ activeWorkers drivePool1 = length (running drivePool1)
    /\ fileIndex drivePool1 = (completed drivePool1 + activeWorkers drivePool1)%nat
    /\ (fileIndex drivePool1 <= length driveFiles)%nat
    /\ (activeWorkers drivePool1 <= 2)%nat
    /\ ((activeWorkers drivePool1 < Nat.min 2 (length driveFiles))%nat ->
        fileIndex drivePool1 = length driveFiles).
Proof.
  exact (pool_invariant drivePool1_reachable).
Defined.

Lemma pool_resolves_witness :
  (forall p', poolStep driveFiles (analyzeFile defaultConfig) drivePool3 p' ->
              completed p' = S (completed drivePool3))
  /\ ((1 <= 2)%nat -> driveFiles <> [] -> resolved drivePool3 = None ->
      exists p', poolStep driveFiles (analyzeFile defaultConfig) drivePool3 p')
  /\ (forall results, resolved drivePool3 = Some results ->
        completed drivePool3 = length driveFiles /\ running drivePool3 = []
        /\ results = pool_results drivePool3
        /\ Permutation results (successes (analyzeFile defaultConfig) driveFiles))
  /\ (driveFiles = [] ->
      resolved drivePool3 = None
      /\ forall p', ~ poolStep driveFiles (analyzeFile defaultConfig) drivePool3 p').
Proof.
  exact (pool_resolves drivePool3_reachable).
Defined.

(** The pool after the three messages: resolved with the two sessions. *)
Lemma drive_pool_resolved :
  (completed drivePool3, activeWorkers drivePool3, fileIndex drivePool3,
   option_map (@length _) (resolved drivePool3))
  = (3%nat, 0%nat, 3%nat, Some 2%nat).
Proof. reflexivity. Qed.

(** The drive once its delays are measured. *)
Definition driveMeasured : Analyzer float :=
  match calculateDelays driveAssigned with
  | Some a => a
  | None => driveAssigned
  end.

Lemma calculateDelays_again_witness :
  calculateDelays driveMeasured = Some driveMeasured.
Proof.
  refine (calculateDelays_again (num := float) driveAssigned (a1 := driveMeasured)
            _ _ _).
  - split; [reflexivity | repeat constructor].
  - vm_compute. repeat constructor.
  - reflexivity.
Defined.

Lemma validate_delays_agrees_witness :
  exists delayTable errors report,
    medianTable driveMeasured = Some delayTable
    /\ validateAll (validatePoint driveMeasured delayTable) driveSamples [] = Some errors
    /\ validateDelays driveMeasured
       = Some (bucketResultsOf (bucketStatsOfErrors errors), length errors)
    /\ calculateLambdaErrors driveMeasured delayTable = Some report
    /\ lambdasOf (bucketStatsOfErrors errors) = bucketErrors report
    /\ map (@lambdaStdDev float) (bucketResultsOf (bucketStatsOfErrors errors))
       = stdDevsOf (bucketErrors report)
    /\ (length errors <= length driveSamples)%nat
    /\ Forall (fun err => exists point, In point driveSamples
                                        /\ entryOf driveSamples err point) errors.
Proof.
  refine (validate_delays_agrees (num := float) driveMeasured _ _).
  - reflexivity.
  - split; [reflexivity | repeat constructor].
Defined.

(** The validation of the drive: each of the twelve samples at 2000 RPM
    finds the sample 0.25 s before it; one bucket result, for twelve
    points. *)
Lemma drive_validation :
  option_map (fun r => (map (fun b => (result_bucket b, result_count b)) (fst r), snd r))
             (validateDelays driveMeasured)
  = Some ([((2, 2)%Z, 12%nat)], 12%nat).
Proof. reflexivity. Qed.
End Binary64Runs.
